(** * Bulk-load pipeline of neo4j-data-insert-browser

    A shallow embedding of the two streaming upload routes

    - [src/app/api/upload-node/route.ts]            (node mode)
    - the upload-relationship route (second half of [src/unnamed/part_003])

    Both routes are the body of [ReadableStream.start(controller)]: they
    parse every input file, open one driver and one session, write the
    rows group by group and batch by batch, and report to the caller by
    enqueueing newline-delimited JSON objects on the stream controller.

    The last part of the file embeds what surrounds the routes: the
    check-connection route and its request schema, the connection store,
    the submit handler of the connection form, and the stream reader of
    the upload page.

    Boundaries of the model.
    - CSV text is parsed by the papaparse library; an input file is given
      here by its name and by what [file.text()] followed by [Papa.parse]
      produces: a thrown value, or the header list ([meta.fields]) and the
      data rows.
    - A row ([Record<string, string>]) is an association list in key
      insertion order.
    - The graph database is a store double: an arbitrary deterministic
      state machine answering the driver operations the routes use,
      each of which may throw.  The pipeline records every driver call.
    - [session.executeWrite] is the driver's managed transaction: it runs
      the unit of work and commits, and runs the unit of work again after
      a failure the driver takes for a passing one.  Which failures these
      are, and how many re-runs the retry time leaves room for, belongs to
      the store double.  A failed attempt is rolled back by the driver and
      the server without an answer the route could see: the double
      accounts for it when it answers the failing call or the next one.
    - [Graph.store] answers as a Neo4j server does for the three
      statements of the routes.  Whether a text is Cypher is decided by
      [well_formed]: a label or a type must hold no backtick, a property
      key must be an ASCII name.
    - JavaScript numbers used as percents are exact rationals ([Q]), the
      rounding of IEEE doubles left out; the counters (row counts, created
      counts) are natural numbers.
    - The consumer only reads: it never cancels the stream. *)

From Stdlib Require Import List String Ascii Bool Arith Lia ZArith QArith Qround Lqa.
From Stdlib Require Import DecimalString Decimal.
Import ListNotations.

Close Scope Q_scope.
Local Open Scope string_scope.
Local Open Scope list_scope.

(* ------------------------------------------------------------------ *)
(** ** Strings *)

(** Template literals are concatenations; [+++] is string append. *)
Infix "+++" := String.append (right associativity, at level 60).

(** The double-quote character, used inside several messages. *)
Definition dq : string := String (ascii_of_nat 34) EmptyString.

(** [`${n}`] for a non-negative integer counter. *)
Definition show_nat (n : nat) : string := NilZero.string_of_uint (Nat.to_uint n).

(** [Array.prototype.join]. *)
Fixpoint join (sep : string) (xs : list string) : string :=
  match xs with
  | [] => ""
  | [x] => x
  | x :: rest => x +++ sep +++ join sep rest
  end.

(** [Array.prototype.includes] on an array of strings. *)
Definition includes (xs : list string) (x : string) : bool :=
  existsb (String.eqb x) xs.

(* ------------------------------------------------------------------ *)
(** ** Rows and parsed files *)

(** [Record<string, string>]: keys in insertion order. *)
Definition row : Type := list (string * string).

(** [row[key]]: [None] stands for [undefined]. *)
Fixpoint get (key : string) (r : row) : option string :=
  match r with
  | [] => None
  | (k, v) :: r' => if String.eqb key k then Some v else get key r'
  end.

(** [Object.keys(row)]. *)
Definition keys (r : row) : list string := map fst r.

(** [const { [key]: _, ...properties } = row]. *)
Definition omit (key : string) (r : row) : row :=
  filter (fun kv => negb (String.eqb key (fst kv))) r.

(** A value thrown by [file.text()], by the parser or by the driver:
    [error instanceof Error ? error.message : <fallback>]. *)
Inductive thrown : Type :=
| ErrorObj (message : string)
| NonError.

Definition message_or (fallback : string) (e : thrown) : string :=
  match e with
  | ErrorObj m => m
  | NonError => fallback
  end.

(** What papaparse returns for one file: [meta.fields] (possibly
    [undefined]) and [data]. *)
Record ParseResult : Type := mkParseResult {
  fields : option (list string);
  data : list row
}.

(** An uploaded file: its name and the outcome of reading and parsing it. *)
Record File : Type := mkFile {
  name : string;
  parse : thrown + ParseResult
}.

(** [ParsedCSVData] / [ParsedRelationshipData]. *)
Record ParsedData : Type := mkParsedData {
  fileName : string;
  headers : list string;
  rows : list row;
  rowCount : nat
}.

(** The three request headers [x-neo4j-url], [x-neo4j-username] and
    [x-neo4j-password]; [None] when a header is not sent. *)
Record Connection : Type := mkConnection {
  connectionUrl : option string;
  username : option string;
  password : option string
}.

(** The string held by a header that was sent. *)
Definition connection_text (s : option string) : string :=
  match s with
  | Some s => s
  | None => ""
  end.

(** JavaScript truthiness of a [string | null | undefined]. *)
Definition truthy (s : option string) : bool :=
  match s with
  | None => false
  | Some "" => false
  | Some _ => true
  end.

(* ------------------------------------------------------------------ *)
(** ** Events on the stream *)

(** One newline-delimited JSON object.
    - [Progress p m]      is [{"progress": p, "message": m}];
    - [ErrorEvent m d]    is [{"error": {"error": {"message": m, "details": d}}}];
    - [DataEvent f t m]   is
      [{"data": {"success": true, "processedFiles": f, "totalRows": t, "message": m}}]. *)
Inductive event : Type :=
| Progress (progress : Q) (message : string)
| ErrorEvent (message : string) (details : option (list string))
| DataEvent (processedFiles totalRows : nat) (message : string).

Definition is_terminal (e : event) : bool :=
  match e with
  | Progress _ _ => false
  | _ => true
  end.

Definition is_success (e : event) : bool :=
  match e with
  | DataEvent _ _ _ => true
  | _ => false
  end.

(** The percents of the progress events of a stream, in emission order. *)
Fixpoint percents (es : list event) : list Q :=
  match es with
  | [] => []
  | Progress p _ :: es' => p :: percents es'
  | _ :: es' => percents es'
  end.

Definition terminals (es : list event) : list event := filter is_terminal es.

(** [Math.round] on an exact rational. *)
Definition Math_round (x : Q) : Z := Qfloor (x + (1 # 2))%Q.

(** A percent is an integer. *)
Definition is_integer (q : Q) : Prop := (inject_Z (Qfloor q) == q)%Q.

(** A list of rationals is non-decreasing. *)
Fixpoint nondecreasing (qs : list Q) : Prop :=
  match qs with
  | [] => True
  | q :: rest =>
      match rest with
      | [] => True
      | q' :: _ => (q <= q')%Q /\ nondecreasing rest
      end
  end.

(* ------------------------------------------------------------------ *)
(** ** Cypher statements sent by the routes *)

(** [REQUIRED_COLUMNS] of the relationship route. *)
Definition REQUIRED_COLUMNS : list string :=
  ["TYPE"; "FROM_LABEL"; "FROM_ID"; "TO_LABEL"; "TO_ID"].

(** The three statements the routes build.  [query_text] below renders
    the text the source sends; the store double receives the statement
    together with the [$batch] parameter. *)
Inductive statement : Type :=
| CreateIndex
| CreateNodes (label : string)
| CreateRelationships (type : string) (propertyKeys : list string).

Definition nl : string := String (ascii_of_nat 10) EmptyString.

(** [propsObj] of the relationship route. *)
Definition propsObj (propertyKeys : list string) : string :=
  if (0 <? List.length propertyKeys)%nat
  then "{" +++ join ", " (map (fun key => key +++ ": row." +++ key) propertyKeys) +++ "}"
  else "{}".

Definition query_text (s : statement) : string :=
  match s with
  | CreateIndex =>
      nl +++ "                  CREATE INDEX IF NOT EXISTS FOR (n) ON (n.id)" +++ nl +++
      "                "
  | CreateNodes label =>
      nl +++ "                  UNWIND $batch AS row" +++ nl +++
      "                  CREATE (n:`" +++ label +++ "`)" +++ nl +++
      "                  SET n = row" +++ nl +++
      "                  RETURN count(n) as created" +++ nl +++
      "                "
  | CreateRelationships type propertyKeys =>
      nl +++ "                        UNWIND $batch AS row" +++ nl +++
      "                        MATCH (from {id: row.FROM_ID})" +++ nl +++
      "                        MATCH (to {id: row.TO_ID})" +++ nl +++
      "                        CREATE (from)-[r:`" +++ type +++ "` " +++ propsObj propertyKeys +++ "]->(to)" +++ nl +++
      "                        RETURN count(r) as created" +++ nl +++
      "                      "
  end.

(** The source pastes the label, the type and the property keys into the
    text as they come from the file, without escaping them.
    - A label or a type stands between backticks: a backtick inside it
      ends the quoted name early, and what follows is read as Cypher.
    - A property key stands bare, twice, in [{key: row.key}]: it has to be
      a name on its own, a letter or an underscore followed by letters,
      digits and underscores.  (Cypher also takes letters beyond ASCII in
      a bare name; a key holding any is counted here with the keys that
      cannot stand bare.)
    [well_formed s] tells whether the text of [s] is the statement the
    source means to send. *)
Definition backtick : ascii := ascii_of_nat 96.

Fixpoint contains (c : ascii) (s : string) : bool :=
  match s with
  | EmptyString => false
  | String c' s' => Ascii.eqb c c' || contains c s'
  end.

Fixpoint all_chars (p : ascii -> bool) (s : string) : bool :=
  match s with
  | EmptyString => true
  | String c s' => p c && all_chars p s'
  end.

Definition quotable (name : string) : bool := negb (contains backtick name).

Definition name_start (c : ascii) : bool :=
  let n := nat_of_ascii c in
  ((65 <=? n) && (n <=? 90) || (97 <=? n) && (n <=? 122) || (n =? 95))%nat.

Definition name_part (c : ascii) : bool :=
  let n := nat_of_ascii c in
  (name_start c || (48 <=? n) && (n <=? 57))%nat.

Definition bare (key : string) : bool :=
  match key with
  | EmptyString => false
  | String c rest => name_start c && all_chars name_part rest
  end.

Definition well_formed (s : statement) : bool :=
  match s with
  | CreateIndex => true
  | CreateNodes label => quotable label
  | CreateRelationships type propertyKeys => quotable type && forallb bare propertyKeys
  end.

(* ------------------------------------------------------------------ *)
(** ** The store double *)

(** The driver operations the routes perform, in the order of the
    source:
    - [Driver url user pass] is [neo4j.driver(url, neo4j.auth.basic(user, pass))];
    - [Session]      is [driver.session()];
    - [SessionRun s] is [session.run(text)] (the index statement);
    - [TxRun s b]    is [tx.run(query, { batch })] inside the unit of work
      given to [session.executeWrite];
    - [TxCommit]     is the commit [session.executeWrite] performs when the
      unit of work returns;
    - [SessionClose] and [DriverClose] are the two [close()] calls. *)
Inductive call : Type :=
| Driver (url user pass : string)
| Session
| SessionRun (s : statement)
| TxRun (s : statement) (batch : list row)
| TxCommit
| SessionClose
| DriverClose.

(** What a call answered: a thrown value, or a result whose
    [records[0]?.get("created")] is [Some n] or missing. *)
Definition answer : Type := (thrown + option nat)%type.

(** A store double is any deterministic machine answering the calls,
    together with the retry policy of its driver: [retryable e] tells
    whether the driver takes the failure [e] of a managed transaction for
    a passing one (its [isRetryableError]: lost connections, expired
    sessions, transient errors of the server), and [patience] how many
    times the retry time ([maxTransactionRetryTime], 30 seconds unless
    configured) lets it run a unit of work again. *)
Record StoreDouble : Type := mkStoreDouble {
  St : Type;
  respond : call -> St -> answer * St;
  retryable : thrown -> bool;
  patience : nat
}.

(** [result.records[0]?.get("created").toNumber() || 0]. *)
Definition created_of (result : option nat) : nat :=
  match result with
  | Some n => n
  | None => 0
  end.

(** [rows.slice(i, j)] for [0 <= i <= j]. *)
Definition slice {A : Type} (i j : nat) (xs : list A) : list A :=
  firstn (j - i) (skipn i xs).

(** [Map<string, Record<string, string>[]>]: entries in key insertion
    order.  [map_push k v m] is
    [if (!m.has(k)) m.set(k, []); m.get(k)!.push(v)]. *)
Definition RowMap : Type := list (string * list row).

Fixpoint map_push (k : string) (v : row) (m : RowMap) : RowMap :=
  match m with
  | [] => [(k, [v])]
  | (k', vs) :: m' =>
      if String.eqb k k' then (k', vs ++ [v]) :: m'
      else (k', vs) :: map_push k v m'
  end.

(** The grouping loop of the node route: rows without a truthy [LABEL]
    are skipped, the others are pushed without their [LABEL] entry. *)
Definition rowsByLabel (rows : list row) : RowMap :=
  fold_left
    (fun m row =>
       let label := get "LABEL" row in
       if negb (truthy label) then m
       else match label with
            | Some label => map_push label (omit "LABEL" row) m
            | None => m
            end)
    rows [].

(** The grouping loop of the relationship route: rows without a truthy
    [TYPE] are skipped, the others are pushed whole. *)
Definition rowsByType (rows : list row) : RowMap :=
  fold_left
    (fun m row =>
       let type := get "TYPE" row in
       if negb (truthy type) then m
       else match type with
            | Some type => map_push type row m
            | None => m
            end)
    rows [].

(** [Object.keys(sampleRow).filter((key) => !REQUIRED_COLUMNS.includes(key))]. *)
Definition propertyKeys (sampleRow : row) : list string :=
  filter (fun key => negb (includes REQUIRED_COLUMNS key)) (keys sampleRow).

(** The two fixed batch sizes. *)
Definition nodeBatchSize : nat := 1000.
Definition relationshipBatchSize : nat := 5000.

(** The percent sent before parsing file [fileIndex] of [n]:
    [5 + (fileIndex / files.length) * 10]. *)
Definition parsing_percent (fileIndex n : nat) : Q :=
  (5 + (inject_Z (Z.of_nat fileIndex) / inject_Z (Z.of_nat n)) * 10)%Q.

(** The percent sent after a relationship batch:
    [Math.round(30 + (processedRows / totalRows) * 65)]. *)
Definition writing_percent (processedRows totalRows : nat) : Q :=
  inject_Z (Math_round
    (30 + (inject_Z (Z.of_nat processedRows) / inject_Z (Z.of_nat totalRows)) * 65)%Q).

(** The local variables of [start] that closures and [finally] blocks
    share.  [driver] is [true] once the variable holds a driver object;
    [totalCreated] is named [totalInserted] in the node route. *)
Record locals : Type := mkLocals {
  parsedFiles : list ParsedData;
  totalRows : nat;
  driver : bool;
  totalCreated : nat;
  processedRows : nat
}.

Definition no_locals : locals := mkLocals [] 0 false 0 0.

Section Pipeline.

Variable D : StoreDouble.

(** The state a run threads: the stream controller ([closed], and the
    [queue] of objects enqueued so far, oldest first), the store, the log
    of driver calls with their answers, and the local variables. *)
Record world : Type := mkWorld {
  closed : bool;
  queue : list event;
  db : St D;
  calls : list (call * answer);
  vars : locals
}.

(** How a statement sequence completes: normally with a value, by the
    [return] of [start], or by throwing. *)
Inductive outcome (A : Type) : Type :=
| Normal (a : A)
| Return
| Throw (e : thrown).
Arguments Normal {A} a.
Arguments Return {A}.
Arguments Throw {A} e.

Definition M (A : Type) : Type := world -> outcome A * world.

Definition ret {A : Type} (a : A) : M A := fun w => (Normal a, w).

Definition bind {A B : Type} (m : M A) (f : A -> M B) : M B :=
  fun w =>
    match m w with
    | (Normal a, w') => f a w'
    | (Return, w') => (Return, w')
    | (Throw e, w') => (Throw e, w')
    end.

Definition throw {A : Type} (e : thrown) : M A := fun w => (Throw e, w).

(** [return;] *)
Definition early_return {A : Type} : M A := fun w => (Return, w).

(** [try { m } catch (e) { h e }] *)
Definition try_catch {A : Type} (m : M A) (h : thrown -> M A) : M A :=
  fun w =>
    match m w with
    | (Throw e, w') => h e w'
    | r => r
    end.

(** [try { m } finally { f }]: the completion of [m] is kept unless [f]
    itself returns or throws. *)
Definition try_finally {A : Type} (m : M A) (f : M unit) : M A :=
  fun w =>
    let (r, w') := m w in
    match f w' with
    | (Normal _, w'') => (r, w'')
    | (Return, w'') => (Return, w'')
    | (Throw e, w'') => (Throw e, w'')
    end.

End Pipeline.

Arguments mkWorld {D}.
Arguments closed {D}.
Arguments queue {D}.
Arguments db {D}.
Arguments calls {D}.
Arguments vars {D}.
Arguments Normal {A} a.
Arguments Return {A}.
Arguments Throw {A} e.
Arguments ret {D A}.
Arguments bind {D A B}.
Arguments throw {D A}.
Arguments early_return {D A}.
Arguments try_catch {D A}.
Arguments try_finally {D A}.

Declare Scope js_scope.
Delimit Scope js_scope with js.
Notation "x <- m ;; k" := (bind m (fun x => k))
  (at level 100, m at next level, right associativity) : js_scope.
Notation "m ;; k" := (bind m (fun _ => k))
  (at level 100, right associativity) : js_scope.
Local Open Scope js_scope.

Section Primitives.

Context {D : StoreDouble}.

(** [controller.enqueue(encoder.encode(JSON.stringify(ev) + "\n"))]:
    enqueueing on a closed controller throws a [TypeError]. *)
Definition enqueue (ev : event) : M D unit :=
  fun w =>
    if closed w
    then (Throw (ErrorObj "Invalid state: Controller is already closed"), w)
    else (Normal tt, mkWorld (closed w) (queue w ++ [ev]) (db w) (calls w) (vars w)).

(** [controller.close()]: closing twice throws a [TypeError]. *)
Definition close : M D unit :=
  fun w =>
    if closed w
    then (Throw (ErrorObj "Invalid state: Controller is already closed"), w)
    else (Normal tt, mkWorld true (queue w) (db w) (calls w) (vars w)).

(** [sendProgress(progress, message)]. *)
Definition sendProgress (progress : Q) (message : string) : M D unit :=
  enqueue (Progress progress message).

(** A driver call: it is logged with its answer, and throws what the
    store throws. *)
Definition perform (c : call) : M D (option nat) :=
  fun w =>
    let (a, s) := respond D c (db w) in
    let w' := mkWorld (closed w) (queue w) s (calls w ++ [(c, a)]) (vars w) in
    match a with
    | inl e => (Throw e, w')
    | inr result => (Normal result, w')
    end.

(** Reading and assigning the local variables. *)
Definition read {A : Type} (f : locals -> A) : M D A :=
  fun w => (Normal (f (vars w)), w).

Definition assign (f : locals -> locals) : M D unit :=
  fun w => (Normal tt, mkWorld (closed w) (queue w) (db w) (calls w) (f (vars w))).

(** [if (c) { m }] *)
Definition when (c : bool) (m : M D unit) : M D unit :=
  if c then m else ret tt.

(** [for (const x of xs) { body x }] *)
Fixpoint for_of {A : Type} (xs : list A) (body : A -> M D unit) : M D unit :=
  match xs with
  | [] => ret tt
  | x :: xs' => body x ;; for_of xs' body
  end.

(** [for (let i = start; i < xs.length; i++) { body i xs[i] }], given the
    elements from [start] on. *)
Fixpoint for_index {A : Type} (i : nat) (xs : list A) (body : nat -> A -> M D unit)
  : M D unit :=
  match xs with
  | [] => ret tt
  | x :: xs' => body i x ;; for_index (S i) xs' body
  end.

(** [for (let i = start; i < rows.length; i += batchSize)
       { body (rows.slice(i, i + batchSize)) }].
    [fuel] bounds the number of iterations; [List.length rows] is always
    enough when [batchSize] is positive (lemma [for_batches_fuel]). *)
Fixpoint for_batches_from (fuel i batchSize : nat) (rows : list row)
  (body : list row -> M D unit) : M D unit :=
  match fuel with
  | O => ret tt
  | S fuel' =>
      if (i <? List.length rows)%nat
      then body (slice i (i + batchSize) rows) ;;
           for_batches_from fuel' (i + batchSize) batchSize rows body
      else ret tt
  end.

Definition for_batches (batchSize : nat) (rows : list row)
  (body : list row -> M D unit) : M D unit :=
  for_batches_from (List.length rows) 0 batchSize rows body.

(** One attempt of a managed transaction: the unit of work, then the
    commit. *)
Definition transaction (work : M D unit) : M D unit :=
  work ;; perform TxCommit ;; ret tt.

(** The attempts of a managed transaction.  When an attempt fails, in the
    unit of work or at the commit, with a failure the driver takes for a
    passing one, and a re-run is left, the unit of work is run again from
    its first statement: what it assigned to the variables of [start] and
    what it enqueued on the stream stay as they are.  Any other failure is
    thrown to the caller. *)
Fixpoint retrying (retries : nat) (work : M D unit) : M D unit :=
  match retries with
  | O => transaction work
  | S retries' =>
      try_catch (transaction work)
        (fun error =>
           if retryable D error then retrying retries' work else throw error)
  end.

(** [await session.executeWrite(async (tx) => { work })]. *)
Definition executeWrite (work : M D unit) : M D unit :=
  retrying (patience D) work.

(** The error path shared by every failure:
    [controller.enqueue(... { error: errorResponse } ...); controller.close();]. *)
Definition fail_with (message : string) (details : option (list string)) : M D unit :=
  enqueue (ErrorEvent message details) ;; close.

(** The two checks both routes start with. *)
Definition validate_input (files : list File) (conn : Connection) : M D unit :=
  when (List.length files =? 0)%nat
    (fail_with "No files provided" None ;; early_return) ;;
  when (negb (truthy (connectionUrl conn)) || negb (truthy (username conn))
        || negb (truthy (password conn)))
    (fail_with "Neo4j connection information missing"
       (Some ["Please ensure you are connected to Neo4j"]) ;; early_return).

(** [parseResult.meta.fields || []]. *)
Definition headers_of (parseResult : ParseResult) : list string :=
  match fields parseResult with
  | Some f => f
  | None => []
  end.

(** [parsedFiles.push(parsedData); totalRows += parsedData.rowCount;]. *)
Definition push_parsed (file : File) (hs : list string) (parseResult : ParseResult)
  : M D unit :=
  let parsedData :=
    mkParsedData (name file) hs (data parseResult) (List.length (data parseResult)) in
  assign (fun v => mkLocals (parsedFiles v ++ [parsedData])
                     (totalRows v + rowCount parsedData)
                     (driver v) (totalCreated v) (processedRows v)).

(** The [catch (fileError)] block of the parsing loop. *)
Definition on_file_error (file : File) (fileError : thrown) : M D unit :=
  fail_with ("Failed to parse file: " +++ name file)
    (Some [message_or "Unknown error occurred" fileError]) ;;
  early_return.

(** Reading and parsing one file: [await file.text()] and [Papa.parse]. *)
Definition read_and_parse (file : File) : M D ParseResult :=
  match parse file with
  | inl e => throw e
  | inr parseResult => ret parseResult
  end.

(** The headerless-file error of both routes. *)
Definition fail_no_headers (file : File) : M D unit :=
  fail_with ("File " +++ dq +++ name file +++ dq +++ " has no headers")
    (Some ["The CSV file must have a header row with column names."]) ;;
  early_return.

(** Body of the parsing loop of the node route. *)
Definition parse_node_file (n fileIndex : nat) (file : File) : M D unit :=
  try_catch
    (sendProgress (parsing_percent fileIndex n) ("Parsing " +++ name file +++ "...") ;;
     parseResult <- read_and_parse file ;;
     let hs := headers_of parseResult in
     when (List.length hs =? 0)%nat (fail_no_headers file) ;;
     when (negb (includes hs "LABEL"))
       (fail_with
          ("File " +++ dq +++ name file +++ dq +++ " is missing required "
             +++ dq +++ "LABEL" +++ dq +++ " column")
          (Some ["The CSV file must have a column named " +++ dq +++ "LABEL" +++ dq
                   +++ " for the node type.";
                 "Found columns: " +++ join ", " hs]) ;;
        early_return) ;;
     push_parsed file hs parseResult)
    (on_file_error file).

(** Body of the parsing loop of the relationship route. *)
Definition parse_relationship_file (n fileIndex : nat) (file : File) : M D unit :=
  try_catch
    (sendProgress (parsing_percent fileIndex n) ("Parsing " +++ name file +++ "...") ;;
     parseResult <- read_and_parse file ;;
     let hs := headers_of parseResult in
     when (List.length hs =? 0)%nat (fail_no_headers file) ;;
     let missingColumns := filter (fun col => negb (includes hs col)) REQUIRED_COLUMNS in
     when (0 <? List.length missingColumns)%nat
       (fail_with
          ("File " +++ dq +++ name file +++ dq +++ " is missing required columns")
          (Some ["Required columns: " +++ join ", " REQUIRED_COLUMNS;
                 "Missing columns: " +++ join ", " missingColumns;
                 "Found columns: " +++ join ", " hs]) ;;
        early_return) ;;
     push_parsed file hs parseResult)
    (on_file_error file).

(** The parsing phase, up to [sendProgress(20, ...)]. *)
Definition parse_phase (body : nat -> nat -> File -> M D unit) (files : list File)
  : M D unit :=
  sendProgress 5 "Parsing CSV files..." ;;
  assign (fun v => mkLocals [] 0 (driver v) (totalCreated v) (processedRows v)) ;;
  for_index 0 files (body (List.length files)) ;;
  total <- read totalRows ;;
  sendProgress 15
    ("Parsed " +++ show_nat total +++ " rows from "
       +++ show_nat (List.length files) +++ " file(s)") ;;
  sendProgress 20 "Connecting to Neo4j...".

(** [driver = neo4j.driver(connectionUrl, neo4j.auth.basic(username, password));
     const session = driver.session();
     let totalInserted = 0; let processedRows = 0;]
    The three strings are known to be non-empty here. *)
Definition connect (conn : Connection) : M D unit :=
  perform (Driver (connection_text (connectionUrl conn))
             (connection_text (username conn))
             (connection_text (password conn))) ;;
  assign (fun v => mkLocals (parsedFiles v) (totalRows v) true
                     (totalCreated v) (processedRows v)) ;;
  perform Session ;;
  assign (fun v => mkLocals (parsedFiles v) (totalRows v) (driver v) 0 0).

(** [finally { if (driver) { await driver.close(); } }] *)
Definition close_driver : M D unit :=
  d <- read driver ;;
  when d (perform DriverClose ;; ret tt).

(** [finally { await session.close(); }] *)
Definition close_session : M D unit :=
  perform SessionClose ;; ret tt.

(** The unit of work of a node batch. *)
Definition write_node_batch (label : string) (batch : list row) : M D unit :=
  executeWrite
    (result <- perform (TxRun (CreateNodes label) batch) ;;
     let created := created_of result in
     assign (fun v => mkLocals (parsedFiles v) (totalRows v) (driver v)
                        (totalCreated v + created) (processedRows v))).

(** The writing loops of the node route. *)
Definition write_nodes : M D unit :=
  files <- read parsedFiles ;;
  for_of files (fun parsedFile =>
    for_of (rowsByLabel (rows parsedFile)) (fun entry =>
      let (label, rows) := entry in
      for_batches nodeBatchSize rows (write_node_batch label))).

(** The success tail of both routes: 95, 100, the summary, close. *)
Definition finish (summary : nat -> nat -> string) : M D unit :=
  sendProgress 95 "Finalizing..." ;;
  files <- read parsedFiles ;;
  total <- read totalCreated ;;
  sendProgress 100 "Upload complete!" ;;
  enqueue (DataEvent (List.length files) total (summary total (List.length files))) ;;
  close.

Definition node_summary (total files : nat) : string :=
  "Successfully inserted " +++ show_nat total +++ " nodes from "
    +++ show_nat files +++ " file(s)".

(** [start(controller)] of the node route. *)
Definition uploadNodes (files : list File) (conn : Connection) : M D unit :=
  try_catch
    (validate_input files conn ;;
     parse_phase parse_node_file files ;;
     assign (fun v => mkLocals (parsedFiles v) (totalRows v) false
                        (totalCreated v) (processedRows v)) ;;
     try_finally
       (try_catch
          (connect conn ;;
           try_finally
             (sendProgress 25 "Starting data insertion..." ;;
              write_nodes ;;
              finish node_summary)
             close_session)
          (fun neo4jError =>
             fail_with "Failed to insert data into Neo4j"
               (Some [message_or "Unknown Neo4j error" neo4jError])))
       close_driver)
    (fun error =>
       fail_with "Internal server error"
         (Some [message_or "Unknown error occurred" error])).

(** The unit of work of a relationship batch. *)
Definition write_relationship_batch (type : string) (batch : list row) : M D unit :=
  executeWrite
    (match batch with
     | [] => throw (ErrorObj "Cannot convert undefined or null to object")
     | sampleRow :: _ =>
         result <- perform (TxRun (CreateRelationships type (propertyKeys sampleRow)) batch) ;;
         let created := created_of result in
         assign (fun v => mkLocals (parsedFiles v) (totalRows v) (driver v)
                            (totalCreated v + created)
                            (processedRows v + List.length batch)) ;;
         processed <- read processedRows ;;
         total <- read totalRows ;;
         sendProgress (writing_percent processed total)
           ("Created " +++ show_nat processed +++ "/" +++ show_nat total
              +++ " relationships...")
     end).

(** The writing loops of the relationship route. *)
Definition write_relationships : M D unit :=
  files <- read parsedFiles ;;
  for_of files (fun parsedFile =>
    for_of (rowsByType (rows parsedFile)) (fun entry =>
      let (type, rows) := entry in
      for_batches relationshipBatchSize rows (write_relationship_batch type))).

(** The index step: its failure is caught and only logged. *)
Definition ensure_index : M D unit :=
  try_catch (perform (SessionRun CreateIndex) ;; ret tt) (fun indexError => ret tt).

Definition relationship_summary (total files : nat) : string :=
  "Successfully created " +++ show_nat total +++ " relationships from "
    +++ show_nat files +++ " file(s)".

(** [start(controller)] of the relationship route. *)
Definition uploadRelationships (files : list File) (conn : Connection) : M D unit :=
  try_catch
    (validate_input files conn ;;
     parse_phase parse_relationship_file files ;;
     assign (fun v => mkLocals (parsedFiles v) (totalRows v) false
                        (totalCreated v) (processedRows v)) ;;
     try_finally
       (try_catch
          (connect conn ;;
           try_finally
             (sendProgress 25 "Checking/creating indexes..." ;;
              ensure_index ;;
              sendProgress 30 "Starting relationship creation..." ;;
              write_relationships ;;
              finish relationship_summary)
             close_session)
          (fun neo4jError =>
             fail_with "Failed to create relationships in Neo4j"
               (Some [message_or "Unknown Neo4j error" neo4jError])))
       close_driver)
    (fun error =>
       fail_with "Internal server error"
         (Some [message_or "Unknown error occurred" error])).

(** A run starts with an open controller, an empty stream, no driver
    call made and no local variable set. *)
Definition initial (s : St D) : world D := mkWorld false [] s [] no_locals.

Definition run_nodes (files : list File) (conn : Connection) (s : St D) : world D :=
  snd (uploadNodes files conn (initial s)).

Definition run_relationships (files : list File) (conn : Connection) (s : St D)
  : world D :=
  snd (uploadRelationships files conn (initial s)).

End Primitives.

(* ------------------------------------------------------------------ *)
(** ** A graph store

    The store double that answers as a Neo4j server does.

    [Graph.respond] is the meaning of one statement for the graph its
    transaction sees:
    - [UNWIND $batch AS row CREATE (n:`label`) SET n = row RETURN count(n)]
      creates one node per row of the batch, labelled [label], whose
      properties are the entries of the row, and counts them;
    - [UNWIND $batch AS row MATCH (from {id: row.FROM_ID})
       MATCH (to {id: row.TO_ID}) CREATE (from)-[r:`type` {k: row.k, ...}]->(to)
       RETURN count(r)]
      binds, for each row, [from] to every node whose [id] property equals
      [row.FROM_ID] and [to] to every node whose [id] property equals
      [row.TO_ID] (a missing value matches nothing), creates one
      relationship per binding and counts them; a property whose value is
      missing in the row is not set;
    - a statement whose text is not well formed is refused with a syntax
      error and changes nothing;
    - [CREATE INDEX IF NOT EXISTS ...] changes no node and no relationship.

    [Graph.serve] is the server: the statements of a transaction work on
    the view of that transaction, which becomes the committed graph at the
    commit and is dropped when a statement fails or the session is closed
    before a commit.  Connections, sessions and commits always succeed,
    and no failure of this server is one the driver retries. *)
Module Graph.

Record node : Type := mkNode {
  node_label : string;
  node_props : row
}.

(** A relationship refers to its end nodes by their position in [nodes]. *)
Record relationship : Type := mkRelationship {
  rel_type : string;
  rel_from : nat;
  rel_to : nat;
  rel_props : row
}.

Record graph : Type := mkGraph {
  nodes : list node;
  relationships : list relationship
}.

Definition has_id (v : string) (n : node) : bool :=
  match get "id" (node_props n) with
  | Some v' => String.eqb v v'
  | None => false
  end.

(** The positions, from [i] on, of the nodes of [ns] whose [id] is [v]. *)
Fixpoint positions (v : string) (i : nat) (ns : list node) : list nat :=
  match ns with
  | [] => []
  | n :: ns' =>
      if has_id v n then i :: positions v (S i) ns' else positions v (S i) ns'
  end.

(** [MATCH (n {id: value})]: every node whose [id] property is [value]. *)
Definition match_id (g : graph) (value : option string) : list nat :=
  match value with
  | None => []
  | Some v => positions v 0 (nodes g)
  end.

(** [{k1: row.k1, ...}] for the given keys. *)
Fixpoint props_of (propertyKeys : list string) (r : row) : row :=
  match propertyKeys with
  | [] => []
  | k :: ks =>
      match get k r with
      | Some v => (k, v) :: props_of ks r
      | None => props_of ks r
      end
  end.

(** The relationships one row creates. *)
Definition created_by_row (g : graph) (type : string) (propertyKeys : list string)
  (r : row) : list relationship :=
  flat_map (fun from =>
    map (fun to => mkRelationship type from to (props_of propertyKeys r))
        (match_id g (get "TO_ID" r)))
    (match_id g (get "FROM_ID" r)).

(** The error of a statement that is not Cypher.  The message of the
    server describes the place of the error; its code stands for it. *)
Definition syntax_error : thrown :=
  ErrorObj "Neo.ClientError.Statement.SyntaxError".

(** What a statement does to the graph its transaction sees. *)
Definition effect (s : statement) (batch : list row) (g : graph) : answer * graph :=
  match s with
  | CreateIndex => (inr None, g)
  | CreateNodes label =>
      (inr (Some (List.length batch)),
       mkGraph (nodes g ++ map (mkNode label) batch) (relationships g))
  | CreateRelationships type propertyKeys =>
      let new := flat_map (created_by_row g type propertyKeys) batch in
      (inr (Some (List.length new)), mkGraph (nodes g) (relationships g ++ new))
  end.

Definition respond (c : call) (g : graph) : answer * graph :=
  match c with
  | TxRun s batch => if well_formed s then effect s batch g else (inl syntax_error, g)
  | _ => (inr None, g)
  end.

(** The server: the committed graph and, while a transaction has run a
    statement and is not over, the graph that transaction sees. *)
Record server : Type := mkServer {
  committed : graph;
  uncommitted : option graph
}.

(** A server with no transaction under way. *)
Definition idle (g : graph) : server := mkServer g None.

Definition view (s : server) : graph :=
  match uncommitted s with
  | Some g => g
  | None => committed s
  end.

Definition serve (c : call) (s : server) : answer * server :=
  match c with
  | TxRun _ _ =>
      match respond c (view s) with
      | (inl e, _) => (inl e, idle (committed s))
      | (inr result, g) => (inr result, mkServer (committed s) (Some g))
      end
  | TxCommit => (inr None, idle (view s))
  | SessionClose => (inr None, idle (committed s))
  | _ => (inr None, s)
  end.

Definition store : StoreDouble := mkStoreDouble server serve (fun _ => false) 0.

(** The server of an empty database. *)
Definition empty : server := idle (mkGraph [] []).

End Graph.

(** A store double that plays a script: the n-th call gets the n-th
    scripted answer, and [inr None] once the script is over.  Its driver
    takes one failure for a passing one, [Script.transient], and runs a
    unit of work again three times at most. *)
Module Script.

Definition respond (c : call) (script : list answer) : answer * list answer :=
  match script with
  | [] => (inr None, [])
  | a :: rest => (a, rest)
  end.

Definition transient : thrown := ErrorObj "Neo.TransientError.Transaction.DeadlockDetected".

Definition retryable (e : thrown) : bool :=
  match e with
  | ErrorObj m => String.eqb m "Neo.TransientError.Transaction.DeadlockDetected"
  | NonError => false
  end.

Definition store : StoreDouble := mkStoreDouble (list answer) respond retryable 3.

End Script.

(** A store double that never throws: it answers a write with the number
    of rows of the batch and keeps the number of rows written so far. *)
Module Counter.

Definition respond (c : call) (written : nat) : answer * nat :=
  match c with
  | TxRun _ batch => (inr (Some (List.length batch)), written + List.length batch)
  | _ => (inr None, written)
  end.

Definition store : StoreDouble := mkStoreDouble nat respond (fun _ => false) 0.

End Counter.

(* ------------------------------------------------------------------ *)
(** ** The batches of a group, and the write plan of a run *)

(** The slices the batch loop takes, in order; the pure shadow of
    [for_batches_from]. *)
Fixpoint batches_from (fuel i batchSize : nat) (rows : list row) : list (list row) :=
  match fuel with
  | O => []
  | S fuel' =>
      if (i <? List.length rows)%nat
      then slice i (i + batchSize) rows :: batches_from fuel' (i + batchSize) batchSize rows
      else []
  end.

Definition batches (batchSize : nat) (rows : list row) : list (list row) :=
  batches_from (List.length rows) 0 batchSize rows.

(** [Math.ceil(n / d)] on natural numbers. *)
Definition ceil_div (n d : nat) : nat := (n + d - 1) / d.

(** The (key, batch) pairs a route writes for its parsed files, in order:
    files, then groups in insertion order, then slices. *)
Definition plan (group : list row -> RowMap) (batchSize : nat) (files : list ParsedData)
  : list (string * list row) :=
  flat_map (fun parsedFile =>
    flat_map (fun entry : string * list row =>
                map (pair (fst entry)) (batches batchSize (snd entry)))
             (group (rows parsedFile)))
    files.

Definition node_plan : list ParsedData -> list (string * list row) :=
  plan rowsByLabel nodeBatchSize.

Definition relationship_plan : list ParsedData -> list (string * list row) :=
  plan rowsByType relationshipBatchSize.

(** The [tx.run] calls of a log, in order. *)
Fixpoint tx_runs (log : list (call * answer)) : list (statement * list row) :=
  match log with
  | [] => []
  | (TxRun s b, _) :: log' => (s, b) :: tx_runs log'
  | _ :: log' => tx_runs log'
  end.

(** A file that reads and parses, with a non-empty header row. *)
Definition parsed_ok (required : list string) (file : File) : Prop :=
  exists parseResult,
    parse file = inr parseResult /\
    headers_of parseResult <> [] /\
    forall col, In col required -> In col (headers_of parseResult).

Definition valid_connection (conn : Connection) : Prop :=
  truthy (connectionUrl conn) = true /\
  truthy (username conn) = true /\
  truthy (password conn) = true.

(** What the parsing loop stores for a file that passed validation. *)
Definition parsed_data (file : File) : ParsedData :=
  match parse file with
  | inr parseResult =>
      mkParsedData (name file) (headers_of parseResult) (data parseResult)
        (List.length (data parseResult))
  | inl _ => mkParsedData (name file) [] [] 0
  end.

(* ------------------------------------------------------------------ *)
(** ** Lemmas on slices and batches *)

Section Batches.

Variable batchSize : nat.
Hypothesis batchSize_pos : (0 < batchSize)%nat.

Lemma slice_length (A : Type) (i j : nat) (xs : list A) :
  List.length (slice i j xs) = Nat.min (j - i) (List.length xs - i).
Proof.
  unfold slice. now rewrite length_firstn, length_skipn.
Qed.

(** More fuel than the rows left changes nothing. *)
Lemma batches_from_fuel (rows : list row) :
  forall fuel fuel' i,
    (List.length rows <= i + fuel)%nat -> (fuel <= fuel')%nat ->
    batches_from fuel' i batchSize rows = batches_from fuel i batchSize rows.
Proof.
  induction fuel as [|fuel IH]; intros fuel' i Hlen Hle.
  - destruct fuel' as [|fuel']; [reflexivity|]. simpl.
    destruct (Nat.ltb_spec i (List.length rows)); [lia | reflexivity].
  - destruct fuel' as [|fuel']; [lia|]. simpl.
    destruct (Nat.ltb_spec i (List.length rows)); [|reflexivity].
    f_equal. apply IH; lia.
Qed.

(** The slices are consecutive: glued together they are the rows left. *)
Lemma batches_from_concat (rows : list row) :
  forall fuel i,
    (List.length rows <= i + fuel)%nat ->
    List.concat (batches_from fuel i batchSize rows) = skipn i rows.
Proof.
  induction fuel as [|fuel IH]; intros i Hlen; simpl.
  - symmetry. apply skipn_all2. lia.
  - destruct (Nat.ltb_spec i (List.length rows)) as [Hlt|Hge].
    + simpl. rewrite IH by lia. unfold slice.
      replace (i + batchSize - i) with batchSize by lia.
      rewrite <- (firstn_skipn batchSize (skipn i rows)) at 2.
      f_equal. rewrite skipn_skipn. f_equal. lia.
    + symmetry. apply skipn_all2. lia.
Qed.

Lemma batches_concat (rows : list row) :
  List.concat (batches batchSize rows) = rows.
Proof.
  unfold batches. rewrite batches_from_concat by lia. reflexivity.
Qed.

(** The k-th slice starts at row [k * batchSize]. *)
Lemma batches_from_nth (rows : list row) :
  forall fuel i k,
    (k < List.length (batches_from fuel i batchSize rows))%nat ->
    nth k (batches_from fuel i batchSize rows) [] =
    slice (i + k * batchSize) (i + k * batchSize + batchSize) rows.
Proof.
  induction fuel as [|fuel IH]; intros i k Hk; simpl in *; [lia|].
  destruct (Nat.ltb_spec i (List.length rows)); simpl in *; [|lia].
  destruct k as [|k].
  - now rewrite Nat.add_0_r.
  - rewrite IH by lia. f_equal; lia.
Qed.

(** The sizes of the slices depend on the number of rows only. *)
Fixpoint sizes_from (fuel i n : nat) : list nat :=
  match fuel with
  | O => []
  | S fuel' =>
      if (i <? n)%nat
      then Nat.min batchSize (n - i) :: sizes_from fuel' (i + batchSize) n
      else []
  end.

Lemma batches_from_sizes (rows : list row) :
  forall fuel i,
    map (@List.length row) (batches_from fuel i batchSize rows) =
    sizes_from fuel i (List.length rows).
Proof.
  induction fuel as [|fuel IH]; intros i; simpl; [reflexivity|].
  destruct (Nat.ltb_spec i (List.length rows)); [|reflexivity].
  simpl. rewrite IH, slice_length. f_equal. f_equal. lia.
Qed.

Lemma sizes_from_length :
  forall fuel i n,
    (n <= i + fuel)%nat ->
    List.length (sizes_from fuel i n) = ceil_div (n - i) batchSize.
Proof.
  unfold ceil_div.
  induction fuel as [|fuel IH]; intros i n Hn; simpl.
  - replace (n - i) with 0 by lia. simpl.
    symmetry. apply Nat.div_small. lia.
  - destruct (Nat.ltb_spec i n) as [Hlt|Hge].
    + simpl. rewrite IH by lia.
      destruct (Nat.le_gt_cases (i + batchSize) n) as [Hfull|Hshort].
      * replace (n - i + batchSize - 1)
          with (n - (i + batchSize) + batchSize - 1 + 1 * batchSize) by lia.
        rewrite Nat.div_add by lia. lia.
      * replace (n - (i + batchSize)) with 0 by lia. simpl.
        rewrite (Nat.div_small (batchSize - 1)) by lia.
        replace (n - i + batchSize - 1) with (n - i - 1 + 1 * batchSize) by lia.
        rewrite Nat.div_add by lia.
        rewrite (Nat.div_small (n - i - 1)) by lia. reflexivity.
    + replace (n - i) with 0 by lia. simpl.
      symmetry. apply Nat.div_small. lia.
Qed.

End Batches.

(* ------------------------------------------------------------------ *)
(** ** Reasoning rules for the statement sequences *)

Section Hoare.

Context {D : StoreDouble}.

(** [hoare P m Q]: from a state satisfying [P], [m] completes in a state
    and with an outcome satisfying [Q].  Every [m] completes: [M] is a
    total function. *)
Definition hoare {A : Type} (P : world D -> Prop) (m : M D A)
  (Q : outcome A -> world D -> Prop) : Prop :=
  forall w, P w -> Q (fst (m w)) (snd (m w)).

(** A postcondition by kind of completion. *)
Definition post {A : Type} (N : A -> world D -> Prop) (R : world D -> Prop)
  (T : thrown -> world D -> Prop) : outcome A -> world D -> Prop :=
  fun o w =>
    match o with
    | Normal a => N a w
    | Return => R w
    | Throw e => T e w
    end.

Lemma hoare_conseq {A : Type} (P P' : world D -> Prop) (m : M D A)
  (Q Q' : outcome A -> world D -> Prop) :
  hoare P' m Q' ->
  (forall w, P w -> P' w) ->
  (forall o w, Q' o w -> Q o w) ->
  hoare P m Q.
Proof. unfold hoare. auto. Qed.

Lemma hoare_ret {A : Type} (P : world D -> Prop) (a : A)
  (Q : outcome A -> world D -> Prop) :
  (forall w, P w -> Q (Normal a) w) -> hoare P (ret a) Q.
Proof. unfold hoare, ret. auto. Qed.

Lemma hoare_bind {A B : Type} (P : world D -> Prop) (m : M D A) (f : A -> M D B)
  (Q' : outcome A -> world D -> Prop) (Q : outcome B -> world D -> Prop) :
  hoare P m Q' ->
  (forall a, hoare (Q' (Normal a)) (f a) Q) ->
  (forall w, Q' Return w -> Q Return w) ->
  (forall e w, Q' (Throw e) w -> Q (Throw e) w) ->
  hoare P (bind m f) Q.
Proof.
  unfold hoare, bind. intros Hm Hf Hr Ht w Hw.
  specialize (Hm w Hw). destruct (m w) as [[a| |e] w']; simpl in *; auto.
Qed.

Lemma hoare_try_catch {A : Type} (P : world D -> Prop) (m : M D A)
  (h : thrown -> M D A) (Q' Q : outcome A -> world D -> Prop) :
  hoare P m Q' ->
  (forall e, hoare (Q' (Throw e)) (h e) Q) ->
  (forall a w, Q' (Normal a) w -> Q (Normal a) w) ->
  (forall w, Q' Return w -> Q Return w) ->
  hoare P (try_catch m h) Q.
Proof.
  unfold hoare, try_catch. intros Hm Hh Hn Hr w Hw.
  specialize (Hm w Hw). destruct (m w) as [[a| |e] w']; simpl in *; auto.
Qed.

Lemma hoare_try_finally {A : Type} (P : world D -> Prop) (m : M D A) (f : M D unit)
  (Q' Q : outcome A -> world D -> Prop) :
  hoare P m Q' ->
  (forall o, hoare (Q' o) f
               (post (fun _ => Q o) (Q Return) (fun e => Q (Throw e)))) ->
  hoare P (try_finally m f) Q.
Proof.
  unfold hoare, try_finally. intros Hm Hf w Hw.
  specialize (Hm w Hw). destruct (m w) as [o w']. simpl in Hm.
  specialize (Hf o w' Hm). destruct (f w') as [[[]| |e] w'']; simpl in *; auto.
Qed.

Lemma hoare_when (c : bool) (m : M D unit) (P : world D -> Prop)
  (Q : outcome unit -> world D -> Prop) :
  (c = true -> hoare P m Q) ->
  (c = false -> forall w, P w -> Q (Normal tt) w) ->
  hoare P (when c m) Q.
Proof.
  destruct c; simpl; intros Ht Hf; [auto|]. apply hoare_ret. auto.
Qed.

(** The loop rule: the invariant is indexed by the elements already
    processed. *)
Lemma hoare_for_of_from {A : Type} (body : A -> M D unit)
  (I : list A -> world D -> Prop) (R : world D -> Prop)
  (T : thrown -> world D -> Prop) :
  forall xs done,
    (forall pre x suf, done ++ xs = pre ++ x :: suf ->
       hoare (I pre) (body x) (post (fun _ => I (pre ++ [x])) R T)) ->
    hoare (I done) (for_of xs body) (post (fun _ => I (done ++ xs)) R T).
Proof.
  induction xs as [|x xs IH]; intros done Hbody; simpl.
  - apply hoare_ret. intros w Hw. simpl. now rewrite app_nil_r.
  - eapply hoare_bind.
    + apply (Hbody done x xs). reflexivity.
    + intros u. simpl.
      replace (done ++ x :: xs) with ((done ++ [x]) ++ xs)
        by (rewrite <- app_assoc; reflexivity).
      apply IH. intros pre y suf Heq. apply (Hbody pre y suf).
      rewrite <- Heq, <- app_assoc. reflexivity.
    + simpl. auto.
    + simpl. auto.
Qed.

Lemma hoare_for_of {A : Type} (xs : list A) (body : A -> M D unit)
  (I : list A -> world D -> Prop) (R : world D -> Prop)
  (T : thrown -> world D -> Prop) :
  (forall pre x suf, xs = pre ++ x :: suf ->
     hoare (I pre) (body x) (post (fun _ => I (pre ++ [x])) R T)) ->
  hoare (I []) (for_of xs body) (post (fun _ => I xs) R T).
Proof.
  intros H. apply (hoare_for_of_from body I R T xs []). exact H.
Qed.

Lemma hoare_for_index_from {A : Type} (body : nat -> A -> M D unit)
  (I : list A -> world D -> Prop) (R : world D -> Prop)
  (T : thrown -> world D -> Prop) :
  forall xs done,
    (forall pre x suf, done ++ xs = pre ++ x :: suf ->
       hoare (I pre) (body (List.length pre) x) (post (fun _ => I (pre ++ [x])) R T)) ->
    hoare (I done) (for_index (List.length done) xs body)
      (post (fun _ => I (done ++ xs)) R T).
Proof.
  induction xs as [|x xs IH]; intros done Hbody; simpl.
  - apply hoare_ret. intros w Hw. simpl. now rewrite app_nil_r.
  - eapply hoare_bind.
    + apply (Hbody done x xs). reflexivity.
    + intros u. simpl.
      replace (done ++ x :: xs) with ((done ++ [x]) ++ xs)
        by (rewrite <- app_assoc; reflexivity).
      replace (S (List.length done)) with (List.length (done ++ [x]))
        by (rewrite length_app; simpl; lia).
      apply IH. intros pre y suf Heq. apply (Hbody pre y suf).
      rewrite <- Heq, <- app_assoc. reflexivity.
    + simpl. auto.
    + simpl. auto.
Qed.

Lemma hoare_for_index {A : Type} (xs : list A) (body : nat -> A -> M D unit)
  (I : list A -> world D -> Prop) (R : world D -> Prop)
  (T : thrown -> world D -> Prop) :
  (forall pre x suf, xs = pre ++ x :: suf ->
     hoare (I pre) (body (List.length pre) x) (post (fun _ => I (pre ++ [x])) R T)) ->
  hoare (I []) (for_index 0 xs body) (post (fun _ => I xs) R T).
Proof.
  intros H. apply (hoare_for_index_from body I R T xs []). exact H.
Qed.

(** *** The loops as one loop over the write plan *)

Lemma for_of_ext {A : Type} (xs : list A) (b1 b2 : A -> M D unit) :
  (forall x w, b1 x w = b2 x w) ->
  forall w, for_of xs b1 w = for_of xs b2 w.
Proof.
  intros Hb. induction xs as [|x xs IH]; intros w; simpl; [reflexivity|].
  unfold bind. rewrite Hb. destruct (b2 x w) as [[[]| |e] w']; auto.
Qed.

Lemma for_of_app {A : Type} (xs ys : list A) (body : A -> M D unit) :
  forall w, for_of (xs ++ ys) body w = (for_of xs body ;; for_of ys body) w.
Proof.
  induction xs as [|x xs IH]; intros w; simpl; [reflexivity|].
  unfold bind in *. destruct (body x w) as [[[]| |e] w']; auto.
Qed.

Lemma for_of_map {A B : Type} (f : A -> B) (xs : list A) (body : B -> M D unit) :
  forall w, for_of (map f xs) body w = for_of xs (fun x => body (f x)) w.
Proof.
  induction xs as [|x xs IH]; intros w; simpl; [reflexivity|].
  unfold bind. destruct (body (f x) w) as [[[]| |e] w']; auto.
Qed.

Lemma for_of_flat_map {A B : Type} (g : A -> list B) (xs : list A)
  (body : B -> M D unit) :
  forall w, for_of (flat_map g xs) body w = for_of xs (fun x => for_of (g x) body) w.
Proof.
  induction xs as [|x xs IH]; intros w; simpl; [reflexivity|].
  rewrite for_of_app. unfold bind.
  destruct (for_of (g x) body w) as [[[]| |e] w']; auto.
Qed.

Lemma for_batches_from_of (batchSize : nat) (rows : list row)
  (body : list row -> M D unit) :
  forall fuel i w,
    for_batches_from fuel i batchSize rows body w =
    for_of (batches_from fuel i batchSize rows) body w.
Proof.
  induction fuel as [|fuel IH]; intros i w; simpl; [reflexivity|].
  destruct (i <? List.length rows)%nat; [|reflexivity].
  simpl. unfold bind.
  destruct (body (slice i (i + batchSize) rows) w) as [[[]| |e] w']; auto.
Qed.

(** The three nested loops of a route are one loop over its plan. *)
Lemma nested_loops_plan (group : list row -> RowMap) (batchSize : nat)
  (body : string -> list row -> M D unit) (files : list ParsedData) :
  forall w,
    for_of files (fun parsedFile =>
      for_of (group (rows parsedFile)) (fun entry =>
        let (key, rows) := entry in
        for_batches batchSize rows (body key))) w =
    for_of (plan group batchSize files) (fun kb => body (fst kb) (snd kb)) w.
Proof.
  intros w. unfold plan. rewrite for_of_flat_map.
  apply for_of_ext. clear w. intros parsedFile w.
  rewrite for_of_flat_map. apply for_of_ext. clear w. intros [key rs] w.
  rewrite for_of_map. simpl. unfold for_batches. apply for_batches_from_of.
Qed.

(** The batch loop ends because [i] reaches [rows.length], never for lack
    of fuel: any fuel from the number of rows on gives the same run. *)
Lemma for_batches_fuel (batchSize fuel : nat) (rows : list row)
  (body : list row -> M D unit) :
  (0 < batchSize)%nat -> (List.length rows <= fuel)%nat ->
  forall w,
    for_batches_from fuel 0 batchSize rows body w = for_batches batchSize rows body w.
Proof.
  intros Hpos Hfuel w. unfold for_batches. rewrite !for_batches_from_of.
  rewrite (batches_from_fuel batchSize Hpos rows (List.length rows) fuel 0) by lia.
  reflexivity.
Qed.

End Hoare.

(* ------------------------------------------------------------------ *)
(** ** Invariants: what a statement sequence leaves untouched *)

Section Invariants.

Context {D : StoreDouble}.

(** [inv I m]: [I] holds after [m], however [m] completes, if it held
    before. *)
Definition inv {A : Type} (I : world D -> Prop) (m : M D A) : Prop :=
  hoare I m (fun _ => I).

Lemma inv_ret {A : Type} (I : world D -> Prop) (a : A) : inv I (ret a).
Proof. intros w Hw. exact Hw. Qed.

Lemma inv_throw {A : Type} (I : world D -> Prop) (e : thrown) : inv I (@throw D A e).
Proof. intros w Hw. exact Hw. Qed.

Lemma inv_early_return {A : Type} (I : world D -> Prop) : inv I (@early_return D A).
Proof. intros w Hw. exact Hw. Qed.

Lemma inv_read {A : Type} (I : world D -> Prop) (f : locals -> A) : inv I (read f).
Proof. intros w Hw. exact Hw. Qed.

Lemma inv_bind {A B : Type} (I : world D -> Prop) (m : M D A) (f : A -> M D B) :
  inv I m -> (forall a, inv I (f a)) -> inv I (bind m f).
Proof.
  intros Hm Hf. eapply hoare_bind; [exact Hm | exact Hf | auto | auto].
Qed.

Lemma inv_try_catch {A : Type} (I : world D -> Prop) (m : M D A) (h : thrown -> M D A) :
  inv I m -> (forall e, inv I (h e)) -> inv I (try_catch m h).
Proof.
  intros Hm Hh. eapply hoare_try_catch; [exact Hm | exact Hh | auto | auto].
Qed.

Lemma inv_try_finally {A : Type} (I : world D -> Prop) (m : M D A) (f : M D unit) :
  inv I m -> inv I f -> inv I (try_finally m f).
Proof.
  intros Hm Hf. eapply hoare_try_finally; [exact Hm|].
  intros o w Hw. specialize (Hf w Hw).
  destruct (f w) as [[[]| |e] w']; simpl in *; exact Hf.
Qed.

Lemma inv_when (I : world D -> Prop) (c : bool) (m : M D unit) :
  inv I m -> inv I (when c m).
Proof. destruct c; simpl; [auto | intros _; apply inv_ret]. Qed.

Lemma inv_for_of {A : Type} (I : world D -> Prop) (xs : list A) (body : A -> M D unit) :
  (forall x, In x xs -> inv I (body x)) -> inv I (for_of xs body).
Proof.
  induction xs as [|x xs IH]; intros Hb; simpl; [apply inv_ret|].
  apply inv_bind; [apply Hb; now left | intros _; apply IH].
  intros y Hy. apply Hb. now right.
Qed.

Lemma inv_for_index {A : Type} (I : world D -> Prop) (xs : list A)
  (body : nat -> A -> M D unit) :
  (forall i x, inv I (body i x)) -> forall i, inv I (for_index i xs body).
Proof.
  intros Hb. induction xs as [|x xs IH]; intros i; simpl; [apply inv_ret|].
  apply inv_bind; [apply Hb | intros _; apply IH].
Qed.

Lemma inv_for_batches_from (I : world D -> Prop) (batchSize : nat) (rows : list row)
  (body : list row -> M D unit) :
  (forall batch, inv I (body batch)) ->
  forall fuel i, inv I (for_batches_from fuel i batchSize rows body).
Proof.
  intros Hb. induction fuel as [|fuel IH]; intros i; simpl; [apply inv_ret|].
  destruct (i <? List.length rows)%nat; [|apply inv_ret].
  apply inv_bind; [apply Hb | intros _; apply IH].
Qed.

Lemma inv_for_batches (I : world D -> Prop) (batchSize : nat) (rows : list row)
  (body : list row -> M D unit) :
  (forall batch, inv I (body batch)) -> inv I (for_batches batchSize rows body).
Proof. intros Hb. apply inv_for_batches_from, Hb. Qed.

(** What an invariant may not depend on, for each primitive. *)
Definition stream_free (I : world D -> Prop) : Prop :=
  forall w c q, I w -> I (mkWorld c q (db w) (calls w) (vars w)).

Definition store_free (I : world D -> Prop) : Prop :=
  forall w s l, I w -> I (mkWorld (closed w) (queue w) s l (vars w)).

Definition assign_free (f : locals -> locals) (I : world D -> Prop) : Prop :=
  forall w, I w -> I (mkWorld (closed w) (queue w) (db w) (calls w) (f (vars w))).

Lemma inv_enqueue (I : world D -> Prop) (ev : event) :
  stream_free I -> inv I (enqueue ev).
Proof.
  intros HI w Hw. unfold enqueue. destruct (closed w); simpl; [exact Hw|].
  apply (HI w). exact Hw.
Qed.

Lemma inv_close (I : world D -> Prop) : stream_free I -> inv I close.
Proof.
  intros HI w Hw. unfold close. destruct (closed w); simpl; [exact Hw|].
  apply (HI w). exact Hw.
Qed.

Lemma inv_sendProgress (I : world D -> Prop) (p : Q) (m : string) :
  stream_free I -> inv I (sendProgress p m).
Proof. apply inv_enqueue. Qed.

Lemma inv_fail_with (I : world D -> Prop) (m : string) (d : option (list string)) :
  stream_free I -> inv I (fail_with m d).
Proof.
  intros HI. unfold fail_with.
  apply inv_bind; [now apply inv_enqueue | intros _; now apply inv_close].
Qed.

Lemma inv_perform (I : world D -> Prop) (c : call) :
  store_free I -> inv I (perform c).
Proof.
  intros HI w Hw. unfold perform.
  destruct (respond D c (db w)) as [[e|r] s]; simpl; apply (HI w); exact Hw.
Qed.

Lemma inv_assign (I : world D -> Prop) (f : locals -> locals) :
  assign_free f I -> inv I (assign f).
Proof. intros HI w Hw. unfold assign. simpl. apply HI, Hw. Qed.

Lemma inv_validate_input (I : world D -> Prop) (files : list File) (conn : Connection) :
  stream_free I -> inv I (validate_input files conn).
Proof.
  intros HI. unfold validate_input.
  apply inv_bind; [|intros _];
    (apply inv_when, inv_bind; [now apply inv_fail_with | intros _; apply inv_early_return]).
Qed.

(** A managed transaction keeps what its unit of work and its commit
    keep, however many attempts it takes. *)
Lemma inv_transaction (I : world D -> Prop) (work : M D unit) :
  inv I work -> inv I (perform TxCommit) -> inv I (transaction work).
Proof.
  intros Hwork Hcommit. unfold transaction.
  apply inv_bind; [exact Hwork|]. intros _.
  apply inv_bind; [exact Hcommit | intros _; apply inv_ret].
Qed.

Lemma inv_retrying (I : world D -> Prop) (work : M D unit) (retries : nat) :
  inv I (transaction work) -> inv I (retrying retries work).
Proof.
  intros H. induction retries as [|retries IH]; simpl; [exact H|].
  apply inv_try_catch; [exact H|]. intros e.
  destruct (retryable D e); [exact IH | apply inv_throw].
Qed.

Lemma inv_executeWrite (I : world D -> Prop) (work : M D unit) :
  inv I work -> inv I (perform TxCommit) -> inv I (executeWrite work).
Proof. intros Hwork Hcommit. apply inv_retrying, inv_transaction; assumption. Qed.

(** The writing loops of the node route never touch the stream. *)
Lemma inv_write_nodes (I : world D -> Prop) :
  store_free I ->
  (forall created,
     assign_free (fun v => mkLocals (parsedFiles v) (totalRows v) (driver v)
                             (totalCreated v + created) (processedRows v)) I) ->
  inv I write_nodes.
Proof.
  intros Hs Ha. unfold write_nodes.
  apply inv_bind; [apply inv_read|]. intros files.
  apply inv_for_of. intros parsedFile _.
  apply inv_for_of. intros [label rs] _.
  apply inv_for_batches. intros batch.
  unfold write_node_batch. apply inv_executeWrite; [|now apply inv_perform].
  apply inv_bind; [now apply inv_perform|]. intros result.
  apply inv_assign, Ha.
Qed.

(** *** Statement sequences without [return] *)

Definition never_returns {A : Type} (m : M D A) : Prop :=
  forall w, fst (m w) <> Return.

Lemma nr_ret {A : Type} (a : A) : never_returns (@ret D A a).
Proof. intros w. discriminate. Qed.

Lemma nr_throw {A : Type} (e : thrown) : never_returns (@throw D A e).
Proof. intros w. discriminate. Qed.

Lemma nr_read {A : Type} (f : locals -> A) : never_returns (@read D A f).
Proof. intros w. discriminate. Qed.

Lemma nr_assign (f : locals -> locals) : never_returns (@assign D f).
Proof. intros w. discriminate. Qed.

Lemma nr_enqueue (ev : event) : never_returns (@enqueue D ev).
Proof. intros w. unfold enqueue. destruct (closed w); discriminate. Qed.

Lemma nr_close : never_returns (@close D).
Proof. intros w. unfold close. destruct (closed w); discriminate. Qed.

Lemma nr_perform (c : call) : never_returns (@perform D c).
Proof.
  intros w. unfold perform. destruct (respond D c (db w)) as [[e|r] s]; discriminate.
Qed.

Lemma nr_bind {A B : Type} (m : M D A) (f : A -> M D B) :
  never_returns m -> (forall a, never_returns (f a)) -> never_returns (bind m f).
Proof.
  intros Hm Hf w. unfold bind. specialize (Hm w).
  destruct (m w) as [[a| |e] w']; simpl in *; [apply Hf | contradiction | discriminate].
Qed.

Lemma nr_try_catch {A : Type} (m : M D A) (h : thrown -> M D A) :
  never_returns m -> (forall e, never_returns (h e)) -> never_returns (try_catch m h).
Proof.
  intros Hm Hh w. unfold try_catch. specialize (Hm w).
  destruct (m w) as [[a| |e] w']; simpl in *; [discriminate | contradiction | apply Hh].
Qed.

Lemma nr_when (c : bool) (m : M D unit) : never_returns m -> never_returns (when c m).
Proof. destruct c; simpl; [auto | intros _; apply nr_ret]. Qed.

Lemma nr_for_of {A : Type} (xs : list A) (body : A -> M D unit) :
  (forall x, never_returns (body x)) -> never_returns (for_of xs body).
Proof.
  intros Hb. induction xs as [|x xs IH]; simpl; [apply nr_ret|].
  apply nr_bind; [apply Hb | intros _; exact IH].
Qed.

Lemma nr_for_batches (batchSize : nat) (rows : list row) (body : list row -> M D unit) :
  (forall batch, never_returns (body batch)) ->
  never_returns (for_batches batchSize rows body).
Proof.
  intros Hb w. unfold for_batches. rewrite for_batches_from_of.
  apply nr_for_of, Hb.
Qed.

Lemma nr_fail_with (m : string) (d : option (list string)) :
  never_returns (@fail_with D m d).
Proof. apply nr_bind; [apply nr_enqueue | intros _; apply nr_close]. Qed.

Lemma nr_close_session : never_returns (@close_session D).
Proof. apply nr_bind; [apply nr_perform | intros _; apply nr_ret]. Qed.

Lemma nr_close_driver : never_returns (@close_driver D).
Proof.
  apply nr_bind; [apply nr_read|]. intros d. apply nr_when.
  apply nr_bind; [apply nr_perform | intros _; apply nr_ret].
Qed.

Lemma nr_executeWrite (work : M D unit) :
  never_returns work -> never_returns (executeWrite work).
Proof.
  intros Hwork.
  assert (H : never_returns (transaction work)).
  { apply nr_bind; [exact Hwork|]. intros _.
    apply nr_bind; [apply nr_perform | intros _; apply nr_ret]. }
  unfold executeWrite. induction (patience D) as [|retries IH]; simpl; [exact H|].
  apply nr_try_catch; [exact H|]. intros e.
  destruct (retryable D e); [exact IH | apply nr_throw].
Qed.

Lemma nr_write_nodes : never_returns (@write_nodes D).
Proof.
  apply nr_bind; [apply nr_read|]. intros files.
  apply nr_for_of. intros parsedFile. apply nr_for_of. intros [label rs].
  apply nr_for_batches. intros batch. unfold write_node_batch. apply nr_executeWrite.
  repeat (first [apply nr_bind | apply nr_perform | apply nr_assign | apply nr_ret | intro]).
Qed.

Lemma inv_close_session (I : world D -> Prop) : store_free I -> inv I close_session.
Proof.
  intros HI. apply inv_bind; [now apply inv_perform | intros _; apply inv_ret].
Qed.

Lemma inv_close_driver (I : world D -> Prop) : store_free I -> inv I close_driver.
Proof.
  intros HI. apply inv_bind; [apply inv_read|]. intros d. apply inv_when.
  apply inv_bind; [now apply inv_perform | intros _; apply inv_ret].
Qed.

End Invariants.

(* ------------------------------------------------------------------ *)
(** ** When a managed transaction takes one attempt *)

(** The driver of the store runs no unit of work again: the retry time
    leaves no room for it, or no failure is one it retries. *)
Definition never_retries (D : StoreDouble) : Prop :=
  patience D = 0%nat \/ forall e, retryable D e = false.

(** The driver does not run a unit of work again after the failure [e]. *)
Definition gives_up (D : StoreDouble) (e : thrown) : Prop :=
  patience D = 0%nat \/ retryable D e = false.

Section Attempts.

Context {D : StoreDouble}.

(** The attempts, one step at a time. *)
Lemma retrying_step (retries : nat) (work : M D unit) (w : world D) :
  retrying (S retries) work w =
  match transaction work w with
  | (Throw e, w') =>
      if retryable D e then retrying retries work w' else (Throw e, w')
  | r => r
  end.
Proof.
  simpl. unfold try_catch. destruct (transaction work w) as [[a| |e] w']; try reflexivity.
  destruct (retryable D e); reflexivity.
Qed.

(** An attempt that does not throw is the only one. *)
Lemma executeWrite_done (work : M D unit) (w : world D) :
  (forall e, fst (transaction work w) <> Throw e) ->
  executeWrite work w = transaction work w.
Proof.
  intros H. unfold executeWrite. destruct (patience D) as [|retries]; [reflexivity|].
  rewrite retrying_step. destruct (transaction work w) as [[a| |e] w']; try reflexivity.
  destruct (H e). reflexivity.
Qed.

(** So is an attempt whose failure the driver does not retry. *)
Lemma executeWrite_gives_up (work : M D unit) (w w' : world D) (e : thrown) :
  transaction work w = (Throw e, w') -> gives_up D e ->
  executeWrite work w = (Throw e, w').
Proof.
  intros Hw Hg. unfold executeWrite. destruct Hg as [Hg|Hg].
  - rewrite Hg. exact Hw.
  - destruct (patience D) as [|retries]; [exact Hw|].
    rewrite retrying_step, Hw, Hg. reflexivity.
Qed.

Lemma executeWrite_once (work : M D unit) (w : world D) :
  never_retries D -> executeWrite work w = transaction work w.
Proof.
  intros Hone. destruct (transaction work w) as [[a| |e] w'] eqn:Hw.
  - rewrite executeWrite_done; [exact Hw|]. rewrite Hw. discriminate.
  - rewrite executeWrite_done; [exact Hw|]. rewrite Hw. discriminate.
  - apply executeWrite_gives_up; [exact Hw|].
    destruct Hone as [H|H]; [now left | right; apply H].
Qed.

End Attempts.

(* ------------------------------------------------------------------ *)
(** ** Arithmetic of the percents *)

Lemma ratio_nonneg (a b : nat) :
  (0 <= inject_Z (Z.of_nat a) / inject_Z (Z.of_nat b))%Q.
Proof.
  unfold Qdiv. apply Qmult_le_0_compat.
  - change 0%Q with (inject_Z 0). rewrite <- Zle_Qle. lia.
  - apply Qinv_le_0_compat. change 0%Q with (inject_Z 0). rewrite <- Zle_Qle. lia.
Qed.

Lemma ratio_mono (a a' b : nat) :
  (a <= a')%nat ->
  (inject_Z (Z.of_nat a) / inject_Z (Z.of_nat b)
   <= inject_Z (Z.of_nat a') / inject_Z (Z.of_nat b))%Q.
Proof.
  intros H. unfold Qdiv. apply Qmult_le_compat_r.
  - rewrite <- Zle_Qle. lia.
  - apply Qinv_le_0_compat. change 0%Q with (inject_Z 0). rewrite <- Zle_Qle. lia.
Qed.

Lemma ratio_le_1 (a b : nat) :
  (a <= b)%nat -> (inject_Z (Z.of_nat a) / inject_Z (Z.of_nat b) <= 1)%Q.
Proof.
  intros H. destruct b as [|b].
  - replace a with 0%nat by lia. compute. discriminate.
  - apply Qle_shift_div_r.
    + change 0%Q with (inject_Z 0). rewrite <- Zlt_Qlt. lia.
    + rewrite Qmult_1_l. rewrite <- Zle_Qle. lia.
Qed.

Lemma ratio_self (n : nat) :
  (0 < n)%nat -> (inject_Z (Z.of_nat n) / inject_Z (Z.of_nat n) == 1)%Q.
Proof.
  intros H. unfold Qdiv. apply Qmult_inv_r.
  intros E. change 0%Q with (inject_Z 0) in E. rewrite inject_Z_injective in E. lia.
Qed.

Ltac ratio_atoms :=
  repeat match goal with
         | |- context [(inject_Z (Z.of_nat ?a) / inject_Z (Z.of_nat ?b))%Q] =>
             generalize (inject_Z (Z.of_nat a) / inject_Z (Z.of_nat b))%Q; intro
         end.

Lemma parsing_percent_mono (i j n : nat) :
  (i <= j)%nat -> (parsing_percent i n <= parsing_percent j n)%Q.
Proof.
  intros H. unfold parsing_percent. generalize (ratio_mono i j n H).
  ratio_atoms. intros. lra.
Qed.

Lemma parsing_percent_0 (n : nat) : (parsing_percent 0 n == 5)%Q.
Proof. unfold parsing_percent. simpl. unfold Qdiv. rewrite Qmult_0_l. lra. Qed.

Lemma parsing_percent_bounds (i n : nat) :
  (i <= n)%nat -> (5 <= parsing_percent i n <= 15)%Q.
Proof.
  intros H. unfold parsing_percent.
  generalize (ratio_nonneg i n) (ratio_le_1 i n H). ratio_atoms. intros. lra.
Qed.

Lemma Math_round_mono (x y : Q) : (x <= y)%Q -> (Math_round x <= Math_round y)%Z.
Proof. intros H. unfold Math_round. apply Qfloor_resp_le. lra. Qed.

Lemma is_integer_inject_Z (z : Z) : is_integer (inject_Z z).
Proof. unfold is_integer. rewrite Qfloor_Z. reflexivity. Qed.

Lemma writing_percent_mono (p p' t : nat) :
  (p <= p')%nat -> (writing_percent p t <= writing_percent p' t)%Q.
Proof.
  intros H. unfold writing_percent. rewrite <- Zle_Qle. apply Math_round_mono.
  generalize (ratio_mono p p' t H). ratio_atoms. intros. lra.
Qed.

Lemma writing_percent_bounds (p t : nat) :
  (p <= t)%nat -> (30 <= writing_percent p t <= 95)%Q.
Proof.
  intros H. unfold writing_percent.
  assert (L : (Math_round 30 <= Math_round
             (30 + inject_Z (Z.of_nat p) / inject_Z (Z.of_nat t) * 65))%Z).
  { apply Math_round_mono. generalize (ratio_nonneg p t). ratio_atoms. intros. lra. }
  assert (U : (Math_round
             (30 + inject_Z (Z.of_nat p) / inject_Z (Z.of_nat t) * 65)
           <= Math_round 95)%Z).
  { apply Math_round_mono. generalize (ratio_le_1 p t H). ratio_atoms. intros. lra. }
  change (Math_round 30) with 30%Z in L. change (Math_round 95) with 95%Z in U.
  split.
  - change 30%Q with (inject_Z 30). rewrite <- Zle_Qle. exact L.
  - change 95%Q with (inject_Z 95). rewrite <- Zle_Qle. exact U.
Qed.

Lemma writing_percent_0 (t : nat) : writing_percent 0 t = 30%Q.
Proof.
  unfold writing_percent.
  transitivity (inject_Z (Math_round 30)); [|reflexivity]. f_equal.
  unfold Math_round. apply Qfloor_comp.
  change (inject_Z (Z.of_nat 0)) with 0%Q. unfold Qdiv. rewrite Qmult_0_l. ring.
Qed.

(* ------------------------------------------------------------------ *)
(** ** Lists of events *)

Lemma percents_app (es es' : list event) :
  percents (es ++ es') = percents es ++ percents es'.
Proof.
  induction es as [|[p m|m d|f t m] es IH]; simpl; [reflexivity| |assumption|assumption].
  now rewrite IH.
Qed.

Lemma terminals_app (es es' : list event) :
  terminals (es ++ es') = terminals es ++ terminals es'.
Proof. apply filter_app. Qed.

(** Raising the last element keeps a list non-decreasing. *)
Lemma nondecreasing_raise (qs : list Q) (hi hi' : Q) :
  nondecreasing (qs ++ [hi]) -> (hi <= hi')%Q -> nondecreasing (qs ++ [hi']).
Proof.
  induction qs as [|q qs IH]; intros H Hle; simpl; [exact I|].
  destruct qs as [|q' qs]; simpl in *.
  - split; [|exact I]. destruct H as [H _]. lra.
  - destruct H as [H1 H2]. split; [exact H1|]. apply IH; assumption.
Qed.

Lemma nondecreasing_repeat_last (qs : list Q) (hi : Q) :
  nondecreasing (qs ++ [hi]) -> nondecreasing ((qs ++ [hi]) ++ [hi]).
Proof.
  induction qs as [|q qs IH]; intros H; simpl.
  - split; [lra | exact I].
  - destruct qs as [|q' qs]; simpl in *.
    + destruct H as [H _]. repeat split; try lra.
    + destruct H as [H1 H2]. split; [exact H1|]. apply IH. exact H2.
Qed.

Lemma nondecreasing_init (qs : list Q) (hi : Q) :
  nondecreasing (qs ++ [hi]) -> nondecreasing qs.
Proof.
  induction qs as [|q qs IH]; intros H; simpl; [exact I|].
  destruct qs as [|q' qs]; simpl in *; [exact I|].
  destruct H as [H1 H2]. split; [exact H1|]. apply IH. exact H2.
Qed.

(* ------------------------------------------------------------------ *)
(** ** The stream of a run *)

(** The rows of the parsed files, all together. *)
Definition sum_rows (files : list ParsedData) : nat :=
  list_sum (map (fun parsedFile => List.length (rows parsedFile)) files).

(** The rows of the batches of a plan. *)
Definition plan_rows (batches : list (string * list row)) : nat :=
  list_sum (map (fun kb => List.length (snd kb)) batches).

(** A percent the routes send when [n] files are uploaded: between 5 and
    100, and an integer or the percent of a parsing step. *)
Definition shape (n : nat) (p : Q) : Prop :=
  (5 <= p <= 100)%Q /\
  (is_integer p \/ exists i, (i < n)%nat /\ p = parsing_percent i n).

Section Stream.

Context {D : StoreDouble}.

Variable n : nat.

(** The stream is open: no terminal event yet, percents non-decreasing
    and at most [hi], and [totalRows] counts the rows parsed so far. *)
Definition open (hi : Q) (w : world D) : Prop :=
  closed w = false /\
  terminals (queue w) = [] /\
  nondecreasing (percents (queue w) ++ [hi]) /\
  Forall (shape n) (percents (queue w)) /\
  totalRows (vars w) = sum_rows (parsedFiles (vars w)) /\
  (hi <= 100)%Q.

(** The stream is closed: progress events with non-decreasing percents,
    then one terminal event; before a summary the last percent is 100. *)
Definition finished (w : world D) : Prop :=
  closed w = true /\
  exists es t,
    queue w = es ++ [t] /\
    is_terminal t = true /\
    terminals es = [] /\
    nondecreasing (percents es) /\
    Forall (shape n) (percents es) /\
    (is_success t = true -> exists ps, percents es = ps ++ [100%Q]).

Definition ok_with (V : locals -> Prop) (hi : Q) (w : world D) : Prop :=
  (open hi w /\ V (vars w)) \/ finished w.

Definition ok (hi : Q) : world D -> Prop := ok_with (fun _ => True) hi.

(** The postcondition of a step: [N] when the step completes normally;
    after [return] the stream is finished; after a throw it is open or
    finished. *)
Definition ends {A : Type} (N : world D -> Prop) : outcome A -> world D -> Prop :=
  post (fun _ => N) finished (fun _ => ok 100).

Lemma open_weaken (hi hi' : Q) (w : world D) :
  open hi w -> (hi <= hi')%Q -> (hi' <= 100)%Q -> open hi' w.
Proof.
  intros (Hc & Ht & Hs & Hf & Hv & Hh) Hle Hle'. repeat split; auto.
  eapply nondecreasing_raise; eauto.
Qed.

Lemma ok_with_ok (V : locals -> Prop) (hi : Q) (w : world D) :
  ok_with V hi w -> ok 100 w.
Proof.
  intros [[Ho _]|Hf]; [left | now right]. split; [|exact I].
  eapply open_weaken; [exact Ho| |lra]. apply Ho.
Qed.

Lemma finished_ok (w : world D) : finished w -> ok 100 w.
Proof. intros H. now right. Qed.

Lemma ok_with_weaken (V V' : locals -> Prop) (hi hi' : Q) (w : world D) :
  ok_with V hi w ->
  (forall v, V v -> V' v) -> (hi <= hi')%Q -> (hi' <= 100)%Q ->
  ok_with V' hi' w.
Proof.
  intros [[Ho Hv]|Hf] HV Hle Hle'; [left | now right].
  split; [eapply open_weaken; eauto | auto].
Qed.

(** Composition of steps. *)
Lemma ends_bind {A B : Type} (P N1 : world D -> Prop) (m : M D A) (f : A -> M D B)
  (N : world D -> Prop) :
  hoare P m (ends N1) ->
  (forall a, hoare N1 (f a) (ends N)) ->
  hoare P (bind m f) (ends N).
Proof.
  intros Hm Hf. eapply hoare_bind; [exact Hm | exact Hf | auto | auto].
Qed.

(** The same, when the value of the first step matters. *)
Lemma ends_bind_val {A B : Type} (P : world D -> Prop) (N1 : A -> world D -> Prop)
  (m : M D A) (f : A -> M D B) (N : world D -> Prop) :
  hoare P m (post N1 finished (fun _ => ok 100)) ->
  (forall a, hoare (N1 a) (f a) (ends N)) ->
  hoare P (bind m f) (ends N).
Proof.
  intros Hm Hf. eapply hoare_bind; [exact Hm | exact Hf | auto | auto].
Qed.

Lemma ends_try_catch {A : Type} (P N : world D -> Prop) (m : M D A)
  (h : thrown -> M D A) :
  hoare P m (ends N) ->
  (forall e, hoare (ok 100) (h e) (ends N)) ->
  hoare P (try_catch m h) (ends N).
Proof.
  intros Hm Hh. eapply hoare_try_catch; [exact Hm | exact Hh | auto | auto].
Qed.

Lemma ends_try_finally {A : Type} (P N : world D -> Prop) (m : M D A) (f : M D unit) :
  hoare P m (ends N) ->
  (forall w, N w -> ok 100 w) ->
  (forall w, fst (f w) <> Return) ->
  inv N f -> inv finished f -> inv (ok 100) f ->
  hoare P (try_finally m f) (ends (A := A) N).
Proof.
  intros Hm HN Hnr HfN Hff Hfo. eapply hoare_try_finally; [exact Hm|].
  intros [a| |e] w Hw; simpl in Hw.
  - specialize (HfN w Hw). specialize (Hnr w).
    destruct (f w) as [[[]| |e] w']; simpl in *; auto. contradiction.
  - specialize (Hff w Hw). destruct (f w) as [[[]| |e] w']; simpl in *; auto.
    now right.
  - specialize (Hfo w Hw). specialize (Hnr w).
    destruct (f w) as [[[]| |e'] w']; simpl in *; auto. contradiction.
Qed.

(** A step that keeps [N] whatever happens and does not return. *)
Lemma inv_ends {A : Type} (N : world D -> Prop) (m : M D A) :
  inv N m -> never_returns m -> (forall w, N w -> ok 100 w) ->
  hoare N m (ends N).
Proof.
  intros Hi Hnr HN w Hw. specialize (Hi w Hw). specialize (Hnr w).
  destruct (m w) as [[a| |e] w']; simpl in *; auto. contradiction.
Qed.

Lemma send_ok (V : locals -> Prop) (hi p : Q) (m : string) :
  (forall w, open hi w -> V (vars w) -> (hi <= p)%Q /\ (p <= 100)%Q /\ shape n p) ->
  hoare (ok_with V hi) (sendProgress p m) (ends (ok_with V p)).
Proof.
  intros H w [[Ho Hv]|Hf]; unfold sendProgress, enqueue.
  - destruct (H w Ho Hv) as (H1 & H2 & H3).
    destruct Ho as (Hc & Ht & Hs & Hsh & Hvars & Hh).
    rewrite Hc. simpl. left. split; [|exact Hv].
    repeat split; simpl; auto.
    + rewrite terminals_app, Ht. reflexivity.
    + rewrite percents_app. simpl. apply nondecreasing_repeat_last.
      eapply nondecreasing_raise; eauto.
    + rewrite percents_app. apply Forall_app. split; auto.
      simpl. constructor; auto.
  - pose proof Hf as (Hc & _). rewrite Hc. simpl. now right.
Qed.

Lemma fail_ok (V : locals -> Prop) (hi : Q) (m : string) (d : option (list string)) :
  hoare (ok_with V hi) (fail_with m d)
    (post (fun _ => finished) (fun _ => False) (fun _ => finished)).
Proof.
  intros w [[Ho Hv]|Hf]; unfold fail_with, bind, enqueue, close.
  - destruct Ho as (Hc & Ht & Hs & Hsh & Hvars & Hh).
    rewrite Hc. simpl. split; [reflexivity|].
    exists (queue w), (ErrorEvent m d). repeat split; auto.
    + eapply nondecreasing_init; eauto.
    + simpl. discriminate.
  - pose proof Hf as (Hc & _). rewrite Hc. simpl. exact Hf.
Qed.

Lemma fail_return_ok {A : Type} (V : locals -> Prop) (hi : Q) (m : string)
  (d : option (list string)) (N : world D -> Prop) :
  hoare (ok_with V hi) (fail_with m d ;; early_return) (ends (A := A) N).
Proof.
  eapply hoare_bind; [apply fail_ok | | |]; simpl.
  - intros u w Hw. exact Hw.
  - intros w [].
  - intros e w Hw. now right.
Qed.

Lemma fail_ends (V : locals -> Prop) (hi : Q) (m : string) (d : option (list string)) :
  hoare (ok_with V hi) (fail_with m d) (ends finished).
Proof.
  eapply hoare_conseq; [apply (fail_ok V hi) | auto |].
  intros [[]| |e] w; simpl; auto. intros []. intros Hf. now right.
Qed.

Lemma finish_ok (V : locals -> Prop) (hi : Q) (summary : nat -> nat -> string) :
  (95 <= 100)%Q ->
  (forall w, open hi w -> V (vars w) -> (hi <= 95)%Q) ->
  hoare (ok_with V hi) (finish summary) (ends finished).
Proof.
  intros _ H w [[Ho Hv]|Hf]; unfold finish, bind, sendProgress, enqueue, read, close.
  - pose proof (H w Ho Hv) as Hle.
    destruct Ho as (Hc & Ht & Hs & Hsh & Hvars & Hh).
    rewrite Hc. simpl. split; [reflexivity|].
    eexists. eexists. split; [reflexivity|].
    repeat split.
    + rewrite !terminals_app, Ht. reflexivity.
    + rewrite !percents_app. simpl.
      apply (nondecreasing_raise _ 95); [|lra].
      apply nondecreasing_repeat_last. eapply nondecreasing_raise; eauto.
    + rewrite !percents_app. simpl. repeat (apply Forall_app; split); auto.
      * constructor; [|constructor].
        split; [split; lra | left; apply (is_integer_inject_Z 95)].
      * constructor; [|constructor].
        split; [split; lra | left; apply (is_integer_inject_Z 100)].
    + intros _. rewrite !percents_app. simpl. eexists. reflexivity.
  - pose proof Hf as (Hc & _). rewrite Hc. simpl. now right.
Qed.

(** Driver calls and assignments leave the stream alone. *)
Lemma ok_with_store_free (V : locals -> Prop) (hi : Q) : store_free (ok_with V hi).
Proof. intros w s l H. exact H. Qed.

Lemma finished_store_free : store_free finished.
Proof. intros w s l H. exact H. Qed.

Lemma perform_ok (V : locals -> Prop) (hi : Q) (c : call) :
  hoare (ok_with V hi) (perform c) (ends (ok_with V hi)).
Proof.
  apply inv_ends; [apply inv_perform, ok_with_store_free | apply nr_perform |].
  apply ok_with_ok.
Qed.

Lemma assign_ok (V V' : locals -> Prop) (hi : Q) (f : locals -> locals) :
  (forall v, totalRows v = sum_rows (parsedFiles v) -> V v ->
             totalRows (f v) = sum_rows (parsedFiles (f v)) /\ V' (f v)) ->
  hoare (ok_with V hi) (assign f) (ends (ok_with V' hi)).
Proof.
  intros H w [[Ho Hv]|Hf]; unfold assign; simpl; [left | now right].
  destruct Ho as (Hc & Ht & Hs & Hsh & Hvars & Hh).
  destruct (H _ Hvars Hv) as [H1 H2]. repeat split; auto.
Qed.

Lemma read_ok {A : Type} (V : locals -> Prop) (hi : Q) (f : locals -> A) :
  hoare (ok_with V hi) (read f)
    (post (fun a => ok_with (fun v => V v /\ a = f v) hi) finished (fun _ => ok 100)).
Proof.
  intros w [[Ho Hv]|Hf]; unfold read; simpl; [left | now right]. auto.
Qed.

End Stream.

(* ------------------------------------------------------------------ *)
(** ** Groups and plans *)

(** The rows held by a map, all groups together. *)
Definition map_size (m : RowMap) : nat :=
  list_sum (map (fun entry => List.length (snd entry)) m).

Lemma map_push_size (k : string) (v : row) (m : RowMap) :
  map_size (map_push k v m) = S (map_size m).
Proof.
  unfold map_size. induction m as [|[k' vs] m IH]; simpl; [reflexivity|].
  destruct (String.eqb k k'); simpl.
  - rewrite length_app. simpl. lia.
  - rewrite IH. lia.
Qed.

(** The generic grouping loop: [key] extracts the grouping value and
    [strip] is what is pushed. *)
Definition group_by (key : string) (strip : row -> row) (rows : list row) (m : RowMap)
  : RowMap :=
  fold_left
    (fun m row =>
       let k := get key row in
       if negb (truthy k) then m
       else match k with
            | Some k => map_push k (strip row) m
            | None => m
            end)
    rows m.

Lemma rowsByLabel_group_by (rows : list row) :
  rowsByLabel rows = group_by "LABEL" (omit "LABEL") rows [].
Proof. reflexivity. Qed.

Lemma rowsByType_group_by (rows : list row) :
  rowsByType rows = group_by "TYPE" (fun r => r) rows [].
Proof. reflexivity. Qed.

(** A row is kept by the grouping loop when its key is truthy. *)
Definition has_key (key : string) (r : row) : bool := truthy (get key r).

Lemma group_by_size (key : string) (strip : row -> row) (rows : list row) :
  forall m,
    map_size (group_by key strip rows m) =
    map_size m + List.length (filter (has_key key) rows).
Proof.
  unfold group_by, has_key.
  induction rows as [|r rows IH]; intros m; simpl; [lia|].
  rewrite IH. destruct (get key r) as [[|c s]|]; simpl; try lia.
  rewrite map_push_size. lia.
Qed.

(** Skipped rows leave the map as it is: grouping a file and grouping
    only its keyed rows give the same map. *)
Lemma group_by_filter (key : string) (strip : row -> row) (rows : list row) :
  forall m,
    group_by key strip rows m = group_by key strip (filter (has_key key) rows) m.
Proof.
  unfold group_by, has_key.
  induction rows as [|r rows IH]; intros m; simpl; [reflexivity|].
  destruct (get key r) as [[|c s]|] eqn:E; simpl; try apply IH.
  rewrite E. simpl. apply IH.
Qed.

(** Every row of every group was pushed for a keyed row of the input,
    under that row's key. *)
Definition from_keyed (key : string) (strip : row -> row) (rows : list row)
  (m : RowMap) : Prop :=
  forall k vs v, In (k, vs) m -> In v vs ->
    k <> "" /\ exists r, In r rows /\ get key r = Some k /\ v = strip r.

Lemma map_push_in (k : string) (v : row) (m : RowMap) (k' : string) (vs : list row)
  (v' : row) :
  In (k', vs) (map_push k v m) -> In v' vs ->
  (k' = k /\ v' = v) \/ exists vs0, In (k', vs0) m /\ In v' vs0.
Proof.
  induction m as [|[k0 vs0] m IH]; simpl.
  - intros [E|[]] Hv. inversion E; subst. destruct Hv as [<-|[]]. now left.
  - destruct (String.eqb_spec k k0) as [<-|Hne]; simpl.
    + intros [E|Hin] Hv.
      * inversion E; subst. apply in_app_or in Hv. destruct Hv as [Hv|[<-|[]]].
        -- right. exists vs0. auto.
        -- now left.
      * right. exists vs. auto.
    + intros [E|Hin] Hv.
      * inversion E; subst. right. exists vs. auto.
      * destruct (IH Hin Hv) as [H|(vs1 & H1 & H2)]; [now left|].
        right. exists vs1. auto.
Qed.

Lemma group_by_from_keyed (key : string) (strip : row -> row) (rows : list row) :
  forall done m,
    from_keyed key strip done m ->
    from_keyed key strip (done ++ rows) (group_by key strip rows m).
Proof.
  unfold group_by.
  induction rows as [|r rows IH]; intros done m Hm; simpl.
  - now rewrite app_nil_r.
  - replace (done ++ r :: rows) with ((done ++ [r]) ++ rows)
      by (rewrite <- app_assoc; reflexivity).
    apply IH. intros k vs v Hin Hv.
    assert (Hold : forall k vs v, In (k, vs) m -> In v vs ->
              k <> "" /\ exists r0, In r0 (done ++ [r]) /\ get key r0 = Some k /\ v = strip r0).
    { intros k0 vs0 v0 H1 H2. destruct (Hm k0 vs0 v0 H1 H2) as (Hk & r0 & Hr0 & Hg & Hs).
      split; [exact Hk|]. exists r0. split; [apply in_or_app; now left | auto]. }
    destruct (get key r) as [[|c s]|] eqn:E; simpl in Hin; eauto.
    destruct (map_push_in _ _ _ _ _ _ Hin Hv) as [[-> ->]|(vs0 & H1 & H2)]; eauto.
    split; [discriminate|]. exists r. split; [apply in_or_app; right; now left | auto].
Qed.

Lemma rowsByLabel_from_keyed (rows : list row) :
  from_keyed "LABEL" (omit "LABEL") rows (rowsByLabel rows).
Proof.
  apply (group_by_from_keyed "LABEL" (omit "LABEL") rows [] []).
  intros k vs v [].
Qed.

Lemma rowsByType_from_keyed (rows : list row) :
  from_keyed "TYPE" (fun r => r) rows (rowsByType rows).
Proof.
  apply (group_by_from_keyed "TYPE" (fun r => r) rows [] []).
  intros k vs v [].
Qed.

Lemma length_concat_sum (A : Type) (xss : list (list A)) :
  List.length (List.concat xss) = list_sum (map (@List.length A) xss).
Proof.
  induction xss as [|xs xss IH]; simpl; [reflexivity|].
  now rewrite length_app, IH.
Qed.

Lemma plan_rows_app (xs ys : list (string * list row)) :
  plan_rows (xs ++ ys) = plan_rows xs + plan_rows ys.
Proof. unfold plan_rows. now rewrite map_app, list_sum_app. Qed.

(** The batches of a plan hold the keyed rows of the files: never more
    rows than were parsed. *)
Lemma plan_rows_le (group : list row -> RowMap) (batchSize : nat)
  (files : list ParsedData) :
  (0 < batchSize)%nat ->
  (forall rows, map_size (group rows) <= List.length rows)%nat ->
  (plan_rows (plan group batchSize files) <= sum_rows files)%nat.
Proof.
  intros Hpos Hgroup. unfold plan, sum_rows.
  induction files as [|f files IH]; simpl; [apply le_n|].
  rewrite plan_rows_app.
  assert (H : plan_rows
            (flat_map (fun entry : string * list row =>
                         map (pair (fst entry)) (batches batchSize (snd entry)))
                      (group (rows f))) = map_size (group (rows f))).
  { generalize (group (rows f)). intros m. unfold map_size.
    induction m as [|[k vs] m IHm]; simpl; [reflexivity|].
    rewrite plan_rows_app, IHm. f_equal.
    unfold plan_rows. rewrite map_map. simpl.
    rewrite <- length_concat_sum, batches_concat by exact Hpos. reflexivity. }
  rewrite H. specialize (Hgroup (rows f)). lia.
Qed.

Lemma rowsByType_size (rows : list row) :
  (map_size (rowsByType rows) <= List.length rows)%nat.
Proof.
  rewrite rowsByType_group_by, group_by_size. simpl. apply filter_length_le.
Qed.

Lemma relationship_plan_rows_le (files : list ParsedData) :
  (plan_rows (relationship_plan files) <= sum_rows files)%nat.
Proof.
  apply plan_rows_le; [unfold relationshipBatchSize; lia | apply rowsByType_size].
Qed.

(* ------------------------------------------------------------------ *)
(** ** The stream of each route *)

Lemma hoare_ext {D : StoreDouble} {A : Type} (P : world D -> Prop) (m m' : M D A)
  (Q : outcome A -> world D -> Prop) :
  (forall w, m w = m' w) -> hoare P m' Q -> hoare P m Q.
Proof. intros E H w Hw. rewrite E. apply H, Hw. Qed.

Section StreamRoutes.

Context {D : StoreDouble}.

Variable n : nat.

Lemma shape_integer (z : Z) : (5 <= z <= 100)%Z -> shape n (inject_Z z).
Proof.
  intros [H1 H2]. split; [|left; apply is_integer_inject_Z].
  change 5%Q with (inject_Z 5). change 100%Q with (inject_Z 100).
  rewrite <- !Zle_Qle. lia.
Qed.

Lemma when_ok (c : bool) (m : M D unit) (P N : world D -> Prop) :
  hoare P m (ends n N) -> (forall w, P w -> N w) -> hoare P (when c m) (ends n N).
Proof. intros Hm HN. apply hoare_when; auto. Qed.

Lemma validate_ok (V : locals -> Prop) (hi : Q) (files : list File) (conn : Connection) :
  hoare (D := D) (ok_with n V hi) (validate_input files conn) (ends n (ok_with n V hi)).
Proof.
  unfold validate_input.
  eapply ends_bind.
  - apply when_ok; [apply fail_return_ok | intros ? H; exact H].
  - intros _. apply when_ok; [apply fail_return_ok | intros ? H; exact H].
Qed.

Lemma read_and_parse_ok (hi : Q) (file : File) :
  hoare (D := D) (ok n hi) (read_and_parse file) (ends n (ok n hi)).
Proof.
  intros w Hw. unfold read_and_parse. destruct (parse file); simpl; [|exact Hw].
  eapply ok_with_ok, Hw.
Qed.

Lemma push_parsed_ok (hi : Q) (file : File) (hs : list string) (r : ParseResult) :
  hoare (D := D) (ok n hi) (push_parsed file hs r) (ends n (ok n hi)).
Proof.
  unfold push_parsed. apply assign_ok. intros v Hv _. simpl. split; [|exact I].
  unfold sum_rows. rewrite map_app, list_sum_app, Hv. simpl. unfold sum_rows. lia.
Qed.

Lemma send_parsing_ok (i : nat) (m : string) :
  (i < n)%nat ->
  hoare (D := D) (ok n (parsing_percent i n)) (sendProgress (parsing_percent i n) m)
    (ends n (ok n (parsing_percent i n))).
Proof.
  intros Hi. apply send_ok. intros w _ _.
  pose proof (parsing_percent_bounds i n (Nat.lt_le_incl _ _ Hi)) as [H1 H2].
  repeat split; try lra. right. exists i. auto.
Qed.

Lemma parse_node_file_ok (i : nat) (file : File) :
  (i < n)%nat ->
  hoare (D := D) (ok n (parsing_percent i n)) (parse_node_file n i file)
    (ends n (ok n (parsing_percent i n))).
Proof.
  intros Hi. unfold parse_node_file. apply ends_try_catch.
  - eapply ends_bind; [now apply send_parsing_ok|]. intros _.
    eapply ends_bind; [apply read_and_parse_ok|]. intros parseResult. cbv zeta.
    eapply ends_bind;
      [apply when_ok; [unfold fail_no_headers; apply fail_return_ok | intros ? H; exact H]|].
    intros _.
    eapply ends_bind; [apply when_ok; [apply fail_return_ok | intros ? H; exact H]|]. intros _.
    apply push_parsed_ok.
  - intros e. unfold on_file_error. apply fail_return_ok.
Qed.

Lemma parse_relationship_file_ok (i : nat) (file : File) :
  (i < n)%nat ->
  hoare (D := D) (ok n (parsing_percent i n)) (parse_relationship_file n i file)
    (ends n (ok n (parsing_percent i n))).
Proof.
  intros Hi. unfold parse_relationship_file. apply ends_try_catch.
  - eapply ends_bind; [now apply send_parsing_ok|]. intros _.
    eapply ends_bind; [apply read_and_parse_ok|]. intros parseResult. cbv zeta.
    eapply ends_bind;
      [apply when_ok; [unfold fail_no_headers; apply fail_return_ok | intros ? H; exact H]|].
    intros _.
    eapply ends_bind; [apply when_ok; [apply fail_return_ok | intros ? H; exact H]|]. intros _.
    apply push_parsed_ok.
  - intros e. unfold on_file_error. apply fail_return_ok.
Qed.

Lemma parse_phase_ok (body : nat -> nat -> File -> M D unit) (files : list File) :
  List.length files = n ->
  (forall i file, (i < n)%nat ->
     hoare (D := D) (ok n (parsing_percent i n)) (body n i file)
       (ends n (ok n (parsing_percent i n)))) ->
  hoare (D := D) (ok n 5) (parse_phase body files) (ends n (ok n 20)).
Proof.
  intros Hn Hbody. unfold parse_phase.
  apply ends_bind with (N1 := ok n 5).
  { apply send_ok. intros w _ _. repeat split; try lra. apply (shape_integer 5). lia. }
  intros _. apply ends_bind with (N1 := ok n 5).
  { apply assign_ok. intros v _ _. simpl. split; [reflexivity | exact I]. }
  intros _. apply ends_bind with (N1 := ok n (parsing_percent n n)).
  { eapply hoare_conseq.
    - apply (hoare_for_index files (body (List.length files))
               (fun pre => ok n (parsing_percent (List.length pre) n))
               (finished n) (fun _ => ok n 100)).
      intros pre x suf Hfiles.
      assert (Hi : (List.length pre < n)%nat).
      { rewrite <- Hn, Hfiles, length_app. simpl. lia. }
      rewrite Hn. eapply hoare_conseq; [apply (Hbody _ x Hi) | auto |].
      intros [[]| |e] w; simpl; auto.
      intros Hw. eapply ok_with_weaken; [exact Hw | auto | |].
      + apply parsing_percent_mono. rewrite length_app. simpl. lia.
      + rewrite length_app. simpl.
        assert (Hle : (List.length pre + 1 <= n)%nat) by lia.
        pose proof (parsing_percent_bounds _ n Hle). lra.
    - intros w Hw. simpl. eapply ok_with_weaken; [exact Hw | auto | |].
      + rewrite (parsing_percent_0 n). lra.
      + rewrite (parsing_percent_0 n). lra.
    - intros o w Hw. rewrite Hn in Hw. exact Hw. }
  intros _. eapply ends_bind_val; [apply read_ok|]. intros total.
  apply ends_bind with (N1 := ok_with n (fun v => True /\ total = totalRows v) 15).
  { apply send_ok. intros w _ _.
    pose proof (parsing_percent_bounds n n (Nat.le_refl n)).
    repeat split; try lra. apply (shape_integer 15). lia. }
  intros _.
  apply hoare_conseq
    with (P' := ok_with n (fun v => True /\ total = totalRows v) 15)
         (Q' := ends n (ok_with n (fun v => True /\ total = totalRows v) 20)).
  - apply send_ok. intros w _ _.
    repeat split; try lra. apply (shape_integer 20). lia.
  - intros w H; exact H.
  - intros [[]| |e] w; simpl; auto.
    intros Hw. eapply ok_with_weaken; [exact Hw | auto | lra | lra].
Qed.

Lemma connect_ok (hi : Q) (conn : Connection) :
  hoare (D := D) (ok n hi) (connect conn)
    (ends n (ok_with n (fun v => processedRows v = 0%nat) hi)).
Proof.
  unfold connect. cbv zeta.
  apply ends_bind with (N1 := ok n hi); [apply perform_ok|]. intros _.
  apply ends_bind with (N1 := ok n hi).
  { apply assign_ok. intros v Hv _. simpl. auto. }
  intros _. apply ends_bind with (N1 := ok n hi); [apply perform_ok|]. intros _.
  apply assign_ok. intros v Hv _. simpl. auto.
Qed.

Lemma ok_with_assign_free (hi : Q) (f : locals -> locals) :
  (forall v, parsedFiles (f v) = parsedFiles v /\ totalRows (f v) = totalRows v) ->
  assign_free f (ok n hi : world D -> Prop).
Proof.
  intros Hf w [[Ho _]|Hfin]; [left | now right]. split; [|exact I].
  destruct Ho as (Hc & Ht & Hs & Hsh & Hvars & Hh).
  destruct (Hf (vars w)) as [H1 H2]. repeat split; simpl; auto. congruence.
Qed.

Lemma write_nodes_ok (hi : Q) :
  hoare (D := D) (ok n hi) write_nodes (ends n (ok n hi)).
Proof.
  apply inv_ends; [|apply nr_write_nodes | apply ok_with_ok].
  apply inv_write_nodes; [apply ok_with_store_free|].
  intros created. apply ok_with_assign_free. intros v. simpl. auto.
Qed.

Lemma stream_catch_all (m : string) (d : option (list string)) (w : world D) :
  ok n 100 w ->
  (finished n) (snd (fail_with m d w)).
Proof.
  intros Hw. pose proof (fail_ok n (fun _ => True) 100 m d w Hw) as H.
  destruct (fail_with m d w) as [[[]| |e] w']; simpl in *; tauto.
Qed.

(** The stream of the node route: however the run goes, it ends closed,
    after non-decreasing progress events and exactly one terminal event. *)
Lemma uploadNodes_finished (files : list File) (conn : Connection) :
  List.length files = n ->
  hoare (D := D) (ok n 5) (uploadNodes files conn) (fun _ => finished n).
Proof.
  intros Hn. unfold uploadNodes.
  apply hoare_try_catch with (Q' := ends n (finished n)).
  - apply ends_bind with (N1 := ok n 5); [apply validate_ok|]. intros _.
    apply ends_bind with (N1 := ok n 20).
    { apply parse_phase_ok; [exact Hn|]. intros i file Hi. now apply parse_node_file_ok. }
    intros _. apply ends_bind with (N1 := ok n 20).
    { apply assign_ok. intros v Hv _. simpl. auto. }
    intros _. apply ends_try_finally.
    + apply ends_try_catch.
      * apply ends_bind with (N1 := ok n 20).
        { eapply hoare_conseq; [apply (connect_ok 20) | auto |].
          intros [[]| |e] w; simpl; auto.
          intros Hw. eapply ok_with_weaken; [exact Hw | auto | lra | lra]. }
        intros _. apply ends_try_finally.
        -- apply ends_bind with (N1 := ok n 25).
           { apply send_ok. intros w _ _. repeat split; try lra.
             apply (shape_integer 25). lia. }
           intros _. apply ends_bind with (N1 := ok n 25); [apply write_nodes_ok|].
           intros _. apply finish_ok; [lra|]. intros w _ _. lra.
        -- apply finished_ok.
        -- apply nr_close_session.
        -- apply inv_close_session, finished_store_free.
        -- apply inv_close_session, finished_store_free.
        -- apply inv_close_session, ok_with_store_free.
      * intros e. apply fail_ends.
    + apply finished_ok.
    + apply nr_close_driver.
    + apply inv_close_driver, finished_store_free.
    + apply inv_close_driver, finished_store_free.
    + apply inv_close_driver, ok_with_store_free.
  - intros e w Hw. apply stream_catch_all. exact Hw.
  - intros a w Hw. exact Hw.
  - intros w Hw. exact Hw.
Qed.

Lemma ensure_index_ok (V : locals -> Prop) (hi : Q) :
  hoare (D := D) (ok_with n V hi) ensure_index (ends n (ok_with n V hi)).
Proof.
  apply inv_ends; [| |apply ok_with_ok].
  - apply inv_try_catch.
    + apply inv_bind; [apply inv_perform, ok_with_store_free | intros _; apply inv_ret].
    + intros e. apply inv_ret.
  - apply nr_try_catch.
    + apply nr_bind; [apply nr_perform | intros _; apply nr_ret].
    + intros e. apply nr_ret.
Qed.

(** What the writing loop of the relationship route knows after the
    batches [done]: the rows processed and the percent last sent. *)
Definition written (files : list ParsedData) (done : list (string * list row))
  : world D -> Prop :=
  ok_with n (fun v => processedRows v = plan_rows done /\ parsedFiles v = files)
    (writing_percent (plan_rows done) (sum_rows files)).

Lemma write_relationship_batch_ok (files : list ParsedData)
  (done : list (string * list row)) (type : string) (batch : list row) :
  never_retries D ->
  (plan_rows (done ++ [(type, batch)]) <= sum_rows files)%nat ->
  hoare (D := D) (written files done) (write_relationship_batch type batch)
    (ends n (written files (done ++ [(type, batch)]))).
Proof.
  intros Hone Hle. unfold write_relationship_batch.
  eapply hoare_ext; [intros w; apply executeWrite_once, Hone|].
  unfold transaction, written.
  set (V := fun v => processedRows v = plan_rows done /\ parsedFiles v = files).
  set (V' := fun v => processedRows v = plan_rows (done ++ [(type, batch)])
                      /\ parsedFiles v = files).
  set (hi := writing_percent (plan_rows done) (sum_rows files)).
  set (hi' := writing_percent (plan_rows (done ++ [(type, batch)])) (sum_rows files)).
  assert (Hplan : plan_rows (done ++ [(type, batch)]) = plan_rows done + List.length batch).
  { rewrite plan_rows_app. unfold plan_rows at 2. simpl. lia. }
  apply ends_bind with (N1 := ok_with n V' hi').
  - destruct batch as [|sampleRow rest].
    + intros w Hw. simpl. eapply ok_with_ok, Hw.
    + apply ends_bind with (N1 := ok_with n V hi); [apply perform_ok|]. intros result.
      cbv zeta. apply ends_bind with (N1 := ok_with n V' hi).
      { apply assign_ok. intros v Hv [HV1 HV2]. simpl. repeat split; auto.
        rewrite Hplan, HV1. reflexivity. }
      intros _. eapply ends_bind_val; [apply read_ok|]. intros processed.
      eapply ends_bind_val; [apply read_ok|]. intros total.
      assert (Hval : forall w : world D,
                open n hi w ->
                ((V' (vars w) /\ processed = processedRows (vars w))
                 /\ total = totalRows (vars w)) ->
                writing_percent processed total = hi').
      { intros w Ho [[[HV1 HV2] Hp] Ht].
        destruct Ho as (_ & _ & _ & _ & Hvars & _).
        unfold hi'. rewrite Ht, Hvars, HV2, Hp, HV1. reflexivity. }
      eapply hoare_conseq.
      * apply send_ok with (p := writing_percent processed total)
                           (V := fun v => (V' v /\ processed = processedRows v)
                                          /\ total = totalRows v)
                           (hi := hi).
        intros w Ho HV. rewrite (Hval w Ho HV).
        pose proof (writing_percent_bounds _ _ Hle) as [Hb1 Hb2].
        fold hi' in Hb1, Hb2. repeat split; try lra.
        -- apply writing_percent_mono. lia.
        -- left. apply is_integer_inject_Z.
      * intros w Hw. exact Hw.
      * intros [[]| |e] w; simpl; auto. intros [[Ho HV]|Hf]; [|now right].
        left. split; [|apply HV].
        assert (E : writing_percent processed total = hi').
        { destruct HV as [[[HV1 HV2] Hp] Ht].
          destruct Ho as (_ & _ & _ & _ & Hvars & _).
          unfold hi'. rewrite Ht, Hvars, HV2, Hp, HV1. reflexivity. }
        rewrite <- E. exact Ho.
  - intros _. apply ends_bind with (N1 := ok_with n V' hi'); [apply perform_ok|].
    intros _ w Hw. exact Hw.
Qed.

Lemma write_relationships_ok :
  never_retries D ->
  hoare (D := D) (ok_with n (fun v => processedRows v = 0%nat) 30) write_relationships
    (ends n (ok n 95)).
Proof.
  intros Hone. unfold write_relationships.
  eapply ends_bind_val; [apply read_ok|]. intros files.
  eapply hoare_ext.
  { intros w. apply (nested_loops_plan rowsByType relationshipBatchSize
                       write_relationship_batch files w). }
  fold (relationship_plan files).
  eapply hoare_conseq.
  - apply (hoare_for_of (relationship_plan files)
             (fun kb => write_relationship_batch (fst kb) (snd kb))
             (written files) (finished n) (fun _ => ok n 100)).
    intros pre [type batch] suf Hplan. simpl.
    apply write_relationship_batch_ok; [exact Hone|].
    pose proof (relationship_plan_rows_le files) as Hle.
    rewrite Hplan in Hle.
    replace (pre ++ (type, batch) :: suf) with ((pre ++ [(type, batch)]) ++ suf) in Hle
      by (rewrite <- app_assoc; reflexivity).
    rewrite plan_rows_app in Hle. lia.
  - intros w [[Ho [H0 Hfiles]]|Hf]; [left | now right].
    unfold plan_rows. simpl. rewrite writing_percent_0. auto.
  - intros [[]| |e] w; simpl; auto. intros Hw.
    pose proof (writing_percent_bounds _ _ (relationship_plan_rows_le files)) as [H1 H2].
    eapply ok_with_weaken; [exact Hw | auto | exact H2 | lra].
Qed.

(** The stream of the relationship route, when the driver runs no unit of
    work again. *)
Lemma uploadRelationships_finished (files : list File) (conn : Connection) :
  never_retries D ->
  List.length files = n ->
  hoare (D := D) (ok n 5) (uploadRelationships files conn) (fun _ => finished n).
Proof.
  intros Hone Hn. unfold uploadRelationships.
  apply hoare_try_catch with (Q' := ends n (finished n)).
  - apply ends_bind with (N1 := ok n 5); [apply validate_ok|]. intros _.
    apply ends_bind with (N1 := ok n 20).
    { apply parse_phase_ok; [exact Hn|]. intros i file Hi.
      now apply parse_relationship_file_ok. }
    intros _. apply ends_bind with (N1 := ok n 20).
    { apply assign_ok. intros v Hv _. simpl. auto. }
    intros _. apply ends_try_finally.
    + apply ends_try_catch.
      * apply ends_bind with (N1 := ok_with n (fun v => processedRows v = 0%nat) 20);
          [apply connect_ok|].
        intros _. apply ends_try_finally.
        -- apply ends_bind with (N1 := ok_with n (fun v => processedRows v = 0%nat) 25).
           { apply send_ok. intros w _ _. repeat split; try lra.
             apply (shape_integer 25). lia. }
           intros _.
           apply ends_bind with (N1 := ok_with n (fun v => processedRows v = 0%nat) 25);
             [apply ensure_index_ok|].
           intros _.
           apply ends_bind with (N1 := ok_with n (fun v => processedRows v = 0%nat) 30).
           { apply send_ok. intros w _ _. repeat split; try lra.
             apply (shape_integer 30). lia. }
           intros _. apply ends_bind with (N1 := ok n 95);
             [apply write_relationships_ok, Hone|].
           intros _. apply finish_ok; [lra|]. intros w _ _. lra.
        -- apply finished_ok.
        -- apply nr_close_session.
        -- apply inv_close_session, finished_store_free.
        -- apply inv_close_session, finished_store_free.
        -- apply inv_close_session, ok_with_store_free.
      * intros e. apply fail_ends.
    + apply finished_ok.
    + apply nr_close_driver.
    + apply inv_close_driver, finished_store_free.
    + apply inv_close_driver, finished_store_free.
    + apply inv_close_driver, ok_with_store_free.
  - intros e w Hw. apply stream_catch_all. exact Hw.
  - intros a w Hw. exact Hw.
  - intros w Hw. exact Hw.
Qed.

Lemma initial_ok (s : St D) : ok n 5 (initial s).
Proof.
  left. split; [|exact I]. repeat split; simpl; auto. lra.
Qed.

End StreamRoutes.

(* ------------------------------------------------------------------ *)
(** ** What each phase leaves untouched *)

Section Footprints.

Context {D : StoreDouble}.

(** An invariant that does not read the local variables. *)
Definition vars_free (I : world D -> Prop) : Prop :=
  forall w v, I w -> I (mkWorld (closed w) (queue w) (db w) (calls w) v).

Lemma vars_free_assign (I : world D -> Prop) (f : locals -> locals) :
  vars_free I -> assign_free f I.
Proof. intros HI w Hw. apply HI, Hw. Qed.

(** The parsing phase performs no driver call. *)
Lemma inv_parse_file (I : world D -> Prop) (n i : nat) (file : File) :
  stream_free I -> vars_free I ->
  inv I (parse_node_file n i file) /\ inv I (parse_relationship_file n i file).
Proof.
  intros Hs Hv.
  assert (Hfail : forall m d, inv I (fail_with m d ;; @early_return D unit)).
  { intros m d. apply inv_bind; [now apply inv_fail_with | intros _; apply inv_early_return]. }
  assert (Hread : inv I (read_and_parse file)).
  { unfold read_and_parse. destruct (parse file); [apply inv_throw | apply inv_ret]. }
  split; apply inv_try_catch;
    try (intros e; unfold on_file_error; apply Hfail).
  - apply inv_bind; [now apply inv_sendProgress|]. intros _.
    apply inv_bind; [exact Hread|]. intros parseResult. cbv zeta.
    apply inv_bind; [apply inv_when, Hfail|]. intros _.
    apply inv_bind; [apply inv_when, Hfail|]. intros _.
    apply inv_assign, vars_free_assign, Hv.
  - apply inv_bind; [now apply inv_sendProgress|]. intros _.
    apply inv_bind; [exact Hread|]. intros parseResult. cbv zeta.
    apply inv_bind; [apply inv_when, Hfail|]. intros _.
    apply inv_bind; [apply inv_when, Hfail|]. intros _.
    apply inv_assign, vars_free_assign, Hv.
Qed.

Lemma inv_parse_phase (I : world D -> Prop) (body : nat -> nat -> File -> M D unit)
  (files : list File) :
  stream_free I -> vars_free I ->
  (forall n i file, inv I (body n i file)) ->
  inv I (parse_phase body files).
Proof.
  intros Hs Hv Hb. unfold parse_phase.
  apply inv_bind; [now apply inv_sendProgress|]. intros _.
  apply inv_bind; [apply inv_assign, vars_free_assign, Hv|]. intros _.
  apply inv_bind; [apply inv_for_index; intros i x; apply Hb|]. intros _.
  apply inv_bind; [apply inv_read|]. intros total.
  apply inv_bind; [now apply inv_sendProgress | intros _; now apply inv_sendProgress].
Qed.

Lemma inv_finish (I : world D -> Prop) (summary : nat -> nat -> string) :
  stream_free I -> inv I (finish summary).
Proof.
  intros Hs. unfold finish.
  apply inv_bind; [now apply inv_sendProgress|]. intros _.
  apply inv_bind; [apply inv_read|]. intros files.
  apply inv_bind; [apply inv_read|]. intros total.
  apply inv_bind; [now apply inv_sendProgress|]. intros _.
  apply inv_bind; [now apply inv_enqueue | intros _; now apply inv_close].
Qed.

(** The writing loops only perform [tx.run] and commit calls. *)
Lemma inv_write_nodes_calls (I : world D -> Prop) :
  (forall label batch, inv I (perform (TxRun (CreateNodes label) batch))) ->
  inv I (perform TxCommit) ->
  (forall created,
     assign_free (fun v => mkLocals (parsedFiles v) (totalRows v) (driver v)
                             (totalCreated v + created) (processedRows v)) I) ->
  inv I write_nodes.
Proof.
  intros Hrun Hcommit Ha. unfold write_nodes.
  apply inv_bind; [apply inv_read|]. intros files.
  apply inv_for_of. intros parsedFile _.
  apply inv_for_of. intros [label rs] _.
  apply inv_for_batches. intros batch.
  unfold write_node_batch. apply inv_executeWrite; [|exact Hcommit].
  apply inv_bind; [apply Hrun|]. intros result. apply inv_assign, Ha.
Qed.

Lemma inv_write_relationships_calls (I : world D -> Prop) :
  stream_free I ->
  (forall type keys batch,
     inv I (perform (TxRun (CreateRelationships type keys) batch))) ->
  inv I (perform TxCommit) ->
  (forall created rows,
     assign_free (fun v => mkLocals (parsedFiles v) (totalRows v) (driver v)
                             (totalCreated v + created) (processedRows v + rows)) I) ->
  inv I write_relationships.
Proof.
  intros Hs Hrun Hcommit Ha. unfold write_relationships.
  apply inv_bind; [apply inv_read|]. intros files.
  apply inv_for_of. intros parsedFile _.
  apply inv_for_of. intros [type rs] _.
  apply inv_for_batches. intros batch.
  unfold write_relationship_batch. apply inv_executeWrite; [|exact Hcommit].
  destruct batch as [|sampleRow rest]; [apply inv_throw|].
  apply inv_bind; [apply Hrun|]. intros result. cbv zeta.
  apply inv_bind; [apply inv_assign, Ha|]. intros _.
  apply inv_bind; [apply inv_read|]. intros processed.
  apply inv_bind; [apply inv_read|]. intros total.
  now apply inv_sendProgress.
Qed.

Lemma inv_ensure_index (I : world D -> Prop) :
  inv I (perform (SessionRun CreateIndex)) -> inv I ensure_index.
Proof.
  intros H. apply inv_try_catch.
  - apply inv_bind; [exact H | intros _; apply inv_ret].
  - intros e. apply inv_ret.
Qed.

End Footprints.

(* ------------------------------------------------------------------ *)
(** ** The driver calls of a run *)

(** The calls made inside an open session. *)
Definition is_work (entry : call * answer) : Prop :=
  match fst entry with
  | SessionRun _ | TxRun _ _ | TxCommit => True
  | _ => False
  end.

(** The shapes the call log of a finished run can have. *)
Inductive released : list (call * answer) -> Prop :=
| released_idle :
    released []
| released_no_driver (url user pass : string) (e : thrown) :
    released [(Driver url user pass, inl e)]
| released_no_session (url user pass : string) (r : option nat) (e : thrown)
    (a : answer) :
    released [(Driver url user pass, inr r); (Session, inl e); (DriverClose, a)]
| released_session (url user pass : string) (r r' : option nat)
    (work : list (call * answer)) (a a' : answer) :
    Forall is_work work ->
    released ((Driver url user pass, inr r) :: (Session, inr r') :: work
              ++ [(SessionClose, a); (DriverClose, a')]).

Section Calls.

Context {D : StoreDouble}.

Definition idle (w : world D) : Prop := calls w = [].

Definition no_driver (w : world D) : Prop :=
  (exists url user pass e, calls w = [(Driver url user pass, inl e)]) /\
  driver (vars w) = false.

Definition no_session (w : world D) : Prop :=
  (exists url user pass r e,
     calls w = [(Driver url user pass, inr r); (Session, inl e)]) /\
  driver (vars w) = true.

Definition in_session (w : world D) : Prop :=
  (exists url user pass r r' work,
     calls w = (Driver url user pass, inr r) :: (Session, inr r') :: work /\
     Forall is_work work) /\
  driver (vars w) = true.

Definition session_closed (w : world D) : Prop :=
  (exists url user pass r r' work a,
     calls w = (Driver url user pass, inr r) :: (Session, inr r') :: work
               ++ [(SessionClose, a)] /\
     Forall is_work work) /\
  driver (vars w) = true.

Definition before_close_driver (w : world D) : Prop :=
  no_driver w \/ no_session w \/ session_closed w.

Lemma connect_calls (conn : Connection) :
  hoare (D := D) (fun w => idle w /\ driver (vars w) = false) (connect conn)
    (post (fun _ => in_session) (fun _ => False) (fun _ w => no_driver w \/ no_session w)).
Proof.
  intros w [Hc Hd]. unfold idle in Hc.
  unfold connect, bind, perform, assign. cbv zeta. rewrite Hc.
  destruct (respond D (Driver _ _ _) (db w)) as [[e|r] s]; simpl.
  - left. split; [|exact Hd]. simpl. do 4 eexists. reflexivity.
  - destruct (respond D Session s) as [[e|r'] s']; simpl.
    + right. split; [|reflexivity]. simpl. do 5 eexists. reflexivity.
    + split; [|reflexivity]. do 6 eexists. split; [reflexivity|]. constructor.
Qed.

Lemma in_session_work (c : call) :
  is_work (c, inr None) -> inv (D := D) in_session (perform c).
Proof.
  intros Hc w [(url & user & pass & r & r' & work & Hcalls & Hwork) Hd].
  unfold perform. destruct (respond D c (db w)) as [a s].
  assert (H : in_session (mkWorld (closed w) (queue w) s (calls w ++ [(c, a)]) (vars w))).
  { split; [|exact Hd]. simpl. exists url, user, pass, r, r', (work ++ [(c, a)]).
    split; [rewrite Hcalls; reflexivity|].
    apply Forall_app. split; [exact Hwork|]. constructor; [|constructor].
    exact Hc. }
  destruct a; exact H.
Qed.

Lemma in_session_stream_free : stream_free (D := D) in_session.
Proof. intros w c q H. exact H. Qed.

Lemma in_session_assign_free (f : locals -> locals) :
  (forall v, driver (f v) = driver v) -> assign_free (D := D) f in_session.
Proof.
  intros Hf w [H Hd]. split; [exact H|]. simpl. rewrite Hf. exact Hd.
Qed.

Lemma close_session_calls :
  hoare (D := D) in_session close_session (fun _ => session_closed).
Proof.
  intros w [(url & user & pass & r & r' & work & Hcalls & Hwork) Hd].
  unfold close_session, bind, perform.
  destruct (respond D SessionClose (db w)) as [a s].
  assert (H : session_closed
                (mkWorld (closed w) (queue w) s (calls w ++ [(SessionClose, a)]) (vars w))).
  { split; [|exact Hd]. simpl. exists url, user, pass, r, r', work, a.
    split; [rewrite Hcalls; reflexivity | exact Hwork]. }
  destruct a; exact H.
Qed.

Lemma before_close_driver_stream_free : stream_free (D := D) before_close_driver.
Proof. intros w c q H. exact H. Qed.

Lemma close_driver_calls :
  hoare (D := D) before_close_driver close_driver (fun _ w => released (calls w)).
Proof.
  intros w Hw. unfold close_driver, bind, read, when, perform.
  destruct Hw as [[(url & user & pass & e & Hc) Hd]|
                  [[(url & user & pass & r & e & Hc) Hd]|
                   [(url & user & pass & r & r' & work & a & Hc & Hwork) Hd]]];
    rewrite Hd; simpl.
  - rewrite Hc. constructor.
  - destruct (respond D DriverClose (db w)) as [[e'|r'] s]; simpl;
      rewrite Hc; constructor.
  - destruct (respond D DriverClose (db w)) as [[e'|r''] s]; simpl;
      rewrite Hc; simpl; rewrite <- app_assoc; simpl; now constructor.
Qed.

Lemma released_stream_free :
  stream_free (D := D) (fun w => released (calls w)).
Proof. intros w c q H. exact H. Qed.

(** The skeleton shared by both routes. *)
Lemma route_calls (files : list File) (conn : Connection)
  (body : nat -> nat -> File -> M D unit) (writing : M D unit)
  (m : string) (m' : string) :
  (forall I : world D -> Prop,
     stream_free I -> vars_free I -> forall k i file, inv I (body k i file)) ->
  inv in_session writing ->
  hoare (D := D) idle
    (try_catch
       (validate_input files conn ;;
        parse_phase body files ;;
        assign (fun v => mkLocals (parsedFiles v) (totalRows v) false
                           (totalCreated v) (processedRows v)) ;;
        try_finally
          (try_catch
             (connect conn ;; try_finally writing close_session)
             (fun neo4jError =>
                fail_with m (Some [message_or "Unknown Neo4j error" neo4jError])))
          close_driver)
       (fun error =>
          fail_with m' (Some [message_or "Unknown error occurred" error])))
    (fun _ w => released (calls w)).
Proof.
  intros Hbody Hwriting.
  assert (Hidle_s : stream_free (D := D) idle) by (intros w c q H; exact H).
  assert (Hidle_v : vars_free (D := D) idle) by (intros w v H; exact H).
  assert (Hidle_r : forall w : world D, idle w -> released (calls w)).
  { intros w H. unfold idle in H. rewrite H. constructor. }
  apply hoare_try_catch with (Q' := fun _ w => released (calls w)); auto.
  - apply hoare_bind with (Q' := fun _ => idle); auto.
    { now apply inv_validate_input. }
    intros ?; simpl. apply hoare_bind with (Q' := fun _ => idle); auto.
    { apply inv_parse_phase; auto. }
    intros ?; simpl.
    apply hoare_bind with (Q' := fun _ w => idle w /\ driver (vars w) = false).
    { intros w Hw. unfold assign. simpl. split; [exact Hw | reflexivity]. }
    2: { intros w [Hw _]. auto. }
    2: { intros e w [Hw _]. auto. }
    intros ?; simpl. apply hoare_try_finally with (Q' := fun _ => before_close_driver).
    + apply hoare_try_catch with (Q' := fun _ => before_close_driver); auto.
      * apply hoare_bind
          with (Q' := post (fun _ => in_session) (fun _ => False)
                        (fun _ w => no_driver w \/ no_session w)).
        -- apply connect_calls.
        -- intros ?; simpl. simpl.
           apply hoare_try_finally with (Q' := fun _ => in_session).
           ++ exact Hwriting.
           ++ intros o w Hw. pose proof (close_session_calls w Hw) as H.
              unfold before_close_driver.
              destruct (close_session w) as [[[]| |e] w']; simpl in *; auto.
        -- simpl. intros w [].
        -- simpl. intros e w [H|H]; unfold before_close_driver; auto.
      * intros e. apply inv_fail_with, before_close_driver_stream_free.
    + intros o w Hw. pose proof (close_driver_calls w Hw) as H.
      destruct (close_driver w) as [[[]| |e] w']; simpl in *; auto.
  - intros e. apply inv_fail_with, released_stream_free.
Qed.

Lemma uploadNodes_calls (files : list File) (conn : Connection) :
  hoare (D := D) idle (uploadNodes files conn) (fun _ w => released (calls w)).
Proof.
  unfold uploadNodes. apply route_calls.
  - intros I Hs Hv k i file. now apply inv_parse_file.
  - apply inv_bind; [apply inv_sendProgress, in_session_stream_free|]. intros _.
    apply inv_bind; [|intros _; apply inv_finish, in_session_stream_free].
    apply inv_write_nodes_calls.
    + intros label batch. now apply in_session_work.
    + now apply in_session_work.
    + intros created. now apply in_session_assign_free.
Qed.

Lemma uploadRelationships_calls (files : list File) (conn : Connection) :
  hoare (D := D) idle (uploadRelationships files conn) (fun _ w => released (calls w)).
Proof.
  unfold uploadRelationships. apply route_calls.
  - intros I Hs Hv k i file. now apply inv_parse_file.
  - apply inv_bind; [apply inv_sendProgress, in_session_stream_free|]. intros _.
    apply inv_bind; [apply inv_ensure_index; now apply in_session_work|]. intros _.
    apply inv_bind; [apply inv_sendProgress, in_session_stream_free|]. intros _.
    apply inv_bind; [|intros _; apply inv_finish, in_session_stream_free].
    apply inv_write_relationships_calls.
    + apply in_session_stream_free.
    + intros type ks batch. now apply in_session_work.
    + now apply in_session_work.
    + intros created rs. now apply in_session_assign_free.
Qed.

End Calls.

(* ------------------------------------------------------------------ *)
(** ** One terminal event, whatever the percents *)

Section Terminal.

Context {D : StoreDouble}.

(** The stream is open and holds progress events only. *)
Definition live (w : world D) : Prop :=
  closed w = false /\ terminals (queue w) = [].

(** The stream is closed: progress events, then one terminal event;
    before a summary the last percent is 100. *)
Definition ended (w : world D) : Prop :=
  closed w = true /\
  exists es t,
    queue w = es ++ [t] /\
    is_terminal t = true /\
    terminals es = [] /\
    (is_success t = true -> exists ps, percents es = ps ++ [100%Q]).

Definition sound (w : world D) : Prop := live w \/ ended w.

(** A step keeps the stream sound, and leaves it ended when it returns. *)
Definition tame {A : Type} (m : M D A) : Prop :=
  hoare sound m (post (fun _ => sound) ended (fun _ => sound)).

(** A step after which the stream is ended, unless the step throws. *)
Definition ending {A : Type} (m : M D A) : Prop :=
  hoare sound m (post (fun _ => ended) ended (fun _ => sound)).

Lemma ended_sound (w : world D) : ended w -> sound w.
Proof. intros H. now right. Qed.

Lemma tame_inv {A : Type} (m : M D A) : inv sound m -> never_returns m -> tame m.
Proof.
  intros Hi Hnr w Hw. specialize (Hi w Hw). specialize (Hnr w).
  destruct (m w) as [[a| |e] w']; simpl in *; auto. contradiction.
Qed.

Lemma sound_store_free : store_free sound.
Proof. intros w s l H. exact H. Qed.

Lemma ended_store_free : store_free ended.
Proof. intros w s l H. exact H. Qed.

Lemma sound_assign_free (f : locals -> locals) : assign_free f sound.
Proof. intros w H. exact H. Qed.

Lemma tame_ret {A : Type} (a : A) : tame (@ret D A a).
Proof. apply tame_inv; [apply inv_ret | apply nr_ret]. Qed.

Lemma tame_throw {A : Type} (e : thrown) : tame (@throw D A e).
Proof. apply tame_inv; [apply inv_throw | apply nr_throw]. Qed.

Lemma tame_read {A : Type} (f : locals -> A) : tame (@read D A f).
Proof. apply tame_inv; [apply inv_read | apply nr_read]. Qed.

Lemma tame_assign (f : locals -> locals) : tame (@assign D f).
Proof. apply tame_inv; [apply inv_assign, sound_assign_free | apply nr_assign]. Qed.

Lemma tame_perform (c : call) : tame (@perform D c).
Proof. apply tame_inv; [apply inv_perform, sound_store_free | apply nr_perform]. Qed.

Lemma tame_sendProgress (p : Q) (m : string) : tame (@sendProgress D p m).
Proof.
  intros w [[Hc Ht]|He]; unfold sendProgress, enqueue.
  - rewrite Hc. simpl. left. split; [reflexivity|].
    simpl. rewrite terminals_app, Ht. reflexivity.
  - pose proof He as (Hc & _). rewrite Hc. simpl. now right.
Qed.

Lemma tame_bind {A B : Type} (m : M D A) (f : A -> M D B) :
  tame m -> (forall a, tame (f a)) -> tame (bind m f).
Proof. intros Hm Hf. eapply hoare_bind; [exact Hm | exact Hf | auto | auto]. Qed.

Lemma tame_try_catch {A : Type} (m : M D A) (h : thrown -> M D A) :
  tame m -> (forall e, tame (h e)) -> tame (try_catch m h).
Proof.
  intros Hm Hh. eapply hoare_try_catch; [exact Hm | exact Hh | auto | auto].
Qed.

Lemma tame_when (c : bool) (m : M D unit) : tame m -> tame (when c m).
Proof. destruct c; simpl; [auto | intros _; apply tame_ret]. Qed.

Lemma tame_for_of {A : Type} (xs : list A) (body : A -> M D unit) :
  (forall x, tame (body x)) -> tame (for_of xs body).
Proof.
  intros Hb. induction xs as [|x xs IH]; simpl; [apply tame_ret|].
  apply tame_bind; [apply Hb | intros _; exact IH].
Qed.

Lemma tame_for_index {A : Type} (xs : list A) (body : nat -> A -> M D unit) :
  (forall i x, tame (body i x)) -> forall i, tame (for_index i xs body).
Proof.
  intros Hb. induction xs as [|x xs IH]; intros i; simpl; [apply tame_ret|].
  apply tame_bind; [apply Hb | intros _; apply IH].
Qed.

Lemma tame_for_batches (batchSize : nat) (rows : list row)
  (body : list row -> M D unit) :
  (forall batch, tame (body batch)) -> tame (for_batches batchSize rows body).
Proof.
  intros Hb. unfold for_batches. generalize 0. generalize (List.length rows) at 1.
  intros fuel. induction fuel as [|fuel IH]; intros i; simpl; [apply tame_ret|].
  destruct (i <? List.length rows)%nat; [|apply tame_ret].
  apply tame_bind; [apply Hb | intros _; apply IH].
Qed.

(** A managed transaction is tame when its unit of work is, however many
    attempts it takes. *)
Lemma tame_executeWrite (work : M D unit) : tame work -> tame (executeWrite work).
Proof.
  intros Hwork.
  assert (H : tame (transaction work)).
  { apply tame_bind; [exact Hwork|]. intros _.
    apply tame_bind; [apply tame_perform | intros _; apply tame_ret]. }
  unfold executeWrite. induction (patience D) as [|retries IH]; simpl; [exact H|].
  apply tame_try_catch; [exact H|]. intros e.
  destruct (retryable D e); [exact IH | apply tame_throw].
Qed.

(** The error path ends the stream. *)
Lemma fail_with_ends (m : string) (d : option (list string)) :
  hoare sound (@fail_with D m d)
    (post (fun _ => ended) (fun _ => False) (fun _ => ended)).
Proof.
  intros w [[Hc Ht]|He]; unfold fail_with, bind, enqueue, close.
  - rewrite Hc. simpl. split; [reflexivity|].
    exists (queue w), (ErrorEvent m d). repeat split; auto. discriminate.
  - pose proof He as (Hc & _). rewrite Hc. simpl. exact He.
Qed.

Lemma ending_fail_with (m : string) (d : option (list string)) :
  ending (@fail_with D m d).
Proof.
  eapply hoare_conseq; [apply fail_with_ends | auto |].
  intros [[]| |e] w; simpl; auto. intros []. apply ended_sound.
Qed.

Lemma tame_fail_return {A : Type} (m : string) (d : option (list string)) :
  tame (fail_with m d ;; @early_return D A).
Proof.
  eapply hoare_bind; [apply fail_with_ends | | |]; simpl.
  - intros u w Hw. exact Hw.
  - intros w [].
  - intros e w Hw. now right.
Qed.

(** So does the success tail, after a last percent of 100. *)
Lemma ending_finish (summary : nat -> nat -> string) : ending (@finish D summary).
Proof.
  intros w [[Hc Ht]|He]; unfold finish, bind, sendProgress, enqueue, read, close.
  - rewrite Hc. simpl. split; [reflexivity|].
    eexists. eexists. split; [reflexivity|]. repeat split.
    + rewrite !terminals_app, Ht. reflexivity.
    + intros _. rewrite !percents_app. simpl. eexists. reflexivity.
  - pose proof He as (Hc & _). rewrite Hc. simpl. now right.
Qed.

Lemma ending_bind {A B : Type} (m : M D A) (f : A -> M D B) :
  tame m -> (forall a, ending (f a)) -> ending (bind m f).
Proof. intros Hm Hf. eapply hoare_bind; [exact Hm | exact Hf | auto | auto]. Qed.

Lemma ending_try_catch {A : Type} (m : M D A) (h : thrown -> M D A) :
  ending m -> (forall e, ending (h e)) -> ending (try_catch m h).
Proof.
  intros Hm Hh. eapply hoare_try_catch; [exact Hm | exact Hh | auto | auto].
Qed.

Lemma ending_try_finally {A : Type} (m : M D A) (f : M D unit) :
  ending m -> never_returns f -> inv ended f -> inv sound f ->
  ending (try_finally m f).
Proof.
  intros Hm Hnr Hfe Hfs. eapply hoare_try_finally; [exact Hm|].
  intros [a| |e] w Hw; simpl in Hw.
  - specialize (Hfe w Hw). specialize (Hnr w).
    destruct (f w) as [[[]| |e] w']; simpl in *; auto; try contradiction.
    now right.
  - specialize (Hfe w Hw). destruct (f w) as [[[]| |e] w']; simpl in *; auto.
    now right.
  - specialize (Hfs w Hw). specialize (Hnr w).
    destruct (f w) as [[[]| |e'] w']; simpl in *; auto. contradiction.
Qed.

Lemma tame_validate_input (files : list File) (conn : Connection) :
  tame (@validate_input D files conn).
Proof.
  unfold validate_input.
  apply tame_bind; [|intros _]; apply tame_when, tame_fail_return.
Qed.

Lemma tame_parse_file (n i : nat) (file : File) :
  tame (@parse_node_file D n i file) /\ tame (@parse_relationship_file D n i file).
Proof.
  assert (Hread : tame (@read_and_parse D file)).
  { unfold read_and_parse. destruct (parse file); [apply tame_throw | apply tame_ret]. }
  split; apply tame_try_catch;
    try (intros e; unfold on_file_error; apply tame_fail_return).
  - apply tame_bind; [apply tame_sendProgress|]. intros _.
    apply tame_bind; [exact Hread|]. intros parseResult. cbv zeta.
    apply tame_bind; [apply tame_when, tame_fail_return|]. intros _.
    apply tame_bind; [apply tame_when, tame_fail_return|]. intros _.
    apply tame_assign.
  - apply tame_bind; [apply tame_sendProgress|]. intros _.
    apply tame_bind; [exact Hread|]. intros parseResult. cbv zeta.
    apply tame_bind; [apply tame_when, tame_fail_return|]. intros _.
    apply tame_bind; [apply tame_when, tame_fail_return|]. intros _.
    apply tame_assign.
Qed.

Lemma tame_parse_phase (body : nat -> nat -> File -> M D unit) (files : list File) :
  (forall n i file, tame (body n i file)) -> tame (parse_phase body files).
Proof.
  intros Hb. unfold parse_phase.
  apply tame_bind; [apply tame_sendProgress|]. intros _.
  apply tame_bind; [apply tame_assign|]. intros _.
  apply tame_bind; [apply tame_for_index; intros i x; apply Hb|]. intros _.
  apply tame_bind; [apply tame_read|]. intros total.
  apply tame_bind; [apply tame_sendProgress | intros _; apply tame_sendProgress].
Qed.

Lemma tame_connect (conn : Connection) : tame (@connect D conn).
Proof.
  unfold connect.
  apply tame_bind; [apply tame_perform|]. intros _.
  apply tame_bind; [apply tame_assign|]. intros _.
  apply tame_bind; [apply tame_perform | intros _; apply tame_assign].
Qed.

Lemma tame_write_nodes : tame (@write_nodes D).
Proof.
  unfold write_nodes. apply tame_bind; [apply tame_read|]. intros files.
  apply tame_for_of. intros parsedFile. apply tame_for_of. intros [label rs].
  apply tame_for_batches. intros batch. unfold write_node_batch.
  apply tame_executeWrite.
  apply tame_bind; [apply tame_perform | intros result; apply tame_assign].
Qed.

Lemma tame_write_relationships : tame (@write_relationships D).
Proof.
  unfold write_relationships. apply tame_bind; [apply tame_read|]. intros files.
  apply tame_for_of. intros parsedFile. apply tame_for_of. intros [type rs].
  apply tame_for_batches. intros batch. unfold write_relationship_batch.
  apply tame_executeWrite.
  destruct batch as [|sampleRow rest]; [apply tame_throw|].
  apply tame_bind; [apply tame_perform|]. intros result. cbv zeta.
  apply tame_bind; [apply tame_assign|]. intros _.
  apply tame_bind; [apply tame_read|]. intros processed.
  apply tame_bind; [apply tame_read|]. intros total.
  apply tame_sendProgress.
Qed.

Lemma tame_ensure_index : tame (@ensure_index D).
Proof.
  unfold ensure_index. apply tame_try_catch.
  - apply tame_bind; [apply tame_perform | intros _; apply tame_ret].
  - intros e. apply tame_ret.
Qed.

(** Both routes: validation and parsing, then the session [writing]
    between the two [finally] blocks. *)
Lemma route_ended (body : nat -> nat -> File -> M D unit) (writing : M D unit)
  (message : string) (files : list File) (conn : Connection) :
  (forall n i file, tame (body n i file)) ->
  ending writing ->
  hoare sound
    (try_catch
       (validate_input files conn ;;
        parse_phase body files ;;
        assign (fun v => mkLocals (parsedFiles v) (totalRows v) false
                           (totalCreated v) (processedRows v)) ;;
        try_finally
          (try_catch
             (connect conn ;; try_finally writing close_session)
             (fun neo4jError =>
                fail_with message
                  (Some [message_or "Unknown Neo4j error" neo4jError])))
          close_driver)
       (fun error =>
          fail_with "Internal server error"
            (Some [message_or "Unknown error occurred" error])))
    (fun _ => ended).
Proof.
  intros Hbody Hwriting.
  apply hoare_try_catch
    with (Q' := post (fun _ => ended) ended (fun _ => sound)).
  - apply ending_bind; [apply tame_validate_input|]. intros _.
    apply ending_bind; [apply tame_parse_phase, Hbody|]. intros _.
    apply ending_bind; [apply tame_assign|]. intros _.
    apply ending_try_finally.
    + apply ending_try_catch.
      * apply ending_bind; [apply tame_connect|]. intros _.
        apply ending_try_finally; [exact Hwriting | apply nr_close_session | |].
        -- apply inv_close_session, ended_store_free.
        -- apply inv_close_session, sound_store_free.
      * intros e. apply ending_fail_with.
    + apply nr_close_driver.
    + apply inv_close_driver, ended_store_free.
    + apply inv_close_driver, sound_store_free.
  - intros e w Hw. pose proof (fail_with_ends "Internal server error"
                                 (Some [message_or "Unknown error occurred" e]) w Hw) as H.
    destruct (fail_with _ _ w) as [[[]| |e'] w']; simpl in *; tauto.
  - intros a w Hw. exact Hw.
  - intros w Hw. exact Hw.
Qed.

Lemma uploadNodes_ended (files : list File) (conn : Connection) :
  hoare sound (@uploadNodes D files conn) (fun _ => ended).
Proof.
  unfold uploadNodes. apply route_ended.
  - intros n i file. apply tame_parse_file.
  - apply ending_bind; [apply tame_sendProgress|]. intros _.
    apply ending_bind; [apply tame_write_nodes | intros _; apply ending_finish].
Qed.

Lemma uploadRelationships_ended (files : list File) (conn : Connection) :
  hoare sound (@uploadRelationships D files conn) (fun _ => ended).
Proof.
  unfold uploadRelationships. apply route_ended.
  - intros n i file. apply tame_parse_file.
  - apply ending_bind; [apply tame_sendProgress|]. intros _.
    apply ending_bind; [apply tame_ensure_index|]. intros _.
    apply ending_bind; [apply tame_sendProgress|]. intros _.
    apply ending_bind; [apply tame_write_relationships | intros _; apply ending_finish].
Qed.

End Terminal.

(* ------------------------------------------------------------------ *)
(** ** The stream and the call log of every run *)

(** What the caller reads from a finished run: progress events with
    non-decreasing percents, exactly one terminal event, 100 as the last
    percent when that terminal event is the success summary, and the
    terminal event last. *)
Definition one_run_stream (es : list event) : Prop :=
  nondecreasing (percents es) /\
  (exists t, terminals es = [t]) /\
  (forall t, In t es -> is_success t = true ->
             exists ps, percents es = ps ++ [100%Q]) /\
  (exists progress t, es = progress ++ [t] /\ is_terminal t = true).

Lemma percents_terminal (t : event) : is_terminal t = true -> percents [t] = [].
Proof. destruct t; simpl; [discriminate | reflexivity | reflexivity]. Qed.

Lemma terminals_none_success (es : list event) (t : event) :
  terminals es = [] -> In t es -> is_success t = true -> False.
Proof.
  intros Hes Hin Hs.
  assert (Ht : In t (terminals es)).
  { apply filter_In. split; [exact Hin|]. destruct t; simpl in *; congruence. }
  rewrite Hes in Ht. exact Ht.
Qed.

Lemma finished_stream {D : StoreDouble} (n : nat) (w : world D) :
  finished n w ->
  one_run_stream (queue w) /\ Forall (shape n) (percents (queue w)).
Proof.
  intros (Hc & es & t & Hq & Ht & Hes & Hnd & Hsh & Hlast).
  assert (E : percents (es ++ [t]) = percents es).
  { now rewrite percents_app, (percents_terminal t Ht), app_nil_r. }
  unfold one_run_stream. rewrite Hq, E.
  split; [|exact Hsh]. split; [exact Hnd|]. split; [|split].
  - exists t. rewrite terminals_app, Hes. simpl. now rewrite Ht.
  - intros t' Hin Hs. apply in_app_or in Hin. destruct Hin as [Hin|[<-|[]]].
    + destruct (terminals_none_success es t' Hes Hin Hs).
    + apply Hlast, Hs.
  - exists es, t. split; [reflexivity | exact Ht].
Qed.

(** The same without the order of the percents: exactly one terminal
    event, which is the last event, and 100 as the last percent before a
    summary. *)
Definition closed_stream (es : list event) : Prop :=
  (exists t, terminals es = [t]) /\
  (forall t, In t es -> is_success t = true ->
             exists ps, percents es = ps ++ [100%Q]) /\
  (exists progress t, es = progress ++ [t] /\ is_terminal t = true).

Lemma ended_stream {D : StoreDouble} (w : world D) :
  ended w -> closed_stream (queue w).
Proof.
  intros (Hc & es & t & Hq & Ht & Hes & Hlast).
  assert (E : percents (es ++ [t]) = percents es).
  { now rewrite percents_app, (percents_terminal t Ht), app_nil_r. }
  unfold closed_stream. rewrite Hq, E. split; [|split].
  - exists t. rewrite terminals_app, Hes. simpl. now rewrite Ht.
  - intros t' Hin Hs. apply in_app_or in Hin. destruct Hin as [Hin|[<-|[]]].
    + destruct (terminals_none_success es t' Hes Hin Hs).
    + apply Hlast, Hs.
  - exists es, t. split; [reflexivity | exact Ht].
Qed.

Lemma initial_sound {D : StoreDouble} (s : St D) : sound (initial s).
Proof. left. split; reflexivity. Qed.

Lemma run_relationships_ended {D : StoreDouble} (files : list File)
  (conn : Connection) (s : St D) :
  ended (run_relationships files conn s).
Proof. apply (uploadRelationships_ended files conn (initial s)), initial_sound. Qed.

Lemma run_nodes_ended {D : StoreDouble} (files : list File) (conn : Connection)
  (s : St D) :
  ended (run_nodes files conn s).
Proof. apply (uploadNodes_ended files conn (initial s)), initial_sound. Qed.

Lemma run_nodes_finished {D : StoreDouble} (files : list File) (conn : Connection)
  (s : St D) :
  finished (List.length files) (run_nodes files conn s).
Proof.
  apply (uploadNodes_finished (List.length files) files conn eq_refl (initial s)).
  apply initial_ok.
Qed.

Lemma run_relationships_finished {D : StoreDouble} (files : list File)
  (conn : Connection) (s : St D) :
  never_retries D ->
  finished (List.length files) (run_relationships files conn s).
Proof.
  intros Hone.
  apply (uploadRelationships_finished (List.length files) files conn Hone eq_refl
           (initial s)).
  apply initial_ok.
Qed.

(** A run closes what it opened: after a driver was obtained the last
    call of the run is [driver.close()], and after a session was obtained
    the run ends with [session.close()] then [driver.close()]. *)
Definition closes_what_it_opened (log : list (call * answer)) : Prop :=
  (forall url user pass r,
     In (Driver url user pass, inr r) log ->
     exists before a, log = before ++ [(DriverClose, a)]) /\
  (forall r,
     In (Session, inr r) log ->
     exists before a a', log = before ++ [(SessionClose, a); (DriverClose, a')]).

Lemma released_closes (log : list (call * answer)) :
  released log -> closes_what_it_opened log.
Proof.
  intros H. destruct H as [|url user pass e|url user pass r e a
                            |url user pass r r' work a a' Hwork]; split.
  - intros ? ? ? ? [].
  - intros ? [].
  - intros ? ? ? ? [E|[]]. inversion E.
  - intros ? [E|[]]. inversion E.
  - intros ? ? ? ? _. exists [(Driver url user pass, inr r); (Session, inl e)], a.
    reflexivity.
  - intros ? [E|[E|[E|[]]]]; inversion E.
  - intros ? ? ? ? _.
    exists ((Driver url user pass, inr r) :: (Session, inr r') :: work ++ [(SessionClose, a)]), a'.
    simpl. rewrite <- app_assoc. reflexivity.
  - intros ? _.
    exists ((Driver url user pass, inr r) :: (Session, inr r') :: work), a, a'.
    reflexivity.
Qed.

(** C9.  For every run of either route, on the success path and on every
    error path: once [neo4j.driver] returned a driver, [driver.close()] is
    the last call of the run, and once [driver.session()] returned a
    session, the run ends with [session.close()] followed by
    [driver.close()]. *)
Theorem session_and_driver_released (D : StoreDouble) (files : list File)
  (conn : Connection) (s : St D) :
  closes_what_it_opened (calls (run_nodes files conn s)) /\
  closes_what_it_opened (calls (run_relationships files conn s)).
Proof.
  split; apply released_closes.
  - apply (uploadNodes_calls files conn (initial s)). reflexivity.
  - apply (uploadRelationships_calls files conn (initial s)). reflexivity.
Qed.

(* ------------------------------------------------------------------ *)
(** ** Sample inputs *)

Definition sample_connection : Connection :=
  mkConnection (Some "bolt://localhost:7687") (Some "neo4j") (Some "secret").

(** [id,LABEL,name / 1,Person,Ann / 2,Person,Bo] *)
Definition people_csv : File :=
  mkFile "people.csv"
    (inr (mkParseResult (Some ["id"; "LABEL"; "name"])
            [[("id", "1"); ("LABEL", "Person"); ("name", "Ann")];
             [("id", "2"); ("LABEL", "Person"); ("name", "Bo")]])).

(** [id,name / 1,Ann]: no [LABEL] column. *)
Definition unlabelled_csv : File :=
  mkFile "plain.csv"
    (inr (mkParseResult (Some ["id"; "name"]) [[("id", "1"); ("name", "Ann")]])).

(** [TYPE,FROM_LABEL,FROM_ID,TO_LABEL,TO_ID,since / KNOWS,Person,1,Person,2,2020] *)
Definition knows_csv : File :=
  mkFile "knows.csv"
    (inr (mkParseResult
            (Some ["TYPE"; "FROM_LABEL"; "FROM_ID"; "TO_LABEL"; "TO_ID"; "since"])
            [[("TYPE", "KNOWS"); ("FROM_LABEL", "Person"); ("FROM_ID", "1");
              ("TO_LABEL", "Person"); ("TO_ID", "2"); ("since", "2020")]])).

(* ------------------------------------------------------------------ *)
(** ** The percents *)

Lemma is_integer_iff (q : Q) : is_integer q <-> exists z, (q == inject_Z z)%Q.
Proof.
  split.
  - intros H. exists (Qfloor q). symmetry. exact H.
  - intros [z Hz]. unfold is_integer.
    rewrite (Qfloor_comp _ _ Hz), Qfloor_Z. symmetry. exact Hz.
Qed.

(** The percent sent before parsing file [i] of [n] is an integer exactly
    when [n] divides [10 * i]. *)
Lemma parsing_percent_integer (i n : nat) :
  (0 < n)%nat ->
  (is_integer (parsing_percent i n) <-> Nat.divide n (10 * i)).
Proof.
  intros Hn. rewrite is_integer_iff. unfold parsing_percent.
  assert (Hb : ~ (inject_Z (Z.of_nat n) == 0)%Q).
  { intros E. change 0%Q with (inject_Z 0) in E. rewrite inject_Z_injective in E. lia. }
  split.
  - intros [z Hz].
    assert (E : (inject_Z (Z.of_nat i) * 10 == (inject_Z z - 5) * inject_Z (Z.of_nat n))%Q).
    { rewrite <- Hz. field. exact Hb. }
    change 10%Q with (inject_Z 10) in E. change 5%Q with (inject_Z 5) in E.
    unfold Qminus in E. rewrite <- inject_Z_opp, <- inject_Z_plus, <- !inject_Z_mult in E.
    rewrite inject_Z_injective in E.
    exists (Z.to_nat (z + - 5)).
    assert (0 <= z + -5)%Z by nia.
    nia.
  - intros [k Hk]. exists (5 + Z.of_nat k)%Z.
    rewrite inject_Z_plus.
    assert (E : (inject_Z (Z.of_nat i) * 10 == inject_Z (Z.of_nat k) * inject_Z (Z.of_nat n))%Q).
    { change 10%Q with (inject_Z 10). rewrite <- !inject_Z_mult.
      rewrite inject_Z_injective. lia. }
    change (inject_Z 5) with 5%Q.
    apply Qplus_inj_l. unfold Qdiv.
    rewrite <- Qmult_assoc, (Qmult_comm (/ _)), Qmult_assoc, E.
    field. exact Hb.
Qed.

(** A percent of a run over [n] files: between 0 and 100, and an integer
    unless it is the parsing percent of a file [i] with [n] not dividing
    [10 * i]. *)
Definition percent_of_run (n : nat) (p : Q) : Prop :=
  (0 <= p <= 100)%Q /\
  (is_integer p \/
   exists i, (i < n)%nat /\ p = parsing_percent i n /\ ~ Nat.divide n (10 * i)).

Lemma shape_percent_of_run (n : nat) (p : Q) : shape n p -> percent_of_run n p.
Proof.
  intros [[H1 H2] H]. split; [split; lra|].
  destruct H as [H|(i & Hi & Hp)]; [now left|].
  destruct (Nat.eq_dec ((10 * i) mod n) 0) as [E|E].
  - left. rewrite Hp. apply parsing_percent_integer; [lia|].
    apply Nat.Lcm0.mod_divide. exact E.
  - right. exists i. repeat split; auto.
    intros Hd. apply E. apply Nat.Lcm0.mod_divide. exact Hd.
Qed.

(** With three files the node route announces the second file with the
    percent 25/3. *)
Lemma three_files_percent :
  exists p m,
    In (Progress p m)
       (queue (run_nodes (D := Graph.store) [people_csv; people_csv; people_csv]
                 sample_connection Graph.empty)) /\
    ~ is_integer p.
Proof.
  exists (25 # 3)%Q, "Parsing people.csv...". split.
  - vm_compute. right. right. left. reflexivity.
  - unfold is_integer. vm_compute. discriminate.
Qed.

(* ------------------------------------------------------------------ *)
(** ** A unit of work that is run again *)

(** The answers of a store whose first commit fails with a failure the
    driver retries: the driver, the session and the index statement are
    answered; the [tx.run] of the batch creates one relationship; the
    commit fails; the [tx.run] and the commit of the second attempt
    succeed. *)
Definition commit_fails_once : list answer :=
  [inr None; inr None; inr None;
   inr (Some 1); inl Script.transient;
   inr (Some 1); inr None].

(** The run of the relationship route on [knows.csv] against that store:
    the unit of work of the one batch runs twice, and each time it adds
    the rows of the batch to [processedRows], the answer of the store to
    [totalCreated], and sends a progress event. *)
Lemma rerun_of_a_batch :
  let w := run_relationships (D := Script.store) [knows_csv] sample_connection
             commit_fails_once in
  let batch := [[("TYPE", "KNOWS"); ("FROM_LABEL", "Person"); ("FROM_ID", "1");
                 ("TO_LABEL", "Person"); ("TO_ID", "2"); ("since", "2020")]] in
  queue w =
    [Progress 5 "Parsing CSV files...";
     Progress 5 "Parsing knows.csv...";
     Progress 15 "Parsed 1 rows from 1 file(s)";
     Progress 20 "Connecting to Neo4j...";
     Progress 25 "Checking/creating indexes...";
     Progress 30 "Starting relationship creation...";
     Progress 95 "Created 1/1 relationships...";
     Progress 160 "Created 2/1 relationships...";
     Progress 95 "Finalizing...";
     Progress 100 "Upload complete!";
     DataEvent 1 2 "Successfully created 2 relationships from 1 file(s)"] /\
  calls w =
    [(Driver "bolt://localhost:7687" "neo4j" "secret", inr None);
     (Session, inr None);
     (SessionRun CreateIndex, inr None);
     (TxRun (CreateRelationships "KNOWS" ["since"]) batch, inr (Some 1));
     (TxCommit, inl Script.transient);
     (TxRun (CreateRelationships "KNOWS" ["since"]) batch, inr (Some 1));
     (TxCommit, inr None);
     (SessionClose, inr None);
     (DriverClose, inr None)].
Proof. vm_compute. split; reflexivity. Qed.

(** C1 on the code.  The node route keeps the claim on every store and
    under every retry policy, and so does the relationship route as long
    as the driver runs no unit of work again.  Whatever the driver does,
    a run of the relationship route sends exactly one terminal event,
    after every progress event, and 100 is the last percent before a
    summary.  But the unit of work of a relationship batch adds to
    [processedRows] and sends its progress event before the commit: when
    the commit fails with a failure the driver retries, the unit of work
    runs again, [processedRows] exceeds [totalRows], and the percents of
    the run are 5, 5, 15, 20, 25, 30, 95, 160, 95, 100, which is not
    non-decreasing; the summary of that run counts the relationship
    twice. *)
Theorem rerun_breaks_monotone_progress :
  (forall (D : StoreDouble) (files : list File) (conn : Connection) (s : St D),
     one_run_stream (queue (run_nodes files conn s))) /\
  (forall (D : StoreDouble) (files : list File) (conn : Connection) (s : St D),
     never_retries D ->
     one_run_stream (queue (run_relationships files conn s))) /\
  (forall (D : StoreDouble) (files : list File) (conn : Connection) (s : St D),
     closed_stream (queue (run_relationships files conn s))) /\
  (let w := run_relationships (D := Script.store) [knows_csv] sample_connection
              commit_fails_once in
   percents (queue w) = [5; 5; 15; 20; 25; 30; 95; 160; 95; 100]%Q /\
   ~ nondecreasing (percents (queue w)) /\
   terminals (queue w) =
     [DataEvent 1 2 "Successfully created 2 relationships from 1 file(s)"] /\
   List.length (tx_runs (calls w)) = 2).
Proof.
  split; [|split; [|split]].
  - intros D files conn s.
    apply (finished_stream (List.length files)), run_nodes_finished.
  - intros D files conn s Hone.
    apply (finished_stream (List.length files)), run_relationships_finished, Hone.
  - intros D files conn s. apply ended_stream, run_relationships_ended.
  - destruct rerun_of_a_batch as [Hq Hc]. cbv zeta in *. rewrite Hq, Hc.
    split; [reflexivity|]. split; [|split; reflexivity].
    cbn [percents nondecreasing]. intros H. decompose [and] H.
    match goal with
    | Hle : (160 <= 95)%Q |- _ => revert Hle; unfold Qle; simpl; lia
    end.
Qed.

(** C8 on the code.  Two percents of the routes leave the integers from 0
    to 100.  The percent that announces a file is sent unrounded: with
    three files the second one is announced with 25/3.  And the percent of
    a relationship batch whose unit of work runs again is computed from a
    [processedRows] above [totalRows]: 160 for the one batch of
    [knows.csv] when its first commit fails.  Apart from these two, every
    percent is a number between 0 and 100, and an integer unless it
    announces a file [i] of [n] with [n] not dividing [10 * i]: on every
    store for the node route, and for the relationship route when the
    driver runs no unit of work again. *)
Theorem percent_not_integer_nor_below_100 :
  (exists p m,
     In (Progress p m)
        (queue (run_nodes (D := Graph.store) [people_csv; people_csv; people_csv]
                  sample_connection Graph.empty)) /\
     ~ is_integer p) /\
  (exists p m,
     In (Progress p m)
        (queue (run_relationships (D := Script.store) [knows_csv] sample_connection
                  commit_fails_once)) /\
     p = 160%Q /\ ~ (p <= 100)%Q) /\
  (forall (D : StoreDouble) (files : list File) (conn : Connection) (s : St D),
     Forall (percent_of_run (List.length files))
       (percents (queue (run_nodes files conn s)))) /\
  (forall (D : StoreDouble) (files : list File) (conn : Connection) (s : St D),
     never_retries D ->
     Forall (percent_of_run (List.length files))
       (percents (queue (run_relationships files conn s)))).
Proof.
  split; [apply three_files_percent|]. split; [|split].
  - exists 160%Q, "Created 2/1 relationships...".
    destruct rerun_of_a_batch as [Hq _]. cbv zeta in Hq. rewrite Hq.
    split; [simpl; tauto|]. split; [reflexivity|].
    unfold Qle. simpl. lia.
  - intros D files conn s.
    eapply Forall_impl; [apply shape_percent_of_run|].
    apply finished_stream, run_nodes_finished.
  - intros D files conn s Hone.
    eapply Forall_impl; [apply shape_percent_of_run|].
    apply finished_stream, run_relationships_finished, Hone.
Qed.

(* ------------------------------------------------------------------ *)
(** ** Files that pass and files that fail validation *)

Lemma includes_In (xs : list string) (x : string) : includes xs x = true <-> In x xs.
Proof.
  unfold includes. rewrite existsb_exists. split.
  - intros (y & Hy & E). apply String.eqb_eq in E. now subst.
  - intros H. exists x. split; [exact H | apply String.eqb_refl].
Qed.

Lemma includes_not_In (xs : list string) (x : string) :
  includes xs x = false <-> ~ In x xs.
Proof.
  rewrite <- includes_In. destruct (includes xs x); split; congruence.
Qed.

Lemma filter_none (A : Type) (f : A -> bool) (xs : list A) :
  (forall x, In x xs -> f x = false) -> filter f xs = [].
Proof.
  induction xs as [|x xs IH]; intros H; simpl; [reflexivity|].
  rewrite (H x) by now left. apply IH. intros y Hy. apply H. now right.
Qed.

Lemma length_eqb_0 (A : Type) (xs : list A) :
  xs <> [] -> (List.length xs =? 0)%nat = false.
Proof. destruct xs; [congruence | reflexivity]. Qed.

Lemma for_index_app {D : StoreDouble} {A : Type} (xs ys : list A)
  (body : nat -> A -> M D unit) :
  forall i w,
    for_index i (xs ++ ys) body w =
    (for_index i xs body ;; for_index (i + List.length xs) ys body) w.
Proof.
  induction xs as [|x xs IH]; intros i w; simpl.
  - unfold bind, ret. now rewrite Nat.add_0_r.
  - unfold bind in *. destruct (body i x w) as [[[]| |e] w']; auto.
    rewrite IH. now rewrite Nat.add_succ_r.
Qed.

Section Validation.

Context {D : StoreDouble}.

(** A node file that passes validation is stored and parsing goes on. *)
Lemma parse_node_file_passes (n i : nat) (file : File) (w : world D) :
  parsed_ok ["LABEL"] file ->
  closed w = false ->
  parse_node_file n i file w =
  (Normal tt,
   mkWorld false
     (queue w ++ [Progress (parsing_percent i n) ("Parsing " +++ name file +++ "...")])
     (db w) (calls w)
     (mkLocals (parsedFiles (vars w) ++ [parsed_data file])
        (totalRows (vars w) + rowCount (parsed_data file))
        (driver (vars w)) (totalCreated (vars w)) (processedRows (vars w)))).
Proof.
  intros (parseResult & Hparse & Hne & Hreq) Hc.
  assert (Hlabel : includes (headers_of parseResult) "LABEL" = true).
  { apply includes_In, Hreq. now left. }
  unfold parse_node_file, try_catch, bind, sendProgress, enqueue, read_and_parse,
    parsed_data.
  rewrite Hc, Hparse. simpl.
  rewrite (length_eqb_0 _ _ Hne), Hlabel. simpl.
  reflexivity.
Qed.

(** A relationship file that passes validation, likewise. *)
Lemma parse_relationship_file_passes (n i : nat) (file : File) (w : world D) :
  parsed_ok REQUIRED_COLUMNS file ->
  closed w = false ->
  parse_relationship_file n i file w =
  (Normal tt,
   mkWorld false
     (queue w ++ [Progress (parsing_percent i n) ("Parsing " +++ name file +++ "...")])
     (db w) (calls w)
     (mkLocals (parsedFiles (vars w) ++ [parsed_data file])
        (totalRows (vars w) + rowCount (parsed_data file))
        (driver (vars w)) (totalCreated (vars w)) (processedRows (vars w)))).
Proof.
  intros (parseResult & Hparse & Hne & Hreq) Hc.
  assert (Hmissing : filter (fun col => negb (includes (headers_of parseResult) col))
                       REQUIRED_COLUMNS = []).
  { apply filter_none. intros col Hcol.
    apply negb_false_iff, includes_In, Hreq, Hcol. }
  unfold parse_relationship_file, try_catch, bind, sendProgress, enqueue,
    read_and_parse, parsed_data, ret.
  rewrite Hc, Hparse. cbv beta iota zeta.
  rewrite (length_eqb_0 _ _ Hne), Hmissing. reflexivity.
Qed.

(** A node file with headers but no [LABEL] header ends the run. *)
Lemma parse_node_file_rejects (n i : nat) (file : File) (parseResult : ParseResult)
  (w : world D) :
  parse file = inr parseResult ->
  headers_of parseResult <> [] ->
  ~ In "LABEL" (headers_of parseResult) ->
  closed w = false ->
  parse_node_file n i file w =
  (Return,
   mkWorld true
     (queue w ++
      [Progress (parsing_percent i n) ("Parsing " +++ name file +++ "...");
       ErrorEvent
         ("File " +++ dq +++ name file +++ dq +++ " is missing required "
            +++ dq +++ "LABEL" +++ dq +++ " column")
         (Some ["The CSV file must have a column named " +++ dq +++ "LABEL" +++ dq
                  +++ " for the node type.";
                "Found columns: " +++ join ", " (headers_of parseResult)])])
     (db w) (calls w) (vars w)).
Proof.
  intros Hparse Hne Hlabel Hc. apply includes_not_In in Hlabel.
  unfold parse_node_file, try_catch, bind, sendProgress, enqueue, read_and_parse.
  rewrite Hc, Hparse. simpl.
  rewrite (length_eqb_0 _ _ Hne), Hlabel. simpl.
  unfold fail_with, bind, enqueue, close. simpl.
  rewrite <- app_assoc. reflexivity.
Qed.

End Validation.

(** The progress events of the parsing loop. *)
Fixpoint parsing_events (n i : nat) (files : list File) : list event :=
  match files with
  | [] => []
  | file :: files' =>
      Progress (parsing_percent i n) ("Parsing " +++ name file +++ "...")
        :: parsing_events n (S i) files'
  end.

Lemma parsing_events_terminals (n : nat) (files : list File) :
  forall i, terminals (parsing_events n i files) = [].
Proof. induction files as [|f files IH]; intros i; simpl; auto. Qed.

Section ValidFiles.

Context {D : StoreDouble}.

Variable body : nat -> nat -> File -> M D unit.
Variable required : list string.

(** [body] is one of the two parsing-loop bodies. *)
Hypothesis body_passes :
  forall n i file (w : world D),
    parsed_ok required file ->
    closed w = false ->
    body n i file w =
    (Normal tt,
     mkWorld false
       (queue w ++ [Progress (parsing_percent i n) ("Parsing " +++ name file +++ "...")])
       (db w) (calls w)
       (mkLocals (parsedFiles (vars w) ++ [parsed_data file])
          (totalRows (vars w) + rowCount (parsed_data file))
          (driver (vars w)) (totalCreated (vars w)) (processedRows (vars w)))).

Lemma validate_input_passes (files : list File) (conn : Connection) (w : world D) :
  files <> [] -> valid_connection conn ->
  validate_input files conn w = (Normal tt, w).
Proof.
  intros Hf (H1 & H2 & H3). unfold validate_input, bind.
  rewrite (length_eqb_0 _ _ Hf), H1, H2, H3. reflexivity.
Qed.

Lemma parse_loop_passes (n : nat) (files : list File) :
  Forall (parsed_ok required) files ->
  forall i (w : world D),
    closed w = false ->
    for_index i files (body n) w =
    (Normal tt,
     mkWorld false (queue w ++ parsing_events n i files) (db w) (calls w)
       (mkLocals (parsedFiles (vars w) ++ map parsed_data files)
          (totalRows (vars w) + sum_rows (map parsed_data files))
          (driver (vars w)) (totalCreated (vars w)) (processedRows (vars w)))).
Proof.
  induction 1 as [|file files Hfile Hfiles IH]; intros i w Hc; simpl.
  - unfold ret. rewrite !app_nil_r, Nat.add_0_r.
    destruct w as [c q d l [pf tr dr tc pr]]. simpl in *. now subst.
  - unfold bind. rewrite (body_passes n i file w Hfile Hc).
    rewrite IH by reflexivity. simpl. f_equal. f_equal.
    + now rewrite <- app_assoc.
    + f_equal.
      * now rewrite <- app_assoc.
      * assert (E : rowCount (parsed_data file) = List.length (rows (parsed_data file))).
        { unfold parsed_data. destruct (parse file); reflexivity. }
        unfold sum_rows at 2. simpl. fold (sum_rows (map parsed_data files)). lia.
Qed.

(** The whole parsing phase on files that all pass validation. *)
Lemma parse_phase_passes (files : list File) (w : world D) :
  Forall (parsed_ok required) files ->
  closed w = false ->
  parse_phase body files w =
  (Normal tt,
   mkWorld false
     (queue w ++ Progress 5 "Parsing CSV files..."
        :: parsing_events (List.length files) 0 files
        ++ [Progress 15
              ("Parsed " +++ show_nat (sum_rows (map parsed_data files))
                 +++ " rows from " +++ show_nat (List.length files) +++ " file(s)");
            Progress 20 "Connecting to Neo4j..."])
     (db w) (calls w)
     (mkLocals (map parsed_data files) (sum_rows (map parsed_data files))
        (driver (vars w)) (totalCreated (vars w)) (processedRows (vars w)))).
Proof.
  intros Hfiles Hc. unfold parse_phase, bind, sendProgress, enqueue, assign, read.
  rewrite Hc. cbv beta iota zeta.
  rewrite (parse_loop_passes _ files Hfiles) by reflexivity.
  simpl. rewrite <- !app_assoc. reflexivity.
Qed.

End ValidFiles.

(** *** A file without [LABEL] anywhere in the upload *)

Section NoLabel.

Context {D : StoreDouble}.

Variable s : St D.

(** No driver call was made. *)
Definition untouched (w : world D) : Prop := calls w = [] /\ db w = s.

(** No success summary was sent. *)
Definition no_summary (w : world D) : Prop :=
  Forall (fun t => is_success t = false) (queue w).

Definition never_normal {A : Type} (m : M D A) : Prop :=
  forall w a, fst (m w) <> Normal a.

Lemma untouched_stream_free : stream_free untouched.
Proof. intros w c q H. exact H. Qed.

Lemma untouched_vars_free : vars_free untouched.
Proof. intros w v H. exact H. Qed.

Lemma no_summary_enqueue (ev : event) :
  is_success ev = false -> inv no_summary (enqueue ev).
Proof.
  intros Hev w Hw. unfold enqueue. destruct (closed w); simpl; [exact Hw|].
  apply Forall_app. split; [exact Hw|]. constructor; [exact Hev | constructor].
Qed.

Lemma no_summary_close : inv no_summary close.
Proof. intros w Hw. unfold close. destruct (closed w); exact Hw. Qed.

Lemma no_summary_fail_return (m : string) (d : option (list string)) :
  inv no_summary (fail_with m d ;; @early_return D unit).
Proof.
  apply inv_bind; [|intros _; apply inv_early_return].
  apply inv_bind; [now apply no_summary_enqueue | intros _; apply no_summary_close].
Qed.

Lemma no_summary_assign (f : locals -> locals) : inv no_summary (assign f).
Proof. intros w Hw. exact Hw. Qed.

Lemma no_summary_validate_input (files : list File) (conn : Connection) :
  inv no_summary (validate_input files conn).
Proof.
  unfold validate_input.
  apply inv_bind; [|intros _]; apply inv_when, no_summary_fail_return.
Qed.

Lemma no_summary_parse_node_file (n i : nat) (file : File) :
  inv no_summary (parse_node_file n i file).
Proof.
  unfold parse_node_file. apply inv_try_catch.
  - apply inv_bind; [now apply no_summary_enqueue|]. intros _.
    apply inv_bind.
    { unfold read_and_parse. destruct (parse file); [apply inv_throw | apply inv_ret]. }
    intros parseResult. cbv zeta.
    apply inv_bind; [apply inv_when, no_summary_fail_return|]. intros _.
    apply inv_bind; [apply inv_when, no_summary_fail_return|]. intros _.
    apply no_summary_assign.
  - intros e. apply no_summary_fail_return.
Qed.

Lemma no_summary_parse_phase (files : list File) :
  inv no_summary (parse_phase parse_node_file files).
Proof.
  unfold parse_phase.
  apply inv_bind; [now apply no_summary_enqueue|]. intros _.
  apply inv_bind; [apply no_summary_assign|]. intros _.
  apply inv_bind; [apply inv_for_index; intros; apply no_summary_parse_node_file|].
  intros _. apply inv_bind; [apply inv_read|]. intros total.
  apply inv_bind; [now apply no_summary_enqueue | intros _; now apply no_summary_enqueue].
Qed.

(** A file whose headers lack [LABEL] never lets the parsing loop go on. *)
Lemma parse_node_file_stops (n i : nat) (file : File) (parseResult : ParseResult) :
  parse file = inr parseResult ->
  ~ In "LABEL" (headers_of parseResult) ->
  never_normal (parse_node_file n i file).
Proof.
  intros Hparse Hlabel w a. apply includes_not_In in Hlabel.
  unfold parse_node_file, try_catch, bind, sendProgress, enqueue, read_and_parse,
    on_file_error, fail_no_headers, fail_with, bind, enqueue, close, when, ret,
    early_return.
  rewrite Hparse, Hlabel.
  destruct (closed w) eqn:Hc; cbn [negb closed fst];
    destruct (List.length (headers_of parseResult) =? 0)%nat;
    cbn [negb closed fst]; rewrite ?Hc; cbn [negb closed fst]; discriminate.
Qed.

Lemma for_index_stops {A : Type} (body : nat -> A -> M D unit) (xs ys : list A) (x : A) :
  (forall i, never_normal (body i x)) ->
  forall i, never_normal (for_index i (xs ++ x :: ys) body).
Proof.
  intros Hx. induction xs as [|x' xs IH]; intros i w a; simpl; unfold bind.
  - specialize (Hx i w). destruct (body i x w) as [[u| |e] w']; simpl in *;
      [destruct (Hx u eq_refl) | discriminate | discriminate].
  - destruct (body i x' w) as [[u| |e] w']; simpl; [apply IH | discriminate | discriminate].
Qed.

Lemma uploadNodes_no_label (before after : list File) (file : File)
  (parseResult : ParseResult) (conn : Connection) :
  parse file = inr parseResult ->
  ~ In "LABEL" (headers_of parseResult) ->
  hoare (fun w => untouched w /\ no_summary w)
    (uploadNodes (before ++ file :: after) conn)
    (fun _ w => untouched w /\ no_summary w).
Proof.
  intros Hparse Hlabel. set (files := before ++ file :: after).
  set (I := fun w : world D => untouched w /\ no_summary w).
  assert (Hsplit : forall (A : Type) (m : M D A),
            inv untouched m -> inv no_summary m -> inv I m).
  { intros A m H1 H2 w [Hu Hn]. split; [apply H1, Hu | apply H2, Hn]. }
  unfold uploadNodes. apply hoare_try_catch with (Q' := fun _ => I); auto.
  - apply hoare_bind with (Q' := fun _ => I); auto.
    { apply Hsplit; [apply inv_validate_input, untouched_stream_free
                    | apply no_summary_validate_input]. }
    intros ?; simpl.
    apply hoare_bind with (Q' := post (fun _ _ => False) I (fun _ => I)).
    + intros w Hw.
      assert (Hinv : I (snd (parse_phase parse_node_file files w))).
      { revert w Hw. apply Hsplit; [|apply no_summary_parse_phase].
        apply inv_parse_phase;
          [apply untouched_stream_free | apply untouched_vars_free |].
        intros n i f. apply inv_parse_file;
          [apply untouched_stream_free | apply untouched_vars_free]. }
      assert (Hstop : forall u, fst (parse_phase parse_node_file files w) <> Normal u).
      { intros u0. unfold parse_phase, bind, sendProgress, enqueue, assign.
        destruct (closed w); simpl; [discriminate|].
        set (w1 := mkWorld false _ _ _ _).
        pose proof (for_index_stops (parse_node_file (List.length files)) before after
                      file
                      (fun i => parse_node_file_stops _ i file parseResult Hparse Hlabel)
                      0 w1) as Hloop.
        fold files in Hloop.
        destruct (for_index 0 files (parse_node_file (List.length files)) w1)
          as [[u| |e] w2]; simpl in *;
          [destruct (Hloop u eq_refl) | discriminate | discriminate]. }
      destruct (parse_phase parse_node_file files w) as [[u| |e] w']; simpl in *; auto.
      destruct (Hstop u eq_refl).
    + intros ? w [].
    + simpl. auto.
    + simpl. auto.
  - intros e. apply Hsplit.
    + apply inv_fail_with, untouched_stream_free.
    + apply inv_bind; [now apply no_summary_enqueue | intros _; apply no_summary_close].
Qed.

End NoLabel.

Section Rejection.

Context {D : StoreDouble}.

(** The run of the node route on files of which one, after files that
    pass, has headers but no [LABEL] header. *)
Lemma run_nodes_rejects (before after : list File) (file : File)
  (parseResult : ParseResult) (conn : Connection) (s : St D) :
  valid_connection conn ->
  Forall (parsed_ok ["LABEL"]) before ->
  parse file = inr parseResult ->
  headers_of parseResult <> [] ->
  ~ In "LABEL" (headers_of parseResult) ->
  let n := List.length (before ++ file :: after) in
  run_nodes (before ++ file :: after) conn s =
  mkWorld true
    (Progress 5 "Parsing CSV files..."
       :: parsing_events n 0 before ++
       [Progress (parsing_percent (List.length before) n)
          ("Parsing " +++ name file +++ "...");
        ErrorEvent
          ("File " +++ dq +++ name file +++ dq +++ " is missing required "
             +++ dq +++ "LABEL" +++ dq +++ " column")
          (Some ["The CSV file must have a column named " +++ dq +++ "LABEL" +++ dq
                   +++ " for the node type.";
                 "Found columns: " +++ join ", " (headers_of parseResult)])])
    s []
    (mkLocals (map parsed_data before) (sum_rows (map parsed_data before)) false 0 0).
Proof.
  intros Hconn Hbefore Hparse Hne Hlabel n.
  unfold run_nodes, uploadNodes, try_catch, bind.
  rewrite validate_input_passes; [|destruct before; discriminate | exact Hconn].
  unfold parse_phase, bind, sendProgress, enqueue, assign. simpl closed.
  cbv beta iota zeta.
  rewrite for_index_app. unfold bind.
  rewrite (parse_loop_passes parse_node_file ["LABEL"]
             (fun n i file w => parse_node_file_passes n i file w) _ before Hbefore)
    by reflexivity.
  simpl for_index. unfold bind.
  rewrite (parse_node_file_rejects _ _ file parseResult _ Hparse Hne Hlabel) by reflexivity.
  reflexivity.
Qed.

End Rejection.

(** C2.  When a node file of the upload has headers that lack [LABEL],
    the run ends with exactly one terminal event, an error; no driver call
    at all was made (no driver, no session, no write transaction) and the
    store is unchanged.  When the run reaches that file (credentials
    present, the files before it valid) and the file has a header row, the
    details of the error include ["Found columns: "] followed by the
    headers joined with [", "]. *)
Theorem missing_label_one_error_no_write (D : StoreDouble) (before after : list File)
  (file : File) (parseResult : ParseResult) (conn : Connection) (s : St D) :
  parse file = inr parseResult ->
  ~ In "LABEL" (headers_of parseResult) ->
  let w := run_nodes (before ++ file :: after) conn s in
  calls w = [] /\
  db w = s /\
  (exists message details, terminals (queue w) = [ErrorEvent message details]) /\
  (valid_connection conn ->
   Forall (parsed_ok ["LABEL"]) before ->
   headers_of parseResult <> [] ->
   exists message details,
     terminals (queue w) = [ErrorEvent message (Some details)] /\
     In ("Found columns: " +++ join ", " (headers_of parseResult)) details).
Proof.
  intros Hparse Hlabel w.
  destruct (uploadNodes_no_label s before after file parseResult conn Hparse Hlabel
              (initial s)) as [[Hcalls Hdb] Hsum].
  { split; [split; reflexivity | constructor]. }
  fold (run_nodes (before ++ file :: after) conn s) in Hcalls, Hdb, Hsum. fold w in Hcalls, Hdb, Hsum.
  split; [exact Hcalls|]. split; [exact Hdb|]. split.
  - destruct (finished_stream _ _ (run_nodes_finished (before ++ file :: after) conn s))
      as [(_ & [t Ht] & _) _].
    fold w in Ht.
    assert (Hin : In t (terminals (queue w))) by (rewrite Ht; now left).
    apply filter_In in Hin. destruct Hin as [Hin Hterm].
    unfold no_summary in Hsum. rewrite Forall_forall in Hsum. specialize (Hsum t Hin).
    destruct t as [p m|m d|f n m]; simpl in *; try discriminate.
    exists m, d. exact Ht.
  - intros Hconn Hbefore Hne. unfold w.
    rewrite (run_nodes_rejects before after file parseResult conn s
               Hconn Hbefore Hparse Hne Hlabel).
    cbn [queue]. eexists. eexists. split.
    + change (Progress 5 "Parsing CSV files..." :: ?x)
        with ([Progress 5 "Parsing CSV files..."] ++ x).
      unfold terminals. rewrite !filter_app.
      fold (terminals (parsing_events (List.length (before ++ file :: after)) 0 before)).
      rewrite parsing_events_terminals. reflexivity.
    + right. left. reflexivity.
Qed.

(** The scenario of the specification: headers [id,name]. *)
Lemma missing_label_witness :
  let w := run_nodes (D := Graph.store) [people_csv; unlabelled_csv] sample_connection
             Graph.empty in
  calls w = [] /\
  db w = Graph.empty /\
  exists message details,
    terminals (queue w) = [ErrorEvent message (Some details)] /\
    In "Found columns: id, name" details.
Proof.
  assert (Hlabel : ~ In "LABEL" ["id"; "name"]).
  { simpl. intros [H|[H|[]]]; discriminate. }
  destruct (missing_label_one_error_no_write Graph.store [people_csv] [] unlabelled_csv
              (mkParseResult (Some ["id"; "name"]) [[("id", "1"); ("name", "Ann")]])
              sample_connection Graph.empty eq_refl Hlabel)
    as (Hcalls & Hdb & _ & Hdetails).
  split; [exact Hcalls|]. split; [exact Hdb|].
  apply Hdetails.
  - repeat split; reflexivity.
  - constructor; [|constructor]. eexists. split; [reflexivity|].
    split; [discriminate|]. intros col [<-|[]]. simpl. auto.
  - discriminate.
Defined.

(* ------------------------------------------------------------------ *)
(** ** Runs on a store that never throws *)

(** The store answers every call without throwing. *)
Definition reliable (D : StoreDouble) : Prop :=
  forall c s, exists result, fst (respond D c s) = inr result.

(** The answers of a store to a sequence of calls, and its final state. *)
Fixpoint play (D : StoreDouble) (cs : list call) (s : St D)
  : list (call * answer) * St D :=
  match cs with
  | [] => ([], s)
  | c :: cs' =>
      let (a, s') := respond D c s in
      let (log, s'') := play D cs' s' in
      ((c, a) :: log, s'')
  end.

(** The sum of the [created] counts answered to the [tx.run] calls. *)
Fixpoint created_total (log : list (call * answer)) : nat :=
  match log with
  | [] => 0
  | (TxRun _ _, inr result) :: log' => created_of result + created_total log'
  | _ :: log' => created_total log'
  end.

(** The calls of the writing loops, for a plan. *)
Definition node_calls (batches : list (string * list row)) : list call :=
  flat_map (fun kb => [TxRun (CreateNodes (fst kb)) (snd kb); TxCommit]) batches.

Definition relationship_statement (type : string) (batch : list row) : statement :=
  CreateRelationships type (propertyKeys (hd [] batch)).

Definition relationship_calls (batches : list (string * list row)) : list call :=
  flat_map (fun kb => [TxRun (relationship_statement (fst kb) (snd kb)) (snd kb); TxCommit])
    batches.

(** The progress events of the writing loop of the relationship route. *)
Fixpoint writing_events (total processed : nat) (batches : list (string * list row))
  : list event :=
  match batches with
  | [] => []
  | kb :: rest =>
      let processed' := processed + List.length (snd kb) in
      Progress (writing_percent processed' total)
        ("Created " +++ show_nat processed' +++ "/" +++ show_nat total
           +++ " relationships...")
        :: writing_events total processed' rest
  end.

Lemma play_app (D : StoreDouble) (cs cs' : list call) (s : St D) :
  play D (cs ++ cs') s =
  (fst (play D cs s) ++ fst (play D cs' (snd (play D cs s))),
   snd (play D cs' (snd (play D cs s)))).
Proof.
  revert s. induction cs as [|c cs IH]; intros s; simpl.
  - now destruct (play D cs' s).
  - destruct (respond D c s) as [a s']. rewrite IH.
    destruct (play D cs s') as [log s'']. simpl. reflexivity.
Qed.

Lemma created_total_app (log log' : list (call * answer)) :
  created_total (log ++ log') = created_total log + created_total log'.
Proof.
  induction log as [|[c a] log IH]; simpl; [reflexivity|].
  destruct c; try exact IH. destruct a; [exact IH|]. rewrite IH. lia.
Qed.

(** Calls other than [tx.run] create nothing. *)
Lemma created_total_other (D : StoreDouble) (cs : list call) :
  Forall (fun c => match c with TxRun _ _ => False | _ => True end) cs ->
  forall s, created_total (fst (play D cs s)) = 0.
Proof.
  induction 1 as [|c cs Hc Hcs IH]; intros s; simpl; [reflexivity|].
  destruct (respond D c s) as [a s']. specialize (IH s').
  destruct (play D cs s') as [log s'']. simpl in *.
  destruct c; try exact IH. destruct Hc.
Qed.

Lemma tx_runs_app (log log' : list (call * answer)) :
  tx_runs (log ++ log') = tx_runs log ++ tx_runs log'.
Proof.
  induction log as [|[c a] log IH]; simpl; [reflexivity|].
  destruct c; try exact IH. simpl. now rewrite IH.
Qed.

Lemma batches_from_nonempty (batchSize : nat) (rows : list row) :
  (0 < batchSize)%nat ->
  forall fuel i, Forall (fun b => b <> []) (batches_from fuel i batchSize rows).
Proof.
  intros Hpos. induction fuel as [|fuel IH]; intros i; simpl; [constructor|].
  destruct (Nat.ltb_spec i (List.length rows)) as [Hlt|Hge]; [|constructor].
  constructor; [|apply IH].
  intros E. apply (f_equal (@List.length row)) in E.
  rewrite slice_length in E. simpl in E. lia.
Qed.

Lemma plan_nonempty (group : list row -> RowMap) (batchSize : nat)
  (files : list ParsedData) :
  (0 < batchSize)%nat ->
  Forall (fun kb => snd kb <> []) (plan group batchSize files).
Proof.
  intros Hpos. unfold plan. apply Forall_flat_map, Forall_forall. intros f _.
  apply Forall_flat_map, Forall_forall. intros [k rs] _.
  apply Forall_map. simpl. apply batches_from_nonempty, Hpos.
Qed.

Section Reliable.

Context {D : StoreDouble}.

Hypothesis D_reliable : reliable D.

Lemma perform_reliable (c : call) (w : world D) :
  exists result,
    respond D c (db w) = (inr result, snd (respond D c (db w))) /\
    perform c w =
    (Normal result,
     mkWorld (closed w) (queue w) (snd (respond D c (db w)))
       (calls w ++ [(c, inr result)]) (vars w)).
Proof.
  destruct (D_reliable c (db w)) as [result Hr]. exists result.
  unfold perform. destruct (respond D c (db w)) as [a s']. simpl in *. subst a.
  split; reflexivity.
Qed.

(** The writing loop of the node route, over a plan. *)
Lemma write_node_plan (batches : list (string * list row)) :
  forall w : world D,
    for_of batches (fun kb => write_node_batch (fst kb) (snd kb)) w =
    (Normal tt,
     mkWorld (closed w) (queue w)
       (snd (play D (node_calls batches) (db w)))
       (calls w ++ fst (play D (node_calls batches) (db w)))
       (mkLocals (parsedFiles (vars w)) (totalRows (vars w)) (driver (vars w))
          (totalCreated (vars w)
           + created_total (fst (play D (node_calls batches) (db w))))
          (processedRows (vars w)))).
Proof.
  induction batches as [|[label batch] batches IH]; intros w; simpl.
  - unfold ret. rewrite app_nil_r, Nat.add_0_r.
    destruct w as [c q d l [pf tr dr tc pr]]. reflexivity.
  - unfold bind at 1. unfold write_node_batch.
    assert (Hdone : forall work : M D unit,
              (forall e, fst (transaction work w) <> Throw e) ->
              executeWrite work w = transaction work w)
      by (intros work; apply executeWrite_done).
    rewrite Hdone; unfold transaction, bind, assign;
      destruct (perform_reliable (TxRun (CreateNodes label) batch) w)
        as (result & Hr & ->);
      set (w1 := mkWorld _ _ _ _ _);
      destruct (perform_reliable TxCommit w1) as (result' & Hr' & ->);
      [|intros e; discriminate].
    unfold ret. rewrite IH. simpl.
    rewrite Hr. subst w1. simpl in *. rewrite Hr'.
    destruct (play D (node_calls batches) _) as [log s']. simpl.
    rewrite <- !app_assoc. simpl. f_equal. f_equal. f_equal. lia.
Qed.

(** The writing loop of the relationship route, over a plan. *)
Lemma write_relationship_plan (batches : list (string * list row)) :
  Forall (fun kb => snd kb <> []) batches ->
  forall w : world D,
    closed w = false ->
    for_of batches (fun kb => write_relationship_batch (fst kb) (snd kb)) w =
    (Normal tt,
     mkWorld false
       (queue w ++ writing_events (totalRows (vars w)) (processedRows (vars w)) batches)
       (snd (play D (relationship_calls batches) (db w)))
       (calls w ++ fst (play D (relationship_calls batches) (db w)))
       (mkLocals (parsedFiles (vars w)) (totalRows (vars w)) (driver (vars w))
          (totalCreated (vars w)
           + created_total (fst (play D (relationship_calls batches) (db w))))
          (processedRows (vars w) + plan_rows batches))).
Proof.
  induction 1 as [|[type batch] batches Hne Hrest IH]; intros w Hc; simpl.
  - unfold ret, plan_rows. simpl. rewrite !app_nil_r, !Nat.add_0_r.
    destruct w as [c q d l [pf tr dr tc pr]]. simpl in *. now subst.
  - simpl in Hne. destruct batch as [|sampleRow rest]; [congruence|].
    unfold bind at 1. unfold write_relationship_batch.
    assert (Hdone : forall work : M D unit,
              (forall e, fst (transaction work w) <> Throw e) ->
              executeWrite work w = transaction work w)
      by (intros work; apply executeWrite_done).
    rewrite Hdone; unfold transaction, bind, assign, read;
      unfold relationship_statement; simpl hd;
      destruct (perform_reliable
                  (TxRun (CreateRelationships type (propertyKeys sampleRow))
                     (sampleRow :: rest)) w) as (result & Hr & ->);
      unfold sendProgress, enqueue; simpl closed; rewrite Hc; cbv beta iota zeta;
      set (w1 := mkWorld false _ _ _ _);
      destruct (perform_reliable TxCommit w1) as (result' & Hr' & ->);
      [|intros e; discriminate].
    unfold ret. rewrite IH by reflexivity. simpl.
    rewrite Hr. subst w1. simpl in *. rewrite Hr'.
    destruct (play D (relationship_calls batches) _) as [log s']. simpl.
    rewrite <- !app_assoc. simpl. unfold plan_rows. simpl.
    f_equal. f_equal. f_equal; lia.
Qed.


(** The calls of a whole successful run. *)
Definition open_calls (conn : Connection) : list call :=
  [Driver (connection_text (connectionUrl conn)) (connection_text (username conn))
     (connection_text (password conn));
   Session].

Definition node_script (conn : Connection) (files : list ParsedData) : list call :=
  open_calls conn ++ node_calls (node_plan files) ++ [SessionClose; DriverClose].

Definition relationship_script (conn : Connection) (files : list ParsedData)
  : list call :=
  open_calls conn ++ SessionRun CreateIndex
    :: relationship_calls (relationship_plan files) ++ [SessionClose; DriverClose].

Lemma perform_play (c : call) (w : world D) :
  exists result,
    perform c w =
    (Normal result,
     mkWorld (closed w) (queue w) (snd (play D [c] (db w)))
       (calls w ++ fst (play D [c] (db w))) (vars w)).
Proof.
  destruct (perform_reliable c w) as (result & Hr & Hp). exists result.
  rewrite Hp. simpl. rewrite Hr. reflexivity.
Qed.

Lemma connect_reliable (conn : Connection) (w : world D) :
  connect conn w =
  (Normal tt,
   mkWorld (closed w) (queue w) (snd (play D (open_calls conn) (db w)))
     (calls w ++ fst (play D (open_calls conn) (db w)))
     (mkLocals (parsedFiles (vars w)) (totalRows (vars w)) true 0 0)).
Proof.
  unfold connect, bind, assign.
  set (c := Driver _ _ _).
  destruct (perform_play c w) as (r1 & ->). simpl vars. simpl closed. simpl queue.
  set (w1 := mkWorld _ _ _ _ _).
  destruct (perform_play Session w1) as (r2 & ->). subst w1.
  cbn [closed queue db calls vars parsedFiles totalRows].
  change (open_calls conn) with ([c] ++ [Session]). rewrite play_app.
  cbn [fst snd]. rewrite <- app_assoc. reflexivity.
Qed.


Lemma write_nodes_reliable (w : world D) :
  write_nodes w =
  (Normal tt,
   mkWorld (closed w) (queue w)
     (snd (play D (node_calls (node_plan (parsedFiles (vars w)))) (db w)))
     (calls w ++ fst (play D (node_calls (node_plan (parsedFiles (vars w)))) (db w)))
     (mkLocals (parsedFiles (vars w)) (totalRows (vars w)) (driver (vars w))
        (totalCreated (vars w)
         + created_total
             (fst (play D (node_calls (node_plan (parsedFiles (vars w)))) (db w))))
        (processedRows (vars w)))).
Proof.
  unfold write_nodes, bind, read.
  rewrite (nested_loops_plan rowsByLabel nodeBatchSize write_node_batch).
  apply write_node_plan.
Qed.

Lemma write_relationships_reliable (w : world D) :
  closed w = false ->
  write_relationships w =
  (Normal tt,
   mkWorld false
     (queue w ++ writing_events (totalRows (vars w)) (processedRows (vars w))
                   (relationship_plan (parsedFiles (vars w))))
     (snd (play D (relationship_calls (relationship_plan (parsedFiles (vars w)))) (db w)))
     (calls w
      ++ fst (play D (relationship_calls (relationship_plan (parsedFiles (vars w)))) (db w)))
     (mkLocals (parsedFiles (vars w)) (totalRows (vars w)) (driver (vars w))
        (totalCreated (vars w)
         + created_total
             (fst (play D (relationship_calls (relationship_plan (parsedFiles (vars w))))
                     (db w))))
        (processedRows (vars w) + plan_rows (relationship_plan (parsedFiles (vars w)))))).
Proof.
  intros Hc. unfold write_relationships, bind, read.
  rewrite (nested_loops_plan rowsByType relationshipBatchSize write_relationship_batch).
  apply write_relationship_plan; [|exact Hc].
  apply plan_nonempty. unfold relationshipBatchSize. lia.
Qed.

Lemma finish_open (summary : nat -> nat -> string) (w : world D) :
  closed w = false ->
  finish summary w =
  (Normal tt,
   mkWorld true
     (queue w ++
      [Progress 95 "Finalizing..."; Progress 100 "Upload complete!";
       DataEvent (List.length (parsedFiles (vars w))) (totalCreated (vars w))
         (summary (totalCreated (vars w)) (List.length (parsedFiles (vars w))))])
     (db w) (calls w) (vars w)).
Proof.
  intros Hc. unfold finish, bind, sendProgress, enqueue, read, close.
  rewrite Hc. simpl. rewrite <- !app_assoc. reflexivity.
Qed.

Lemma close_session_reliable (w : world D) :
  close_session w =
  (Normal tt,
   mkWorld (closed w) (queue w) (snd (play D [SessionClose] (db w)))
     (calls w ++ fst (play D [SessionClose] (db w))) (vars w)).
Proof.
  unfold close_session, bind. destruct (perform_play SessionClose w) as (r & ->).
  reflexivity.
Qed.

Lemma close_driver_reliable (w : world D) :
  driver (vars w) = true ->
  close_driver w =
  (Normal tt,
   mkWorld (closed w) (queue w) (snd (play D [DriverClose] (db w)))
     (calls w ++ fst (play D [DriverClose] (db w))) (vars w)).
Proof.
  intros Hd. unfold close_driver, bind, read. rewrite Hd. simpl when. unfold bind.
  destruct (perform_play DriverClose w) as (r & ->). reflexivity.
Qed.

(** The node route on valid input: the whole run, in closed form. *)
Lemma run_nodes_succeeds (files : list File) (conn : Connection) (s : St D) :
  files <> [] ->
  valid_connection conn ->
  Forall (parsed_ok ["LABEL"]) files ->
  let pfs := map parsed_data files in
  let result := play D (node_script conn pfs) s in
  let total := created_total (fst result) in
  run_nodes files conn s =
  mkWorld true
    (Progress 5 "Parsing CSV files..."
       :: parsing_events (List.length files) 0 files ++
       [Progress 15
          ("Parsed " +++ show_nat (sum_rows pfs) +++ " rows from "
             +++ show_nat (List.length files) +++ " file(s)");
        Progress 20 "Connecting to Neo4j...";
        Progress 25 "Starting data insertion...";
        Progress 95 "Finalizing...";
        Progress 100 "Upload complete!";
        DataEvent (List.length files) total (node_summary total (List.length files))])
    (snd result) (fst result)
    (mkLocals pfs (sum_rows pfs) true total 0).
Proof.
  intros Hne Hconn Hfiles pfs result total.
  unfold run_nodes, uploadNodes, try_catch at 1. unfold bind at 1.
  rewrite (validate_input_passes files conn _ Hne Hconn).
  unfold bind at 1.
  rewrite (parse_phase_passes parse_node_file ["LABEL"]
             (fun n i file w => parse_node_file_passes n i file w) files _ Hfiles)
    by reflexivity.
  unfold bind at 1. unfold assign at 1.
  cbn [closed queue db calls vars parsedFiles totalRows driver totalCreated
         processedRows initial no_locals app].
  unfold try_finally at 1, try_catch at 1. unfold bind at 1.
  rewrite connect_reliable.
  cbn [closed queue db calls vars parsedFiles totalRows driver totalCreated
         processedRows app].
  unfold try_finally at 1. unfold bind at 1.
  unfold sendProgress at 1, enqueue at 1.
  cbn [closed queue db calls vars parsedFiles totalRows driver totalCreated
         processedRows app].
  unfold bind at 1. rewrite write_nodes_reliable.
  cbn [closed queue db calls vars parsedFiles totalRows driver totalCreated
         processedRows app].
  rewrite finish_open by reflexivity.
  cbn [closed queue db calls vars parsedFiles totalRows driver totalCreated
         processedRows app].
  rewrite close_session_reliable.
  cbn [closed queue db calls vars parsedFiles totalRows driver totalCreated
         processedRows app].
  rewrite close_driver_reliable by reflexivity.
  cbn [closed queue db calls vars parsedFiles totalRows driver totalCreated
         processedRows app snd].
  fold pfs.
  unfold total, result, node_script.
  change [SessionClose; DriverClose] with ([SessionClose] ++ [DriverClose]).
  rewrite !play_app. cbn [fst snd].
  rewrite !created_total_app.
  rewrite (created_total_other D (open_calls conn)),
    (created_total_other D [SessionClose]),
    (created_total_other D [DriverClose]) by (repeat constructor).
  assert (Hlen : List.length pfs = List.length files) by apply length_map.
  rewrite Hlen, !Nat.add_0_r. cbn [Nat.add].
  rewrite !app_nil_l, <- !app_assoc, <- !app_comm_cons, <- !app_assoc. reflexivity.
Qed.



Lemma ensure_index_reliable (w : world D) :
  ensure_index w =
  (Normal tt,
   mkWorld (closed w) (queue w) (snd (play D [SessionRun CreateIndex] (db w)))
     (calls w ++ fst (play D [SessionRun CreateIndex] (db w))) (vars w)).
Proof.
  unfold ensure_index, try_catch, bind.
  destruct (perform_play (SessionRun CreateIndex) w) as (r & ->). reflexivity.
Qed.

(** The relationship route on valid input: the whole run, in closed form. *)
Lemma run_relationships_succeeds (files : list File) (conn : Connection) (s : St D) :
  files <> [] ->
  valid_connection conn ->
  Forall (parsed_ok REQUIRED_COLUMNS) files ->
  let pfs := map parsed_data files in
  let result := play D (relationship_script conn pfs) s in
  let total := created_total (fst result) in
  run_relationships files conn s =
  mkWorld true
    (Progress 5 "Parsing CSV files..."
       :: parsing_events (List.length files) 0 files ++
       [Progress 15
          ("Parsed " +++ show_nat (sum_rows pfs) +++ " rows from "
             +++ show_nat (List.length files) +++ " file(s)");
        Progress 20 "Connecting to Neo4j...";
        Progress 25 "Checking/creating indexes...";
        Progress 30 "Starting relationship creation..."]
       ++ writing_events (sum_rows pfs) 0 (relationship_plan pfs) ++
       [Progress 95 "Finalizing...";
        Progress 100 "Upload complete!";
        DataEvent (List.length files) total
          (relationship_summary total (List.length files))])
    (snd result) (fst result)
    (mkLocals pfs (sum_rows pfs) true total (plan_rows (relationship_plan pfs))).
Proof.
  intros Hne Hconn Hfiles pfs result total.
  unfold run_relationships, uploadRelationships, try_catch at 1. unfold bind at 1.
  rewrite (validate_input_passes files conn _ Hne Hconn).
  unfold bind at 1.
  rewrite (parse_phase_passes parse_relationship_file REQUIRED_COLUMNS
             (fun n i file w => parse_relationship_file_passes n i file w)
             files _ Hfiles)
    by reflexivity.
  unfold bind at 1. unfold assign at 1.
  cbn [closed queue db calls vars parsedFiles totalRows driver totalCreated
         processedRows initial no_locals].
  unfold try_finally at 1, try_catch at 1. unfold bind at 1.
  rewrite connect_reliable.
  cbn [closed queue db calls vars parsedFiles totalRows driver totalCreated
         processedRows].
  unfold try_finally at 1. unfold bind at 1.
  unfold sendProgress at 1, enqueue at 1.
  cbn [closed queue db calls vars parsedFiles totalRows driver totalCreated
         processedRows].
  unfold bind at 1. rewrite ensure_index_reliable.
  cbn [closed queue db calls vars parsedFiles totalRows driver totalCreated
         processedRows].
  unfold bind at 1. unfold sendProgress at 1, enqueue at 1.
  cbn [closed queue db calls vars parsedFiles totalRows driver totalCreated
         processedRows].
  unfold bind at 1. rewrite write_relationships_reliable by reflexivity.
  cbn [closed queue db calls vars parsedFiles totalRows driver totalCreated
         processedRows].
  rewrite finish_open by reflexivity.
  cbn [closed queue db calls vars parsedFiles totalRows driver totalCreated
         processedRows].
  rewrite close_session_reliable.
  cbn [closed queue db calls vars parsedFiles totalRows driver totalCreated
         processedRows].
  rewrite close_driver_reliable by reflexivity.
  cbn [closed queue db calls vars parsedFiles totalRows driver totalCreated
         processedRows snd].
  fold pfs.
  unfold total, result, relationship_script.
  change [SessionClose; DriverClose] with ([SessionClose] ++ [DriverClose]).
  change (SessionRun CreateIndex
            :: relationship_calls (relationship_plan pfs) ++ [SessionClose] ++ [DriverClose])
    with ([SessionRun CreateIndex]
            ++ relationship_calls (relationship_plan pfs) ++ [SessionClose] ++ [DriverClose]).
  rewrite !play_app. cbn [fst snd].
  rewrite !created_total_app.
  rewrite (created_total_other D (open_calls conn)),
    (created_total_other D [SessionRun CreateIndex]),
    (created_total_other D [SessionClose]),
    (created_total_other D [DriverClose]) by (repeat constructor).
  assert (Hlen : List.length pfs = List.length files) by apply length_map.
  rewrite Hlen, !Nat.add_0_r. cbn [Nat.add].
  rewrite !app_nil_l, <- !app_assoc, <- !app_comm_cons, <- !app_assoc. reflexivity.
Qed.

End Reliable.

(* ------------------------------------------------------------------ *)
(** ** Batches *)

Lemma tx_runs_node_calls (D : StoreDouble) (batches : list (string * list row)) :
  forall s,
    tx_runs (fst (play D (node_calls batches) s)) =
    map (fun kb => (CreateNodes (fst kb), snd kb)) batches.
Proof.
  induction batches as [|[label batch] batches IH]; intros s; simpl; [reflexivity|].
  destruct (respond D (TxRun (CreateNodes label) batch) s) as [a s1].
  destruct (respond D TxCommit s1) as [a' s2].
  specialize (IH s2). destruct (play D (node_calls batches) s2) as [log s3].
  simpl in *. now rewrite IH.
Qed.

Lemma tx_runs_relationship_calls (D : StoreDouble)
  (batches : list (string * list row)) :
  forall s,
    tx_runs (fst (play D (relationship_calls batches) s)) =
    map (fun kb => (relationship_statement (fst kb) (snd kb), snd kb)) batches.
Proof.
  induction batches as [|[type batch] batches IH]; intros s; simpl; [reflexivity|].
  destruct (respond D (TxRun (relationship_statement type batch) batch) s) as [a s1].
  destruct (respond D TxCommit s1) as [a' s2].
  specialize (IH s2). destruct (play D (relationship_calls batches) s2) as [log s3].
  simpl in *. now rewrite IH.
Qed.

Lemma batches_length (batchSize : nat) (rows : list row) :
  (0 < batchSize)%nat ->
  List.length (batches batchSize rows) = ceil_div (List.length rows) batchSize.
Proof.
  intros Hpos. unfold batches.
  rewrite <- (length_map (@List.length row)), batches_from_sizes by exact Hpos.
  rewrite sizes_from_length by (exact Hpos || lia). now rewrite Nat.sub_0_r.
Qed.

Lemma batches_nth (batchSize : nat) (rows : list row) (k : nat) :
  (0 < batchSize)%nat ->
  (k < List.length (batches batchSize rows))%nat ->
  nth k (batches batchSize rows) [] =
  slice (k * batchSize) (k * batchSize + batchSize) rows.
Proof.
  intros Hpos Hk. unfold batches in *. now rewrite batches_from_nth.
Qed.

(** The [tx.run] calls of the batch loop of one group. *)
Lemma group_tx_runs (D : StoreDouble) (key : string) (rows : list row) (w : world D) :
  reliable D ->
  closed w = false ->
  tx_runs (calls (snd (for_batches nodeBatchSize rows (write_node_batch key) w))) =
  tx_runs (calls w)
  ++ map (fun batch => (CreateNodes key, batch)) (batches nodeBatchSize rows) /\
  tx_runs (calls (snd (for_batches relationshipBatchSize rows
                         (write_relationship_batch key) w))) =
  tx_runs (calls w)
  ++ map (fun batch => (relationship_statement key batch, batch))
       (batches relationshipBatchSize rows).
Proof.
  intros HD Hc. unfold for_batches. rewrite !for_batches_from_of.
  fold (batches nodeBatchSize rows) (batches relationshipBatchSize rows). split.
  - rewrite (for_of_ext _ _ (fun b => write_node_batch (fst (key, b)) (snd (key, b))))
      by reflexivity.
    rewrite <- (for_of_map (pair key) _
                  (fun kb => write_node_batch (fst kb) (snd kb))).
    rewrite (write_node_plan HD). cbn [snd calls].
    rewrite tx_runs_app, tx_runs_node_calls, map_map. reflexivity.
  - rewrite (for_of_ext _ _
               (fun b => write_relationship_batch (fst (key, b)) (snd (key, b))))
      by reflexivity.
    rewrite <- (for_of_map (pair key) _
                  (fun kb => write_relationship_batch (fst kb) (snd kb))).
    rewrite (write_relationship_plan HD); [|
      apply Forall_map; simpl; apply batches_from_nonempty;
      unfold relationshipBatchSize; lia | exact Hc].
    cbn [snd calls].
    rewrite tx_runs_app, tx_runs_relationship_calls, map_map. reflexivity.
Qed.


Lemma counter_reliable : reliable Counter.store.
Proof.
  intros c s. simpl. unfold Counter.respond.
  destruct c; eexists; reflexivity.
Qed.


(* ------------------------------------------------------------------ *)
(** ** Relationship properties *)

Lemma get_none_keys (k : string) (r : row) : ~ In k (keys r) -> get k r = None.
Proof.
  induction r as [|[k' v] r IH]; simpl; [reflexivity|]. intros H.
  destruct (String.eqb_spec k k') as [->|Hne]; [tauto|]. apply IH. tauto.
Qed.

Lemma props_of_keys (ks : list string) (r : row) (k : string) :
  In k (keys (Graph.props_of ks r)) -> In k ks.
Proof.
  induction ks as [|k' ks IH]; simpl; [tauto|].
  destruct (get k' r); simpl; intros H; tauto.
Qed.

Lemma propertyKeys_spec (sampleRow : row) (key : string) :
  In key (propertyKeys sampleRow) <->
  In key (keys sampleRow) /\ ~ In key REQUIRED_COLUMNS.
Proof.
  unfold propertyKeys. rewrite filter_In, negb_true_iff, includes_not_In. tauto.
Qed.

Lemma created_by_row_props (g : Graph.graph) (type : string) (ks : list string)
  (r : row) (rel : Graph.relationship) :
  In rel (Graph.created_by_row g type ks r) ->
  Graph.rel_type rel = type /\ Graph.rel_props rel = Graph.props_of ks r.
Proof.
  unfold Graph.created_by_row. rewrite in_flat_map.
  intros (from & _ & H). rewrite in_map_iff in H. destruct H as (to & <- & _).
  split; reflexivity.
Qed.

(** The [tx.run] calls of one relationship batch, on any store: one per
    attempt, each with the same statement and the whole batch. *)
Lemma transaction_tx_run (D : StoreDouble) (type : string)
  (sampleRow : row) (rest : list row) (work : M D unit) (w : world D) :
  work = (let batch := sampleRow :: rest in
          result <- perform (TxRun (CreateRelationships type (propertyKeys sampleRow))
                               batch) ;;
          let created := created_of result in
          assign (fun v => mkLocals (parsedFiles v) (totalRows v) (driver v)
                             (totalCreated v + created)
                             (processedRows v + List.length batch)) ;;
          processed <- read processedRows ;;
          total <- read totalRows ;;
          sendProgress (writing_percent processed total)
            ("Created " +++ show_nat processed +++ "/" +++ show_nat total
               +++ " relationships...")) ->
  tx_runs (calls (snd (transaction work w))) =
  tx_runs (calls w)
  ++ [(CreateRelationships type (propertyKeys sampleRow), sampleRow :: rest)].
Proof.
  intros ->. unfold transaction, bind, perform, assign, read, sendProgress, enqueue.
  destruct (respond D (TxRun (CreateRelationships type (propertyKeys sampleRow))
                         (sampleRow :: rest)) (db w)) as [[e|result] s1];
    simpl; [now rewrite tx_runs_app|].
  destruct (closed w); simpl; [now rewrite tx_runs_app|].
  destruct (respond D TxCommit s1) as [[e|result'] s2]; simpl;
    now rewrite !tx_runs_app, app_nil_r.
Qed.

Lemma write_relationship_batch_tx_run (D : StoreDouble) (type : string)
  (sampleRow : row) (rest : list row) (w : world D) :
  exists attempts,
    (1 <= attempts <= S (patience D))%nat /\
    tx_runs (calls (snd (write_relationship_batch type (sampleRow :: rest) w))) =
    tx_runs (calls w)
    ++ repeat (CreateRelationships type (propertyKeys sampleRow), sampleRow :: rest)
         attempts.
Proof.
  unfold write_relationship_batch, executeWrite.
  set (work := bind _ _).
  assert (Hone : forall w',
            tx_runs (calls (snd (transaction work w'))) =
            tx_runs (calls w')
            ++ [(CreateRelationships type (propertyKeys sampleRow), sampleRow :: rest)]).
  { intros w'. apply transaction_tx_run. reflexivity. }
  generalize (patience D). intros retries. revert w.
  induction retries as [|retries IH]; intros w.
  - exists 1. split; [lia|]. apply Hone.
  - rewrite retrying_step. specialize (Hone w).
    destruct (transaction work w) as [[a| |e] w'] eqn:Hw; simpl in Hone;
      try (exists 1; split; [lia | exact Hone]).
    destruct (retryable D e); [|exists 1; split; [lia | exact Hone]].
    destruct (IH w') as (attempts & Hn & Hruns).
    exists (S attempts). split; [lia|].
    rewrite Hruns, Hone, <- app_assoc. reflexivity.
Qed.

(** C10.  The statement of a relationship batch names the property keys
    of the batch's first row only (its keys minus the five required
    columns), in every attempt of its unit of work, and exactly once when
    the driver runs no unit of work again; the graph store applies that
    key set to every row, so a column missing from the first row is a
    property of no relationship the batch creates, whatever the later rows
    hold. *)
Theorem property_keys_from_first_row (D : StoreDouble) (type : string)
  (sampleRow : row) (rest : list row) (w : world D) (g : Graph.graph)
  (column : string) :
  ~ In column (keys sampleRow) ->
  let statement := CreateRelationships type (propertyKeys sampleRow) in
  let batch := sampleRow :: rest in
  (exists attempts,
     (1 <= attempts <= S (patience D))%nat /\
     tx_runs (calls (snd (write_relationship_batch type batch w))) =
       tx_runs (calls w) ++ repeat (statement, batch) attempts) /\
  (never_retries D ->
   tx_runs (calls (snd (write_relationship_batch type batch w))) =
     tx_runs (calls w) ++ [(statement, batch)]) /\
  (forall key, In key (propertyKeys sampleRow) <->
               In key (keys sampleRow) /\ ~ In key REQUIRED_COLUMNS) /\
  exists new,
    Graph.relationships (snd (Graph.respond (TxRun statement batch) g)) =
      Graph.relationships g ++ new /\
    Forall (fun rel =>
              get column (Graph.rel_props rel) = None /\
              forall key, In key (keys (Graph.rel_props rel)) ->
                          In key (propertyKeys sampleRow))
           new.
Proof.
  intros Hcol statement batch. split; [apply write_relationship_batch_tx_run|].
  split.
  { intros Hone. unfold write_relationship_batch.
    rewrite executeWrite_once by exact Hone.
    apply transaction_tx_run. reflexivity. }
  split; [apply propertyKeys_spec|].
  unfold Graph.respond. destruct (well_formed statement).
  - exists (flat_map (Graph.created_by_row g type (propertyKeys sampleRow)) batch).
    split; [reflexivity|].
    apply Forall_forall. intros rel Hrel. apply in_flat_map in Hrel.
    destruct Hrel as (r & _ & Hrel).
    apply created_by_row_props in Hrel. destruct Hrel as [_ ->]. split.
    + apply get_none_keys. intros H. apply props_of_keys in H.
      apply propertyKeys_spec in H. tauto.
    + intros key. apply props_of_keys.
  - exists []. split; [simpl; now rewrite app_nil_r | constructor].
Qed.

(** Two nodes and a batch whose second row alone has a [since] column. *)
Definition two_people : Graph.server :=
  Graph.idle
    (Graph.mkGraph
       [Graph.mkNode "Person" [("id", "1"); ("name", "Ann")];
        Graph.mkNode "Person" [("id", "2"); ("name", "Bo")]]
       []).

Definition ragged_batch : list row :=
  [[("TYPE", "KNOWS"); ("FROM_LABEL", "Person"); ("FROM_ID", "1");
    ("TO_LABEL", "Person"); ("TO_ID", "2")];
   [("TYPE", "KNOWS"); ("FROM_LABEL", "Person"); ("FROM_ID", "2");
    ("TO_LABEL", "Person"); ("TO_ID", "1"); ("since", "2020")]].

Lemma property_keys_from_first_row_witness :
  Graph.relationships
    (snd (Graph.respond (TxRun (CreateRelationships "KNOWS" []) ragged_batch)
            (Graph.committed two_people)))
  = [Graph.mkRelationship "KNOWS" 0 1 []; Graph.mkRelationship "KNOWS" 1 0 []] /\
  tx_runs (calls (snd (write_relationship_batch "KNOWS" ragged_batch
                         (initial (D := Graph.store) two_people)))) =
  [(CreateRelationships "KNOWS" [], ragged_batch)].
Proof.
  assert (Hcol : ~ In "since" (keys (hd [] ragged_batch))).
  { simpl. intros [H|[H|[H|[H|[H|[]]]]]]; discriminate. }
  destruct (property_keys_from_first_row Graph.store "KNOWS" (hd [] ragged_batch)
              (tl ragged_batch) (initial (D := Graph.store) two_people)
              (Graph.committed two_people) "since" Hcol)
    as (_ & Hrun & _ & new & Hnew & _).
  split; [vm_compute; reflexivity | apply Hrun; left; reflexivity].
Defined.

(* ------------------------------------------------------------------ *)
(** ** Two runs side by side *)

(** A file without its rows that lack the grouping key. *)
Definition keyed_only (key : string) (file : File) : File :=
  mkFile (name file)
    (match parse file with
     | inl e => inl e
     | inr parseResult =>
         inr (mkParseResult (fields parseResult)
                (filter (has_key key) (data parseResult)))
     end).

(** How two completions compare: same kind, same thrown value, related
    results. *)
Definition outcome_rel {A B : Type} (R : A -> B -> Prop) (o1 : outcome A)
  (o2 : outcome B) : Prop :=
  match o1, o2 with
  | Normal a, Normal b => R a b
  | Return, Return => True
  | Throw e, Throw e' => e = e'
  | _, _ => False
  end.

Section SideBySide.

Context {D : StoreDouble}.

(** The plan of a route, as a function of the parsed files. *)
Variable plan_of : list ParsedData -> list (string * list row).

Hypothesis plan_of_app :
  forall xs ys, plan_of (xs ++ ys) = plan_of xs ++ plan_of ys.

(** Two states that a caller and the store cannot tell apart, progress
    events aside. *)
Definition sim (w1 w2 : world D) : Prop :=
  closed w1 = closed w2 /\
  terminals (queue w1) = terminals (queue w2) /\
  db w1 = db w2 /\
  calls w1 = calls w2 /\
  driver (vars w1) = driver (vars w2) /\
  totalCreated (vars w1) = totalCreated (vars w2) /\
  List.length (parsedFiles (vars w1)) = List.length (parsedFiles (vars w2)) /\
  plan_of (parsedFiles (vars w1)) = plan_of (parsedFiles (vars w2)).

Definition rsim {A B : Type} (R : A -> B -> Prop) (m1 : M D A) (m2 : M D B) : Prop :=
  forall w1 w2, sim w1 w2 ->
    outcome_rel R (fst (m1 w1)) (fst (m2 w2)) /\ sim (snd (m1 w1)) (snd (m2 w2)).

Definition any {A B : Type} : A -> B -> Prop := fun _ _ => True.

Lemma rsim_ret {A B : Type} (R : A -> B -> Prop) (a : A) (b : B) :
  R a b -> rsim R (ret a) (ret b).
Proof. intros H w1 w2 Hs. split; [exact H | exact Hs]. Qed.

Lemma rsim_throw {A B : Type} (R : A -> B -> Prop) (e : thrown) :
  rsim R (@throw D A e) (@throw D B e).
Proof. intros w1 w2 Hs. split; [reflexivity | exact Hs]. Qed.

Lemma rsim_early_return {A B : Type} (R : A -> B -> Prop) :
  rsim R (@early_return D A) (@early_return D B).
Proof. intros w1 w2 Hs. split; [exact I | exact Hs]. Qed.

Lemma rsim_bind {A A' B B' : Type} (R : A -> A' -> Prop) (R' : B -> B' -> Prop)
  (m1 : M D A) (m2 : M D A') (f1 : A -> M D B) (f2 : A' -> M D B') :
  rsim R m1 m2 ->
  (forall a a', R a a' -> rsim R' (f1 a) (f2 a')) ->
  rsim R' (bind m1 f1) (bind m2 f2).
Proof.
  intros Hm Hf w1 w2 Hs. unfold bind. destruct (Hm w1 w2 Hs) as [Ho Hs'].
  destruct (m1 w1) as [[a| |e] w1'], (m2 w2) as [[a'| |e'] w2']; simpl in *;
    try contradiction; auto.
  apply Hf; assumption.
Qed.

Lemma rsim_try_catch {A B : Type} (R : A -> B -> Prop) (m1 : M D A) (m2 : M D B)
  (h1 : thrown -> M D A) (h2 : thrown -> M D B) :
  rsim R m1 m2 ->
  (forall e, rsim R (h1 e) (h2 e)) ->
  rsim R (try_catch m1 h1) (try_catch m2 h2).
Proof.
  intros Hm Hh w1 w2 Hs. unfold try_catch. destruct (Hm w1 w2 Hs) as [Ho Hs'].
  destruct (m1 w1) as [[a| |e] w1'], (m2 w2) as [[a'| |e'] w2']; simpl in *;
    try contradiction; auto.
  subst e'. apply Hh; assumption.
Qed.

Lemma rsim_try_finally {A B : Type} (R : A -> B -> Prop) (m1 : M D A) (m2 : M D B)
  (f1 f2 : M D unit) :
  rsim R m1 m2 ->
  rsim any f1 f2 ->
  rsim R (try_finally m1 f1) (try_finally m2 f2).
Proof.
  intros Hm Hf w1 w2 Hs. unfold try_finally. destruct (Hm w1 w2 Hs) as [Ho Hs'].
  destruct (m1 w1) as [o1 w1'], (m2 w2) as [o2 w2']. simpl in *.
  destruct (Hf w1' w2' Hs') as [Ho' Hs''].
  destruct (f1 w1') as [[[]| |e] w1''], (f2 w2') as [[[]| |e'] w2'']; simpl in *;
    try contradiction; auto.
Qed.

Lemma rsim_when (c : bool) (m1 m2 : M D unit) :
  rsim eq m1 m2 -> rsim eq (when c m1) (when c m2).
Proof. destruct c; simpl; [auto | intros _; now apply rsim_ret]. Qed.

Lemma rsim_for_of {A : Type} (xs : list A) (b1 b2 : A -> M D unit) :
  (forall x, rsim eq (b1 x) (b2 x)) -> rsim eq (for_of xs b1) (for_of xs b2).
Proof.
  intros Hb. induction xs as [|x xs IH]; simpl; [now apply rsim_ret|].
  eapply rsim_bind; [apply Hb | intros _ _ _; exact IH].
Qed.

Lemma rsim_for_index {A : Type} (F : A -> A -> Prop) (xs ys : list A)
  (b1 b2 : nat -> A -> M D unit) :
  Forall2 F xs ys ->
  (forall i x y, F x y -> rsim eq (b1 i x) (b2 i y)) ->
  forall i, rsim eq (for_index i xs b1) (for_index i ys b2).
Proof.
  intros HF Hb. induction HF as [|x y xs ys Hxy HF IH]; intros i; simpl;
    [now apply rsim_ret|].
  eapply rsim_bind; [apply Hb, Hxy | intros _ _ _; apply IH].
Qed.

Lemma rsim_ext {A B : Type} (R : A -> B -> Prop) (m1 m1' : M D A) (m2 m2' : M D B) :
  (forall w, m1 w = m1' w) -> (forall w, m2 w = m2' w) ->
  rsim R m1' m2' -> rsim R m1 m2.
Proof. intros E1 E2 H w1 w2 Hs. rewrite E1, E2. apply H, Hs. Qed.

(** Progress events may differ. *)
Lemma rsim_sendProgress (p1 p2 : Q) (m1 m2 : string) :
  rsim eq (sendProgress p1 m1) (sendProgress p2 m2).
Proof.
  intros w1 w2 (Hc & Ht & Hdb & Hcalls & Hd & Htc & Hlen & Hplan).
  unfold sendProgress, enqueue. rewrite <- Hc.
  destruct (closed w1) eqn:E; simpl; (split; [reflexivity|]);
    unfold sim; simpl; rewrite ?terminals_app, ?Ht; simpl;
    repeat split; auto; congruence.
Qed.

Lemma rsim_enqueue (ev : event) : rsim eq (enqueue ev) (enqueue ev).
Proof.
  intros w1 w2 (Hc & Ht & Hdb & Hcalls & Hd & Htc & Hlen & Hplan).
  unfold enqueue. rewrite <- Hc.
  destruct (closed w1) eqn:E; simpl; (split; [reflexivity|]);
    unfold sim; simpl; rewrite ?terminals_app, ?Ht;
    repeat split; auto; congruence.
Qed.

Lemma rsim_close : rsim eq close close.
Proof.
  intros w1 w2 (Hc & Ht & Hdb & Hcalls & Hd & Htc & Hlen & Hplan).
  unfold close. rewrite <- Hc.
  destruct (closed w1) eqn:E; simpl; (split; [reflexivity|]);
    unfold sim; simpl; repeat split; auto; congruence.
Qed.

Lemma rsim_fail_with (m : string) (d : option (list string)) :
  rsim eq (fail_with m d) (fail_with m d).
Proof.
  unfold fail_with. eapply rsim_bind; [apply rsim_enqueue | intros _ _ _; apply rsim_close].
Qed.

Lemma rsim_perform (c : call) : rsim eq (perform c) (perform c).
Proof.
  intros w1 w2 (Hc & Ht & Hdb & Hcalls & Hd & Htc & Hlen & Hplan).
  unfold perform. rewrite <- Hdb.
  destruct (respond D c (db w1)) as [[e|r] s]; simpl; (split; [reflexivity|]);
    unfold sim; simpl; rewrite Hcalls; repeat split; auto.
Qed.

Lemma rsim_read {A B : Type} (R : A -> B -> Prop) (f1 : locals -> A) (f2 : locals -> B) :
  (forall w1 w2, sim w1 w2 -> R (f1 (vars w1)) (f2 (vars w2))) ->
  rsim R (read f1) (read f2).
Proof. intros H w1 w2 Hs. split; [apply H, Hs | exact Hs]. Qed.

Lemma rsim_assign (f1 f2 : locals -> locals) :
  (forall v1 v2,
     driver v1 = driver v2 -> totalCreated v1 = totalCreated v2 ->
     List.length (parsedFiles v1) = List.length (parsedFiles v2) ->
     plan_of (parsedFiles v1) = plan_of (parsedFiles v2) ->
     driver (f1 v1) = driver (f2 v2) /\
     totalCreated (f1 v1) = totalCreated (f2 v2) /\
     List.length (parsedFiles (f1 v1)) = List.length (parsedFiles (f2 v2)) /\
     plan_of (parsedFiles (f1 v1)) = plan_of (parsedFiles (f2 v2))) ->
  rsim eq (assign f1) (assign f2).
Proof.
  intros H w1 w2 (Hc & Ht & Hdb & Hcalls & Hd & Htc & Hlen & Hplan).
  unfold assign. simpl. split; [reflexivity|].
  destruct (H _ _ Hd Htc Hlen Hplan) as (H1 & H2 & H3 & H4).
  unfold sim. simpl. repeat split; auto.
Qed.

End SideBySide.

Section Dropped.

Context {D : StoreDouble}.

Variable key : string.
Variable plan_of : list ParsedData -> list (string * list row).

Hypothesis plan_of_app :
  forall xs ys, plan_of (xs ++ ys) = plan_of xs ++ plan_of ys.

(** The plan does not see the rows without a key. *)
Hypothesis plan_of_keyed :
  forall nm hs rs n n',
    plan_of [mkParsedData nm hs (filter (has_key key) rs) n] =
    plan_of [mkParsedData nm hs rs n'].

Definition same_but_keyed (pr pr' : ParseResult) : Prop :=
  fields pr' = fields pr /\ data pr' = filter (has_key key) (data pr).

Lemma rsim_read_and_parse (file : File) :
  rsim (D := D) plan_of same_but_keyed (read_and_parse file)
    (read_and_parse (keyed_only key file)).
Proof.
  unfold read_and_parse, keyed_only. simpl. destruct (parse file) as [e|pr].
  - apply rsim_throw.
  - apply rsim_ret. split; reflexivity.
Qed.

Lemma rsim_fail_return (m : string) (d : option (list string)) :
  rsim (D := D) plan_of eq (fail_with m d ;; @early_return D unit)
    (fail_with m d ;; @early_return D unit).
Proof.
  eapply rsim_bind; [apply rsim_fail_with | intros _ _ _; apply rsim_early_return].
Qed.

Lemma rsim_push_parsed (file : File) (hs : list string) (pr pr' : ParseResult) :
  same_but_keyed pr pr' ->
  rsim (D := D) plan_of eq
    (push_parsed file hs pr) (push_parsed (keyed_only key file) hs pr').
Proof.
  intros [Hf Hd]. unfold push_parsed. apply rsim_assign.
  intros v1 v2 H1 H2 H3 H4. simpl. repeat split; auto.
  - rewrite !length_app. simpl. lia.
  - rewrite !plan_of_app, H4. f_equal. rewrite Hd.
    symmetry. apply plan_of_keyed.
Qed.

Lemma rsim_parse_node_file (n i : nat) (file : File) :
  rsim (D := D) plan_of eq (parse_node_file n i file)
    (parse_node_file n i (keyed_only key file)).
Proof.
  unfold parse_node_file. apply rsim_try_catch.
  - eapply rsim_bind; [apply rsim_sendProgress|]. intros _ _ _.
    eapply rsim_bind; [apply rsim_read_and_parse|]. intros pr pr' Hpr. cbv zeta.
    assert (Hh : headers_of pr' = headers_of pr).
    { unfold headers_of. destruct Hpr as [-> _]. reflexivity. }
    rewrite Hh. simpl name.
    eapply rsim_bind; [apply rsim_when; unfold fail_no_headers; apply rsim_fail_return|].
    intros _ _ _.
    eapply rsim_bind; [apply rsim_when, rsim_fail_return|]. intros _ _ _.
    now apply rsim_push_parsed.
  - intros e. unfold on_file_error. simpl name. apply rsim_fail_return.
Qed.

Lemma rsim_parse_relationship_file (n i : nat) (file : File) :
  rsim (D := D) plan_of eq (parse_relationship_file n i file)
    (parse_relationship_file n i (keyed_only key file)).
Proof.
  unfold parse_relationship_file. apply rsim_try_catch.
  - eapply rsim_bind; [apply rsim_sendProgress|]. intros _ _ _.
    eapply rsim_bind; [apply rsim_read_and_parse|]. intros pr pr' Hpr. cbv zeta.
    assert (Hh : headers_of pr' = headers_of pr).
    { unfold headers_of. destruct Hpr as [-> _]. reflexivity. }
    rewrite Hh. simpl name.
    eapply rsim_bind; [apply rsim_when; unfold fail_no_headers; apply rsim_fail_return|].
    intros _ _ _.
    eapply rsim_bind; [apply rsim_when, rsim_fail_return|]. intros _ _ _.
    now apply rsim_push_parsed.
  - intros e. unfold on_file_error. simpl name. apply rsim_fail_return.
Qed.

Lemma rsim_validate_input (files : list File) (conn : Connection) :
  rsim (D := D) plan_of eq (validate_input files conn)
    (validate_input (map (keyed_only key) files) conn).
Proof.
  unfold validate_input. rewrite length_map.
  eapply rsim_bind; [apply rsim_when, rsim_fail_return|]. intros _ _ _.
  apply rsim_when, rsim_fail_return.
Qed.

Lemma rsim_parse_phase (body : nat -> nat -> File -> M D unit) (files : list File) :
  (forall n i file,
     rsim plan_of eq (body n i file) (body n i (keyed_only key file))) ->
  rsim plan_of eq (parse_phase body files)
    (parse_phase body (map (keyed_only key) files)).
Proof.
  intros Hbody. unfold parse_phase. rewrite length_map.
  eapply rsim_bind; [apply rsim_sendProgress|]. intros _ _ _.
  eapply rsim_bind.
  { apply rsim_assign. intros v1 v2 H1 H2 H3 H4. simpl. auto. }
  intros _ _ _. eapply rsim_bind.
  { apply (rsim_for_index plan_of (fun f f' => f' = keyed_only key f)).
    - induction files; simpl; constructor; auto.
    - intros i x y ->. apply Hbody. }
  intros _ _ _. eapply rsim_bind.
  { apply (rsim_read plan_of any). intros; exact I. }
  intros total total' _.
  eapply rsim_bind; [apply rsim_sendProgress | intros _ _ _; apply rsim_sendProgress].
Qed.

Lemma rsim_connect (conn : Connection) :
  rsim (D := D) plan_of eq (connect conn) (connect conn).
Proof.
  unfold connect. cbv zeta.
  eapply rsim_bind; [apply rsim_perform|]. intros _ _ _.
  eapply rsim_bind.
  { apply rsim_assign. intros v1 v2 H1 H2 H3 H4. simpl. auto. }
  intros _ _ _. eapply rsim_bind; [apply rsim_perform|]. intros _ _ _.
  apply rsim_assign. intros v1 v2 H1 H2 H3 H4. simpl. auto.
Qed.

Lemma rsim_close_session : rsim (D := D) plan_of any close_session close_session.
Proof.
  unfold close_session.
  eapply rsim_bind; [apply rsim_perform | intros _ _ _; now apply rsim_ret].
Qed.

Lemma rsim_close_driver : rsim (D := D) plan_of any close_driver close_driver.
Proof.
  unfold close_driver. eapply rsim_bind.
  { apply (rsim_read plan_of eq). intros w1 w2 Hs. apply Hs. }
  intros d d' <-. destruct d; simpl; [|now apply rsim_ret].
  eapply rsim_bind; [apply rsim_perform | intros _ _ _; now apply rsim_ret].
Qed.

Lemma rsim_finish (summary : nat -> nat -> string) :
  rsim (D := D) plan_of eq (finish summary) (finish summary).
Proof.
  unfold finish.
  eapply rsim_bind; [apply rsim_sendProgress|]. intros _ _ _.
  eapply rsim_bind.
  { apply (rsim_read plan_of
             (fun a b : list ParsedData => List.length a = List.length b)).
    intros w1 w2 Hs. apply Hs. }
  intros files files' Hlen. eapply rsim_bind.
  { apply (rsim_read plan_of eq). intros w1 w2 Hs. apply Hs. }
  intros total total' <-.
  eapply rsim_bind; [apply rsim_sendProgress|]. intros _ _ _.
  rewrite Hlen.
  eapply rsim_bind; [apply rsim_enqueue | intros _ _ _; apply rsim_close].
Qed.

(** The skeleton shared by both routes, side by side. *)
Lemma rsim_route (files : list File) (conn : Connection)
  (body : nat -> nat -> File -> M D unit) (writing : M D unit) (m m' : string) :
  (forall n i file,
     rsim plan_of eq (body n i file) (body n i (keyed_only key file))) ->
  rsim plan_of eq writing writing ->
  rsim plan_of eq
    (try_catch
       (validate_input files conn ;;
        parse_phase body files ;;
        assign (fun v => mkLocals (parsedFiles v) (totalRows v) false
                           (totalCreated v) (processedRows v)) ;;
        try_finally
          (try_catch
             (connect conn ;; try_finally writing close_session)
             (fun neo4jError =>
                fail_with m (Some [message_or "Unknown Neo4j error" neo4jError])))
          close_driver)
       (fun error =>
          fail_with m' (Some [message_or "Unknown error occurred" error])))
    (try_catch
       (validate_input (map (keyed_only key) files) conn ;;
        parse_phase body (map (keyed_only key) files) ;;
        assign (fun v => mkLocals (parsedFiles v) (totalRows v) false
                           (totalCreated v) (processedRows v)) ;;
        try_finally
          (try_catch
             (connect conn ;; try_finally writing close_session)
             (fun neo4jError =>
                fail_with m (Some [message_or "Unknown Neo4j error" neo4jError])))
          close_driver)
       (fun error =>
          fail_with m' (Some [message_or "Unknown error occurred" error]))).
Proof.
  intros Hbody Hwriting. apply rsim_try_catch; [|intros e; apply rsim_fail_with].
  eapply rsim_bind; [apply rsim_validate_input|]. intros _ _ _.
  eapply rsim_bind; [now apply rsim_parse_phase|]. intros _ _ _.
  eapply rsim_bind.
  { apply rsim_assign. intros v1 v2 H1 H2 H3 H4. simpl. auto. }
  intros _ _ _. apply rsim_try_finally; [|apply rsim_close_driver].
  apply rsim_try_catch; [|intros e; apply rsim_fail_with].
  eapply rsim_bind; [apply rsim_connect|]. intros _ _ _.
  apply rsim_try_finally; [exact Hwriting | apply rsim_close_session].
Qed.

End Dropped.

Lemma plan_app (group : list row -> RowMap) (batchSize : nat) (xs ys : list ParsedData) :
  plan group batchSize (xs ++ ys) = plan group batchSize xs ++ plan group batchSize ys.
Proof. unfold plan. apply flat_map_app. Qed.

Lemma node_plan_keyed (nm : string) (hs : list string) (rs : list row) (n n' : nat) :
  node_plan [mkParsedData nm hs (filter (has_key "LABEL") rs) n] =
  node_plan [mkParsedData nm hs rs n'].
Proof.
  unfold node_plan, plan. simpl.
  rewrite !rowsByLabel_group_by, <- group_by_filter. reflexivity.
Qed.

Lemma relationship_plan_keyed (nm : string) (hs : list string) (rs : list row)
  (n n' : nat) :
  relationship_plan [mkParsedData nm hs (filter (has_key "TYPE") rs) n] =
  relationship_plan [mkParsedData nm hs rs n'].
Proof.
  unfold relationship_plan, plan. simpl.
  rewrite !rowsByType_group_by, <- group_by_filter. reflexivity.
Qed.

Section DroppedRows.

Context {D : StoreDouble}.

(** Two managed transactions whose units of work go side by side go side
    by side, attempt by attempt. *)
Lemma rsim_executeWrite (plan_of : list ParsedData -> list (string * list row))
  (work1 work2 : M D unit) :
  rsim plan_of eq work1 work2 ->
  rsim plan_of eq (executeWrite work1) (executeWrite work2).
Proof.
  intros Hwork.
  assert (H : rsim plan_of eq (transaction work1) (transaction work2)).
  { unfold transaction. eapply rsim_bind; [exact Hwork|]. intros _ _ _.
    eapply rsim_bind; [apply rsim_perform | intros _ _ _; now apply rsim_ret]. }
  unfold executeWrite. induction (patience D) as [|retries IH]; simpl; [exact H|].
  apply rsim_try_catch; [exact H|]. intros e.
  destruct (retryable D e); [exact IH | apply rsim_throw].
Qed.

Lemma rsim_write_nodes : rsim (D := D) node_plan eq write_nodes write_nodes.
Proof.
  unfold write_nodes. eapply rsim_bind.
  { apply (rsim_read node_plan (fun a b => node_plan a = node_plan b)).
    intros w1 w2 Hs. apply Hs. }
  intros files files' Hplan.
  eapply rsim_ext;
    [apply (nested_loops_plan rowsByLabel nodeBatchSize write_node_batch)
    |apply (nested_loops_plan rowsByLabel nodeBatchSize write_node_batch)|].
  fold (node_plan files) (node_plan files'). rewrite Hplan.
  apply rsim_for_of. intros [label batch]. simpl.
  unfold write_node_batch. apply rsim_executeWrite.
  eapply rsim_bind; [apply rsim_perform|]. intros r r' <-.
  apply rsim_assign. intros v1 v2 H1 H2 H3 H4. simpl. auto.
Qed.

Lemma rsim_write_relationships :
  rsim (D := D) relationship_plan eq write_relationships write_relationships.
Proof.
  unfold write_relationships. eapply rsim_bind.
  { apply (rsim_read relationship_plan
             (fun a b => relationship_plan a = relationship_plan b)).
    intros w1 w2 Hs. apply Hs. }
  intros files files' Hplan.
  eapply rsim_ext;
    [apply (nested_loops_plan rowsByType relationshipBatchSize write_relationship_batch)
    |apply (nested_loops_plan rowsByType relationshipBatchSize write_relationship_batch)|].
  fold (relationship_plan files) (relationship_plan files'). rewrite Hplan.
  apply rsim_for_of. intros [type batch]. simpl.
  unfold write_relationship_batch. apply rsim_executeWrite.
  destruct batch as [|sampleRow rest]; [apply rsim_throw|].
  eapply rsim_bind; [apply rsim_perform|]. intros r r' <-. cbv zeta.
  eapply rsim_bind.
  { apply rsim_assign. intros v1 v2 H1 H2 H3 H4. simpl. auto. }
  intros _ _ _. eapply rsim_bind.
  { apply (rsim_read relationship_plan any). intros; exact I. }
  intros processed processed' _. eapply rsim_bind.
  { apply (rsim_read relationship_plan any). intros; exact I. }
  intros total total' _. apply rsim_sendProgress.
Qed.

Lemma rsim_uploadNodes (files : list File) (conn : Connection) :
  rsim (D := D) node_plan eq (uploadNodes files conn)
    (uploadNodes (map (keyed_only "LABEL") files) conn).
Proof.
  unfold uploadNodes. apply rsim_route.
  - intros n i file. apply rsim_parse_node_file.
    + apply plan_app.
    + apply node_plan_keyed.
  - eapply rsim_bind; [apply rsim_sendProgress|]. intros _ _ _.
    eapply rsim_bind; [apply rsim_write_nodes | intros _ _ _; apply rsim_finish].
Qed.

Lemma rsim_ensure_index :
  rsim (D := D) relationship_plan eq ensure_index ensure_index.
Proof.
  unfold ensure_index. apply rsim_try_catch.
  - eapply rsim_bind; [apply rsim_perform | intros _ _ _; now apply rsim_ret].
  - intros e. now apply rsim_ret.
Qed.

Lemma rsim_uploadRelationships (files : list File) (conn : Connection) :
  rsim (D := D) relationship_plan eq (uploadRelationships files conn)
    (uploadRelationships (map (keyed_only "TYPE") files) conn).
Proof.
  unfold uploadRelationships. apply rsim_route.
  - intros n i file. apply rsim_parse_relationship_file.
    + apply plan_app.
    + apply relationship_plan_keyed.
  - eapply rsim_bind; [apply rsim_sendProgress|]. intros _ _ _.
    eapply rsim_bind; [apply rsim_ensure_index|]. intros _ _ _.
    eapply rsim_bind; [apply rsim_sendProgress|]. intros _ _ _.
    eapply rsim_bind; [apply rsim_write_relationships | intros _ _ _; apply rsim_finish].
Qed.

Lemma sim_initial (plan_of : list ParsedData -> list (string * list row)) (s : St D) :
  sim plan_of (initial s) (initial s).
Proof. repeat split. Qed.

End DroppedRows.

(** What a caller and the store see of a run. *)
Definition same_effects {D : StoreDouble} (w w' : world D) : Prop :=
  calls w = calls w' /\ db w = db w' /\ terminals (queue w) = terminals (queue w').

(** C4.  Rows whose [LABEL] (node route) or [TYPE] (relationship route)
    is empty or absent are left out of every group; a run makes the same
    driver calls with the same batches, leaves the store in the same state
    and ends with the same terminal event, summary counts included, as the
    run on the same files without these rows: they are never written, not
    counted and raise no error. *)
Theorem keyless_rows_dropped (D : StoreDouble) (files : list File)
  (conn : Connection) (s : St D) :
  same_effects (run_nodes files conn s)
    (run_nodes (map (keyed_only "LABEL") files) conn s) /\
  same_effects (run_relationships files conn s)
    (run_relationships (map (keyed_only "TYPE") files) conn s) /\
  (forall rows, from_keyed "LABEL" (omit "LABEL") rows (rowsByLabel rows)) /\
  (forall rows, from_keyed "TYPE" (fun r => r) rows (rowsByType rows)).
Proof.
  split; [|split; [|split; [apply rowsByLabel_from_keyed | apply rowsByType_from_keyed]]].
  - destruct (rsim_uploadNodes files conn (initial s) (initial s)
                (sim_initial node_plan s))
      as [_ (_ & Ht & Hdb & Hcalls & _)].
    unfold same_effects, run_nodes. auto.
  - destruct (rsim_uploadRelationships files conn (initial s) (initial s)
                (sim_initial relationship_plan s))
      as [_ (_ & Ht & Hdb & Hcalls & _)].
    unfold same_effects, run_relationships. auto.
Qed.

(* ------------------------------------------------------------------ *)
(** ** Progress while writing *)

Lemma write_nodes_silent {D : StoreDouble} (w : world D) :
  queue (snd (write_nodes w)) = queue w.
Proof.
  apply (inv_write_nodes_calls (fun w' => queue w' = queue w)); [| | |reflexivity].
  - intros label batch w' Hw'. unfold perform.
    destruct (respond D _ (db w')) as [[e|r] s]; exact Hw'.
  - intros w' Hw'. unfold perform.
    destruct (respond D _ (db w')) as [[e|r] s]; exact Hw'.
  - intros created w' Hw'. exact Hw'.
Qed.

(** C7 on the code.  The writing loops of the node route enqueue nothing,
    on any store and in any state: between the percents 25 and 95 a node
    run is silent, however many batches it writes.  The relationship
    route sends one progress event per batch: for the one batch of
    [knows.csv] the percent [Math.round(30 + (1 / 1) * 65)], that is 95. *)
Theorem node_writing_sends_no_progress :
  (forall (D : StoreDouble) (w : world D), queue (snd (write_nodes w)) = queue w) /\
  (let w := run_nodes (D := Graph.store) [people_csv] sample_connection Graph.empty in
   percents (queue w) = [5; 5; 15; 20; 25; 95; 100]%Q /\
   tx_runs (calls w) =
     [(CreateNodes "Person",
       [[("id", "1"); ("name", "Ann")]; [("id", "2"); ("name", "Bo")]])]) /\
  (let w := run_relationships (D := Graph.store) [knows_csv] sample_connection
              two_people in
   percents (queue w) = [5; 5; 15; 20; 25; 30; 95; 95; 100]%Q /\
   List.length (tx_runs (calls w)) = 1).
Proof.
  split; [intros D w; apply write_nodes_silent|].
  split; vm_compute; split; reflexivity.
Qed.

(* ------------------------------------------------------------------ *)
(** ** The end-to-end scenarios of the specification *)

(** [id,LABEL,name / 1,Person,Ann / 2,Person,Bo]: one batch, one write
    with two rows, and the summary [processedFiles: 1, totalRows: 2]. *)
Example people_scenario :
  let w := run_nodes (D := Graph.store) [people_csv] sample_connection Graph.empty in
  map (fun q => List.length (snd q)) (tx_runs (calls w)) = [2] /\
  terminals (queue w) =
    [DataEvent 1 2 "Successfully inserted 2 nodes from 1 file(s)"].
Proof. vm_compute. split; reflexivity. Qed.

(** Headers [id,name]: the error lists the columns found. *)
Example unlabelled_scenario :
  terminals (queue (run_nodes (D := Graph.store) [unlabelled_csv] sample_connection
                      Graph.empty)) =
  [ErrorEvent
     ("File " +++ dq +++ "plain.csv" +++ dq +++ " is missing required "
        +++ dq +++ "LABEL" +++ dq +++ " column")
     (Some ["The CSV file must have a column named " +++ dq +++ "LABEL" +++ dq
              +++ " for the node type.";
            "Found columns: id, name"])].
Proof. vm_compute. reflexivity. Qed.

(** [KNOWS,Person,1,Person,2] where both ids exist: one relationship. *)
Example knows_scenario :
  let w := run_relationships (D := Graph.store) [knows_csv] sample_connection
             two_people in
  Graph.relationships (Graph.committed (db w)) =
    [Graph.mkRelationship "KNOWS" 0 1 [("since", "2020")]] /\
  terminals (queue w) =
    [DataEvent 1 1 "Successfully created 1 relationships from 1 file(s)"].
Proof. vm_compute. split; reflexivity. Qed.

(** A store that fails on the first write: the session and the driver
    are closed all the same, and the run ends with one error. *)
Example failing_write_scenario :
  let script := [inr None; inr None; inl (ErrorObj "connection lost")] in
  let w := run_nodes (D := Script.store) [people_csv] sample_connection script in
  map fst (calls w) =
    [Driver "bolt://localhost:7687" "neo4j" "secret"; Session;
     TxRun (CreateNodes "Person")
       [[("id", "1"); ("name", "Ann")]; [("id", "2"); ("name", "Bo")]];
     SessionClose; DriverClose] /\
  terminals (queue w) =
    [ErrorEvent "Failed to insert data into Neo4j" (Some ["connection lost"])].
Proof. vm_compute. split; reflexivity. Qed.


(* ------------------------------------------------------------------ *)
(** ** Uploads rejected before the store is reached *)

(** The run ended with the stream [stream], closed, without any driver
    call and with the store as it was. *)
Definition rejected_with {D : StoreDouble} (s : St D) (stream : list event)
  (w : world D) : Prop :=
  closed w = true /\ queue w = stream /\ calls w = [] /\ db w = s.

(** The stream of a run stopped at [file] after the files [before] were
    parsed: the percents of the parsing steps so far, then [ev]. *)
Definition rejection_stream (before after : list File) (file : File) (ev : event)
  : list event :=
  let n := List.length (before ++ file :: after) in
  Progress 5 "Parsing CSV files..."
    :: parsing_events n 0 before ++
    [Progress (parsing_percent (List.length before) n) ("Parsing " +++ name file +++ "...");
     ev].

(** The error events of the parsing loops. *)
Definition no_headers_error (file : File) : event :=
  ErrorEvent ("File " +++ dq +++ name file +++ dq +++ " has no headers")
    (Some ["The CSV file must have a header row with column names."]).

Definition unreadable_error (file : File) (fileError : thrown) : event :=
  ErrorEvent ("Failed to parse file: " +++ name file)
    (Some [message_or "Unknown error occurred" fileError]).

Definition missing_columns_error (file : File) (hs : list string) : event :=
  ErrorEvent ("File " +++ dq +++ name file +++ dq +++ " is missing required columns")
    (Some ["Required columns: TYPE, FROM_LABEL, FROM_ID, TO_LABEL, TO_ID";
           "Missing columns: "
             +++ join ", " (filter (fun col => negb (includes hs col)) REQUIRED_COLUMNS);
           "Found columns: " +++ join ", " hs]).

(** A step of the parsing loop that ends the run with [ev]. *)
Definition stops_with {D : StoreDouble} (body : nat -> nat -> File -> M D unit)
  (file : File) (ev : event) : Prop :=
  forall n i (w : world D),
    closed w = false ->
    body n i file w =
    (Return,
     mkWorld true
       (queue w ++
        [Progress (parsing_percent i n) ("Parsing " +++ name file +++ "..."); ev])
       (db w) (calls w) (vars w)).

Section Rejected.

Context {D : StoreDouble}.

Lemma unreadable_node_file (file : File) (e : thrown) :
  parse file = inl e ->
  stops_with (D := D) parse_node_file file (unreadable_error file e).
Proof.
  intros Hparse n i w Hc.
  unfold parse_node_file, try_catch, bind, sendProgress, enqueue, read_and_parse,
    on_file_error, fail_with, bind, enqueue, close, throw, early_return.
  rewrite Hc, Hparse. simpl. rewrite <- app_assoc. reflexivity.
Qed.

Lemma unreadable_relationship_file (file : File) (e : thrown) :
  parse file = inl e ->
  stops_with (D := D) parse_relationship_file file (unreadable_error file e).
Proof.
  intros Hparse n i w Hc.
  unfold parse_relationship_file, try_catch, bind, sendProgress, enqueue, read_and_parse,
    on_file_error, fail_with, bind, enqueue, close, throw, early_return.
  rewrite Hc, Hparse. simpl. rewrite <- app_assoc. reflexivity.
Qed.

Lemma headerless_node_file (file : File) (parseResult : ParseResult) :
  parse file = inr parseResult ->
  headers_of parseResult = [] ->
  stops_with (D := D) parse_node_file file (no_headers_error file).
Proof.
  intros Hparse Hhs n i w Hc.
  unfold parse_node_file, try_catch, bind, sendProgress, enqueue, read_and_parse,
    fail_no_headers, fail_with, bind, enqueue, close, early_return, ret.
  rewrite Hc, Hparse. cbv beta iota zeta. rewrite Hhs. simpl.
  rewrite <- app_assoc. reflexivity.
Qed.

Lemma headerless_relationship_file (file : File) (parseResult : ParseResult) :
  parse file = inr parseResult ->
  headers_of parseResult = [] ->
  stops_with (D := D) parse_relationship_file file (no_headers_error file).
Proof.
  intros Hparse Hhs n i w Hc.
  unfold parse_relationship_file, try_catch, bind, sendProgress, enqueue, read_and_parse,
    fail_no_headers, fail_with, bind, enqueue, close, early_return, ret.
  rewrite Hc, Hparse. cbv beta iota zeta. rewrite Hhs. simpl.
  rewrite <- app_assoc. reflexivity.
Qed.

Lemma join_required :
  join ", " REQUIRED_COLUMNS = "TYPE, FROM_LABEL, FROM_ID, TO_LABEL, TO_ID".
Proof. reflexivity. Qed.

Lemma incomplete_relationship_file (file : File) (parseResult : ParseResult) :
  parse file = inr parseResult ->
  headers_of parseResult <> [] ->
  filter (fun col => negb (includes (headers_of parseResult) col)) REQUIRED_COLUMNS <> [] ->
  stops_with (D := D) parse_relationship_file file
    (missing_columns_error file (headers_of parseResult)).
Proof.
  intros Hparse Hne Hmissing n i w Hc.
  unfold parse_relationship_file, try_catch, bind, sendProgress, enqueue, read_and_parse,
    ret.
  rewrite Hc, Hparse. cbv beta iota zeta.
  rewrite (length_eqb_0 _ _ Hne).
  destruct (filter _ REQUIRED_COLUMNS) as [|col missing] eqn:E; [congruence|].
  unfold when at 1. cbn [List.length Nat.ltb Nat.leb].
  unfold when, missing_columns_error, fail_with, bind, enqueue, close, early_return, ret.
  cbn [closed queue db calls vars]. rewrite E, join_required, <- app_assoc. reflexivity.
Qed.

(** A route whose parsing loop stops at [file]. *)
Lemma route_rejects (body : nat -> nat -> File -> M D unit) (required : list string)
  (rest : M D unit) (handler : thrown -> M D unit)
  (before after : list File) (file : File) (ev : event) (conn : Connection) (s : St D) :
  (forall n i f (w : world D),
     parsed_ok required f ->
     closed w = false ->
     body n i f w =
     (Normal tt,
      mkWorld false
        (queue w ++ [Progress (parsing_percent i n) ("Parsing " +++ name f +++ "...")])
        (db w) (calls w)
        (mkLocals (parsedFiles (vars w) ++ [parsed_data f])
           (totalRows (vars w) + rowCount (parsed_data f))
           (driver (vars w)) (totalCreated (vars w)) (processedRows (vars w))))) ->
  valid_connection conn ->
  Forall (parsed_ok required) before ->
  stops_with body file ev ->
  rejected_with s (rejection_stream before after file ev)
    (snd (try_catch
            (validate_input (before ++ file :: after) conn ;;
             parse_phase body (before ++ file :: after) ;;
             rest)
            handler (initial s))).
Proof.
  intros Hbody Hconn Hbefore Hstop.
  unfold try_catch, bind.
  rewrite validate_input_passes; [|destruct before; discriminate | exact Hconn].
  unfold parse_phase, bind, sendProgress, enqueue, assign. simpl closed.
  cbv beta iota zeta.
  rewrite for_index_app. unfold bind.
  rewrite (parse_loop_passes body required Hbody _ before Hbefore) by reflexivity.
  simpl for_index. unfold bind.
  rewrite Hstop by reflexivity.
  unfold rejected_with, rejection_stream. cbn [snd closed queue calls db initial].
  split; [reflexivity|]. split; [|split; reflexivity].
  rewrite <- app_comm_cons. reflexivity.
Qed.

Lemma nodes_reject (before after : list File) (file : File) (ev : event)
  (conn : Connection) (s : St D) :
  valid_connection conn ->
  Forall (parsed_ok ["LABEL"]) before ->
  stops_with (D := D) parse_node_file file ev ->
  rejected_with s (rejection_stream before after file ev)
    (run_nodes (before ++ file :: after) conn s).
Proof.
  intros Hconn Hbefore Hstop. unfold run_nodes, uploadNodes.
  apply (route_rejects parse_node_file ["LABEL"]); auto.
  intros n i f w. apply parse_node_file_passes.
Qed.

Lemma relationships_reject (before after : list File) (file : File) (ev : event)
  (conn : Connection) (s : St D) :
  valid_connection conn ->
  Forall (parsed_ok REQUIRED_COLUMNS) before ->
  stops_with (D := D) parse_relationship_file file ev ->
  rejected_with s (rejection_stream before after file ev)
    (run_relationships (before ++ file :: after) conn s).
Proof.
  intros Hconn Hbefore Hstop. unfold run_relationships, uploadRelationships.
  apply (route_rejects parse_relationship_file REQUIRED_COLUMNS); auto.
  intros n i f w. apply parse_relationship_file_passes.
Qed.

End Rejected.

(** Sample inputs that do not pass validation. *)
Definition blank_csv : File := mkFile "blank.csv" (inr (mkParseResult None [])).

Definition unreadable_csv : File := mkFile "locked.csv" (inl (ErrorObj "permission denied")).

(** [TYPE,FROM_ID,since / KNOWS,1,2020]: three required columns missing. *)
Definition partial_csv : File :=
  mkFile "partial.csv"
    (inr (mkParseResult (Some ["TYPE"; "FROM_ID"; "since"])
            [[("TYPE", "KNOWS"); ("FROM_ID", "1"); ("since", "2020")]])).

(** X1.  An upload without files is answered, by both routes and whatever
    the credentials, with the single event [No files provided], which has
    no details; no driver call is made. *)
Theorem no_files_rejected (D : StoreDouble) (conn : Connection) (s : St D) :
  rejected_with s [ErrorEvent "No files provided" None] (run_nodes [] conn s) /\
  rejected_with s [ErrorEvent "No files provided" None] (run_relationships [] conn s).
Proof. split; repeat split. Qed.

(** X2.  When one of the three connection headers is absent or empty, an
    upload of at least one file is answered by the single event
    [Neo4j connection information missing]: no file is parsed (no progress
    event is sent) and no driver call is made. *)
Theorem missing_credentials_rejected (D : StoreDouble) (files : list File)
  (conn : Connection) (s : St D) :
  files <> [] ->
  ~ valid_connection conn ->
  let stream :=
    [ErrorEvent "Neo4j connection information missing"
       (Some ["Please ensure you are connected to Neo4j"])] in
  rejected_with s stream (run_nodes files conn s) /\
  rejected_with s stream (run_relationships files conn s).
Proof.
  intros Hfiles Hconn stream.
  assert (E : negb (truthy (connectionUrl conn)) || negb (truthy (username conn))
              || negb (truthy (password conn)) = true).
  { unfold valid_connection in Hconn.
    destruct (truthy (connectionUrl conn)), (truthy (username conn)),
      (truthy (password conn)); try reflexivity.
    destruct Hconn. auto. }
  destruct files as [|file files]; [congruence|].
  split; unfold run_nodes, run_relationships, uploadNodes, uploadRelationships,
    try_catch, bind, validate_input, bind; simpl (List.length _ =? 0)%nat;
    rewrite E; repeat split.
Qed.

(** A password header that is sent but empty. *)
Lemma missing_credentials_rejected_witness :
  let conn := mkConnection (Some "bolt://localhost:7687") (Some "neo4j") (Some "") in
  let stream :=
    [ErrorEvent "Neo4j connection information missing"
       (Some ["Please ensure you are connected to Neo4j"])] in
  rejected_with (D := Graph.store) Graph.empty stream
    (run_nodes (D := Graph.store) [people_csv] conn Graph.empty) /\
  rejected_with (D := Graph.store) Graph.empty stream
    (run_relationships (D := Graph.store) [knows_csv; partial_csv] conn Graph.empty).
Proof.
  assert (Hconn : ~ valid_connection
                      (mkConnection (Some "bolt://localhost:7687") (Some "neo4j") (Some ""))).
  { intros (_ & _ & H). discriminate. }
  split.
  - apply (missing_credentials_rejected Graph.store [people_csv] _ Graph.empty);
      [discriminate | exact Hconn].
  - apply (missing_credentials_rejected Graph.store [knows_csv; partial_csv] _ Graph.empty);
      [discriminate | exact Hconn].
Defined.

(** X3.  A file without a header row ([meta.fields] undefined or empty)
    stops the run of either route at that file: the stream holds the
    parsing percents sent so far and then the error
    [File "<name>" has no headers]; the files after it are not parsed and
    no driver call is made. *)
Theorem headerless_file_rejected (D : StoreDouble) (before after : list File)
  (file : File) (parseResult : ParseResult) (conn : Connection) (s : St D) :
  valid_connection conn ->
  parse file = inr parseResult ->
  headers_of parseResult = [] ->
  let stream := rejection_stream before after file (no_headers_error file) in
  (Forall (parsed_ok ["LABEL"]) before ->
   rejected_with s stream (run_nodes (before ++ file :: after) conn s)) /\
  (Forall (parsed_ok REQUIRED_COLUMNS) before ->
   rejected_with s stream (run_relationships (before ++ file :: after) conn s)).
Proof.
  intros Hconn Hparse Hhs stream. split; intros Hbefore.
  - apply nodes_reject; auto. now apply headerless_node_file with parseResult.
  - apply relationships_reject; auto.
    now apply headerless_relationship_file with parseResult.
Qed.

Lemma sample_connection_valid : valid_connection sample_connection.
Proof. repeat split. Qed.

Lemma people_csv_ok : parsed_ok ["LABEL"] people_csv.
Proof.
  eexists. split; [reflexivity|]. split; [discriminate|].
  intros col [<-|[]]. simpl. auto.
Qed.

Lemma knows_csv_ok : parsed_ok REQUIRED_COLUMNS knows_csv.
Proof.
  eexists. split; [reflexivity|]. split; [discriminate|].
  intros col Hcol. simpl in *. intuition.
Qed.

(** [people.csv], then a file without header row, then a file that is
    never looked at. *)
Lemma headerless_file_rejected_witness :
  terminals (queue (run_nodes (D := Graph.store) [people_csv; blank_csv; unreadable_csv]
                      sample_connection Graph.empty)) =
    [ErrorEvent ("File " +++ dq +++ "blank.csv" +++ dq +++ " has no headers")
       (Some ["The CSV file must have a header row with column names."])] /\
  calls (run_nodes (D := Graph.store) [people_csv; blank_csv; unreadable_csv]
           sample_connection Graph.empty) = [].
Proof.
  destruct (proj1 (headerless_file_rejected Graph.store [people_csv] [unreadable_csv]
                     blank_csv (mkParseResult None []) sample_connection Graph.empty
                     sample_connection_valid eq_refl eq_refl)
              (Forall_cons _ people_csv_ok (Forall_nil _)))
    as (_ & Hq & Hcalls & _).
  split; [|exact Hcalls].
  change ([people_csv; blank_csv; unreadable_csv])
    with ([people_csv] ++ blank_csv :: [unreadable_csv]).
  rewrite Hq. reflexivity.
Defined.

(** X4.  A relationship file whose header row lacks required columns
    stops the run at that file: the error lists the five required
    columns, the missing ones in the order of [REQUIRED_COLUMNS], and the
    columns found; no driver call is made. *)
Theorem missing_columns_listed (D : StoreDouble) (before after : list File)
  (file : File) (parseResult : ParseResult) (conn : Connection) (s : St D) (col : string) :
  valid_connection conn ->
  Forall (parsed_ok REQUIRED_COLUMNS) before ->
  parse file = inr parseResult ->
  headers_of parseResult <> [] ->
  In col REQUIRED_COLUMNS ->
  ~ In col (headers_of parseResult) ->
  let hs := headers_of parseResult in
  let missing := filter (fun c => negb (includes hs c)) REQUIRED_COLUMNS in
  rejected_with s
    (rejection_stream before after file
       (ErrorEvent ("File " +++ dq +++ name file +++ dq +++ " is missing required columns")
          (Some ["Required columns: TYPE, FROM_LABEL, FROM_ID, TO_LABEL, TO_ID";
                 "Missing columns: " +++ join ", " missing;
                 "Found columns: " +++ join ", " hs])))
    (run_relationships (before ++ file :: after) conn s) /\
  (forall c, In c missing <-> In c REQUIRED_COLUMNS /\ ~ In c hs).
Proof.
  intros Hconn Hbefore Hparse Hne Hreq Hcol hs missing.
  assert (Hspec : forall c, In c missing <-> In c REQUIRED_COLUMNS /\ ~ In c hs).
  { intros c. unfold missing. rewrite filter_In, negb_true_iff, includes_not_In.
    reflexivity. }
  split; [|exact Hspec].
  apply relationships_reject; auto.
  apply incomplete_relationship_file; auto.
  fold hs. fold missing. intros E.
  assert (Hin : In col missing) by (apply Hspec; auto).
  rewrite E in Hin. exact Hin.
Qed.

(** [knows.csv], then a file with the header row [TYPE,FROM_ID,since]. *)
Lemma missing_columns_listed_witness :
  terminals (queue (run_relationships (D := Graph.store) [knows_csv; partial_csv]
                      sample_connection two_people)) =
    [ErrorEvent ("File " +++ dq +++ "partial.csv" +++ dq +++ " is missing required columns")
       (Some ["Required columns: TYPE, FROM_LABEL, FROM_ID, TO_LABEL, TO_ID";
              "Missing columns: FROM_LABEL, TO_LABEL, TO_ID";
              "Found columns: TYPE, FROM_ID, since"])].
Proof.
  assert (Hcol : ~ In "TO_ID" ["TYPE"; "FROM_ID"; "since"]).
  { simpl. intros [H|[H|[H|[]]]]; discriminate. }
  destruct (missing_columns_listed Graph.store [knows_csv] [] partial_csv
              (mkParseResult (Some ["TYPE"; "FROM_ID"; "since"])
                 [[("TYPE", "KNOWS"); ("FROM_ID", "1"); ("since", "2020")]])
              sample_connection two_people "TO_ID"
              sample_connection_valid (Forall_cons _ knows_csv_ok (Forall_nil _))
              eq_refl ltac:(discriminate) ltac:(simpl; auto 10) Hcol)
    as [(_ & Hq & _) _].
  change ([knows_csv; partial_csv]) with ([knows_csv] ++ partial_csv :: []).
  rewrite Hq. reflexivity.
Defined.

(** X5.  A file that cannot be read or parsed (reading or parsing throws)
    stops the run of either route at that file with the error
    [Failed to parse file: <name>], whose detail is the message of the
    thrown error, or [Unknown error occurred] when the thrown value is not
    an [Error]; no driver call is made. *)
Theorem unreadable_file_rejected (D : StoreDouble) (before after : list File)
  (file : File) (fileError : thrown) (conn : Connection) (s : St D) :
  valid_connection conn ->
  parse file = inl fileError ->
  let stream :=
    rejection_stream before after file
      (ErrorEvent ("Failed to parse file: " +++ name file)
         (Some [match fileError with
                | ErrorObj message => message
                | NonError => "Unknown error occurred"
                end])) in
  (Forall (parsed_ok ["LABEL"]) before ->
   rejected_with s stream (run_nodes (before ++ file :: after) conn s)) /\
  (Forall (parsed_ok REQUIRED_COLUMNS) before ->
   rejected_with s stream (run_relationships (before ++ file :: after) conn s)).
Proof.
  intros Hconn Hparse stream. split; intros Hbefore.
  - apply nodes_reject; auto. now apply unreadable_node_file.
  - apply relationships_reject; auto. now apply unreadable_relationship_file.
Qed.

Lemma unreadable_file_rejected_witness :
  terminals (queue (run_relationships (D := Graph.store) [knows_csv; unreadable_csv]
                      sample_connection two_people)) =
    [ErrorEvent "Failed to parse file: locked.csv" (Some ["permission denied"])] /\
  calls (run_relationships (D := Graph.store) [knows_csv; unreadable_csv]
           sample_connection two_people) = [].
Proof.
  destruct (proj2 (unreadable_file_rejected Graph.store [knows_csv] [] unreadable_csv
                     (ErrorObj "permission denied") sample_connection two_people
                     sample_connection_valid eq_refl)
              (Forall_cons _ knows_csv_ok (Forall_nil _)))
    as (_ & Hq & Hcalls & _).
  split; [|exact Hcalls].
  change ([knows_csv; unreadable_csv]) with ([knows_csv] ++ unreadable_csv :: []).
  rewrite Hq. reflexivity.
Defined.

(* ------------------------------------------------------------------ *)
(** ** Runs on a store that may throw *)

(** The calls [cs] made one after the other until one throws: the log,
    the state the store is left in, and what was thrown. *)
Fixpoint attempt (D : StoreDouble) (cs : list call) (s : St D)
  : list (call * answer) * St D * option thrown :=
  match cs with
  | [] => ([], s, None)
  | c :: cs' =>
      match respond D c s with
      | (inl e, s') => ([(c, inl e)], s', Some e)
      | (inr result, s') =>
          let '(log, s'', stop) := attempt D cs' s' in
          ((c, inr result) :: log, s'', stop)
      end
  end.

(** How a sequence of calls completes. *)
Definition completion (stop : option thrown) : outcome unit :=
  match stop with
  | None => Normal tt
  | Some e => Throw e
  end.

(** The [tx.run] calls of a log that returned. *)
Fixpoint answered_runs (log : list (call * answer)) : nat :=
  match log with
  | [] => 0
  | (TxRun _ _, inr _) :: log' => S (answered_runs log')
  | _ :: log' => answered_runs log'
  end.

Section AnyStore.

Context {D : StoreDouble}.

Lemma attempt_none_play (cs : list call) :
  forall (s s' : St D) log,
    attempt D cs s = (log, s', None) -> play D cs s = (log, s').
Proof.
  induction cs as [|c cs IH]; intros s s' log H; simpl in *.
  - now inversion H.
  - destruct (respond D c s) as [[e|r] s1]; [discriminate|].
    destruct (attempt D cs s1) as [[log1 s2] stop] eqn:E.
    inversion H; subst. now rewrite (IH _ _ _ E).
Qed.

(** The log of a sequence of calls lists these calls. *)
Lemma play_calls (cs : list call) :
  forall s : St D, map fst (fst (play D cs s)) = cs.
Proof.
  induction cs as [|c cs IH]; intros s; simpl; [reflexivity|].
  destruct (respond D c s) as [a s1]. specialize (IH s1).
  destruct (play D cs s1) as [log s2]. simpl in *. now rewrite IH.
Qed.

(** The calls attempted are the first calls of the sequence. *)
Lemma attempt_prefix (cs : list call) :
  forall s : St D,
    map fst (fst (fst (attempt D cs s))) =
    firstn (List.length (fst (fst (attempt D cs s)))) cs.
Proof.
  induction cs as [|c cs IH]; intros s; simpl; [reflexivity|].
  destruct (respond D c s) as [[e|r] s1]; [reflexivity|].
  specialize (IH s1). destruct (attempt D cs s1) as [[log1 s2] stop].
  simpl in *. now rewrite IH.
Qed.

(** When a call threw it is the last of the log, and the only one. *)
Lemma attempt_stop (cs : list call) :
  forall (s s' : St D) log e,
    attempt D cs s = (log, s', Some e) ->
    exists done c,
      log = done ++ [(c, inl e)] /\
      Forall (fun entry => exists r, snd entry = inr r) done.
Proof.
  induction cs as [|c cs IH]; intros s s' log e H; simpl in *; [discriminate|].
  destruct (respond D c s) as [[e'|r] s1].
  - inversion H; subst. exists [], c. split; [reflexivity | constructor].
  - destruct (attempt D cs s1) as [[log1 s2] stop] eqn:E.
    inversion H; subst. destruct (IH _ _ _ _ E) as (done & c' & -> & Hdone).
    exists ((c, inr r) :: done), c'. split; [reflexivity|].
    constructor; [now exists r | exact Hdone].
Qed.

(** A managed transaction takes one attempt unless it fails with a
    failure the driver retries. *)
Lemma executeWrite_unless_retried (work : M D unit) (w : world D) :
  (forall e, fst (transaction work w) = Throw e -> gives_up D e) ->
  executeWrite work w = transaction work w.
Proof.
  intros H. destruct (transaction work w) as [[a| |e] w'] eqn:Hw.
  - rewrite executeWrite_done; [exact Hw|]. rewrite Hw. discriminate.
  - rewrite executeWrite_done; [exact Hw|]. rewrite Hw. discriminate.
  - apply executeWrite_gives_up; [exact Hw|]. apply H. reflexivity.
Qed.

(** The writing loop of the node route, over a plan, on any store: the
    calls go on until one throws, provided the driver does not retry what
    was thrown. *)
Lemma write_node_plan_any (batches : list (string * list row)) :
  forall w : world D,
    let result := attempt D (node_calls batches) (db w) in
    (forall e, snd result = Some e -> gives_up D e) ->
    for_of batches (fun kb => write_node_batch (fst kb) (snd kb)) w =
    (completion (snd result),
     mkWorld (closed w) (queue w) (snd (fst result)) (calls w ++ fst (fst result))
       (mkLocals (parsedFiles (vars w)) (totalRows (vars w)) (driver (vars w))
          (totalCreated (vars w) + created_total (fst (fst result)))
          (processedRows (vars w)))).
Proof.
  induction batches as [|[label batch] batches IH]; intros w; cbv zeta.
  - intros _. simpl. unfold ret. rewrite app_nil_r, Nat.add_0_r.
    destruct w as [c q d l [pf tr dr tc pr]]. reflexivity.
  - change (node_calls ((label, batch) :: batches))
      with (TxRun (CreateNodes label) batch :: TxCommit :: node_calls batches).
    cbn [for_of fst snd attempt].
    unfold bind at 1. unfold write_node_batch.
    destruct (respond D (TxRun (CreateNodes label) batch) (db w)) as [[e|r] s1] eqn:Hrun.
    + intros Hg.
      rewrite executeWrite_unless_retried;
        unfold transaction, bind, assign, perform; rewrite Hrun;
        [|intros e' He'; inversion He'; subst; apply Hg; reflexivity].
      cbn. rewrite Nat.add_0_r.
      destruct w as [c q d l [pf tr dr tc pr]]. reflexivity.
    + destruct (respond D TxCommit s1) as [[e|r'] s2] eqn:Hcommit.
      * intros Hg.
        rewrite executeWrite_unless_retried;
          unfold transaction, bind, assign, perform; rewrite Hrun;
          cbn [closed queue db calls vars parsedFiles totalRows driver totalCreated
                 processedRows]; rewrite Hcommit;
          [|intros e' He'; inversion He'; subst; apply Hg; reflexivity].
        cbn. rewrite <- app_assoc, Nat.add_0_r. reflexivity.
      * intros Hg.
        rewrite executeWrite_unless_retried;
          unfold transaction, bind, assign, perform; rewrite Hrun;
          cbn [closed queue db calls vars parsedFiles totalRows driver totalCreated
                 processedRows]; rewrite Hcommit;
          [|intros e' He'; discriminate].
        unfold ret. rewrite IH.
        -- cbn [closed queue db calls vars parsedFiles totalRows driver totalCreated
                  processedRows].
           destruct (attempt D (node_calls batches) s2) as [[log s3] stop].
           cbn. rewrite <- !app_assoc. cbn. do 3 f_equal. lia.
        -- cbn [closed queue db calls vars parsedFiles totalRows driver totalCreated
                  processedRows].
           intros e' He'. apply Hg.
           destruct (attempt D (node_calls batches) s2) as [[log s3] stop].
           exact He'.
Qed.

Lemma write_nodes_any (w : world D) :
  let result := attempt D (node_calls (node_plan (parsedFiles (vars w)))) (db w) in
  (forall e, snd result = Some e -> gives_up D e) ->
  write_nodes w =
  (completion (snd result),
   mkWorld (closed w) (queue w) (snd (fst result)) (calls w ++ fst (fst result))
     (mkLocals (parsedFiles (vars w)) (totalRows (vars w)) (driver (vars w))
        (totalCreated (vars w) + created_total (fst (fst result)))
        (processedRows (vars w)))).
Proof.
  cbv zeta. intros Hg. unfold write_nodes, bind, read.
  rewrite (nested_loops_plan rowsByLabel nodeBatchSize write_node_batch).
  apply write_node_plan_any, Hg.
Qed.

(** The writing loop of the relationship route, over a plan, on any
    store: one progress event per [tx.run] that returned, provided the
    driver does not retry what was thrown. *)
Lemma write_relationship_plan_any (batches : list (string * list row)) :
  Forall (fun kb => snd kb <> []) batches ->
  forall w : world D,
    closed w = false ->
    let result := attempt D (relationship_calls batches) (db w) in
    let written := firstn (answered_runs (fst (fst result))) batches in
    (forall e, snd result = Some e -> gives_up D e) ->
    for_of batches (fun kb => write_relationship_batch (fst kb) (snd kb)) w =
    (completion (snd result),
     mkWorld false
       (queue w ++ writing_events (totalRows (vars w)) (processedRows (vars w)) written)
       (snd (fst result)) (calls w ++ fst (fst result))
       (mkLocals (parsedFiles (vars w)) (totalRows (vars w)) (driver (vars w))
          (totalCreated (vars w) + created_total (fst (fst result)))
          (processedRows (vars w) + plan_rows written))).
Proof.
  induction 1 as [|[type batch] batches Hne Hrest IH]; intros w Hc; cbv zeta.
  - intros _. simpl. unfold ret, plan_rows. simpl. rewrite !app_nil_r, !Nat.add_0_r.
    destruct w as [c q d l [pf tr dr tc pr]]. simpl in *. now subst.
  - simpl in Hne. destruct batch as [|sampleRow rest]; [congruence|].
    change (relationship_calls ((type, sampleRow :: rest) :: batches))
      with (TxRun (CreateRelationships type (propertyKeys sampleRow)) (sampleRow :: rest)
              :: TxCommit :: relationship_calls batches).
    cbn [for_of fst snd attempt].
    unfold bind at 1.
    unfold write_relationship_batch.
    destruct (respond D (TxRun (CreateRelationships type (propertyKeys sampleRow))
                           (sampleRow :: rest)) (db w)) as [[e|r] s1] eqn:Hrun.
    + intros Hg.
      rewrite executeWrite_unless_retried;
        unfold transaction, bind, assign, read, perform; rewrite Hrun;
        [|intros e' He'; inversion He'; subst; apply Hg; reflexivity].
      cbn. unfold plan_rows. cbn. rewrite !app_nil_r, !Nat.add_0_r.
      destruct w as [c q d l [pf tr dr tc pr]]. simpl in *. now subst.
    + destruct (respond D TxCommit s1) as [[e|r'] s2] eqn:Hcommit.
      * intros Hg.
        rewrite executeWrite_unless_retried;
          unfold transaction, bind, assign, read, perform; rewrite Hrun;
          unfold sendProgress, enqueue;
          cbn [closed queue db calls vars parsedFiles totalRows driver totalCreated
                 processedRows];
          rewrite Hc;
          cbn [closed queue db calls vars parsedFiles totalRows driver totalCreated
                 processedRows];
          rewrite Hcommit;
          [|intros e' He'; inversion He'; subst; apply Hg; reflexivity].
        cbn. unfold plan_rows. cbn. rewrite <- !app_assoc, !Nat.add_0_r. reflexivity.
      * intros Hg.
        rewrite executeWrite_unless_retried;
          unfold transaction, bind, assign, read, perform; rewrite Hrun;
          unfold sendProgress, enqueue;
          cbn [closed queue db calls vars parsedFiles totalRows driver totalCreated
                 processedRows];
          rewrite Hc;
          cbn [closed queue db calls vars parsedFiles totalRows driver totalCreated
                 processedRows];
          rewrite Hcommit;
          [|intros e' He'; discriminate].
        unfold ret. rewrite IH; [|reflexivity|].
        -- cbn [closed queue db calls vars parsedFiles totalRows driver totalCreated
                  processedRows].
           destruct (attempt D (relationship_calls batches) s2) as [[log s3] stop].
           cbn. unfold plan_rows. cbn. rewrite <- !app_assoc. cbn.
           f_equal. f_equal. f_equal; lia.
        -- cbn [closed queue db calls vars parsedFiles totalRows driver totalCreated
                  processedRows].
           intros e' He'. apply Hg.
           destruct (attempt D (relationship_calls batches) s2) as [[log s3] stop].
           exact He'.
Qed.

Lemma write_relationships_any (w : world D) :
  closed w = false ->
  let batches := relationship_plan (parsedFiles (vars w)) in
  let result := attempt D (relationship_calls batches) (db w) in
  let written := firstn (answered_runs (fst (fst result))) batches in
  (forall e, snd result = Some e -> gives_up D e) ->
  write_relationships w =
  (completion (snd result),
   mkWorld false
     (queue w ++ writing_events (totalRows (vars w)) (processedRows (vars w)) written)
     (snd (fst result)) (calls w ++ fst (fst result))
     (mkLocals (parsedFiles (vars w)) (totalRows (vars w)) (driver (vars w))
        (totalCreated (vars w) + created_total (fst (fst result)))
        (processedRows (vars w) + plan_rows written))).
Proof.
  intros Hc. cbv zeta. intros Hg. unfold write_relationships, bind, read.
  rewrite (nested_loops_plan rowsByType relationshipBatchSize write_relationship_batch).
  apply write_relationship_plan_any; [|exact Hc|exact Hg].
  apply plan_nonempty. unfold relationshipBatchSize. lia.
Qed.

(** Opening the driver and the session when neither call throws. *)
Lemma connect_any (conn : Connection) (w : world D) (log : list (call * answer))
  (s : St D) :
  attempt D (open_calls conn) (db w) = (log, s, None) ->
  connect conn w =
  (Normal tt,
   mkWorld (closed w) (queue w) s (calls w ++ log)
     (mkLocals (parsedFiles (vars w)) (totalRows (vars w)) true 0 0)).
Proof.
  unfold open_calls, connect, bind, assign, perform. cbn [attempt].
  destruct (respond D (Driver _ _ _) (db w)) as [[e|r] s1]; [discriminate|].
  cbn [closed queue db calls vars parsedFiles totalRows driver totalCreated processedRows].
  destruct (respond D Session s1) as [[e|r'] s2]; [discriminate|].
  intros H. inversion H; subst.
  cbn. rewrite <- app_assoc. reflexivity.
Qed.

(** The events both routes send up to the connection, for files that
    pass validation. *)
Definition parsed_stream (files : list File) : list event :=
  Progress 5 "Parsing CSV files..."
    :: parsing_events (List.length files) 0 files ++
    [Progress 15
       ("Parsed " +++ show_nat (sum_rows (map parsed_data files)) +++ " rows from "
          +++ show_nat (List.length files) +++ " file(s)");
     Progress 20 "Connecting to Neo4j..."].

Lemma parsed_stream_terminals (files : list File) : terminals (parsed_stream files) = [].
Proof.
  unfold parsed_stream.
  change (Progress 5 "Parsing CSV files..." :: ?x)
    with ([Progress 5 "Parsing CSV files..."] ++ x).
  rewrite !terminals_app, parsing_events_terminals. reflexivity.
Qed.

Lemma writing_events_terminals (total : nat) (batches : list (string * list row)) :
  forall processed, terminals (writing_events total processed batches) = [].
Proof. induction batches as [|kb batches IH]; intros processed; simpl; auto. Qed.

(** How a run ends in the stream once the session is open: with the
    success tail when no call of the session threw, otherwise with the
    error of the route, whose detail is what [session.close()] threw when
    it threw too, and what the failing call threw when it did not. *)
Definition session_outcome (message : string) (summary : nat -> nat -> string)
  (files total : nat) (stop : option thrown) (sessionClose : answer) : list event :=
  match stop with
  | None =>
      [Progress 95 "Finalizing..."; Progress 100 "Upload complete!";
       DataEvent files total (summary total files)]
  | Some e =>
      [ErrorEvent message
         (Some [message_or "Unknown Neo4j error"
                  match sessionClose with
                  | inl e' => e'
                  | inr _ => e
                  end])]
  end.

Lemma close_session_any (w : world D) :
  let sc := respond D SessionClose (db w) in
  close_session w =
  (match fst sc with
   | inl e => Throw e
   | inr _ => Normal tt
   end,
   mkWorld (closed w) (queue w) (snd sc) (calls w ++ [(SessionClose, fst sc)]) (vars w)).
Proof.
  cbv zeta. unfold close_session, bind, perform.
  destruct (respond D SessionClose (db w)) as [[e|r] s']; reflexivity.
Qed.

Lemma close_driver_any (w : world D) :
  driver (vars w) = true ->
  let dc := respond D DriverClose (db w) in
  close_driver w =
  (match fst dc with
   | inl e => Throw e
   | inr _ => Normal tt
   end,
   mkWorld (closed w) (queue w) (snd dc) (calls w ++ [(DriverClose, fst dc)]) (vars w)).
Proof.
  intros Hd. cbv zeta. unfold close_driver, bind, read, perform. rewrite Hd.
  unfold when, bind.
  destruct (respond D DriverClose (db w)) as [[e|r] s']; reflexivity.
Qed.

Lemma fail_with_open (m : string) (d : option (list string)) (w : world D) :
  closed w = false ->
  fail_with m d w =
  (Normal tt, mkWorld true (queue w ++ [ErrorEvent m d]) (db w) (calls w) (vars w)).
Proof. intros Hc. unfold fail_with, bind, enqueue, close. rewrite Hc. reflexivity. Qed.

Lemma fail_with_closed (m : string) (d : option (list string)) (w : world D) :
  closed w = true ->
  fail_with m d w = (Throw (ErrorObj "Invalid state: Controller is already closed"), w).
Proof. intros Hc. unfold fail_with, bind, enqueue. rewrite Hc. reflexivity. Qed.

(** The end of both routes, from the state the writing loops leave. *)
Lemma session_end (message : string) (summary : nat -> nat -> string)
  (stop : option thrown) (w : world D) :
  closed w = false ->
  driver (vars w) = true ->
  let sc := respond D SessionClose (db w) in
  let dc := respond D DriverClose (snd sc) in
  snd (try_catch
         (try_finally
            (try_catch
               (try_finally
                  (fun w0 => match stop with
                             | None => finish summary w0
                             | Some e => (Throw e, w0)
                             end)
                  close_session)
               (fun neo4jError =>
                  fail_with message (Some [message_or "Unknown Neo4j error" neo4jError])))
            close_driver)
         (fun error =>
            fail_with "Internal server error"
              (Some [message_or "Unknown error occurred" error])) w) =
  mkWorld true
    (queue w ++ session_outcome message summary (List.length (parsedFiles (vars w)))
                  (totalCreated (vars w)) stop (fst sc))
    (snd dc)
    (calls w ++ [(SessionClose, fst sc); (DriverClose, fst dc)])
    (vars w).
Proof.
  intros Hc Hd. cbv zeta.
  unfold try_catch at 1, try_finally at 1, try_catch at 1, try_finally at 1.
  destruct stop as [e|].
  - rewrite close_session_any.
    destruct (respond D SessionClose (db w)) as [[e'|r] s2]; cbn [fst snd].
    + rewrite fail_with_open by exact Hc.
      rewrite close_driver_any by exact Hd.
      cbn [fst snd closed queue db calls vars].
      destruct (respond D DriverClose s2) as [[e''|r'] s3]; cbn [fst snd].
      * rewrite fail_with_closed by reflexivity. cbn [snd session_outcome].
        rewrite <- app_assoc. reflexivity.
      * cbn [snd session_outcome]. rewrite <- app_assoc. reflexivity.
    + rewrite fail_with_open by exact Hc.
      rewrite close_driver_any by exact Hd.
      cbn [fst snd closed queue db calls vars].
      destruct (respond D DriverClose s2) as [[e''|r'] s3]; cbn [fst snd].
      * rewrite fail_with_closed by reflexivity. cbn [snd session_outcome].
        rewrite <- app_assoc. reflexivity.
      * cbn [snd session_outcome]. rewrite <- app_assoc. reflexivity.
  - rewrite finish_open by exact Hc.
    rewrite close_session_any.
    cbn [fst snd closed queue db calls vars].
    destruct (respond D SessionClose (db w)) as [[e'|r] s2]; cbn [fst snd].
    + rewrite fail_with_closed by reflexivity.
      rewrite close_driver_any by exact Hd.
      cbn [fst snd closed queue db calls vars].
      destruct (respond D DriverClose s2) as [[e''|r'] s3]; cbn [fst snd].
      * rewrite fail_with_closed by reflexivity. cbn [snd session_outcome].
        rewrite <- app_assoc. reflexivity.
      * rewrite fail_with_closed by reflexivity. cbn [snd session_outcome].
        rewrite <- app_assoc. reflexivity.
    + rewrite close_driver_any by exact Hd.
      cbn [fst snd closed queue db calls vars].
      destruct (respond D DriverClose s2) as [[e''|r'] s3]; cbn [fst snd].
      * rewrite fail_with_closed by reflexivity. cbn [snd session_outcome].
        rewrite <- app_assoc. reflexivity.
      * cbn [snd session_outcome]. rewrite <- app_assoc. reflexivity.
Qed.

(** Both routes up to the connection, on files that pass validation. *)
Lemma route_parsed (body : nat -> nat -> File -> M D unit) (required : list string)
  (nest : M D unit) (handler : thrown -> M D unit)
  (files : list File) (conn : Connection) (s : St D) :
  (forall n i f (w : world D),
     parsed_ok required f ->
     closed w = false ->
     body n i f w =
     (Normal tt,
      mkWorld false
        (queue w ++ [Progress (parsing_percent i n) ("Parsing " +++ name f +++ "...")])
        (db w) (calls w)
        (mkLocals (parsedFiles (vars w) ++ [parsed_data f])
           (totalRows (vars w) + rowCount (parsed_data f))
           (driver (vars w)) (totalCreated (vars w)) (processedRows (vars w))))) ->
  files <> [] ->
  valid_connection conn ->
  Forall (parsed_ok required) files ->
  try_catch
    (validate_input files conn ;;
     parse_phase body files ;;
     assign (fun v => mkLocals (parsedFiles v) (totalRows v) false
                        (totalCreated v) (processedRows v)) ;;
     nest)
    handler (initial s) =
  try_catch nest handler
    (mkWorld false (parsed_stream files) s []
       (mkLocals (map parsed_data files) (sum_rows (map parsed_data files)) false 0 0)).
Proof.
  intros Hbody Hne Hconn Hfiles.
  unfold try_catch at 1. unfold bind at 1.
  rewrite (validate_input_passes files conn _ Hne Hconn).
  unfold bind at 1.
  rewrite (parse_phase_passes body required Hbody files _ Hfiles) by reflexivity.
  unfold bind at 1. unfold assign at 1.
  cbn [closed queue db calls vars parsedFiles totalRows driver totalCreated
         processedRows initial no_locals List.app].
  reflexivity.
Qed.

(** The session of a route, once the driver and the session are open. *)
Lemma session_entered (conn : Connection) (body F : M D unit)
  (h h' : thrown -> M D unit) (w wc w1 : world D) :
  connect conn w = (Normal tt, wc) ->
  body wc = F w1 ->
  try_catch
    (try_finally
       (try_catch (connect conn ;; try_finally body close_session) h)
       close_driver)
    h' w =
  try_catch
    (try_finally (try_catch (try_finally F close_session) h) close_driver)
    h' w1.
Proof.
  intros Hconnect Hbody. unfold try_catch, try_finally, bind.
  rewrite Hconnect, Hbody. reflexivity.
Qed.

(** The node route on valid input, on any store that lets the driver and
    the session open. *)
Lemma run_nodes_connected (files : list File) (conn : Connection) (s s0 : St D)
  (log0 : list (call * answer)) :
  files <> [] ->
  valid_connection conn ->
  Forall (parsed_ok ["LABEL"]) files ->
  attempt D (open_calls conn) s = (log0, s0, None) ->
  let pfs := map parsed_data files in
  let work := attempt D (node_calls (node_plan pfs)) s0 in
  let sc := respond D SessionClose (snd (fst work)) in
  let dc := respond D DriverClose (snd sc) in
  let total := created_total (fst (fst work)) in
  (forall e, snd work = Some e -> gives_up D e) ->
  run_nodes files conn s =
  mkWorld true
    (parsed_stream files ++
     Progress 25 "Starting data insertion..."
       :: session_outcome "Failed to insert data into Neo4j" node_summary
            (List.length files) total (snd work) (fst sc))
    (snd dc)
    (log0 ++ fst (fst work) ++ [(SessionClose, fst sc); (DriverClose, fst dc)])
    (mkLocals pfs (sum_rows pfs) true total 0).
Proof.
  intros Hne Hconn Hfiles Hopen pfs work sc dc total Hg.
  unfold run_nodes, uploadNodes.
  rewrite (route_parsed parse_node_file ["LABEL"]); auto;
    [|intros n i f w; apply parse_node_file_passes].
  fold pfs.
  set (w := mkWorld false _ _ _ _).
  set (w1 := mkWorld false
               (parsed_stream files ++ [Progress 25 "Starting data insertion..."])
               (snd (fst work)) (log0 ++ fst (fst work))
               (mkLocals pfs (sum_rows pfs) true total 0)).
  rewrite (session_entered conn _
             (fun w0 => match snd work with
                        | None => finish node_summary w0
                        | Some e => (Throw e, w0)
                        end)
             _ _ w _ w1 (connect_any conn w log0 s0 Hopen)).
  - rewrite session_end by reflexivity.
    subst w1. cbn [closed queue db calls vars parsedFiles totalRows driver totalCreated
                     processedRows].
    fold sc. fold dc.
    assert (Hlen : List.length pfs = List.length files) by apply length_map.
    rewrite Hlen.
    rewrite <- !app_assoc. reflexivity.
  - subst w. unfold bind at 1. unfold sendProgress, enqueue.
    cbn [closed queue db calls vars parsedFiles totalRows driver totalCreated
           processedRows List.app].
    unfold bind. rewrite write_nodes_any by exact Hg.
    cbn [closed queue db calls vars parsedFiles totalRows driver totalCreated
           processedRows List.app].
    fold work. subst w1. unfold total.
    destruct (snd work); reflexivity.
Qed.

Lemma ensure_index_any (w : world D) :
  let ix := respond D (SessionRun CreateIndex) (db w) in
  ensure_index w =
  (Normal tt,
   mkWorld (closed w) (queue w) (snd ix) (calls w ++ [(SessionRun CreateIndex, fst ix)])
     (vars w)).
Proof.
  cbv zeta. unfold ensure_index, try_catch, bind, perform.
  destruct (respond D (SessionRun CreateIndex) (db w)) as [[e|r] s']; reflexivity.
Qed.

(** The relationship route on valid input, on any store that lets the
    driver and the session open. *)
Lemma run_relationships_connected (files : list File) (conn : Connection) (s s0 : St D)
  (log0 : list (call * answer)) :
  files <> [] ->
  valid_connection conn ->
  Forall (parsed_ok REQUIRED_COLUMNS) files ->
  attempt D (open_calls conn) s = (log0, s0, None) ->
  let pfs := map parsed_data files in
  let batches := relationship_plan pfs in
  let ix := respond D (SessionRun CreateIndex) s0 in
  let work := attempt D (relationship_calls batches) (snd ix) in
  let written := firstn (answered_runs (fst (fst work))) batches in
  let sc := respond D SessionClose (snd (fst work)) in
  let dc := respond D DriverClose (snd sc) in
  let total := created_total (fst (fst work)) in
  (forall e, snd work = Some e -> gives_up D e) ->
  run_relationships files conn s =
  mkWorld true
    (parsed_stream files ++
     Progress 25 "Checking/creating indexes..."
       :: Progress 30 "Starting relationship creation..."
       :: writing_events (sum_rows pfs) 0 written ++
       session_outcome "Failed to create relationships in Neo4j" relationship_summary
         (List.length files) total (snd work) (fst sc))
    (snd dc)
    (log0 ++ (SessionRun CreateIndex, fst ix)
       :: fst (fst work) ++ [(SessionClose, fst sc); (DriverClose, fst dc)])
    (mkLocals pfs (sum_rows pfs) true total (plan_rows written)).
Proof.
  intros Hne Hconn Hfiles Hopen pfs batches ix work written sc dc total Hg.
  unfold run_relationships, uploadRelationships.
  rewrite (route_parsed parse_relationship_file REQUIRED_COLUMNS); auto;
    [|intros n i f w; apply parse_relationship_file_passes].
  fold pfs.
  set (w := mkWorld false _ _ _ _).
  set (w1 := mkWorld false
               (parsed_stream files ++
                Progress 25 "Checking/creating indexes..."
                  :: Progress 30 "Starting relationship creation..."
                  :: writing_events (sum_rows pfs) 0 written)
               (snd (fst work))
               (log0 ++ (SessionRun CreateIndex, fst ix) :: fst (fst work))
               (mkLocals pfs (sum_rows pfs) true total (plan_rows written))).
  rewrite (session_entered conn _
             (fun w0 => match snd work with
                        | None => finish relationship_summary w0
                        | Some e => (Throw e, w0)
                        end)
             _ _ w _ w1 (connect_any conn w log0 s0 Hopen)).
  - rewrite session_end by reflexivity.
    subst w1. cbn [closed queue db calls vars parsedFiles totalRows driver totalCreated
                     processedRows].
    fold sc. fold dc.
    assert (Hlen : List.length pfs = List.length files) by apply length_map.
    rewrite Hlen.
    rewrite <- ?app_assoc, <- ?app_comm_cons, <- ?app_assoc. reflexivity.
  - subst w. unfold bind at 1. unfold sendProgress at 1, enqueue at 1.
    cbn [closed queue db calls vars parsedFiles totalRows driver totalCreated
           processedRows List.app].
    unfold bind at 1. rewrite ensure_index_any.
    cbn [closed queue db calls vars parsedFiles totalRows driver totalCreated
           processedRows List.app].
    unfold bind at 1. unfold sendProgress at 1, enqueue at 1.
    cbn [closed queue db calls vars parsedFiles totalRows driver totalCreated
           processedRows List.app].
    unfold bind. rewrite write_relationships_any by (reflexivity || exact Hg).
    cbn [closed queue db calls vars parsedFiles totalRows driver totalCreated
           processedRows List.app].
    fold batches. fold ix. fold work. fold written. subst w1. unfold total.
    rewrite <- ?app_assoc, <- ?app_comm_cons, <- ?app_assoc. cbn [List.app].
    destruct (snd work); reflexivity.
Qed.

(** Opening the driver or the session throws. *)
Lemma session_not_entered (conn : Connection) (message : string) (body : M D unit)
  (e : thrown) (w wc : world D) :
  closed w = false ->
  connect conn w = (Throw e, wc) ->
  closed wc = closed w -> queue wc = queue w ->
  let dc := respond D DriverClose (db wc) in
  snd (try_catch
         (try_finally
            (try_catch (connect conn ;; try_finally body close_session)
               (fun neo4jError =>
                  fail_with message (Some [message_or "Unknown Neo4j error" neo4jError])))
            close_driver)
         (fun error =>
            fail_with "Internal server error"
              (Some [message_or "Unknown error occurred" error])) w) =
  mkWorld true
    (queue w ++ [ErrorEvent message (Some [message_or "Unknown Neo4j error" e])])
    (if driver (vars wc) then snd dc else db wc)
    (if driver (vars wc) then calls wc ++ [(DriverClose, fst dc)] else calls wc)
    (vars wc).
Proof.
  intros Hc Hconnect Hclosed Hqueue. cbv zeta.
  unfold try_catch at 1, try_finally at 1, try_catch at 1. unfold bind at 1.
  rewrite Hconnect.
  rewrite fail_with_open by congruence. rewrite Hqueue.
  destruct (driver (vars wc)) eqn:Hd.
  - rewrite close_driver_any by exact Hd.
    cbn [fst snd closed queue db calls vars].
    destruct (respond D DriverClose (db wc)) as [[e'|r] s']; cbn [fst snd].
    + rewrite fail_with_closed by reflexivity. reflexivity.
    + reflexivity.
  - unfold close_driver, bind, read.
    cbn [fst snd closed queue db calls vars]. rewrite Hd. reflexivity.
Qed.

(** Opening the driver or the session throws: what [connect] leaves. *)
Lemma connect_fails (conn : Connection) (w : world D) (log : list (call * answer))
  (s : St D) (e : thrown) :
  attempt D (open_calls conn) (db w) = (log, s, Some e) ->
  exists wc,
    connect conn w = (Throw e, wc) /\
    closed wc = closed w /\ queue wc = queue w /\ db wc = s /\
    calls wc = calls w ++ log /\
    ((driver (vars wc) = driver (vars w) /\
      log = [(Driver (connection_text (connectionUrl conn))
                (connection_text (username conn))
                (connection_text (password conn)), inl e)]) \/
     (driver (vars wc) = true /\
      exists r,
        log = [(Driver (connection_text (connectionUrl conn))
                  (connection_text (username conn))
                  (connection_text (password conn)), inr r);
               (Session, inl e)])).
Proof.
  unfold open_calls, connect, bind, assign, perform. cbn [attempt].
  destruct (respond D (Driver _ _ _) (db w)) as [[e1|r] s1].
  - intros H. inversion H; subst. eexists. split; [reflexivity|].
    cbn. repeat split. left. split; reflexivity.
  - cbn [closed queue db calls vars parsedFiles totalRows driver totalCreated
           processedRows].
    destruct (respond D Session s1) as [[e2|r'] s2]; [|discriminate].
    intros H. inversion H; subst. eexists. split; [reflexivity|].
    cbn. rewrite <- app_assoc. repeat split. right. split; [reflexivity|].
    now exists r.
Qed.

(** A route on valid input when the driver or the session cannot be
    opened. *)
Lemma route_not_connected (body : nat -> nat -> File -> M D unit)
  (required : list string) (message : string) (writing : M D unit)
  (files : list File) (conn : Connection) (s s0 : St D)
  (log0 : list (call * answer)) (e : thrown) :
  (forall n i f (w : world D),
     parsed_ok required f ->
     closed w = false ->
     body n i f w =
     (Normal tt,
      mkWorld false
        (queue w ++ [Progress (parsing_percent i n) ("Parsing " +++ name f +++ "...")])
        (db w) (calls w)
        (mkLocals (parsedFiles (vars w) ++ [parsed_data f])
           (totalRows (vars w) + rowCount (parsed_data f))
           (driver (vars w)) (totalCreated (vars w)) (processedRows (vars w))))) ->
  files <> [] ->
  valid_connection conn ->
  Forall (parsed_ok required) files ->
  attempt D (open_calls conn) s = (log0, s0, Some e) ->
  let w :=
    snd (try_catch
           (validate_input files conn ;;
            parse_phase body files ;;
            assign (fun v => mkLocals (parsedFiles v) (totalRows v) false
                               (totalCreated v) (processedRows v)) ;;
            try_finally
              (try_catch (connect conn ;; try_finally writing close_session)
                 (fun neo4jError =>
                    fail_with message
                      (Some [message_or "Unknown Neo4j error" neo4jError])))
              close_driver)
           (fun error =>
              fail_with "Internal server error"
                (Some [message_or "Unknown error occurred" error]))
           (initial s)) in
  queue w =
    parsed_stream files ++
    [ErrorEvent message (Some [message_or "Unknown Neo4j error" e])] /\
  ((exists url user pass, calls w = [(Driver url user pass, inl e)]) \/
   (exists url user pass r a,
      calls w = [(Driver url user pass, inr r); (Session, inl e); (DriverClose, a)])).
Proof.
  intros Hbody Hne Hconn Hfiles Hopen. cbv zeta.
  rewrite (route_parsed body required); auto.
  set (w := mkWorld false _ _ _ _).
  destruct (connect_fails conn w log0 s0 e Hopen)
    as (wc & Hconnect & Hclosed & Hqueue & Hdb & Hcalls & Hcase).
  rewrite (session_not_entered conn message _ e w wc eq_refl Hconnect Hclosed Hqueue).
  cbn [queue calls]. split; [reflexivity|].
  destruct Hcase as [[Hd ->]|[Hd [r ->]]]; rewrite Hd, Hcalls; unfold w;
    cbn [driver vars calls]; rewrite !app_nil_l.
  - left. do 3 eexists. reflexivity.
  - right. do 5 eexists. reflexivity.
Qed.

End AnyStore.

Lemma plan_rows_groups (group : list row -> RowMap) (batchSize : nat)
  (files : list ParsedData) :
  (0 < batchSize)%nat ->
  plan_rows (plan group batchSize files) =
  list_sum (map (fun f => map_size (group (rows f))) files).
Proof.
  intros Hpos. unfold plan.
  induction files as [|f files IH]; simpl; [reflexivity|].
  rewrite plan_rows_app, IH. f_equal.
  generalize (group (rows f)). intros m. unfold map_size.
  induction m as [|[k vs] m IHm]; simpl; [reflexivity|].
  rewrite plan_rows_app, IHm. f_equal.
  unfold plan_rows. rewrite map_map. simpl.
  rewrite <- length_concat_sum, batches_concat by exact Hpos. reflexivity.
Qed.


(* ------------------------------------------------------------------ *)
(** ** Runs on the graph store *)

(** The nodes a node plan creates, in order. *)
Definition created_nodes (batches : list (string * list row)) : list Graph.node :=
  flat_map (fun kb => map (Graph.mkNode (fst kb)) (snd kb)) batches.

(** The rows of the files that carry a [LABEL]. *)
Definition labelled_rows (files : list File) : nat :=
  list_sum (map (fun file =>
                   List.length (filter (has_key "LABEL") (rows (parsed_data file))))
                files).

(** Every [LABEL] of the files can stand between backticks. *)
Definition labels_quotable (files : list File) : Prop :=
  forall file r label,
    In file files -> In r (rows (parsed_data file)) ->
    get "LABEL" r = Some label -> quotable label = true.

(** Every [TYPE] of the files can stand between backticks, and every
    column of a row besides the five required ones can stand bare. *)
Definition names_well_formed (files : list File) : Prop :=
  forall file r,
    In file files -> In r (rows (parsed_data file)) ->
    (forall type, get "TYPE" r = Some type -> quotable type = true) /\
    (forall key, In key (keys r) -> ~ In key REQUIRED_COLUMNS -> bare key = true).

Lemma created_nodes_length (batches : list (string * list row)) :
  List.length (created_nodes batches) = plan_rows batches.
Proof.
  unfold created_nodes, plan_rows.
  induction batches as [|[k b] batches IH]; simpl; [reflexivity|].
  now rewrite length_app, length_map, IH.
Qed.

Lemma node_plan_rows (files : list File) :
  plan_rows (node_plan (map parsed_data files)) = labelled_rows files.
Proof.
  unfold node_plan. rewrite plan_rows_groups by (unfold nodeBatchSize; lia).
  unfold labelled_rows. rewrite map_map. f_equal. apply map_ext. intros f.
  rewrite rowsByLabel_group_by, group_by_size. reflexivity.
Qed.

Lemma get_omit (key : string) (r : row) : get key (omit key r) = None.
Proof.
  unfold omit. induction r as [|[k v] r IH]; simpl; [reflexivity|].
  destruct (String.eqb_spec key k) as [->|Hne]; simpl; [exact IH|].
  destruct (String.eqb_spec key k); [contradiction | exact IH].
Qed.

Lemma in_batches (batchSize : nat) (rows : list row) (batch : list row) (r : row) :
  (0 < batchSize)%nat -> In batch (batches batchSize rows) -> In r batch -> In r rows.
Proof.
  intros Hpos Hb Hr. rewrite <- (batches_concat batchSize Hpos rows).
  apply in_concat. eauto.
Qed.

(** Every batch of a plan is a slice of a group of one of the files. *)
Lemma in_plan_group (group : list row -> RowMap) (batchSize : nat)
  (files : list ParsedData) (key : string) (batch : list row) :
  (0 < batchSize)%nat ->
  In (key, batch) (plan group batchSize files) ->
  exists f rs, In f files /\ In (key, rs) (group (rows f)) /\
               forall r, In r batch -> In r rs.
Proof.
  intros Hpos Hin. unfold plan in Hin. apply in_flat_map in Hin.
  destruct Hin as (f & Hf & Hin). apply in_flat_map in Hin.
  destruct Hin as ([k rs] & Hg & Hin). apply in_map_iff in Hin.
  destruct Hin as (b & E & Hb). inversion E; subst. simpl in *.
  exists f, rs. repeat split; auto. intros r Hr. eapply in_batches; eauto.
Qed.

Lemma created_nodes_unlabelled (files : list ParsedData) :
  Forall (fun node => get "LABEL" (Graph.node_props node) = None)
         (created_nodes (node_plan files)).
Proof.
  apply Forall_forall. intros node Hnode. unfold created_nodes in Hnode.
  apply in_flat_map in Hnode. destruct Hnode as ([label batch] & Hplan & Hnode).
  apply in_map_iff in Hnode. destruct Hnode as (r & <- & Hr). simpl in *.
  destruct (in_plan_group rowsByLabel nodeBatchSize files label batch)
    as (f & rs & Hf & Hg & Hrs); [unfold nodeBatchSize; lia | exact Hplan |].
  destruct (rowsByLabel_from_keyed (rows f) label rs r Hg (Hrs r Hr))
    as (_ & r0 & _ & _ & ->).
  apply get_omit.
Qed.

(** The labels of a node plan are [LABEL] values of the files. *)
Lemma node_plan_quotable (files : list File) :
  labels_quotable files ->
  Forall (fun kb => quotable (fst kb) = true) (node_plan (map parsed_data files)).
Proof.
  intros Hq. apply Forall_forall. intros [label batch] Hplan. simpl.
  pose proof (plan_nonempty rowsByLabel nodeBatchSize (map parsed_data files)
                ltac:(unfold nodeBatchSize; lia)) as Hne.
  fold (node_plan (map parsed_data files)) in Hne.
  rewrite Forall_forall in Hne. specialize (Hne _ Hplan). simpl in Hne.
  destruct batch as [|r batch]; [congruence|].
  destruct (in_plan_group rowsByLabel nodeBatchSize (map parsed_data files) label
              (r :: batch))
    as (f & rs & Hf & Hg & Hrs); [unfold nodeBatchSize; lia | exact Hplan |].
  destruct (rowsByLabel_from_keyed (rows f) label rs r Hg (Hrs r (or_introl eq_refl)))
    as (_ & r0 & Hr0 & Hlabel & _).
  apply in_map_iff in Hf. destruct Hf as (file & <- & Hfile).
  exact (Hq file r0 label Hfile Hr0 Hlabel).
Qed.

(** The statements of a relationship plan are well formed when the names
    of the files are. *)
Lemma relationship_plan_well_formed (files : list File) :
  names_well_formed files ->
  Forall (fun kb => well_formed (relationship_statement (fst kb) (snd kb)) = true)
         (relationship_plan (map parsed_data files)).
Proof.
  intros Hn. apply Forall_forall. intros [type batch] Hplan. simpl.
  pose proof (plan_nonempty rowsByType relationshipBatchSize (map parsed_data files)
                ltac:(unfold relationshipBatchSize; lia)) as Hne.
  fold (relationship_plan (map parsed_data files)) in Hne.
  rewrite Forall_forall in Hne. specialize (Hne _ Hplan). simpl in Hne.
  destruct batch as [|r batch]; [congruence|].
  destruct (in_plan_group rowsByType relationshipBatchSize (map parsed_data files) type
              (r :: batch))
    as (f & rs & Hf & Hg & Hrs); [unfold relationshipBatchSize; lia | exact Hplan |].
  destruct (rowsByType_from_keyed (rows f) type rs r Hg (Hrs r (or_introl eq_refl)))
    as (_ & r0 & Hr0 & Htype & ->).
  apply in_map_iff in Hf. destruct Hf as (file & <- & Hfile).
  destruct (Hn file r0 Hfile Hr0) as [Hq Hb].
  unfold relationship_statement, well_formed. simpl hd.
  rewrite (Hq type Htype). simpl. apply forallb_forall. intros key Hkey.
  apply propertyKeys_spec in Hkey. destruct Hkey as [Hk1 Hk2]. now apply Hb.
Qed.

(** The node plan of a run, on the graph store: every statement is
    accepted and committed. *)
Lemma graph_node_calls (batches : list (string * list row)) :
  Forall (fun kb => quotable (fst kb) = true) batches ->
  forall g,
    exists log,
      attempt Graph.store (node_calls batches) (Graph.idle g) =
        (log,
         Graph.idle (Graph.mkGraph (Graph.nodes g ++ created_nodes batches)
                       (Graph.relationships g)),
         None) /\
      created_total log = plan_rows batches.
Proof.
  induction 1 as [|[label batch] batches Hq _ IH]; intros g.
  - exists []. simpl. rewrite app_nil_r. destruct g. split; reflexivity.
  - simpl in Hq.
    change (node_calls ((label, batch) :: batches))
      with (TxRun (CreateNodes label) batch :: TxCommit :: node_calls batches).
    destruct (IH (Graph.mkGraph (Graph.nodes g ++ map (Graph.mkNode label) batch)
                    (Graph.relationships g))) as (log & Hlog & Htotal).
    cbn [Graph.nodes Graph.relationships] in Hlog.
    exists ((TxRun (CreateNodes label) batch, inr (Some (List.length batch)))
              :: (TxCommit, inr None) :: log).
    split.
    + cbn [attempt]. change (respond Graph.store) with Graph.serve.
      unfold Graph.serve at 1, Graph.respond.
      cbn [well_formed Graph.view Graph.idle Graph.uncommitted Graph.committed].
      rewrite Hq. cbn [Graph.effect].
      unfold Graph.serve at 1.
      cbn [Graph.view Graph.idle Graph.uncommitted Graph.committed].
      fold (Graph.idle (Graph.mkGraph (Graph.nodes g ++ map (Graph.mkNode label) batch)
                          (Graph.relationships g))).
      rewrite Hlog. cbn [created_nodes flat_map fst snd].
      rewrite <- app_assoc. reflexivity.
    + cbn [created_total created_of]. rewrite Htotal. unfold plan_rows. reflexivity.
Qed.

(* ------------------------------------------------------------------ *)
(** ** Relationship endpoints *)

(** The relationships a row creates: one per pair of matched end nodes. *)
Definition matches (g : Graph.graph) (r : row) : nat :=
  List.length (Graph.match_id g (get "FROM_ID" r))
  * List.length (Graph.match_id g (get "TO_ID" r)).

Definition plan_matches (g : Graph.graph) (batches : list (string * list row)) : nat :=
  list_sum (map (fun kb => list_sum (map (matches g) (snd kb))) batches).

(** The relationships a relationship plan creates between the nodes of
    [g], in order. *)
Definition created_relationships (g : Graph.graph) (batches : list (string * list row))
  : list Graph.relationship :=
  flat_map (fun kb =>
              flat_map (Graph.created_by_row g (fst kb) (propertyKeys (hd [] (snd kb))))
                       (snd kb))
           batches.

Lemma length_flat_map_const (A B : Type) (f : A -> list B) (xs : list A) (n : nat) :
  (forall x, List.length (f x) = n) ->
  List.length (flat_map f xs) = List.length xs * n.
Proof.
  intros H. induction xs as [|x xs IH]; simpl; [reflexivity|].
  now rewrite length_app, H, IH.
Qed.

Lemma created_by_row_length (g : Graph.graph) (type : string) (ks : list string)
  (r : row) :
  List.length (Graph.created_by_row g type ks r) = matches g r.
Proof.
  unfold Graph.created_by_row, matches.
  apply length_flat_map_const. intros from. apply length_map.
Qed.

Lemma length_flat_map_sum (A B : Type) (f : A -> list B) (xs : list A) :
  List.length (flat_map f xs) = list_sum (map (fun x => List.length (f x)) xs).
Proof.
  induction xs as [|x xs IH]; simpl; [reflexivity|]. now rewrite length_app, IH.
Qed.

Lemma created_relationships_length (g : Graph.graph)
  (batches : list (string * list row)) :
  List.length (created_relationships g batches) = plan_matches g batches.
Proof.
  unfold created_relationships, plan_matches.
  rewrite length_flat_map_sum. f_equal. apply map_ext. intros [type batch]. simpl.
  rewrite length_flat_map_sum. f_equal. apply map_ext. intros r.
  apply created_by_row_length.
Qed.

(** Only the nodes of the graph matter to what a row creates. *)
Lemma created_by_row_nodes (g g' : Graph.graph) (type : string) (ks : list string)
  (r : row) :
  Graph.nodes g' = Graph.nodes g ->
  Graph.created_by_row g' type ks r = Graph.created_by_row g type ks r.
Proof.
  intros E. unfold Graph.created_by_row, Graph.match_id. rewrite E. reflexivity.
Qed.

(** A row without a match for one of its ends creates nothing. *)
Lemma matches_unmatched (g : Graph.graph) (r : row) :
  Graph.match_id g (get "FROM_ID" r) = [] \/ Graph.match_id g (get "TO_ID" r) = [] ->
  matches g r = 0.
Proof. unfold matches. intros [-> | ->]; simpl; lia. Qed.

Lemma props_of_ext (ks : list string) (r r' : row) :
  (forall k, In k ks -> get k r = get k r') ->
  Graph.props_of ks r = Graph.props_of ks r'.
Proof.
  induction ks as [|k ks IH]; intros H; simpl; [reflexivity|].
  rewrite <- (H k) by now left. rewrite IH by (intros k' Hk'; apply H; now right).
  reflexivity.
Qed.

(** The end labels of a row are not read. *)
Lemma created_by_row_labels (g : Graph.graph) (type : string) (sampleRow r r' : row) :
  (forall k, k <> "FROM_LABEL" -> k <> "TO_LABEL" -> get k r = get k r') ->
  Graph.created_by_row g type (propertyKeys sampleRow) r =
  Graph.created_by_row g type (propertyKeys sampleRow) r'.
Proof.
  intros H. unfold Graph.created_by_row.
  rewrite <- (H "FROM_ID"), <- (H "TO_ID") by discriminate.
  rewrite (props_of_ext (propertyKeys sampleRow) r r'); [reflexivity|].
  intros k Hk. apply propertyKeys_spec in Hk. destruct Hk as [_ Hk].
  apply H; intros ->; apply Hk; simpl; tauto.
Qed.

(** Neither are the labels of the nodes. *)
Definition relabel (f : string -> string) (g : Graph.graph) : Graph.graph :=
  Graph.mkGraph
    (map (fun n => Graph.mkNode (f (Graph.node_label n)) (Graph.node_props n))
         (Graph.nodes g))
    (Graph.relationships g).

Lemma match_id_relabel (f : string -> string) (g : Graph.graph) (v : option string) :
  Graph.match_id (relabel f g) v = Graph.match_id g v.
Proof.
  destruct v as [v|]; [|reflexivity]. unfold Graph.match_id, relabel. simpl.
  generalize 0. induction (Graph.nodes g) as [|n ns IH]; intros i; simpl; [reflexivity|].
  unfold Graph.has_id. simpl. now rewrite IH.
Qed.

Lemma created_relationships_relabel (f : string -> string) (g : Graph.graph)
  (batches : list (string * list row)) :
  created_relationships (relabel f g) batches = created_relationships g batches.
Proof.
  unfold created_relationships. apply flat_map_ext. intros [type batch].
  apply flat_map_ext. intros r. unfold Graph.created_by_row.
  now rewrite !match_id_relabel.
Qed.

(** The relationship plan of a run, on the graph store. *)
Lemma graph_relationship_calls (g : Graph.graph) (batches : list (string * list row)) :
  Forall (fun kb => well_formed (relationship_statement (fst kb) (snd kb)) = true)
         batches ->
  forall rels,
    exists log,
      attempt Graph.store (relationship_calls batches)
        (Graph.idle (Graph.mkGraph (Graph.nodes g) rels)) =
        (log,
         Graph.idle (Graph.mkGraph (Graph.nodes g)
                       (rels ++ created_relationships g batches)),
         None) /\
      created_total log = plan_matches g batches.
Proof.
  induction 1 as [|[type batch] batches Hwf _ IH]; intros rels.
  - exists []. simpl. rewrite app_nil_r. split; reflexivity.
  - cbn [fst snd] in Hwf.
    change (relationship_calls ((type, batch) :: batches))
      with (TxRun (relationship_statement type batch) batch
              :: TxCommit :: relationship_calls batches).
    set (new := flat_map (Graph.created_by_row g type (propertyKeys (hd [] batch))) batch).
    destruct (IH (rels ++ new)) as (log & Hlog & Htotal).
    exists ((TxRun (relationship_statement type batch) batch, inr (Some (List.length new)))
              :: (TxCommit, inr None) :: log).
    split.
    + cbn [attempt]. change (respond Graph.store) with Graph.serve.
      unfold Graph.serve at 1, Graph.respond.
      cbn [Graph.view Graph.idle Graph.uncommitted Graph.committed].
      rewrite Hwf. unfold relationship_statement at 1. cbn [Graph.effect].
      cbn [Graph.nodes Graph.relationships].
      assert (E : flat_map
                    (Graph.created_by_row (Graph.mkGraph (Graph.nodes g) rels) type
                       (propertyKeys (hd [] batch))) batch = new).
      { apply flat_map_ext. intros r. apply created_by_row_nodes. reflexivity. }
      rewrite E.
      unfold Graph.serve at 1.
      cbn [Graph.view Graph.idle Graph.uncommitted Graph.committed].
      fold (Graph.idle (Graph.mkGraph (Graph.nodes g) (rels ++ new))).
      rewrite Hlog. cbn [created_relationships flat_map fst snd]. fold new.
      rewrite <- app_assoc. reflexivity.
    + cbn [created_total created_of]. rewrite Htotal.
      unfold plan_matches. simpl. f_equal.
      unfold new. rewrite length_flat_map_sum. f_equal. apply map_ext. intros r.
      apply created_by_row_length.
Qed.

Section GraphRuns.

Variable files : list File.
Variable conn : Connection.

Hypothesis files_present : files <> [].
Hypothesis conn_valid : valid_connection conn.

(** The node route on the graph store. *)
Lemma run_nodes_on_graph (g : Graph.graph) :
  Forall (parsed_ok ["LABEL"]) files ->
  labels_quotable files ->
  let batches := node_plan (map parsed_data files) in
  let created := created_nodes batches in
  let w := run_nodes (D := Graph.store) files conn (Graph.idle g) in
  db w = Graph.idle (Graph.mkGraph (Graph.nodes g ++ created) (Graph.relationships g)) /\
  terminals (queue w) =
    [DataEvent (List.length files) (List.length created)
       (node_summary (List.length created) (List.length files))] /\
  tx_runs (calls w) = map (fun kb => (CreateNodes (fst kb), snd kb)) batches.
Proof.
  intros Hfiles Hq batches created w.
  destruct (graph_node_calls batches (node_plan_quotable files Hq) g)
    as (log & Hlog & Htotal).
  assert (Hopen : attempt Graph.store (open_calls conn) (Graph.idle g) =
                  ([(Driver (connection_text (connectionUrl conn))
                       (connection_text (username conn))
                       (connection_text (password conn)), inr None);
                    (Session, inr None)], Graph.idle g, None)) by reflexivity.
  unfold w.
  rewrite (run_nodes_connected (D := Graph.store) files conn (Graph.idle g) (Graph.idle g) _
             files_present conn_valid Hfiles Hopen);
    fold batches; rewrite Hlog; cbn [fst snd]; [|intros e He; discriminate He].
  cbn [db queue calls session_outcome respond Graph.store Graph.serve Graph.idle
         Graph.committed fst snd].
  rewrite Htotal. unfold created. rewrite created_nodes_length.
  split; [reflexivity|]. split.
  - rewrite terminals_app, parsed_stream_terminals. reflexivity.
  - rewrite !tx_runs_app. cbn [tx_runs List.app]. rewrite app_nil_r.
    pose proof (attempt_none_play (D := Graph.store) _ _ _ _ Hlog) as Hplay.
    replace log with (fst (play Graph.store (node_calls batches) (Graph.idle g)))
      by now rewrite Hplay.
    apply tx_runs_node_calls.
Qed.

(** The relationship route on the graph store. *)
Lemma run_relationships_on_graph (g : Graph.graph) :
  Forall (parsed_ok REQUIRED_COLUMNS) files ->
  names_well_formed files ->
  let batches := relationship_plan (map parsed_data files) in
  let total := plan_matches g batches in
  let w := run_relationships (D := Graph.store) files conn (Graph.idle g) in
  db w =
    Graph.idle (Graph.mkGraph (Graph.nodes g)
                  (Graph.relationships g ++ created_relationships g batches)) /\
  terminals (queue w) =
    [DataEvent (List.length files) total (relationship_summary total (List.length files))].
Proof.
  intros Hfiles Hn batches total w.
  destruct (graph_relationship_calls g batches (relationship_plan_well_formed files Hn)
              (Graph.relationships g))
    as (log & Hlog & Htotal).
  assert (E : Graph.mkGraph (Graph.nodes g) (Graph.relationships g) = g)
    by (destruct g; reflexivity).
  rewrite E in Hlog.
  assert (Hopen : attempt Graph.store (open_calls conn) (Graph.idle g) =
                  ([(Driver (connection_text (connectionUrl conn))
                       (connection_text (username conn))
                       (connection_text (password conn)), inr None);
                    (Session, inr None)], Graph.idle g, None)) by reflexivity.
  unfold w.
  rewrite (run_relationships_connected (D := Graph.store) files conn (Graph.idle g)
             (Graph.idle g) _
             files_present conn_valid Hfiles Hopen);
    fold batches;
    cbn [respond Graph.store Graph.serve fst snd];
    rewrite Hlog; cbn [fst snd]; [|intros e He; discriminate He].
  cbn [db queue calls session_outcome respond Graph.store Graph.serve Graph.idle
         Graph.committed fst snd].
  rewrite Htotal. split; [reflexivity|].
  change (Progress 25 "Checking/creating indexes..."
            :: Progress 30 "Starting relationship creation..." :: ?x)
    with ([Progress 25 "Checking/creating indexes...";
           Progress 30 "Starting relationship creation..."] ++ x).
  rewrite !terminals_app, parsed_stream_terminals, writing_events_terminals.
  reflexivity.
Qed.

End GraphRuns.



(** *** Other end labels in the rows *)

(** The same row with other values under [FROM_LABEL] and [TO_LABEL]. *)
Definition other_end_labels (f : string -> string) (r : row) : row :=
  map (fun kv =>
         if String.eqb (fst kv) "FROM_LABEL" || String.eqb (fst kv) "TO_LABEL"
         then (fst kv, f (snd kv))
         else kv)
      r.

(** A file whose rows went through [h]. *)
Definition map_rows (h : row -> row) (file : File) : File :=
  mkFile (name file)
    (match parse file with
     | inl e => inl e
     | inr parseResult =>
         inr (mkParseResult (fields parseResult) (map h (data parseResult)))
     end).

Lemma get_other_end_labels (f : string -> string) (r : row) (k : string) :
  k <> "FROM_LABEL" -> k <> "TO_LABEL" -> get k (other_end_labels f r) = get k r.
Proof.
  intros H1 H2. induction r as [|[k' v] r IH]; [reflexivity|].
  cbn [other_end_labels map get fst snd]. fold (other_end_labels f r).
  destruct (String.eqb_spec k k') as [<-|Hne].
  - destruct (String.eqb_spec k "FROM_LABEL"); [contradiction|].
    destruct (String.eqb_spec k "TO_LABEL"); [contradiction|].
    cbn [orb get]. now rewrite String.eqb_refl.
  - destruct (String.eqb k' "FROM_LABEL" || String.eqb k' "TO_LABEL");
      cbn [get fst]; destruct (String.eqb_spec k k'); try contradiction; exact IH.
Qed.

Lemma keys_other_end_labels (f : string -> string) (r : row) :
  keys (other_end_labels f r) = keys r.
Proof.
  unfold keys, other_end_labels. rewrite map_map. apply map_ext. intros [k v].
  cbn [fst snd]. destruct (String.eqb k "FROM_LABEL" || String.eqb k "TO_LABEL");
    reflexivity.
Qed.

Section MappedRows.

Variable h : row -> row.

Hypothesis h_type : forall r, get "TYPE" (h r) = get "TYPE" r.

(** The groups of mapped rows are the mapped groups. *)
Definition map_groups (m : RowMap) : RowMap :=
  map (fun kv => (fst kv, map h (snd kv))) m.

Lemma map_push_map (k : string) (r : row) (m : RowMap) :
  map_push k (h r) (map_groups m) = map_groups (map_push k r m).
Proof.
  induction m as [|[k' vs] m IH]; [reflexivity|].
  cbn [map_groups map map_push fst snd]. fold (map_groups m).
  destruct (String.eqb k k').
  - cbn [map_groups map fst snd]. now rewrite map_app.
  - cbn [map_groups map fst snd]. fold (map_groups (map_push k r m)). now rewrite IH.
Qed.

Lemma rowsByType_map (rows : list row) :
  rowsByType (map h rows) = map_groups (rowsByType rows).
Proof.
  unfold rowsByType. change (@nil (string * list row)) with (map_groups []) at 1.
  generalize (@nil (string * list row)).
  induction rows as [|r rows IH]; intros m; [reflexivity|].
  cbn [map fold_left]. rewrite h_type.
  destruct (get "TYPE" r) as [[|c type]|]; cbn [truthy negb]; try apply IH.
  rewrite map_push_map. apply IH.
Qed.

Lemma batches_from_map (batchSize : nat) (rows : list row) :
  forall fuel i,
    batches_from fuel i batchSize (map h rows) =
    map (map h) (batches_from fuel i batchSize rows).
Proof.
  induction fuel as [|fuel IH]; intros i; [reflexivity|].
  cbn [batches_from]. rewrite length_map.
  destruct (i <? List.length rows)%nat; [|reflexivity].
  cbn [map]. rewrite IH. f_equal.
  unfold slice. now rewrite skipn_map, firstn_map.
Qed.

Lemma rows_map_rows (file : File) :
  rows (parsed_data (map_rows h file)) = map h (rows (parsed_data file)).
Proof. unfold parsed_data, map_rows. simpl. destruct (parse file); reflexivity. Qed.

Lemma relationship_plan_map (files : list File) :
  relationship_plan (map parsed_data (map (map_rows h) files)) =
  map (fun kb => (fst kb, map h (snd kb))) (relationship_plan (map parsed_data files)).
Proof.
  unfold relationship_plan, plan.
  induction files as [|file files IH]; [reflexivity|].
  cbn [map flat_map]. rewrite IH, map_app. f_equal.
  rewrite rows_map_rows, rowsByType_map.
  generalize (rowsByType (rows (parsed_data file))). intros m.
  induction m as [|[k vs] m IHm]; [reflexivity|].
  cbn [map_groups map flat_map fst snd]. fold (map_groups m).
  rewrite IHm, map_app. f_equal.
  unfold batches. rewrite length_map, batches_from_map, !map_map. reflexivity.
Qed.

Lemma parsed_ok_map_rows (required : list string) (file : File) :
  parsed_ok required file -> parsed_ok required (map_rows h file).
Proof.
  intros (parseResult & Hparse & Hh & Hreq).
  exists (mkParseResult (fields parseResult) (map h (data parseResult))).
  unfold map_rows. simpl. rewrite Hparse. auto.
Qed.

End MappedRows.

Lemma names_well_formed_other_end_labels (f : string -> string) (files : list File) :
  names_well_formed files ->
  names_well_formed (map (map_rows (other_end_labels f)) files).
Proof.
  intros Hn file r Hfile Hr. apply in_map_iff in Hfile.
  destruct Hfile as (file0 & <- & Hfile0).
  rewrite rows_map_rows in Hr. apply in_map_iff in Hr. destruct Hr as (r0 & <- & Hr0).
  destruct (Hn file0 r0 Hfile0 Hr0) as [Hq Hb]. split.
  - intros type Htype. apply Hq.
    rewrite get_other_end_labels in Htype by discriminate. exact Htype.
  - intros key Hkey. rewrite keys_other_end_labels in Hkey. now apply Hb.
Qed.

Lemma created_relationships_other_end_labels (f : string -> string) (g : Graph.graph)
  (batches : list (string * list row)) :
  created_relationships g
    (map (fun kb => (fst kb, map (other_end_labels f) (snd kb))) batches) =
  created_relationships g batches.
Proof.
  unfold created_relationships.
  induction batches as [|[type batch] batches IH]; [reflexivity|].
  cbn [map flat_map fst snd]. rewrite IH. f_equal.
  assert (Hkeys : propertyKeys (hd [] (map (other_end_labels f) batch)) =
                  propertyKeys (hd [] batch)).
  { destruct batch as [|r batch]; [reflexivity|]. cbn [map hd].
    unfold propertyKeys. now rewrite keys_other_end_labels. }
  rewrite Hkeys. rewrite flat_map_concat_map, map_map, <- flat_map_concat_map.
  apply flat_map_ext. intros r. apply created_by_row_labels.
  intros k H1 H2. now apply get_other_end_labels.
Qed.

Lemma plan_matches_other_end_labels (f : string -> string) (g : Graph.graph)
  (batches : list (string * list row)) :
  plan_matches g (map (fun kb => (fst kb, map (other_end_labels f) (snd kb))) batches) =
  plan_matches g batches.
Proof.
  unfold plan_matches. rewrite map_map. f_equal. apply map_ext. intros [type batch].
  cbn [fst snd]. rewrite map_map. f_equal. apply map_ext. intros r.
  unfold matches. now rewrite !get_other_end_labels by discriminate.
Qed.

(** Three nodes, two of which share the id 1. *)
Definition shared_id_graph : Graph.server :=
  Graph.idle
    (Graph.mkGraph
       [Graph.mkNode "Person" [("id", "1"); ("name", "Ann")];
        Graph.mkNode "Company" [("id", "1"); ("name", "Acme")];
        Graph.mkNode "Person" [("id", "2"); ("name", "Bo")]]
       []).

(** C5, as stated, fails: the row [KNOWS,Person,1,Person,2] finds two
    nodes with id 1, the person and the company, and creates a
    relationship from each. *)
Lemma shared_id_matches_two_nodes :
  let w := run_relationships (D := Graph.store) [knows_csv] sample_connection
             shared_id_graph in
  Graph.match_id (Graph.committed shared_id_graph) (Some "1") = [0; 1] /\
  Graph.relationships (Graph.committed (db w)) =
    [Graph.mkRelationship "KNOWS" 0 2 [("since", "2020")];
     Graph.mkRelationship "KNOWS" 1 2 [("since", "2020")]] /\
  terminals (queue w) =
    [DataEvent 1 2 "Successfully created 2 relationships from 1 file(s)"].
Proof. vm_compute. repeat split; reflexivity. Qed.

(** C5, amended.  On the graph store, for valid files whose types can
    stand between backticks and whose property columns can stand bare:
    the run is not aborted; it leaves the nodes as they are and adds, for
    each row, one relationship per pair of a node whose [id] equals
    [FROM_ID] and a node whose [id] equals [TO_ID], none when an end has
    no match; its summary counts exactly these relationships.  The labels
    of the nodes are not read: the run on the same graph with other
    labels creates the same relationships.  Neither are the [FROM_LABEL]
    and [TO_LABEL] of the rows: the run on the same files with other end
    labels leaves the same graph and sends the same summary. *)
Theorem endpoints_matched_by_id_alone (files : list File) (conn : Connection)
  (g : Graph.graph) :
  files <> [] ->
  valid_connection conn ->
  Forall (parsed_ok REQUIRED_COLUMNS) files ->
  names_well_formed files ->
  let batches := relationship_plan (map parsed_data files) in
  let total := plan_matches g batches in
  let w := run_relationships (D := Graph.store) files conn (Graph.idle g) in
  terminals (queue w) =
    [DataEvent (List.length files) total
       (relationship_summary total (List.length files))] /\
  db w =
    Graph.idle (Graph.mkGraph (Graph.nodes g)
                  (Graph.relationships g ++ created_relationships g batches)) /\
  List.length (created_relationships g batches) = total /\
  (forall type keys r,
     List.length (Graph.created_by_row g type keys r) =
     List.length (Graph.match_id g (get "FROM_ID" r))
     * List.length (Graph.match_id g (get "TO_ID" r))) /\
  (forall r,
     Graph.match_id g (get "FROM_ID" r) = [] \/ Graph.match_id g (get "TO_ID" r) = [] ->
     matches g r = 0) /\
  (forall f,
     let w' := run_relationships (D := Graph.store) files conn (Graph.idle (relabel f g)) in
     Graph.relationships (Graph.committed (db w')) =
       Graph.relationships (Graph.committed (db w)) /\
     terminals (queue w') = terminals (queue w)) /\
  (forall f,
     let w' := run_relationships (D := Graph.store)
                 (map (map_rows (other_end_labels f)) files) conn (Graph.idle g) in
     db w' = db w /\ terminals (queue w') = terminals (queue w)).
Proof.
  intros Hne Hconn Hfiles Hn batches total w.
  destruct (run_relationships_on_graph files conn Hne Hconn g Hfiles Hn) as [Hdb Hq].
  fold batches total w in Hdb, Hq.
  split; [exact Hq|]. split; [exact Hdb|].
  split; [apply created_relationships_length|].
  split; [intros type ks r; apply created_by_row_length|].
  split; [apply matches_unmatched|]. split.
  2:{ intros f w'.
      assert (Hne' : map (map_rows (other_end_labels f)) files <> []).
      { destruct files; [congruence | discriminate]. }
      assert (Hfiles' : Forall (parsed_ok REQUIRED_COLUMNS)
                          (map (map_rows (other_end_labels f)) files)).
      { apply Forall_map. eapply Forall_impl; [|exact Hfiles].
        intros file. apply parsed_ok_map_rows. }
      destruct (run_relationships_on_graph _ conn Hne' Hconn g Hfiles'
                  (names_well_formed_other_end_labels f files Hn)) as [Hdb' Hq'].
      fold w' in Hdb', Hq'.
      rewrite relationship_plan_map in Hdb', Hq'
        by (intros r; apply get_other_end_labels; discriminate).
      fold batches in Hdb', Hq'.
      rewrite created_relationships_other_end_labels in Hdb'.
      rewrite plan_matches_other_end_labels, length_map in Hq'.
      fold total in Hq'. rewrite Hdb', Hdb, Hq', Hq. split; reflexivity. }
  intros f w'.
  destruct (run_relationships_on_graph files conn Hne Hconn (relabel f g) Hfiles Hn)
    as [Hdb' Hq'].
  fold batches w' in Hdb', Hq'.
  rewrite Hdb', Hdb, Hq', Hq. cbn [Graph.committed Graph.idle Graph.relationships].
  rewrite created_relationships_relabel. split; [reflexivity|].
  unfold total, plan_matches.
  assert (E : forall r, matches (relabel f g) r = matches g r).
  { intros r. unfold matches. now rewrite !match_id_relabel. }
  assert (E' : map (fun kb : string * list row =>
                      list_sum (map (matches (relabel f g)) (snd kb))) batches =
               map (fun kb : string * list row =>
                      list_sum (map (matches g) (snd kb))) batches).
  { apply map_ext. intros kb. f_equal. apply map_ext, E. }
  rewrite E'. reflexivity.
Qed.

(** [TYPE,...,since / KNOWS,Person,1,Person,2,2020] and a second row
    whose [FROM_ID] matches no node. *)
Definition dangling_csv : File :=
  mkFile "knows.csv"
    (inr (mkParseResult
            (Some ["TYPE"; "FROM_LABEL"; "FROM_ID"; "TO_LABEL"; "TO_ID"; "since"])
            [[("TYPE", "KNOWS"); ("FROM_LABEL", "Person"); ("FROM_ID", "1");
              ("TO_LABEL", "Person"); ("TO_ID", "2"); ("since", "2020")];
             [("TYPE", "KNOWS"); ("FROM_LABEL", "Person"); ("FROM_ID", "7");
              ("TO_LABEL", "Person"); ("TO_ID", "2"); ("since", "2021")]])).

Lemma dangling_csv_ok : parsed_ok REQUIRED_COLUMNS dangling_csv.
Proof.
  eexists. split; [reflexivity|]. split; [discriminate|].
  intros col Hcol. simpl in *. tauto.
Qed.

Lemma dangling_csv_names : names_well_formed [dangling_csv].
Proof.
  intros file r [<-|[]] Hr. simpl in Hr.
  destruct Hr as [<-|[<-|[]]]; split.
  - intros type Htype. inversion Htype. reflexivity.
  - intros key Hkey Hreq. simpl in Hkey, Hreq.
    destruct Hkey as [<-|[<-|[<-|[<-|[<-|[<-|[]]]]]]]; try tauto; reflexivity.
  - intros type Htype. inversion Htype. reflexivity.
  - intros key Hkey Hreq. simpl in Hkey, Hreq.
    destruct Hkey as [<-|[<-|[<-|[<-|[<-|[<-|[]]]]]]]; try tauto; reflexivity.
Qed.

Lemma endpoints_matched_by_id_alone_witness :
  let w := run_relationships (D := Graph.store) [dangling_csv] sample_connection
             two_people in
  terminals (queue w) =
    [DataEvent 1 1 "Successfully created 1 relationships from 1 file(s)"] /\
  Graph.relationships (Graph.committed (db w)) =
    [Graph.mkRelationship "KNOWS" 0 1 [("since", "2020")]].
Proof.
  destruct (endpoints_matched_by_id_alone [dangling_csv] sample_connection
              (Graph.committed two_people) ltac:(discriminate) sample_connection_valid
              (Forall_cons _ dangling_csv_ok (Forall_nil _)) dangling_csv_names)
    as (Hq & Hdb & _).
  change (Graph.idle (Graph.committed two_people)) with two_people in Hq, Hdb.
  cbv zeta. rewrite Hq, Hdb. split; reflexivity.
Defined.


(** A file with two labels: two groups, hence two batches. *)
Definition mixed_csv : File :=
  mkFile "mixed.csv"
    (inr (mkParseResult (Some ["id"; "LABEL"; "name"])
            [[("id", "1"); ("LABEL", "Person"); ("name", "Ann")];
             [("id", "2"); ("LABEL", "Company"); ("name", "Acme")]])).

Lemma mixed_csv_ok : parsed_ok ["LABEL"] mixed_csv.
Proof.
  eexists. split; [reflexivity|]. split; [discriminate|].
  intros col [<-|[]]. simpl. auto.
Qed.

(** X6.  Node route, valid input, driver and session open: when a
    [tx.run] or a commit throws a failure the driver does not retry (and
    [session.close()] then returns) the run stops there.  The stream ends, after the percent 25, with the
    error [Failed to insert data into Neo4j] whose detail is the message
    thrown; the calls made are the calls before the failing one, the
    failing one, [session.close()] and [driver.close()]: the batches
    already committed are not undone and the remaining ones are not
    sent. *)
Theorem node_write_failure_reported (D : StoreDouble) (files : list File)
  (conn : Connection) (s s0 s1 s2 : St D) (log0 log1 : list (call * answer))
  (e : thrown) (r : option nat) :
  files <> [] ->
  valid_connection conn ->
  Forall (parsed_ok ["LABEL"]) files ->
  attempt D (open_calls conn) s = (log0, s0, None) ->
  attempt D (node_calls (node_plan (map parsed_data files))) s0 = (log1, s1, Some e) ->
  gives_up D e ->
  respond D SessionClose s1 = (inr r, s2) ->
  let w := run_nodes files conn s in
  queue w =
    parsed_stream files ++
    [Progress 25 "Starting data insertion...";
     ErrorEvent "Failed to insert data into Neo4j"
       (Some [message_or "Unknown Neo4j error" e])] /\
  map fst (calls w) = map fst log0 ++ map fst log1 ++ [SessionClose; DriverClose] /\
  map fst log1 =
    firstn (List.length log1) (node_calls (node_plan (map parsed_data files))) /\
  (exists done c,
     log1 = done ++ [(c, inl e)] /\
     Forall (fun entry => exists result, snd entry = inr result) done) /\
  db w = snd (respond D DriverClose s2).
Proof.
  intros Hne Hconn Hfiles Hopen Hwork Hgive Hsc w.
  assert (Hg : forall e0, snd (attempt D (node_calls (node_plan (map parsed_data files))) s0) = Some e0 -> gives_up D e0)
    by (rewrite Hwork; intros e0 He0; inversion He0; subst; exact Hgive).
  unfold w.
  rewrite (run_nodes_connected files conn s s0 log0 Hne Hconn Hfiles Hopen) by exact Hg.
  clear Hg.
  pose proof (attempt_prefix (node_calls (node_plan (map parsed_data files))) s0) as Hpre.
  rewrite Hwork in *. cbn [fst snd] in *. rewrite Hsc. cbn [fst snd queue calls db].
  split; [reflexivity|]. split.
  - rewrite !map_app. reflexivity.
  - split; [exact Hpre|]. split; [|reflexivity].
    apply (attempt_stop _ _ _ _ _ Hwork).
Qed.

(** [mixed.csv] on a store that answers the first batch and throws on the
    second: the first batch stays committed. *)
Lemma node_write_failure_reported_witness :
  let script :=
    [inr None; inr None; inr (Some 1); inr None; inl (ErrorObj "connection lost")] in
  let w := run_nodes (D := Script.store) [mixed_csv] sample_connection script in
  terminals (queue w) =
    [ErrorEvent "Failed to insert data into Neo4j" (Some ["connection lost"])] /\
  map fst (calls w) =
    [Driver "bolt://localhost:7687" "neo4j" "secret"; Session;
     TxRun (CreateNodes "Person") [[("id", "1"); ("name", "Ann")]]; TxCommit;
     TxRun (CreateNodes "Company") [[("id", "2"); ("name", "Acme")]];
     SessionClose; DriverClose].
Proof.
  intros script w.
  destruct (node_write_failure_reported Script.store [mixed_csv] sample_connection
              script _ _ _ _ _ _ _
              ltac:(discriminate) sample_connection_valid
              (Forall_cons _ mixed_csv_ok (Forall_nil _))
              eq_refl eq_refl ltac:(right; reflexivity) eq_refl)
    as (Hq & Hcalls & _).
  fold w in Hq, Hcalls. split.
  - rewrite Hq. reflexivity.
  - rewrite Hcalls. reflexivity.
Defined.

(** Two relationship types: two groups, hence two batches. *)
Definition links_csv : File :=
  mkFile "links.csv"
    (inr (mkParseResult
            (Some ["TYPE"; "FROM_LABEL"; "FROM_ID"; "TO_LABEL"; "TO_ID"])
            [[("TYPE", "KNOWS"); ("FROM_LABEL", "Person"); ("FROM_ID", "1");
              ("TO_LABEL", "Person"); ("TO_ID", "2")];
             [("TYPE", "LIKES"); ("FROM_LABEL", "Person"); ("FROM_ID", "2");
              ("TO_LABEL", "Person"); ("TO_ID", "1")]])).

Lemma links_csv_ok : parsed_ok REQUIRED_COLUMNS links_csv.
Proof.
  eexists. split; [reflexivity|]. split; [discriminate|].
  intros col Hcol. simpl in *. intuition.
Qed.

(** X7.  Relationship route, valid input, driver and session open: when a
    [tx.run] or a commit throws a failure the driver does not retry (and
    [session.close()] then returns), the
    stream holds one progress event for each [tx.run] that returned,
    the batch whose commit threw included, and then the error
    [Failed to create relationships in Neo4j] with the message thrown;
    whatever the index statement answered, the calls are the index
    statement, the calls up to the failing one, [session.close()] and
    [driver.close()]. *)
Theorem relationship_write_failure_reported (D : StoreDouble) (files : list File)
  (conn : Connection) (s s0 s0' s1 s2 : St D) (log0 log1 : list (call * answer))
  (ix : answer) (e : thrown) (r : option nat) :
  files <> [] ->
  valid_connection conn ->
  Forall (parsed_ok REQUIRED_COLUMNS) files ->
  attempt D (open_calls conn) s = (log0, s0, None) ->
  respond D (SessionRun CreateIndex) s0 = (ix, s0') ->
  attempt D (relationship_calls (relationship_plan (map parsed_data files))) s0'
    = (log1, s1, Some e) ->
  gives_up D e ->
  respond D SessionClose s1 = (inr r, s2) ->
  let w := run_relationships files conn s in
  let batches := relationship_plan (map parsed_data files) in
  queue w =
    parsed_stream files ++
    [Progress 25 "Checking/creating indexes...";
     Progress 30 "Starting relationship creation..."] ++
    writing_events (sum_rows (map parsed_data files)) 0
      (firstn (answered_runs log1) batches) ++
    [ErrorEvent "Failed to create relationships in Neo4j"
       (Some [message_or "Unknown Neo4j error" e])] /\
  map fst (calls w) =
    map fst log0 ++ SessionRun CreateIndex :: map fst log1 ++ [SessionClose; DriverClose] /\
  map fst log1 = firstn (List.length log1) (relationship_calls batches).
Proof.
  intros Hne Hconn Hfiles Hopen Hix Hwork Hgive Hsc w batches.
  assert (Hg : forall e0, snd (attempt D (relationship_calls (relationship_plan (map parsed_data files))) s0') = Some e0 -> gives_up D e0)
    by (rewrite Hwork; intros e0 He0; inversion He0; subst; exact Hgive).
  unfold w.
  rewrite (run_relationships_connected files conn s s0 log0 Hne Hconn Hfiles Hopen)
    by (rewrite Hix; exact Hg).
  clear Hg.
  pose proof (attempt_prefix (relationship_calls batches) s0') as Hpre.
  fold batches. rewrite Hix. cbn [fst snd]. unfold batches in *.
  rewrite Hwork in *. cbn [fst snd] in *. rewrite Hsc. cbn [fst snd queue calls db].
  split; [reflexivity|]. split; [|exact Hpre].
  rewrite !map_app. cbn [map fst]. rewrite !map_app. reflexivity.
Qed.

(** [links.csv] on a store where the commit of the first batch throws:
    the progress event of that batch was sent all the same. *)
Lemma relationship_write_failure_reported_witness :
  let script :=
    [inr None; inr None; inr None; inr (Some 1); inl (ErrorObj "commit failed")] in
  let w := run_relationships (D := Script.store) [links_csv] sample_connection script in
  percents (queue w) = [5; parsing_percent 0 1; 15; 20; 25; 30; 63]%Q /\
  terminals (queue w) =
    [ErrorEvent "Failed to create relationships in Neo4j" (Some ["commit failed"])].
Proof.
  intros script w.
  destruct (relationship_write_failure_reported Script.store [links_csv]
              sample_connection script _ _ _ _ _ _ _ _ _
              ltac:(discriminate) sample_connection_valid
              (Forall_cons _ links_csv_ok (Forall_nil _))
              eq_refl eq_refl eq_refl ltac:(right; reflexivity) eq_refl)
    as (Hq & _).
  fold w in Hq. rewrite Hq. split; reflexivity.
Defined.

(** X8.  Node route: when a write throws a failure the driver does not
    retry and [session.close()], run by the [finally] block, throws as
    well, the error reported to the caller
    is the one of [session.close()], not the one of the write;
    [driver.close()] is still called. *)
Theorem session_close_error_reported (D : StoreDouble) (files : list File)
  (conn : Connection) (s s0 s1 s2 : St D) (log0 log1 : list (call * answer))
  (e e' : thrown) :
  files <> [] ->
  valid_connection conn ->
  Forall (parsed_ok ["LABEL"]) files ->
  attempt D (open_calls conn) s = (log0, s0, None) ->
  attempt D (node_calls (node_plan (map parsed_data files))) s0 = (log1, s1, Some e) ->
  gives_up D e ->
  respond D SessionClose s1 = (inl e', s2) ->
  let w := run_nodes files conn s in
  terminals (queue w) =
    [ErrorEvent "Failed to insert data into Neo4j"
       (Some [message_or "Unknown Neo4j error" e'])] /\
  map fst (calls w) = map fst log0 ++ map fst log1 ++ [SessionClose; DriverClose].
Proof.
  intros Hne Hconn Hfiles Hopen Hwork Hgive Hsc w.
  assert (Hg : forall e0, snd (attempt D (node_calls (node_plan (map parsed_data files))) s0) = Some e0 -> gives_up D e0)
    by (rewrite Hwork; intros e0 He0; inversion He0; subst; exact Hgive).
  unfold w.
  rewrite (run_nodes_connected files conn s s0 log0 Hne Hconn Hfiles Hopen) by exact Hg.
  rewrite Hwork. cbn [fst snd]. rewrite Hsc. cbn [fst snd queue calls session_outcome].
  split.
  - rewrite terminals_app, parsed_stream_terminals. reflexivity.
  - rewrite !map_app. reflexivity.
Qed.

Lemma session_close_error_reported_witness :
  let script :=
    [inr None; inr None; inl (ErrorObj "write failed"); inl (ErrorObj "session lost")] in
  let w := run_nodes (D := Script.store) [people_csv] sample_connection script in
  terminals (queue w) =
    [ErrorEvent "Failed to insert data into Neo4j" (Some ["session lost"])] /\
  map fst (calls w) =
    [Driver "bolt://localhost:7687" "neo4j" "secret"; Session;
     TxRun (CreateNodes "Person")
       [[("id", "1"); ("name", "Ann")]; [("id", "2"); ("name", "Bo")]];
     SessionClose; DriverClose].
Proof.
  intros script w.
  destruct (session_close_error_reported Script.store [people_csv] sample_connection
              script _ _ _ _ _ _ _
              ltac:(discriminate) sample_connection_valid
              (Forall_cons _ people_csv_ok (Forall_nil _))
              eq_refl eq_refl ltac:(right; reflexivity) eq_refl)
    as (Ht & Hcalls).
  fold w in Ht, Hcalls. split; [exact Ht|]. rewrite Hcalls. reflexivity.
Defined.

(** X9.  Valid input, driver and session open, every [tx.run] and commit
    returned: the stream of the node route is the success stream, ending
    with 95, 100 and the summary, whatever [session.close()] and
    [driver.close()] do afterwards (a close that throws is not reported).
    The summary counts the files parsed and the sum of the [created]
    counts the store returned. *)
Theorem node_summary_after_writes (D : StoreDouble) (files : list File)
  (conn : Connection) (s s0 s1 : St D) (log0 log1 : list (call * answer)) :
  files <> [] ->
  valid_connection conn ->
  Forall (parsed_ok ["LABEL"]) files ->
  attempt D (open_calls conn) s = (log0, s0, None) ->
  attempt D (node_calls (node_plan (map parsed_data files))) s0 = (log1, s1, None) ->
  let w := run_nodes files conn s in
  let total := created_total log1 in
  queue w =
    parsed_stream files ++
    [Progress 25 "Starting data insertion...";
     Progress 95 "Finalizing...";
     Progress 100 "Upload complete!";
     DataEvent (List.length files) total (node_summary total (List.length files))] /\
  map fst (calls w) =
    open_calls conn ++ node_calls (node_plan (map parsed_data files))
      ++ [SessionClose; DriverClose].
Proof.
  intros Hne Hconn Hfiles Hopen Hwork w total.
  assert (Hg : forall e0, snd (attempt D (node_calls (node_plan (map parsed_data files))) s0) = Some e0 -> gives_up D e0)
    by (rewrite Hwork; intros e0 He0; discriminate He0).
  unfold w.
  rewrite (run_nodes_connected files conn s s0 log0 Hne Hconn Hfiles Hopen) by exact Hg.
  rewrite Hwork. cbn [fst snd queue calls session_outcome].
  split; [reflexivity|].
  apply attempt_none_play in Hopen. apply attempt_none_play in Hwork.
  rewrite !map_app. cbn [map fst].
  rewrite <- (play_calls (D := D) (open_calls conn) s), Hopen.
  rewrite <- (play_calls (D := D) (node_calls (node_plan (map parsed_data files))) s0), Hwork.
  reflexivity.
Qed.

(** Both closes throw after the summary was sent. *)
Lemma node_summary_after_writes_witness :
  let script :=
    [inr None; inr None; inr (Some 2); inr None;
     inl (ErrorObj "session lost"); inl (ErrorObj "driver lost")] in
  let w := run_nodes (D := Script.store) [people_csv] sample_connection script in
  terminals (queue w) = [DataEvent 1 2 "Successfully inserted 2 nodes from 1 file(s)"] /\
  map snd (calls w) =
    [inr None; inr None; inr (Some 2); inr None;
     inl (ErrorObj "session lost"); inl (ErrorObj "driver lost")].
Proof.
  intros script w.
  destruct (node_summary_after_writes Script.store [people_csv] sample_connection
              script _ _ _ _
              ltac:(discriminate) sample_connection_valid
              (Forall_cons _ people_csv_ok (Forall_nil _))
              eq_refl eq_refl)
    as (Hq & _).
  fold w in Hq. split; [rewrite Hq|]; reflexivity.
Defined.

(** X10.  Relationship route: the index statement is not fatal.  When
    [session.run] of [CREATE INDEX ...] throws and every later [tx.run]
    and commit returns, the run goes on to the percent 30, writes every
    batch and ends with the success summary; no error event is sent. *)
Theorem index_failure_ignored (D : StoreDouble) (files : list File)
  (conn : Connection) (s s0 s0' s1 : St D) (log0 log1 : list (call * answer))
  (indexError : thrown) :
  files <> [] ->
  valid_connection conn ->
  Forall (parsed_ok REQUIRED_COLUMNS) files ->
  attempt D (open_calls conn) s = (log0, s0, None) ->
  respond D (SessionRun CreateIndex) s0 = (inl indexError, s0') ->
  attempt D (relationship_calls (relationship_plan (map parsed_data files))) s0'
    = (log1, s1, None) ->
  let w := run_relationships files conn s in
  let total := created_total log1 in
  terminals (queue w) =
    [DataEvent (List.length files) total
       (relationship_summary total (List.length files))] /\
  In (Progress 30 "Starting relationship creation...") (queue w) /\
  map fst (calls w) =
    open_calls conn ++ SessionRun CreateIndex
      :: relationship_calls (relationship_plan (map parsed_data files))
      ++ [SessionClose; DriverClose] /\
  In (SessionRun CreateIndex, inl indexError) (calls w).
Proof.
  intros Hne Hconn Hfiles Hopen Hix Hwork w total.
  assert (Hg : forall e0, snd (attempt D (relationship_calls (relationship_plan (map parsed_data files))) s0') = Some e0 -> gives_up D e0)
    by (rewrite Hwork; intros e0 He0; discriminate He0).
  unfold w.
  rewrite (run_relationships_connected files conn s s0 log0 Hne Hconn Hfiles Hopen)
    by (rewrite Hix; exact Hg).
  rewrite Hix. cbn [fst snd]. rewrite Hwork.
  cbn [fst snd queue calls session_outcome].
  split.
  - rewrite terminals_app, parsed_stream_terminals.
    change (Progress 25 "Checking/creating indexes..."
              :: Progress 30 "Starting relationship creation..." :: ?x)
      with ([Progress 25 "Checking/creating indexes...";
             Progress 30 "Starting relationship creation..."] ++ x).
    rewrite !terminals_app, writing_events_terminals. reflexivity.
  - split; [apply in_or_app; right; right; left; reflexivity|].
    split.
    + apply attempt_none_play in Hopen. apply attempt_none_play in Hwork.
      rewrite !map_app. cbn [map fst]. rewrite !map_app.
      rewrite <- (play_calls (D := D) (open_calls conn) s), Hopen.
      rewrite <- (play_calls (D := D)
                    (relationship_calls (relationship_plan (map parsed_data files))) s0'),
        Hwork.
      reflexivity.
    + apply in_or_app. right. left. reflexivity.
Qed.

Lemma index_failure_ignored_witness :
  let script := [inr None; inr None; inl (ErrorObj "no index allowed"); inr (Some 1)] in
  let w := run_relationships (D := Script.store) [knows_csv] sample_connection script in
  terminals (queue w) =
    [DataEvent 1 1 "Successfully created 1 relationships from 1 file(s)"].
Proof.
  intros script w.
  destruct (index_failure_ignored Script.store [knows_csv] sample_connection
              script _ _ _ _ _ _
              ltac:(discriminate) sample_connection_valid
              (Forall_cons _ knows_csv_ok (Forall_nil _))
              eq_refl eq_refl eq_refl)
    as (Ht & _).
  exact Ht.
Defined.

(** X11.  When [neo4j.driver(...)] or [driver.session()] throws, both
    routes report it after the percent 20 as their store error, with the
    message thrown, and write nothing.  If the driver could not be
    created no further driver call is made; if the session could not be
    opened the only further call is [driver.close()]. *)
Theorem connection_failure_reported (D : StoreDouble) (files : list File)
  (conn : Connection) (s s0 : St D) (log0 : list (call * answer)) (e : thrown) :
  files <> [] ->
  valid_connection conn ->
  attempt D (open_calls conn) s = (log0, s0, Some e) ->
  let shape (w : world D) :=
    (exists url user pass, calls w = [(Driver url user pass, inl e)]) \/
    (exists url user pass r a,
       calls w = [(Driver url user pass, inr r); (Session, inl e); (DriverClose, a)]) in
  (Forall (parsed_ok ["LABEL"]) files ->
   queue (run_nodes files conn s) =
     parsed_stream files ++
     [ErrorEvent "Failed to insert data into Neo4j"
        (Some [message_or "Unknown Neo4j error" e])] /\
   shape (run_nodes files conn s)) /\
  (Forall (parsed_ok REQUIRED_COLUMNS) files ->
   queue (run_relationships files conn s) =
     parsed_stream files ++
     [ErrorEvent "Failed to create relationships in Neo4j"
        (Some [message_or "Unknown Neo4j error" e])] /\
   shape (run_relationships files conn s)).
Proof.
  intros Hne Hconn Hopen shape. split; intros Hfiles.
  - apply (route_not_connected parse_node_file ["LABEL"]
             "Failed to insert data into Neo4j" _ files conn s s0 log0 e); auto.
    intros n i f w. apply parse_node_file_passes.
  - apply (route_not_connected parse_relationship_file REQUIRED_COLUMNS
             "Failed to create relationships in Neo4j" _ files conn s s0 log0 e); auto.
    intros n i f w. apply parse_relationship_file_passes.
Qed.

(** [driver.session()] throws a value that is not an [Error]. *)
Lemma connection_failure_reported_witness :
  let script := [inr None; inl NonError] in
  let w := run_relationships (D := Script.store) [knows_csv] sample_connection script in
  terminals (queue w) =
    [ErrorEvent "Failed to create relationships in Neo4j" (Some ["Unknown Neo4j error"])] /\
  map fst (calls w) =
    [Driver "bolt://localhost:7687" "neo4j" "secret"; Session; DriverClose].
Proof.
  intros script w.
  destruct (proj2 (connection_failure_reported Script.store [knows_csv]
                     sample_connection script _ _ _
                     ltac:(discriminate) sample_connection_valid eq_refl)
              (Forall_cons _ knows_csv_ok (Forall_nil _)))
    as (Hq & _).
  fold w in Hq. split; [rewrite Hq|]; reflexivity.
Defined.

(* ------------------------------------------------------------------ *)
(** ** The progress of the relationship route while writing *)

Lemma writing_percent_full (t : nat) : (0 < t)%nat -> writing_percent t t = 95%Q.
Proof.
  intros Ht. unfold writing_percent.
  transitivity (inject_Z (Math_round 95)); [|reflexivity]. f_equal.
  unfold Math_round. apply Qfloor_comp. rewrite (ratio_self t Ht). ring.
Qed.

(** The percents of the writing loop: after batch [k] the rows of the
    first [k + 1] batches over the rows parsed. *)
Lemma percents_writing_events (total : nat) (batches : list (string * list row)) :
  forall processed,
    percents (writing_events total processed batches) =
    map (fun k => writing_percent (processed + plan_rows (firstn (S k) batches)) total)
        (seq 0 (List.length batches)).
Proof.
  induction batches as [|kb batches IH]; intros processed; [reflexivity|].
  cbn [writing_events percents List.length seq map].
  rewrite IH, <- seq_shift, map_map. f_equal.
  - unfold plan_rows. cbn. now rewrite Nat.add_0_r.
  - apply map_ext. intros k.
    change (firstn (S (S k)) (kb :: batches)) with (kb :: firstn (S k) batches).
    generalize (firstn (S k) batches). intros done.
    unfold plan_rows, list_sum. cbn [map fold_right]. f_equal. lia.
Qed.

Lemma answered_runs_all {D : StoreDouble} (batches : list (string * list row)) :
  forall (s s' : St D) log,
    attempt D (relationship_calls batches) s = (log, s', None) ->
    answered_runs log = List.length batches.
Proof.
  induction batches as [|[type batch] batches IH]; intros s s' log H.
  - inversion H. reflexivity.
  - change (relationship_calls ((type, batch) :: batches))
      with (TxRun (relationship_statement type batch) batch
              :: TxCommit :: relationship_calls batches) in H.
    cbn [attempt] in H.
    destruct (respond D (TxRun _ batch) s) as [[e|r] s1]; [discriminate|].
    destruct (respond D TxCommit s1) as [[e|r'] s2]; [discriminate|].
    destruct (attempt D (relationship_calls batches) s2) as [[log' s3] stop] eqn:E.
    inversion H; subst. cbn. f_equal. eapply IH. exact E.
Qed.

Lemma relationship_plan_keyed_rows (files : list ParsedData) :
  plan_rows (relationship_plan files) =
  list_sum (map (fun f => List.length (filter (has_key "TYPE") (rows f))) files).
Proof.
  unfold relationship_plan.
  rewrite plan_rows_groups by (unfold relationshipBatchSize; lia).
  f_equal. apply map_ext. intros f.
  rewrite rowsByType_group_by, group_by_size. reflexivity.
Qed.

(** X12.  Relationship route, valid input, every [tx.run] and commit
    returning: between the percents 30 and 95 the stream carries exactly
    one progress event per batch, in order; the event of batch [k] has the
    percent [Math.round(30 + (p / t) * 65)] where [p] is the number of rows
    of the batches written so far and [t] the number of rows parsed.  [t]
    is positive whenever there is a batch, the rows written are the rows
    that carry a [TYPE], and when every parsed row carries one the last of
    these percents is 95. *)
Theorem relationship_progress_per_batch (D : StoreDouble) (files : list File)
  (conn : Connection) (s s0 s0' s1 : St D) (log0 log1 : list (call * answer))
  (ix : answer) :
  files <> [] ->
  valid_connection conn ->
  Forall (parsed_ok REQUIRED_COLUMNS) files ->
  attempt D (open_calls conn) s = (log0, s0, None) ->
  respond D (SessionRun CreateIndex) s0 = (ix, s0') ->
  attempt D (relationship_calls (relationship_plan (map parsed_data files))) s0'
    = (log1, s1, None) ->
  let w := run_relationships files conn s in
  let pfs := map parsed_data files in
  let batches := relationship_plan pfs in
  let total := sum_rows pfs in
  percents (queue w) =
    percents (parsed_stream files) ++ [25; 30]%Q ++
    map (fun k => writing_percent (plan_rows (firstn (S k) batches)) total)
        (seq 0 (List.length batches)) ++
    [95; 100]%Q /\
  List.length (tx_runs (calls w)) = List.length batches /\
  (batches <> [] -> (0 < total)%nat) /\
  plan_rows batches =
    list_sum (map (fun f => List.length (filter (has_key "TYPE") (rows f))) pfs) /\
  (batches <> [] -> plan_rows batches = total ->
   writing_percent (plan_rows (firstn (List.length batches) batches)) total = 95%Q).
Proof.
  intros Hne Hconn Hfiles Hopen Hix Hwork w pfs batches total.
  assert (Hg : forall e0, snd (attempt D (relationship_calls (relationship_plan (map parsed_data files))) s0') = Some e0 -> gives_up D e0)
    by (rewrite Hwork; intros e0 He0; discriminate He0).
  change (attempt D (relationship_calls batches) s0' = (log1, s1, None)) in Hwork.
  assert (Hpos : batches <> [] -> (0 < total)%nat).
  { intros Hb. pose proof (relationship_plan_rows_le pfs) as Hle.
    pose proof (plan_nonempty rowsByType relationshipBatchSize pfs
                  ltac:(unfold relationshipBatchSize; lia)) as Hnonempty.
    fold relationship_plan in Hnonempty. fold batches in Hle, Hnonempty.
    destruct batches as [|[k b] rest]; [congruence|].
    inversion Hnonempty as [|? ? Hb1 _]; subst. simpl in Hb1.
    destruct b as [|r b]; [congruence|].
    unfold plan_rows in Hle. simpl in Hle. fold total in Hle. lia. }
  split; [|split; [|split; [exact Hpos|split]]].
  - unfold w.
    rewrite (run_relationships_connected files conn s s0 log0 Hne Hconn Hfiles Hopen)
      by (rewrite Hix; exact Hg).
    rewrite Hix. cbn [fst snd]. fold pfs. fold batches. rewrite Hwork.
    cbn [fst snd queue session_outcome].
    rewrite (answered_runs_all batches _ _ _ Hwork), firstn_all.
    rewrite percents_app. cbn [percents]. rewrite percents_app.
    rewrite percents_writing_events. cbn [percents]. fold total.
    reflexivity.
  - unfold w.
    rewrite (run_relationships_connected files conn s s0 log0 Hne Hconn Hfiles Hopen)
      by (rewrite Hix; exact Hg).
    rewrite Hix. cbn [fst snd]. fold pfs. fold batches. rewrite Hwork.
    cbn [fst snd calls].
    apply attempt_none_play in Hopen. apply attempt_none_play in Hwork.
    rewrite !tx_runs_app. cbn [tx_runs]. rewrite !tx_runs_app.
    assert (E0 : tx_runs log0 = []).
    { replace log0 with (fst (play D (open_calls conn) s)) by now rewrite Hopen.
      unfold open_calls. simpl.
      destruct (respond D (Driver _ _ _) s) as [a1 s1'].
      destruct (respond D Session s1') as [a2 s2']. reflexivity. }
    rewrite E0.
    replace log1 with (fst (play D (relationship_calls batches) s0')) by now rewrite Hwork.
    rewrite tx_runs_relationship_calls. cbn. rewrite app_nil_r. apply length_map.
  - apply relationship_plan_keyed_rows.
  - intros Hb Hall. rewrite firstn_all, Hall. apply writing_percent_full. auto.
Qed.

(** [links.csv]: two batches of one row each, hence the percents
    [Math.round(62.5)] and [Math.round(95)]. *)
Lemma relationship_progress_per_batch_witness :
  percents (queue (run_relationships (D := Graph.store) [links_csv] sample_connection
                     two_people)) =
  [5; parsing_percent 0 1; 15; 20; 25; 30; 63; 95; 95; 100]%Q.
Proof.
  destruct (relationship_progress_per_batch Graph.store [links_csv] sample_connection
              two_people _ _ _ _ _ _
              ltac:(discriminate) sample_connection_valid
              (Forall_cons _ links_csv_ok (Forall_nil _))
              eq_refl eq_refl eq_refl)
    as (Hp & _).
  rewrite Hp. reflexivity.
Defined.

(* ------------------------------------------------------------------ *)
(** ** The groups of the writing loops *)

(** The strings of a list, each kept at its first occurrence. *)
Fixpoint distinct (xs : list string) : list string :=
  match xs with
  | [] => []
  | x :: xs' => x :: filter (fun y => negb (String.eqb x y)) (distinct xs')
  end.

(** The grouping value of a row that has one. *)
Definition key_of (key : string) (r : row) : string :=
  match get key r with
  | Some k => k
  | None => ""
  end.

(** The row has the grouping value [k]. *)
Definition key_is (key k : string) (r : row) : bool :=
  match get key r with
  | Some k' => String.eqb k' k
  | None => false
  end.

(** [m.get(k)]. *)
Fixpoint map_get (k : string) (m : RowMap) : option (list row) :=
  match m with
  | [] => None
  | (k', vs) :: m' => if String.eqb k k' then Some vs else map_get k m'
  end.

Definition has (m : RowMap) (k : string) : bool := existsb (String.eqb k) (map fst m).

Lemma filter_true_all (A : Type) (xs : list A) : filter (fun _ => true) xs = xs.
Proof. induction xs as [|x xs IH]; simpl; [reflexivity | now rewrite IH]. Qed.

Lemma filter_twice (A : Type) (f g : A -> bool) (xs : list A) :
  filter f (filter g xs) = filter (fun x => g x && f x) xs.
Proof.
  induction xs as [|x xs IH]; simpl; [reflexivity|].
  destruct (g x); simpl; [destruct (f x)|]; now rewrite IH.
Qed.

Lemma map_push_keys (k : string) (v : row) (m : RowMap) :
  map fst (map_push k v m) = map fst m ++ (if has m k then [] else [k]).
Proof.
  unfold has. induction m as [|[k' vs] m IH]; simpl; [reflexivity|].
  destruct (String.eqb k k'); simpl.
  - now rewrite app_nil_r.
  - now rewrite IH.
Qed.

Lemma map_get_push (k : string) (v : row) (m : RowMap) (l : string) :
  map_get l (map_push k v m) =
  if String.eqb l k
  then Some (match map_get l m with Some vs => vs | None => [] end ++ [v])
  else map_get l m.
Proof.
  induction m as [|[k' vs] m IH]; simpl.
  - destruct (String.eqb l k); reflexivity.
  - destruct (String.eqb_spec k k') as [<-|Hk]; simpl.
    + destruct (String.eqb l k); reflexivity.
    + destruct (String.eqb_spec l k') as [->|Hl].
      * destruct (String.eqb_spec k' k); [congruence | reflexivity].
      * exact IH.
Qed.

Lemma has_push (k : string) (v : row) (m : RowMap) (x : string) :
  has (map_push k v m) x = has m x || String.eqb x k.
Proof.
  unfold has. rewrite map_push_keys, existsb_app.
  fold (has m k). destruct (has m k) eqn:E; simpl.
  - rewrite orb_false_r. destruct (String.eqb_spec x k) as [->|]; [|now rewrite orb_false_r].
    unfold has in E. rewrite E. reflexivity.
  - now rewrite orb_false_r.
Qed.

Section Groups.

Variable key : string.
Variable strip : row -> row.

Lemma group_by_step (r : row) (rows : list row) (m : RowMap) :
  group_by key strip (r :: rows) m =
  group_by key strip rows
    (if has_key key r then map_push (key_of key r) (strip r) m else m).
Proof.
  unfold group_by, has_key, key_of. simpl.
  destruct (get key r) as [[|c k]|]; reflexivity.
Qed.

Lemma group_by_keys (rows : list row) :
  forall m,
    map fst (group_by key strip rows m) =
    map fst m ++
    filter (fun k => negb (has m k))
      (distinct (map (key_of key) (filter (has_key key) rows))).
Proof.
  induction rows as [|r rows IH]; intros m.
  - simpl. now rewrite app_nil_r.
  - rewrite group_by_step. cbn [filter].
    destruct (has_key key r) eqn:Hr; [|apply IH].
    rewrite IH, map_push_keys. cbn [map distinct filter].
    set (k := key_of key r). set (ds := distinct _).
    rewrite <- app_assoc. f_equal.
    rewrite filter_twice.
    destruct (has m k) eqn:Hk; cbn [negb List.app].
    + apply filter_ext. intros x. rewrite has_push.
      destruct (String.eqb_spec k x) as [<-|Hx].
      * rewrite Hk. reflexivity.
      * destruct (String.eqb_spec x k); [congruence|]. now rewrite orb_false_r.
    + f_equal. apply filter_ext. intros x. rewrite has_push.
      rewrite (String.eqb_sym k x). destruct (String.eqb x k), (has m x); reflexivity.
Qed.

Lemma group_by_get (rows : list row) (l : string) :
  forall m,
    map_get l (group_by key strip rows m) =
    match filter (key_is key l) (filter (has_key key) rows) with
    | [] => map_get l m
    | new => Some (match map_get l m with Some vs => vs | None => [] end
                     ++ map strip new)
    end.
Proof.
  induction rows as [|r rows IH]; intros m; [reflexivity|].
  rewrite group_by_step. cbn [filter].
  destruct (has_key key r) eqn:Hr; [|apply IH].
  rewrite IH, map_get_push. cbn [filter].
  assert (E : key_is key l r = String.eqb l (key_of key r)).
  { unfold key_is, key_of, has_key in *. destruct (get key r) as [k|]; [|discriminate].
    apply String.eqb_sym. }
  rewrite E. destruct (String.eqb l (key_of key r)).
  - destruct (filter (key_is key l) (filter (has_key key) rows)) as [|r' new].
    + reflexivity.
    + cbn [map]. rewrite <- app_assoc. reflexivity.
  - reflexivity.
Qed.

End Groups.

Lemma distinct_In (xs : list string) (y : string) : In y (distinct xs) -> In y xs.
Proof.
  induction xs as [|x xs IH]; simpl; [auto|].
  intros [H|H]; [now left|]. apply filter_In in H. right. apply IH, H.
Qed.

Lemma distinct_NoDup (xs : list string) : NoDup (distinct xs).
Proof.
  induction xs as [|x xs IH]; simpl; constructor.
  - intros H. apply filter_In in H. destruct H as [_ H].
    now rewrite String.eqb_refl in H.
  - now apply NoDup_filter.
Qed.

Lemma map_get_In (m : RowMap) (l : string) (vs : list row) :
  NoDup (map fst m) -> In (l, vs) m -> map_get l m = Some vs.
Proof.
  induction m as [|[k' vs'] m IH]; simpl; [intros _ []|].
  intros Hnd [E|Hin].
  - inversion E; subst. now rewrite String.eqb_refl.
  - inversion Hnd as [|? ? Hk Hm]; subst.
    destruct (String.eqb_spec l k') as [->|Hl]; [|now apply IH].
    destruct Hk. apply (in_map fst) in Hin. exact Hin.
Qed.

Lemma filter_has_key_is (key l : string) (rows : list row) :
  l <> "" ->
  filter (key_is key l) (filter (has_key key) rows) = filter (key_is key l) rows.
Proof.
  intros Hl. rewrite filter_twice. apply filter_ext. intros r.
  unfold has_key, key_is. destruct (get key r) as [k|]; [|reflexivity].
  destruct k as [|c k]; [|reflexivity].
  cbn [truthy andb]. destruct (String.eqb_spec "" l); [congruence | reflexivity].
Qed.

(** The groups of a grouping loop. *)
Lemma group_by_groups (key : string) (strip : row -> row) (rows : list row) :
  let m := group_by key strip rows [] in
  map fst m = distinct (map (key_of key) (filter (has_key key) rows)) /\
  forall l vs, In (l, vs) m ->
    l <> "" /\ vs <> [] /\ vs = map strip (filter (key_is key l) rows).
Proof.
  cbv zeta.
  assert (Hkeys : map fst (group_by key strip rows []) =
                  distinct (map (key_of key) (filter (has_key key) rows))).
  { rewrite group_by_keys. cbn [map List.app has existsb negb].
    apply filter_true_all. }
  split; [exact Hkeys|].
  intros l vs Hin.
  assert (Hl : l <> "").
  { apply (in_map fst) in Hin. cbn [fst] in Hin. rewrite Hkeys in Hin.
    apply distinct_In in Hin.
    apply in_map_iff in Hin. destruct Hin as (r & <- & Hr).
    apply filter_In in Hr. destruct Hr as [_ Hr].
    unfold has_key, key_of in *. destruct (get key r) as [[|c k]|]; discriminate. }
  split; [exact Hl|].
  pose proof (map_get_In _ l vs ltac:(rewrite Hkeys; apply distinct_NoDup) Hin) as Hget.
  rewrite group_by_get, (filter_has_key_is key l rows Hl) in Hget.
  cbn [map_get] in Hget.
  destruct (filter (key_is key l) rows) as [|r new]; [discriminate|].
  cbn [List.app] in Hget. inversion Hget; subst. split; [discriminate | reflexivity].
Qed.

(** X13.  The grouping loops.  The keys of [rowsByLabel] (resp.
    [rowsByType]) are the non-empty [LABEL] (resp. [TYPE]) values of the
    rows, each once, in the order of their first occurrence; the group of
    a key holds exactly the rows with that value, in input order, without
    their [LABEL] entry for nodes and whole for relationships; no group is
    empty.  So rows are written group by group, not in file order. *)
Theorem groups_by_first_occurrence (rows : list row) :
  (map fst (rowsByLabel rows) =
     distinct (map (key_of "LABEL") (filter (has_key "LABEL") rows)) /\
   forall label group, In (label, group) (rowsByLabel rows) ->
     label <> "" /\ group <> [] /\
     group = map (omit "LABEL") (filter (key_is "LABEL" label) rows)) /\
  (map fst (rowsByType rows) =
     distinct (map (key_of "TYPE") (filter (has_key "TYPE") rows)) /\
   forall type group, In (type, group) (rowsByType rows) ->
     type <> "" /\ group <> [] /\
     group = filter (key_is "TYPE" type) rows).
Proof.
  split.
  - rewrite rowsByLabel_group_by. apply group_by_groups.
  - rewrite rowsByType_group_by.
    destruct (group_by_groups "TYPE" (fun r => r) rows) as [Hkeys Hgroups].
    split; [exact Hkeys|]. intros type group Hin.
    destruct (Hgroups type group Hin) as (H1 & H2 & H3).
    rewrite map_id in H3. auto.
Qed.


(* ------------------------------------------------------------------ *)
(** ** A unit of work run twice *)

Section Rerun.

Context {D : StoreDouble}.

(** Once an attempt does not throw, no other follows. *)
Lemma retrying_done (retries : nat) (work : M D unit) (w : world D) :
  (forall e, fst (transaction work w) <> Throw e) ->
  retrying retries work w = transaction work w.
Proof.
  intros H. destruct retries as [|retries]; [reflexivity|].
  rewrite retrying_step. destruct (transaction work w) as [[a| |e] w']; try reflexivity.
  destruct (H e). reflexivity.
Qed.

End Rerun.

(** X20.  Relationship route: when the commit of a batch fails with a
    failure the driver retries and the second attempt succeeds, the unit
    of work has run twice.  The batch is sent twice, its rows are added
    twice to [processedRows], both answers of the store are added to
    [totalCreated], and two progress events are sent, the second computed
    from a [processedRows] that counts the batch twice. *)
Theorem rerun_counts_batch_twice (D : StoreDouble) (type : string) (sampleRow : row)
  (rest : list row) (w : world D) (r1 r2 r3 : option nat) (e : thrown)
  (s1 s2 s3 s4 : St D) (retries : nat) :
  let run :=
    TxRun (CreateRelationships type (propertyKeys sampleRow)) (sampleRow :: rest) in
  closed w = false ->
  patience D = S retries ->
  respond D run (db w) = (inr r1, s1) ->
  respond D TxCommit s1 = (inl e, s2) ->
  retryable D e = true ->
  respond D run s2 = (inr r2, s3) ->
  respond D TxCommit s3 = (inr r3, s4) ->
  let n := List.length (sampleRow :: rest) in
  let processed := processedRows (vars w) in
  let total := totalRows (vars w) in
  write_relationship_batch type (sampleRow :: rest) w =
  (Normal tt,
   mkWorld false
     (queue w ++
      [Progress (writing_percent (processed + n) total)
         ("Created " +++ show_nat (processed + n) +++ "/" +++ show_nat total
            +++ " relationships...");
       Progress (writing_percent (processed + n + n) total)
         ("Created " +++ show_nat (processed + n + n) +++ "/" +++ show_nat total
            +++ " relationships...")])
     s4
     (calls w ++ [(run, inr r1); (TxCommit, inl e); (run, inr r2); (TxCommit, inr r3)])
     (mkLocals (parsedFiles (vars w)) total (driver (vars w))
        (totalCreated (vars w) + created_of r1 + created_of r2)
        (processed + n + n))).
Proof.
  intros run Hc Hpatience Hrun1 Hcommit1 Hretry Hrun2 Hcommit2 n processed total.
  subst run.
  unfold write_relationship_batch, executeWrite. rewrite Hpatience.
  match goal with |- retrying _ ?wk _ = _ => set (work := wk) end.
  set (run := TxRun (CreateRelationships type (propertyKeys sampleRow))
                (sampleRow :: rest)) in *.
  assert (Hfirst : transaction work w =
                   (Throw e,
                    mkWorld false
                      (queue w ++
                       [Progress (writing_percent (processed + n) total)
                          ("Created " +++ show_nat (processed + n) +++ "/"
                             +++ show_nat total +++ " relationships...")])
                      s2 (calls w ++ [(run, inr r1); (TxCommit, inl e)])
                      (mkLocals (parsedFiles (vars w)) total (driver (vars w))
                         (totalCreated (vars w) + created_of r1) (processed + n)))).
  { unfold work, transaction, bind, perform, assign, read, sendProgress, enqueue.
    rewrite Hrun1.
    cbn [closed queue db calls vars parsedFiles totalRows driver totalCreated
           processedRows].
    rewrite Hc.
    cbn [closed queue db calls vars parsedFiles totalRows driver totalCreated
           processedRows].
    rewrite Hcommit1. rewrite <- !app_assoc. reflexivity. }
  rewrite retrying_step, Hfirst, Hretry.
  set (w1 := mkWorld false _ s2 _ _).
  assert (Hsecond : transaction work w1 =
                    (Normal tt,
                     mkWorld false
                       (queue w1 ++
                        [Progress (writing_percent (processed + n + n) total)
                           ("Created " +++ show_nat (processed + n + n) +++ "/"
                              +++ show_nat total +++ " relationships...")])
                       s4 (calls w1 ++ [(run, inr r2); (TxCommit, inr r3)])
                       (mkLocals (parsedFiles (vars w)) total (driver (vars w))
                          (totalCreated (vars w) + created_of r1 + created_of r2)
                          (processed + n + n)))).
  { unfold work, transaction, bind, perform, assign, read, sendProgress, enqueue.
    unfold w1.
    cbn [closed queue db calls vars parsedFiles totalRows driver totalCreated
           processedRows].
    rewrite Hrun2.
    cbn [closed queue db calls vars parsedFiles totalRows driver totalCreated
           processedRows].
    rewrite Hcommit2. unfold ret. rewrite <- !app_assoc. reflexivity. }
  rewrite retrying_done by (rewrite Hsecond; discriminate).
  rewrite Hsecond. unfold w1. cbn [queue calls]. rewrite <- !app_assoc. reflexivity.
Qed.

(** The batch of [knows.csv], whose first commit fails. *)
Lemma rerun_counts_batch_twice_witness :
  let r : row := [("TYPE", "KNOWS"); ("FROM_LABEL", "Person"); ("FROM_ID", "1");
                  ("TO_LABEL", "Person"); ("TO_ID", "2"); ("since", "2020")] in
  let w := mkWorld (D := Script.store) false []
             [inr (Some 1); inl Script.transient; inr (Some 1); inr None] []
             (mkLocals [] 1 true 0 0) in
  let w' := snd (write_relationship_batch "KNOWS" [r] w) in
  percents (queue w') = [95; 160]%Q /\
  totalCreated (vars w') = 2 /\
  processedRows (vars w') = 2.
Proof.
  intros r w w'. unfold w'.
  pose proof (rerun_counts_batch_twice Script.store "KNOWS" r [] w
                (Some 1) (Some 1) None Script.transient _ _ _ _ 2
                eq_refl eq_refl eq_refl eq_refl eq_refl eq_refl eq_refl) as H.
  cbv zeta in H. rewrite H. repeat split; reflexivity.
Defined.

(** X21.  Node route: when the commit of a batch fails with a failure
    the driver retries and the second attempt succeeds, [totalInserted]
    holds both answers of the store, although the first attempt was
    rolled back: the summary of the run counts the batch twice.  Nothing
    is sent on the stream. *)
Theorem rerun_counts_nodes_twice (D : StoreDouble) (label : string) (batch : list row)
  (w : world D) (r1 r2 r3 : option nat) (e : thrown) (s1 s2 s3 s4 : St D)
  (retries : nat) :
  let run := TxRun (CreateNodes label) batch in
  patience D = S retries ->
  respond D run (db w) = (inr r1, s1) ->
  respond D TxCommit s1 = (inl e, s2) ->
  retryable D e = true ->
  respond D run s2 = (inr r2, s3) ->
  respond D TxCommit s3 = (inr r3, s4) ->
  write_node_batch label batch w =
  (Normal tt,
   mkWorld (closed w) (queue w) s4
     (calls w ++ [(run, inr r1); (TxCommit, inl e); (run, inr r2); (TxCommit, inr r3)])
     (mkLocals (parsedFiles (vars w)) (totalRows (vars w)) (driver (vars w))
        (totalCreated (vars w) + created_of r1 + created_of r2)
        (processedRows (vars w)))).
Proof.
  intros run Hpatience Hrun1 Hcommit1 Hretry Hrun2 Hcommit2. subst run.
  unfold write_node_batch, executeWrite. rewrite Hpatience.
  match goal with |- retrying _ ?wk _ = _ => set (work := wk) end.
  set (run := TxRun (CreateNodes label) batch) in *.
  assert (Hfirst : transaction work w =
                   (Throw e,
                    mkWorld (closed w) (queue w) s2
                      (calls w ++ [(run, inr r1); (TxCommit, inl e)])
                      (mkLocals (parsedFiles (vars w)) (totalRows (vars w))
                         (driver (vars w)) (totalCreated (vars w) + created_of r1)
                         (processedRows (vars w))))).
  { unfold work, transaction, bind, perform, assign. rewrite Hrun1.
    cbn [closed queue db calls vars parsedFiles totalRows driver totalCreated
           processedRows].
    rewrite Hcommit1. rewrite <- !app_assoc. reflexivity. }
  rewrite retrying_step, Hfirst, Hretry.
  set (w1 := mkWorld (closed w) (queue w) s2 _ _).
  assert (Hsecond : transaction work w1 =
                    (Normal tt,
                     mkWorld (closed w) (queue w) s4
                       (calls w1 ++ [(run, inr r2); (TxCommit, inr r3)])
                       (mkLocals (parsedFiles (vars w)) (totalRows (vars w))
                          (driver (vars w))
                          (totalCreated (vars w) + created_of r1 + created_of r2)
                          (processedRows (vars w))))).
  { unfold work, transaction, bind, perform, assign. unfold w1.
    cbn [closed queue db calls vars parsedFiles totalRows driver totalCreated
           processedRows].
    rewrite Hrun2.
    cbn [closed queue db calls vars parsedFiles totalRows driver totalCreated
           processedRows].
    rewrite Hcommit2. unfold ret. rewrite <- !app_assoc. reflexivity. }
  rewrite retrying_done by (rewrite Hsecond; discriminate).
  rewrite Hsecond. unfold w1. cbn [calls]. rewrite <- !app_assoc. reflexivity.
Qed.

(** [people.csv] on a store whose first commit fails: two rows, and a
    summary of four nodes. *)
Lemma rerun_counts_nodes_twice_witness :
  let rows : list row :=
    [[("id", "1"); ("name", "Ann")]; [("id", "2"); ("name", "Bo")]] in
  let script := [inr (Some 2); inl Script.transient; inr (Some 2); inr None] in
  let w := mkWorld (D := Script.store) false [] script [] (mkLocals [] 2 true 0 0) in
  totalCreated (vars (snd (write_node_batch "Person" rows w))) = 4 /\
  terminals
    (queue (run_nodes (D := Script.store) [people_csv] sample_connection
              (inr None :: inr None :: script))) =
  [DataEvent 1 4 "Successfully inserted 4 nodes from 1 file(s)"].
Proof.
  intros rows script w.
  pose proof (rerun_counts_nodes_twice Script.store "Person" rows w
                (Some 2) (Some 2) None Script.transient _ _ _ _ 2
                eq_refl eq_refl eq_refl eq_refl eq_refl eq_refl) as H.
  cbv zeta in H. rewrite H. split; reflexivity.
Defined.


(* ------------------------------------------------------------------ *)
(** * The connection check

    [POST] of the check-connection route (the second part of
    [src/app/api/upload-node/route.ts]) and its request schema
    [checkConnectionRequestSchema].

    Boundaries of the model.
    - Strings are byte strings in UTF-8; a regular expression is matched
      by the usual backtracking semantics, [^] anchoring the match at the
      start of the string and [.] refusing the four line terminators.
    - The body of a request is a JSON object whose three fields are
      strings, or carries the messages zod gives to anything else.
    - The driver is a double answering [neo4j.driver], [verifyConnectivity]
      and [close], each of which may throw. *)

Module CheckConnection.

(** *** Regular expressions *)

Inductive regex : Type :=
| Lit (s : string)
| AnyChar
| Alt (r1 r2 : regex)
| Seq (r1 r2 : regex)
| Plus (r : regex).

(** [s] without its prefix [p], when it has it. *)
Fixpoint drop_prefix (p s : string) : option string :=
  match p with
  | EmptyString => Some s
  | String a p' =>
      match s with
      | EmptyString => None
      | String b s' => if Ascii.eqb a b then drop_prefix p' s' else None
      end
  end.

(** The line terminators [\n], [\r], U+2028 and U+2029. *)
Definition line_terminators : list string :=
  [String (ascii_of_nat 10) "";
   String (ascii_of_nat 13) "";
   String (ascii_of_nat 226) (String (ascii_of_nat 128) (String (ascii_of_nat 168) ""));
   String (ascii_of_nat 226) (String (ascii_of_nat 128) (String (ascii_of_nat 169) ""))].

Definition line_terminator_ahead (s : string) : bool :=
  existsb (fun t => String.prefix t s) line_terminators.

(** The strings left after [r] matched a prefix of [s], one for every
    way of matching. *)
Fixpoint rests (r : regex) (s : string) : list string :=
  match r with
  | Lit p =>
      match drop_prefix p s with
      | Some rest => [rest]
      | None => []
      end
  | AnyChar =>
      match s with
      | EmptyString => []
      | String _ rest => if line_terminator_ahead s then [] else [rest]
      end
  | Alt r1 r2 => rests r1 s ++ rests r2 s
  | Seq r1 r2 => flat_map (rests r2) (rests r1 s)
  | Plus r' =>
      (fix iterate (fuel : nat) (s : string) : list string :=
         match fuel with
         | O => []
         | S fuel' =>
             let once := rests r' s in
             once ++ flat_map (iterate fuel') once
         end) (S (String.length s)) s
  end.

(** [/^r/.test(s)] *)
Definition test (r : regex) (s : string) : bool :=
  match rests r s with
  | [] => false
  | _ :: _ => true
  end.

(** [/^(neo4j|neo4j\+s|neo4j\+ssc|bolt|bolt\+s|bolt\+ssc):\/\/.+/] *)
Definition url_pattern : regex :=
  Seq (Alt (Lit "neo4j")
        (Alt (Lit "neo4j+s")
          (Alt (Lit "neo4j+ssc")
            (Alt (Lit "bolt")
              (Alt (Lit "bolt+s") (Lit "bolt+ssc"))))))
      (Seq (Lit "://") (Plus AnyChar)).

(** *** The request schema *)

(** A field of the body: a string, or anything else, with the message
    zod gives for it. *)
Inductive field : Type :=
| Text (s : string)
| NotText (issue : string).

(** The parsed JSON body. *)
Inductive json_body : Type :=
| NotObject (issue : string)
| Object (connectionUrl username password : field).

Record Credentials : Type := mkCredentials {
  connectionUrl : string;
  username : string;
  password : string
}.

(** [.min(n, message)] and [.regex(pattern, message)]: every check of a
    string runs, each failing one adds its message. *)
Definition min (n : nat) (message : string) (s : string) : list string :=
  if (n <=? String.length s)%nat then [] else [message].

Definition matches (pattern : regex) (message : string) (s : string) : list string :=
  if test pattern s then [] else [message].

Definition issues_of (checks : list (string -> list string)) (f : field) : list string :=
  match f with
  | NotText issue => [issue]
  | Text s => flat_map (fun check => check s) checks
  end.

Definition connectionUrl_checks : list (string -> list string) :=
  [min 1 "Connection URL is required";
   matches url_pattern "Invalid Neo4j connection URL format"].

Definition username_checks : list (string -> list string) :=
  [min 1 "Username is required"].

Definition password_checks : list (string -> list string) :=
  [min 1 "Password is required"].

(** [checkConnectionRequestSchema.safeParse(body)]: the validated data,
    or the messages of the issues, fields in the order of the schema. *)
Definition safeParse (body : json_body) : list string + Credentials :=
  match body with
  | NotObject issue => inl [issue]
  | Object u n p =>
      let issues :=
        issues_of connectionUrl_checks u ++ issues_of username_checks n
          ++ issues_of password_checks p in
      match issues, u, n, p with
      | [], Text u', Text n', Text p' => inr (mkCredentials u' n' p')
      | _, _, _, _ => inl issues
      end
  end.

(** *** The driver double *)

Inductive call : Type :=
| NewDriver (url user pass : string)
| VerifyConnectivity
| CloseDriver.

Record Double : Type := mkDouble {
  St : Type;
  respond : call -> St -> option thrown * St
}.

(** *** Responses *)

Inductive response_body : Type :=
| Connected (isConnected : bool)
| Failed (message : string) (details : option (list string)).

(** [NextResponse.json(body, { status })] *)
Record response : Type := json {
  body : response_body;
  status : nat
}.

Section Route.

Variable N : Double.

(** The state of a request: the driver double, the calls made with what
    they threw, and the local variable [driver] ([true] once it holds a
    driver). *)
Record state : Type := mkState {
  store : St N;
  log : list (call * option thrown);
  driver : bool
}.

Inductive completion (A : Type) : Type :=
| Normal (a : A)
| Return (r : response)
| Throw (e : thrown).
Arguments Normal {A} a.
Arguments Return {A} r.
Arguments Throw {A} e.

Definition M (A : Type) : Type := state -> completion A * state.

Definition ret {A : Type} (a : A) : M A := fun st => (Normal a, st).

Definition bind {A B : Type} (m : M A) (f : A -> M B) : M B :=
  fun st =>
    match m st with
    | (Normal a, st') => f a st'
    | (Return r, st') => (Return r, st')
    | (Throw e, st') => (Throw e, st')
    end.

Definition throw {A : Type} (e : thrown) : M A := fun st => (Throw e, st).

(** [return r;] *)
Definition return_ {A : Type} (r : response) : M A := fun st => (Return r, st).

Definition try_catch {A : Type} (m : M A) (h : thrown -> M A) : M A :=
  fun st =>
    match m st with
    | (Throw e, st') => h e st'
    | r => r
    end.

(** [finally]: the completion of the [try] statement is kept unless the
    [finally] block itself returns or throws. *)
Definition try_finally {A : Type} (m : M A) (f : M unit) : M A :=
  fun st =>
    let (r, st') := m st in
    match f st' with
    | (Normal _, st'') => (r, st'')
    | (Return r', st'') => (Return r', st'')
    | (Throw e, st'') => (Throw e, st'')
    end.

Definition perform (c : call) : M unit :=
  fun st =>
    let (a, s) := respond N c (store st) in
    let st' := mkState s (log st ++ [(c, a)]) (driver st) in
    match a with
    | Some e => (Throw e, st')
    | None => (Normal tt, st')
    end.

Definition set_driver (d : bool) : M unit :=
  fun st => (Normal tt, mkState (store st) (log st) d).

Definition get_driver : M bool := fun st => (Normal (driver st), st).

Definition when (c : bool) (m : M unit) : M unit := if c then m else ret tt.

(** [await request.json()] *)
Definition request_json (request : thrown + json_body) : M json_body :=
  match request with
  | inl e => throw e
  | inr b => ret b
  end.

(** [POST(request)] *)
Definition POST (request : thrown + json_body) : M unit :=
  try_catch
    (bind (request_json request) (fun body =>
     match safeParse body with
     | inl issues =>
         return_ (json (Failed "Validation failed" (Some issues)) 400)
     | inr data =>
         bind (set_driver false) (fun _ =>
         try_finally
           (try_catch
              (bind (perform (NewDriver (connectionUrl data) (username data)
                                (password data))) (fun _ =>
               bind (set_driver true) (fun _ =>
               bind (perform VerifyConnectivity) (fun _ =>
               return_ (json (Connected true) 200)))))
              (fun error =>
                 return_ (json (Failed "Connection failed"
                                  (Some [message_or "Unknown error occurred" error]))
                               401)))
           (bind get_driver (fun d => when d (perform CloseDriver))))
     end))
    (fun error =>
       return_ (json (Failed "Internal server error"
                        (Some [message_or "Unknown error occurred" error]))
                     500)).

(** What the caller of the route gets: the response, if the handler
    returns one. *)
Definition answer (request : thrown + json_body) (s : St N) : option response :=
  match fst (POST request (mkState s [] false)) with
  | Return r => Some r
  | _ => None
  end.

Definition calls (request : thrown + json_body) (s : St N) : list (call * option thrown) :=
  log (snd (POST request (mkState s [] false))).

End Route.

End CheckConnection.

(** *** The URL pattern *)

Lemma drop_prefix_spec (p s rest : string) :
  CheckConnection.drop_prefix p s = Some rest <-> s = p +++ rest.
Proof.
  revert s. induction p as [|a p IH]; intros s; simpl.
  - split; [intros H; now inversion H | intros ->; reflexivity].
  - destruct s as [|b s]; [split; discriminate|].
    destruct (Ascii.eqb_spec a b) as [<-|Hab].
    + rewrite IH. split; [intros ->; reflexivity | intros H; now inversion H].
    + split; [discriminate | intros H; inversion H; congruence].
Qed.

Lemma test_true (r : CheckConnection.regex) (s : string) :
  CheckConnection.test r s = true <-> exists rest, In rest (CheckConnection.rests r s).
Proof.
  unfold CheckConnection.test. destruct (CheckConnection.rests r s) as [|x xs].
  - split; [discriminate | intros [rest []]].
  - split; [intros _; exists x; now left | reflexivity].
Qed.

Lemma rests_Lit (p s rest : string) :
  In rest (CheckConnection.rests (CheckConnection.Lit p) s) <-> s = p +++ rest.
Proof.
  simpl. destruct (CheckConnection.drop_prefix p s) as [t|] eqn:E.
  - apply drop_prefix_spec in E. subst s. split.
    + intros [<-|[]]. reflexivity.
    + intros H. left. revert H. clear. induction p as [|a p IH]; simpl; intros H.
      * exact H.
      * inversion H. auto.
  - split; [intros [] | intros ->].
    assert (H : CheckConnection.drop_prefix p (p +++ rest) = Some rest)
      by now apply drop_prefix_spec.
    congruence.
Qed.

(** One or more characters: the string is not empty and does not start
    with a line terminator. *)
Lemma rests_some_char (s : string) :
  (exists rest, In rest (CheckConnection.rests
                           (CheckConnection.Plus CheckConnection.AnyChar) s)) <->
  s <> "" /\ CheckConnection.line_terminator_ahead s = false.
Proof.
  cbn [CheckConnection.rests].
  destruct s as [|c s].
  - simpl. split; [intros [rest []] | intros [H _]; congruence].
  - destruct (CheckConnection.line_terminator_ahead (String c s)) eqn:E.
    + split; [intros [rest []] | intros [_ H]; discriminate].
    + split; [intros _; split; [discriminate | reflexivity]|].
      intros _. exists s. now left.
Qed.

(** X14.  The URL pattern of the request schema accepts exactly the
    strings made of one of the six schemes [neo4j], [neo4j+s],
    [neo4j+ssc], [bolt], [bolt+s], [bolt+ssc], then [://], then at least
    one character that is not a line terminator; what follows is free. *)
Theorem url_pattern_meaning (s : string) :
  CheckConnection.test CheckConnection.url_pattern s = true <->
  exists scheme rest,
    In scheme ["neo4j"; "neo4j+s"; "neo4j+ssc"; "bolt"; "bolt+s"; "bolt+ssc"] /\
    s = scheme +++ "://" +++ rest /\
    rest <> "" /\
    CheckConnection.line_terminator_ahead rest = false.
Proof.
  rewrite test_true. unfold CheckConnection.url_pattern.
  split.
  - intros [x Hx]. cbn [CheckConnection.rests] in Hx.
    apply in_flat_map in Hx. destruct Hx as (y & Hy & Hx).
    apply in_flat_map in Hx. destruct Hx as (z & Hz & Hx).
    change (In z (CheckConnection.rests (CheckConnection.Lit "://") y)) in Hz.
    apply rests_Lit in Hz.
    change (In x (CheckConnection.rests
                    (CheckConnection.Plus CheckConnection.AnyChar) z)) in Hx.
    assert (Hrest : z <> "" /\ CheckConnection.line_terminator_ahead z = false).
    { apply rests_some_char. now exists x. }
    assert (Hscheme : exists scheme,
              In scheme ["neo4j"; "neo4j+s"; "neo4j+ssc"; "bolt"; "bolt+s"; "bolt+ssc"] /\
              s = scheme +++ y).
    { repeat (apply in_app_or in Hy; destruct Hy as [Hy|Hy]);
        (change (In y (CheckConnection.rests (CheckConnection.Lit ?p) s)) in Hy
         || idtac);
        match type of Hy with
        | In y (match CheckConnection.drop_prefix ?p s with _ => _ end) =>
            change (In y (CheckConnection.rests (CheckConnection.Lit p) s)) in Hy;
            apply rests_Lit in Hy; exists p; split; [simpl; auto 10 | exact Hy]
        end. }
    destruct Hscheme as (scheme & Hin & ->). subst y.
    exists scheme, z. tauto.
  - intros (scheme & rest & Hin & -> & Hne & Hlt).
    destruct (proj2 (rests_some_char rest) (conj Hne Hlt)) as [x Hx].
    exists x. cbn [CheckConnection.rests].
    apply in_flat_map. exists ("://" +++ rest). split.
    + assert (H : In ("://" +++ rest)
                    (CheckConnection.rests (CheckConnection.Lit scheme)
                       (scheme +++ "://" +++ rest)))
        by now apply rests_Lit.
      simpl in Hin.
      repeat (destruct Hin as [<-|Hin];
              [repeat (apply in_or_app; first [left; exact H | right]); exact H|]).
      destruct Hin.
    + apply in_flat_map. exists rest. split; [|exact Hx].
      change (In rest (CheckConnection.rests (CheckConnection.Lit "://") ("://" +++ rest))).
      now apply rests_Lit.
Qed.

(** *** The schema *)

Lemma min_1_passes (message s : string) :
  CheckConnection.min 1 message s = [] <-> s <> "".
Proof.
  unfold CheckConnection.min. destruct s as [|c s]; simpl.
  - split; [discriminate | congruence].
  - split; [discriminate | reflexivity].
Qed.

Lemma matches_passes (pattern : CheckConnection.regex) (message s : string) :
  CheckConnection.matches pattern message s = [] <-> CheckConnection.test pattern s = true.
Proof.
  unfold CheckConnection.matches. destruct (CheckConnection.test pattern s).
  - split; reflexivity.
  - split; discriminate.
Qed.

(** A body of three strings is accepted exactly when they pass the
    checks. *)
Lemma safeParse_strings (u n p : string) (data : CheckConnection.Credentials) :
  CheckConnection.safeParse
    (CheckConnection.Object (CheckConnection.Text u) (CheckConnection.Text n)
       (CheckConnection.Text p)) = inr data <->
  CheckConnection.test CheckConnection.url_pattern u = true /\
  n <> "" /\ p <> "" /\
  data = CheckConnection.mkCredentials u n p.
Proof.
  unfold CheckConnection.safeParse.
  cbn [CheckConnection.issues_of CheckConnection.connectionUrl_checks
         CheckConnection.username_checks CheckConnection.password_checks flat_map].
  rewrite !app_nil_r.
  destruct u as [|c u].
  { split; [discriminate | intros [H _]; discriminate]. }
  change (CheckConnection.min 1 "Connection URL is required" (String c u))
    with (@nil string).
  cbn [List.app].
  destruct (CheckConnection.matches CheckConnection.url_pattern
              "Invalid Neo4j connection URL format" (String c u)) eqn:E2;
    destruct (CheckConnection.min 1 "Username is required" n) eqn:E3;
    destruct (CheckConnection.min 1 "Password is required" p) eqn:E4;
    cbn [List.app];
    try (split; [discriminate|];
         intros (H2 & H3 & H4 & _);
         apply matches_passes with (message := "Invalid Neo4j connection URL format") in H2;
         apply min_1_passes with (message := "Username is required") in H3;
         apply min_1_passes with (message := "Password is required") in H4;
         congruence).
  apply matches_passes in E2. apply min_1_passes in E3. apply min_1_passes in E4.
  split; [intros H; inversion H; auto | intros (_ & _ & _ & ->); reflexivity].
Qed.

(** X15.  The request schema.  A body whose three fields are strings is
    accepted exactly when the URL matches the pattern and the user name
    and the password are not empty, and the validated data are these
    three strings; a body that is not an object, or has a field that is
    not a string, is never accepted.  An empty URL gets both messages of
    the URL field, the required one first. *)
Theorem connection_schema_accepts (u n p : string) :
  (forall data,
     CheckConnection.safeParse
       (CheckConnection.Object (CheckConnection.Text u) (CheckConnection.Text n)
          (CheckConnection.Text p)) = inr data <->
     CheckConnection.test CheckConnection.url_pattern u = true /\
     n <> "" /\ p <> "" /\
     data = CheckConnection.mkCredentials u n p) /\
  (forall issue, exists issues,
     CheckConnection.safeParse (CheckConnection.NotObject issue) = inl issues) /\
  (forall issue f g, exists issues issues' issues'',
     CheckConnection.safeParse (CheckConnection.Object (CheckConnection.NotText issue) f g)
       = inl issues /\
     CheckConnection.safeParse (CheckConnection.Object f (CheckConnection.NotText issue) g)
       = inl issues' /\
     CheckConnection.safeParse (CheckConnection.Object f g (CheckConnection.NotText issue))
       = inl issues'') /\
  (forall f g, exists rest,
     CheckConnection.safeParse (CheckConnection.Object (CheckConnection.Text "") f g) =
     inl ("Connection URL is required" :: "Invalid Neo4j connection URL format" :: rest)).
Proof.
  split; [|split; [|split]].
  - intros data. apply safeParse_strings.
  - intros issue. eexists. reflexivity.
  - intros issue f g.
    unfold CheckConnection.safeParse.
    cbn [CheckConnection.issues_of List.app].
    do 3 eexists. split; [reflexivity|]. split.
    + destruct f; [|reflexivity]. destruct (CheckConnection.issues_of _ _ ++ _); reflexivity.
    + destruct f; [|reflexivity]. destruct g; [|destruct (_ ++ _); reflexivity].
      destruct (CheckConnection.issues_of _ _ ++ _) eqn:E; [|reflexivity].
      apply app_eq_nil in E. destruct E as [_ E]. apply app_eq_nil in E.
      destruct E as [_ E]. discriminate.
  - intros f g. eexists. unfold CheckConnection.safeParse.
    cbn [CheckConnection.issues_of CheckConnection.connectionUrl_checks flat_map].
    change (CheckConnection.min 1 "Connection URL is required" "")
      with ["Connection URL is required"].
    change (CheckConnection.matches CheckConnection.url_pattern
              "Invalid Neo4j connection URL format" "")
      with ["Invalid Neo4j connection URL format"].
    cbn [List.app]. destruct f, g; reflexivity.
Qed.

(** *** The responses of the route *)

(** X16.  The check-connection route always answers, and:
    - a body that cannot be read as JSON gives status 500, a body refused
      by the schema gives status 400 with the messages of all issues; in
      both cases no driver is created;
    - otherwise the driver is created with the validated credentials; if
      that throws the answer is 401 with the message thrown and nothing
      else is called; if it returns, [verifyConnectivity] is called, then
      [close], once and last, whatever [verifyConnectivity] did;
    - the answer is 200 with [isConnected: true] only when all three calls
      returned; it is 401 with the message thrown when
      [verifyConnectivity] threw and [close] returned; when [close] throws
      the answer is 500 with its message, even after a successful check. *)
Theorem check_connection_responses (N : CheckConnection.Double)
  (request : thrown + CheckConnection.json_body) (s : CheckConnection.St N) :
  let answer := CheckConnection.answer N request s in
  let calls := CheckConnection.calls N request s in
  let failure message e status :=
    CheckConnection.json
      (CheckConnection.Failed message (Some [message_or "Unknown error occurred" e]))
      status in
  match request with
  | inl e => answer = Some (failure "Internal server error" e 500) /\ calls = []
  | inr body =>
      match CheckConnection.safeParse body with
      | inl issues =>
          answer = Some (CheckConnection.json
                           (CheckConnection.Failed "Validation failed" (Some issues)) 400) /\
          calls = []
      | inr data =>
          let new :=
            CheckConnection.NewDriver (CheckConnection.connectionUrl data)
              (CheckConnection.username data) (CheckConnection.password data) in
          (exists e,
             calls = [(new, Some e)] /\
             answer = Some (failure "Connection failed" e 401)) \/
          (exists verified closed,
             calls = [(new, None); (CheckConnection.VerifyConnectivity, verified);
                      (CheckConnection.CloseDriver, closed)] /\
             answer =
               Some match closed, verified with
                    | Some e, _ => failure "Internal server error" e 500
                    | None, Some e => failure "Connection failed" e 401
                    | None, None =>
                        CheckConnection.json (CheckConnection.Connected true) 200
                    end)
      end
  end.
Proof.
  cbv zeta. unfold CheckConnection.answer, CheckConnection.calls, CheckConnection.POST.
  destruct request as [e|body].
  - split; reflexivity.
  - unfold CheckConnection.try_finally, CheckConnection.try_catch,
      CheckConnection.bind, CheckConnection.perform, CheckConnection.set_driver,
      CheckConnection.get_driver, CheckConnection.when, CheckConnection.return_,
      CheckConnection.request_json, CheckConnection.ret.
    destruct (CheckConnection.safeParse body) as [issues|data].
    + split; reflexivity.
    + cbn [CheckConnection.store CheckConnection.log CheckConnection.driver].
      destruct (CheckConnection.respond N (CheckConnection.NewDriver _ _ _) s)
        as [[e|] s1].
      * left. exists e. split; reflexivity.
      * right.
        cbn [CheckConnection.store CheckConnection.log CheckConnection.driver].
        destruct (CheckConnection.respond N CheckConnection.VerifyConnectivity s1)
          as [verified s2].
        destruct verified as [e|];
          cbn [CheckConnection.store CheckConnection.log CheckConnection.driver];
          destruct (CheckConnection.respond N CheckConnection.CloseDriver s2)
            as [[e'|] s3];
          do 2 eexists; split; reflexivity.
Qed.

(* ------------------------------------------------------------------ *)
(** * The connection store and the connection form

    [useNeo4jConnection] of [src/store/neo4j-connection.ts] and
    [onSubmit] of the connection modal (second part of
    [src/unnamed/part_000]).  A response of [fetch] is given by its [ok]
    flag and by what [response.json()] produces; the messages of the
    [TypeError]s raised when reading a property of [undefined] are those
    of V8. *)

Module Neo4jConnection.

Record Store : Type := mkStore {
  connectionUrl : string;
  username : string;
  password : string;
  isConnected : bool
}.

(** The state the store is created with. *)
Definition initial : Store := mkStore "" "" "" false.

Definition setConnection (url username password : string) (st : Store) : Store :=
  mkStore url username password true.

Definition disconnect (st : Store) : Store := mkStore "" "" "" false.

End Neo4jConnection.

Module ConnectionModal.

Record ConnectionFormData : Type := mkFormData {
  connectionUrl : string;
  username : string;
  password : string
}.

(** The two [useState] cells of the modal. *)
Record State : Type := mkState {
  isConnecting : bool;
  error : string
}.

(** What [await fetch(...)] gives: a rejection, or a response with its
    [ok] flag and the outcome of [await response.json()]. *)
Inductive fetched : Type :=
| Rejected (e : thrown)
| Responded (ok : bool) (json : thrown + CheckConnection.response_body).

(** [errorData.error.details?.[0] || errorData.error.message] *)
Definition first_detail_or (details : option (list string)) (message : string) : string :=
  match details with
  | Some (String c d :: _) => String c d
  | _ => message
  end.

(** The [try] block: the update of the store it makes, or what it throws. *)
Definition attempt (data : ConnectionFormData) (response : fetched)
  : thrown + (Neo4jConnection.Store -> Neo4jConnection.Store) :=
  match response with
  | Rejected e => inl e
  | Responded _ (inl e) => inl e
  | Responded false (inr (CheckConnection.Failed message details)) =>
      inl (ErrorObj (first_detail_or details message))
  | Responded false (inr (CheckConnection.Connected _)) =>
      inl (ErrorObj "Cannot read properties of undefined (reading 'details')")
  | Responded true (inr (CheckConnection.Connected true)) =>
      inr (Neo4jConnection.setConnection (connectionUrl data) (username data)
             (password data))
  | Responded true (inr (CheckConnection.Connected false)) =>
      inl (ErrorObj "Connection failed")
  | Responded true (inr (CheckConnection.Failed _ _)) =>
      inl (ErrorObj "Cannot read properties of undefined (reading 'isConnected')")
  end.

(** [onSubmit(data)], given what [fetch] answers: the store and the
    state of the modal when the handler is over. *)
Definition onSubmit (data : ConnectionFormData) (response : fetched)
  (st : Neo4jConnection.Store) (ui : State) : Neo4jConnection.Store * State :=
  let ui := mkState true (error ui) in
  let ui := mkState (isConnecting ui) "" in
  let after :=
    match attempt data response with
    | inr update => (update st, ui)
    | inl e =>
        (st,
         mkState (isConnecting ui)
           (message_or "Connection failed. Please check your credentials and try again."
              e))
    end in
  (fst after, mkState false (error (snd after))).

(** [response.ok] *)
Definition ok (status : nat) : bool := (200 <=? status)%nat && (status <=? 299)%nat.

(** [fetch("/api/check-connection", { method: "POST",
    body: JSON.stringify(data) })] answered by the route. *)
Definition fetch (N : CheckConnection.Double) (data : ConnectionFormData)
  (s : CheckConnection.St N) : fetched :=
  let body :=
    CheckConnection.Object (CheckConnection.Text (connectionUrl data))
      (CheckConnection.Text (username data)) (CheckConnection.Text (password data)) in
  match CheckConnection.answer N (inr body) s with
  | Some response =>
      Responded (ok (CheckConnection.status response))
        (inr (CheckConnection.body response))
  | None => Rejected NonError
  end.

(** [isOpen={!isConnected}]: the modal is shown until the store is
    connected; [ProtectedContent] renders its children only then. *)
Definition isOpen (st : Neo4jConnection.Store) : bool :=
  negb (Neo4jConnection.isConnected st).

Definition ProtectedContent {A : Type} (st : Neo4jConnection.Store) (children : A)
  : option A :=
  if negb (Neo4jConnection.isConnected st) then None else Some children.

End ConnectionModal.

Lemma schema_issue_shown (u n p : string) (issues : list string) :
  CheckConnection.safeParse
    (CheckConnection.Object (CheckConnection.Text u) (CheckConnection.Text n)
       (CheckConnection.Text p)) = inl issues ->
  ConnectionModal.first_detail_or (Some issues) "Validation failed" <> "".
Proof.
  unfold CheckConnection.safeParse.
  cbn [CheckConnection.issues_of CheckConnection.connectionUrl_checks
         CheckConnection.username_checks CheckConnection.password_checks flat_map].
  unfold CheckConnection.min, CheckConnection.matches.
  destruct (1 <=? String.length u)%nat;
    destruct (CheckConnection.test CheckConnection.url_pattern u);
    destruct (1 <=? String.length n)%nat;
    destruct (1 <=? String.length p)%nat;
    cbn [List.app]; intros H; inversion H; discriminate.
Qed.

Lemma thrown_message_shown (message : string) (e : thrown) :
  message <> "" ->
  ConnectionModal.first_detail_or (Some [message_or "Unknown error occurred" e]) message
    <> "".
Proof.
  intros Hm. destruct e as [[|c m]|]; simpl; [exact Hm | discriminate | discriminate].
Qed.

(** X17.  The connection form, submitted to the check-connection route.
    When the handler is over the form is no longer connecting.  The store
    becomes connected, holding exactly the submitted URL, user name and
    password, and no error is shown, when the route answered 200, that
    is when the credentials pass the schema and the driver was created,
    verified and closed without a throw; in every other case the store
    is left as it was and a non-empty error message is shown. *)
Theorem connection_form_end_to_end (N : CheckConnection.Double)
  (data : ConnectionModal.ConnectionFormData) (s : CheckConnection.St N)
  (st : Neo4jConnection.Store) (ui : ConnectionModal.State) :
  let url := ConnectionModal.connectionUrl data in
  let user := ConnectionModal.username data in
  let pass := ConnectionModal.password data in
  let body :=
    CheckConnection.Object (CheckConnection.Text url) (CheckConnection.Text user)
      (CheckConnection.Text pass) in
  let verified :=
    CheckConnection.test CheckConnection.url_pattern url = true /\
    user <> "" /\ pass <> "" /\
    CheckConnection.calls N (inr body) s =
      [(CheckConnection.NewDriver url user pass, None);
       (CheckConnection.VerifyConnectivity, None);
       (CheckConnection.CloseDriver, None)] in
  let result := ConnectionModal.onSubmit data (ConnectionModal.fetch N data s) st ui in
  ConnectionModal.isConnecting (snd result) = false /\
  (verified ->
   fst result = Neo4jConnection.mkStore url user pass true /\
   ConnectionModal.error (snd result) = "") /\
  (~ verified ->
   fst result = st /\ ConnectionModal.error (snd result) <> "").
Proof.
  cbv zeta. split; [reflexivity|].
  unfold ConnectionModal.onSubmit, ConnectionModal.fetch, CheckConnection.answer,
    CheckConnection.calls, CheckConnection.POST.
  unfold CheckConnection.try_finally, CheckConnection.try_catch,
    CheckConnection.bind, CheckConnection.perform, CheckConnection.set_driver,
    CheckConnection.get_driver, CheckConnection.when, CheckConnection.return_,
    CheckConnection.request_json, CheckConnection.ret.
  set (u := ConnectionModal.connectionUrl data).
  set (n := ConnectionModal.username data).
  set (p := ConnectionModal.password data).
  destruct (CheckConnection.safeParse
              (CheckConnection.Object (CheckConnection.Text u) (CheckConnection.Text n)
                 (CheckConnection.Text p))) as [issues|cred] eqn:Hparse.
  - cbn [fst snd CheckConnection.log CheckConnection.status CheckConnection.body
           ConnectionModal.ok Nat.leb andb ConnectionModal.attempt
           ConnectionModal.error ConnectionModal.isConnecting message_or].
    split.
    + intros (_ & _ & _ & H). discriminate.
    + intros _. split; [reflexivity|]. apply (schema_issue_shown u n p issues Hparse).
  - apply safeParse_strings in Hparse.
    destruct Hparse as (Hu & Hn & Hp & ->).
    cbn [CheckConnection.connectionUrl CheckConnection.username CheckConnection.password
           CheckConnection.store CheckConnection.log CheckConnection.driver].
    destruct (CheckConnection.respond N (CheckConnection.NewDriver u n p) s)
      as [[e|] s1].
    + cbn [fst snd CheckConnection.log CheckConnection.status CheckConnection.body
             ConnectionModal.ok Nat.leb andb ConnectionModal.attempt
             ConnectionModal.error ConnectionModal.isConnecting message_or].
      split.
      * intros (_ & _ & _ & H). discriminate.
      * intros _. split; [reflexivity|]. now apply thrown_message_shown.
    + cbn [CheckConnection.store CheckConnection.log CheckConnection.driver].
      destruct (CheckConnection.respond N CheckConnection.VerifyConnectivity s1)
        as [[e|] s2];
        cbn [CheckConnection.store CheckConnection.log CheckConnection.driver];
        destruct (CheckConnection.respond N CheckConnection.CloseDriver s2)
          as [[e'|] s3];
        cbn [fst snd CheckConnection.log CheckConnection.status CheckConnection.body
               ConnectionModal.ok Nat.leb andb ConnectionModal.attempt
               ConnectionModal.error ConnectionModal.isConnecting message_or List.app];
        (split;
         [ try (intros (_ & _ & _ & H); discriminate); intros _; split; reflexivity
         | try (intros _; split; [reflexivity|]; now apply thrown_message_shown);
           intros H; destruct H; auto ]).
Qed.


(* ------------------------------------------------------------------ *)
(** * The upload page

    The handlers of [Home] ([src/unnamed/part_002]): the two submit
    handlers, which read the stream of an upload route line by line, and
    the handlers of the tabs and of the progress modal.

    Boundaries of the model.
    - [JSON.parse] and [String.prototype.trim] are the platform's: they
      are parameters here.  A parsed line is seen through the fields the
      handler reads, with the types the routes give them.
    - The reader yields the text of the response in chunks; text is a
      byte string and a line ends at the byte 10.
    - The state is the one reached when the handler and the timer it
      starts are over; the closure of a handler reads the cells as they
      were when the handler was created. *)

Module Home.

(** ["idle" | "uploading" | "success" | "error"] *)
Inductive UploadStatus : Type := Idle | Uploading | Success | Error.

(** ["nodes" | "relationships"] *)
Inductive UploadType : Type := Nodes | Relationships.

(** [UploadedFile] and [FilePreview], as far as the handlers look. *)
Record UploadedFile : Type := mkUploadedFile {
  id : string;
  preview : option string
}.

Record FilePreview : Type := mkFilePreview {
  fileName : string;
  headers : list string;
  rows : list (list string)
}.

(** The [useState] cells of [Home] and the two [useDisclosure] flags. *)
Record State : Type := mkState {
  nodeFiles : list UploadedFile;
  relationshipFiles : list UploadedFile;
  nodePreview : list FilePreview;
  relationshipPreview : list FilePreview;
  selectedTab : string;
  pendingTab : option string;
  isOpen : bool;
  isProgressOpen : bool;
  uploadStatus : UploadStatus;
  progress : Q;
  uploadType : UploadType;
  uploadError : string
}.

Definition setNodeFiles (v : list UploadedFile) (st : State) : State :=
  mkState v (relationshipFiles st) (nodePreview st) (relationshipPreview st)
    (selectedTab st) (pendingTab st) (isOpen st) (isProgressOpen st) (uploadStatus st)
    (progress st) (uploadType st) (uploadError st).

Definition setRelationshipFiles (v : list UploadedFile) (st : State) : State :=
  mkState (nodeFiles st) v (nodePreview st) (relationshipPreview st)
    (selectedTab st) (pendingTab st) (isOpen st) (isProgressOpen st) (uploadStatus st)
    (progress st) (uploadType st) (uploadError st).

Definition setNodePreview (v : list FilePreview) (st : State) : State :=
  mkState (nodeFiles st) (relationshipFiles st) v (relationshipPreview st)
    (selectedTab st) (pendingTab st) (isOpen st) (isProgressOpen st) (uploadStatus st)
    (progress st) (uploadType st) (uploadError st).

Definition setRelationshipPreview (v : list FilePreview) (st : State) : State :=
  mkState (nodeFiles st) (relationshipFiles st) (nodePreview st) v
    (selectedTab st) (pendingTab st) (isOpen st) (isProgressOpen st) (uploadStatus st)
    (progress st) (uploadType st) (uploadError st).

Definition setSelectedTab (v : string) (st : State) : State :=
  mkState (nodeFiles st) (relationshipFiles st) (nodePreview st) (relationshipPreview st)
    v (pendingTab st) (isOpen st) (isProgressOpen st) (uploadStatus st)
    (progress st) (uploadType st) (uploadError st).

Definition setPendingTab (v : option string) (st : State) : State :=
  mkState (nodeFiles st) (relationshipFiles st) (nodePreview st) (relationshipPreview st)
    (selectedTab st) v (isOpen st) (isProgressOpen st) (uploadStatus st)
    (progress st) (uploadType st) (uploadError st).

(** [onOpen()] and [onClose()] of the confirmation modal. *)
Definition setIsOpen (v : bool) (st : State) : State :=
  mkState (nodeFiles st) (relationshipFiles st) (nodePreview st) (relationshipPreview st)
    (selectedTab st) (pendingTab st) v (isProgressOpen st) (uploadStatus st)
    (progress st) (uploadType st) (uploadError st).

(** [onProgressOpen()] and the closing of the progress modal. *)
Definition setIsProgressOpen (v : bool) (st : State) : State :=
  mkState (nodeFiles st) (relationshipFiles st) (nodePreview st) (relationshipPreview st)
    (selectedTab st) (pendingTab st) (isOpen st) v (uploadStatus st)
    (progress st) (uploadType st) (uploadError st).

Definition setUploadStatus (v : UploadStatus) (st : State) : State :=
  mkState (nodeFiles st) (relationshipFiles st) (nodePreview st) (relationshipPreview st)
    (selectedTab st) (pendingTab st) (isOpen st) (isProgressOpen st) v
    (progress st) (uploadType st) (uploadError st).

Definition setProgress (v : Q) (st : State) : State :=
  mkState (nodeFiles st) (relationshipFiles st) (nodePreview st) (relationshipPreview st)
    (selectedTab st) (pendingTab st) (isOpen st) (isProgressOpen st) (uploadStatus st)
    v (uploadType st) (uploadError st).

Definition setUploadType (v : UploadType) (st : State) : State :=
  mkState (nodeFiles st) (relationshipFiles st) (nodePreview st) (relationshipPreview st)
    (selectedTab st) (pendingTab st) (isOpen st) (isProgressOpen st) (uploadStatus st)
    (progress st) v (uploadError st).

Definition setUploadError (v : string) (st : State) : State :=
  mkState (nodeFiles st) (relationshipFiles st) (nodePreview st) (relationshipPreview st)
    (selectedTab st) (pendingTab st) (isOpen st) (isProgressOpen st) (uploadStatus st)
    (progress st) (uploadType st) v.

(** The cells when [Home] is mounted. *)
Definition initial : State :=
  mkState [] [] [] [] "nodes" None false false Idle 0 Nodes "".

(** *** Reading the stream *)

(** What a handler can catch: an [Error], a string, another object (given
    by its [JSON.stringify]), or anything else. *)
Inductive raised : Type :=
| AnError (message : string)
| AString (s : string)
| AnObject (json : string)
| Other.

(** [data.error.error] of a line: [message] and [details], each possibly
    [undefined]. *)
Record ErrorData : Type := mkErrorData {
  message : option string;
  details : option (list string)
}.

(** What [JSON.parse(line)] gives: a [SyntaxError], [null], or a value
    whose [progress] is defined or not, whose [error] is truthy or not and
    whose [data] is truthy or not. *)
Inductive parsed : Type :=
| Unparsable
| Null
| Value (progress : option Q) (error : option ErrorData) (data : bool).

(** The line feed. *)
Definition LF : ascii := ascii_of_nat 10.

(** [text.split("\n")] *)
Fixpoint split (text : string) : list string :=
  match text with
  | EmptyString => [""]
  | String c text' =>
      if Ascii.eqb c LF then "" :: split text'
      else match split text' with
           | [] => [String c ""]
           | line :: lines => String c line :: lines
           end
  end.

(** The message thrown for an error line:
    [errorData?.details
       ? `${errorData.message}\n${errorData.details.join("\n")}`
       : errorData?.message || "Unknown error"]. *)
Definition errorMessage (errorData : ErrorData) : string :=
  match details errorData with
  | Some ds =>
      match message errorData with
      | Some m => m
      | None => "undefined"
      end +++ nl +++ join nl ds
  | None =>
      match message errorData with
      | Some (String c m) => String c m
      | _ => "Unknown error"
      end
  end.

(** The [catch] block of the handlers: the message shown. *)
Definition caughtMessage (e : raised) : string :=
  match e with
  | AnError m => m
  | AString s => s
  | AnObject json => json
  | Other => "Upload failed"
  end.

Section Reader.

(** [JSON.parse] and [(line) => !line.trim()]. *)
Variable JSON_parse : string -> parsed.
Variable blank : string -> bool.

(** The completion of a statement of the handler: normal, or a throw. *)
Definition step : Type := (option raised * State)%type.

(** The body of the loop over the lines of a chunk. *)
Definition handle_line (line : string) (st : State) : step :=
  if blank line then (None, st)
  else
    match JSON_parse line with
    | Unparsable => (None, st)
    | Null =>
        (Some (AnError "Cannot read properties of null (reading 'progress')"), st)
    | Value progress error data =>
        let st :=
          match progress with
          | Some p => setProgress p st
          | None => st
          end in
        match error with
        | Some errorData => (Some (AnError (errorMessage errorData)), st)
        | None =>
            if data then (None, setUploadStatus Success (setProgress 100 st))
            else (None, st)
        end
    end.

(** [for (const line of lines) { ... }] *)
Fixpoint handle_lines (lines : list string) (st : State) : step :=
  match lines with
  | [] => (None, st)
  | line :: lines' =>
      match handle_line line st with
      | (None, st') => handle_lines lines' st'
      | thrown => thrown
      end
  end.

(** The [while (true)] loop, over the chunks read before [done]:
    [buffer += chunk; lines = buffer.split("\n"); buffer = lines.pop() || ""]. *)
Fixpoint read (buffer : string) (chunks : list string) (st : State) : step :=
  match chunks with
  | [] => (None, st)
  | chunk :: chunks' =>
      let lines := split (buffer +++ chunk) in
      match handle_lines (removelast lines) st with
      | (None, st') => read (last lines "") chunks' st'
      | thrown => thrown
      end
  end.

(** The body of a response: the chunks read, and what [reader.read()]
    throws after them when the stream fails. *)
Record Body : Type := mkBody {
  chunks : list string;
  failure : option raised
}.

(** What [await fetch(...)] gives. *)
Inductive fetched : Type :=
| Rejected (e : raised)
| Responded (ok : bool) (body : option Body).

(** The [try] block of a submit handler.  [captured] is [uploadStatus]
    as the closure of the handler holds it. *)
Definition receive (captured : UploadStatus) (response : fetched) (st : State) : step :=
  match response with
  | Rejected e => (Some e, st)
  | Responded false _ => (Some (AnError "Upload failed"), st)
  | Responded true None => (Some (AnError "No response body"), st)
  | Responded true (Some body) =>
      match read "" (chunks body) st with
      | (None, st') =>
          match failure body with
          | Some e => (Some e, st')
          | None =>
              match captured with
              | Uploading =>
                  (Some (AnError "Upload completed but no response received"), st')
              | _ => (None, st')
              end
          end
      | thrown => thrown
      end
  end.

(** [handleSubmitNodes] ([type] is [Nodes]) and
    [handleSubmitRelationships] ([type] is [Relationships]). *)
Definition handleSubmit (type : UploadType) (response : fetched) (st : State) : State :=
  let captured := uploadStatus st in
  let st := setUploadType type st in
  let st := setUploadStatus Uploading st in
  let st := setProgress 0 st in
  let st := setUploadError "" st in
  let st := setIsProgressOpen true st in
  match receive captured response st with
  | (None, st') => st'
  | (Some e, st') =>
      let st' := setUploadError (caughtMessage e) st' in
      let st' := setProgress 0 st' in
      setUploadStatus Error st'
  end.

End Reader.

End Home.

(** *** Lines and chunks *)

(** The text of a list of chunks. *)
Definition text_of (chunks : list string) : string := fold_right String.append "" chunks.

Lemma append_empty (s : string) : s +++ "" = s.
Proof. induction s as [|c s IH]; simpl; [reflexivity | now rewrite IH]. Qed.

Lemma append_assoc (a b c : string) : (a +++ b) +++ c = a +++ b +++ c.
Proof. induction a as [|x a IH]; simpl; [reflexivity | now rewrite IH]. Qed.

Lemma split_nonempty (text : string) : Home.split text <> [].
Proof.
  destruct text as [|c text]; simpl; [discriminate|].
  destruct (Ascii.eqb c Home.LF); [discriminate|].
  destruct (Home.split text); discriminate.
Qed.

Lemma removelast_cons (A : Type) (x : A) (xs : list A) :
  xs <> [] -> removelast (x :: xs) = x :: removelast xs.
Proof. destruct xs; [congruence | reflexivity]. Qed.

Lemma last_cons (A : Type) (x d : A) (xs : list A) :
  xs <> [] -> last (x :: xs) d = last xs d.
Proof. destruct xs; [congruence | reflexivity]. Qed.

(** Splitting a text in two parts: the lines of the first part but the
    last, then the lines of what remains. *)
Lemma split_app (x y : string) :
  Home.split (x +++ y) =
  removelast (Home.split x) ++ Home.split (last (Home.split x) "" +++ y).
Proof.
  induction x as [|c x IH]; [reflexivity|].
  cbn [String.append Home.split].
  destruct (Ascii.eqb c Home.LF) eqn:Ec.
  - rewrite removelast_cons, last_cons by apply split_nonempty.
    rewrite IH. reflexivity.
  - rewrite IH.
    destruct (Home.split x) as [|line lines] eqn:Ex; [now destruct (split_nonempty x)|].
    destruct lines as [|line' lines].
    + cbn [removelast last List.app String.append Home.split]. rewrite Ec.
      reflexivity.
    + rewrite removelast_cons by discriminate.
      rewrite (removelast_cons _ (String c line)) by discriminate.
      rewrite !last_cons by discriminate. reflexivity.
Qed.

Lemma removelast_split_app (x y : string) :
  removelast (Home.split (x +++ y)) =
  removelast (Home.split x) ++ removelast (Home.split (last (Home.split x) "" +++ y)).
Proof.
  rewrite split_app. apply removelast_app, split_nonempty.
Qed.

Lemma last_of_app (A : Type) (xs ys : list A) (d : A) :
  ys <> [] -> last (xs ++ ys) d = last ys d.
Proof.
  intros Hys. induction xs as [|x xs IH]; [reflexivity|].
  cbn [List.app]. rewrite last_cons; [exact IH|].
  destruct xs; [exact Hys | discriminate].
Qed.

Lemma last_split_app (x y : string) :
  last (Home.split (x +++ y)) "" =
  last (Home.split (last (Home.split x) "" +++ y)) "".
Proof.
  rewrite split_app. apply last_of_app, split_nonempty.
Qed.

(** What is left in the buffer holds no line feed. *)
Lemma split_last (x : string) :
  Home.split (last (Home.split x) "") = [last (Home.split x) ""].
Proof.
  induction x as [|c x IH]; [reflexivity|].
  cbn [Home.split]. destruct (Ascii.eqb c Home.LF) eqn:Ec.
  - rewrite last_cons by apply split_nonempty. exact IH.
  - destruct (Home.split x) as [|line lines] eqn:Ex; [now destruct (split_nonempty x)|].
    destruct lines as [|line' lines].
    + cbn [last] in *. cbn [Home.split]. rewrite Ec, IH. reflexivity.
    + rewrite !last_cons in * by discriminate. exact IH.
Qed.

Section Lines.

Variable JSON_parse : string -> Home.parsed.
Variable blank : string -> bool.

Lemma handle_lines_app (lines lines' : list string) (st : Home.State) :
  Home.handle_lines JSON_parse blank (lines ++ lines') st =
  match Home.handle_lines JSON_parse blank lines st with
  | (None, st') => Home.handle_lines JSON_parse blank lines' st'
  | thrown => thrown
  end.
Proof.
  revert st. induction lines as [|line lines IH]; intros st; [reflexivity|].
  cbn [List.app Home.handle_lines].
  destruct (Home.handle_line JSON_parse blank line st) as [[e|] st']; [reflexivity|].
  apply IH.
Qed.

Lemma read_lines (chunks : list string) :
  forall buffer st,
    Home.split buffer = [buffer] ->
    Home.read JSON_parse blank buffer chunks st =
    Home.handle_lines JSON_parse blank
      (removelast (Home.split (buffer +++ text_of chunks))) st.
Proof.
  induction chunks as [|chunk chunks IH]; intros buffer st Hbuffer.
  - cbn [text_of fold_right Home.read]. rewrite append_empty, Hbuffer. reflexivity.
  - cbn [text_of fold_right Home.read]. fold (text_of chunks).
    rewrite <- append_assoc.
    rewrite (removelast_split_app (buffer +++ chunk) (text_of chunks)), handle_lines_app.
    destruct (Home.handle_lines JSON_parse blank
                (removelast (Home.split (buffer +++ chunk))) st) as [[e|] st'];
      [reflexivity|].
    apply IH, split_last.
Qed.

End Lines.

(** X18.  The submit handlers handle exactly the lines of the response
    that end with a line feed, in the order of the text and however the
    reader cuts the text into chunks; what follows the last line feed is
    never handled.  Hence two responses with the same text leave the page
    in the same state. *)
Theorem stream_lines_whatever_the_chunks (JSON_parse : string -> Home.parsed)
  (blank : string -> bool) (chunks : list string) (st : Home.State) :
  Home.read JSON_parse blank "" chunks st =
    Home.handle_lines JSON_parse blank (removelast (Home.split (text_of chunks))) st /\
  (forall type failure chunks',
     text_of chunks' = text_of chunks ->
     Home.handleSubmit JSON_parse blank type
       (Home.Responded true (Some (Home.mkBody chunks' failure))) st =
     Home.handleSubmit JSON_parse blank type
       (Home.Responded true (Some (Home.mkBody chunks failure))) st).
Proof.
  split.
  - apply (read_lines JSON_parse blank chunks "" st). reflexivity.
  - intros type failure chunks' Htext.
    unfold Home.handleSubmit, Home.receive. cbn [Home.chunks Home.failure].
    rewrite !(read_lines JSON_parse blank _ "") by reflexivity.
    cbn [String.append]. rewrite Htext. reflexivity.
Qed.

(** *** The page at the end of an upload *)

(** A line of the routes, as the handler reads it: [progress] is defined
    in a progress object only, [error] in an error object only, [data] in
    the summary only. *)
Definition wire_of (ev : event) : Home.parsed :=
  match ev with
  | Progress p _ => Home.Value (Some p) None false
  | ErrorEvent m d => Home.Value None (Some (Home.mkErrorData (Some m) d)) false
  | DataEvent _ _ _ => Home.Value None None true
  end.

(** The text of a stream: [JSON.stringify(ev) + "\n"] for each event. *)
Definition response_text (stringify : event -> string) (events : list event) : string :=
  fold_right (fun ev text => stringify ev +++ nl +++ text) "" events.

(** [JSON.parse] gives back what [JSON.stringify] was given, and a
    stringified event holds no line feed and is not blank. *)
Definition faithful (stringify : event -> string) (JSON_parse : string -> Home.parsed)
  (blank : string -> bool) (ev : event) : Prop :=
  JSON_parse (stringify ev) = wire_of ev /\
  blank (stringify ev) = false /\
  Home.split (stringify ev) = [stringify ev].

(** The page after the progress events [es]. *)
Definition after_progress (es : list event) (st : Home.State) : Home.State :=
  fold_left (fun st ev =>
               match ev with
               | Progress p _ => Home.setProgress p st
               | _ => st
               end) es st.

Lemma split_line (s rest : string) :
  Home.split s = [s] -> Home.split (s +++ nl +++ rest) = s :: Home.split rest.
Proof.
  induction s as [|c s IH]; intros Hs; [reflexivity|].
  cbn [Home.split String.append] in *.
  destruct (Ascii.eqb c Home.LF).
  - destruct (Home.split s); discriminate.
  - destruct (Home.split s) as [|line lines] eqn:E; [now destruct (split_nonempty s)|].
    inversion Hs; subst. rewrite IH by reflexivity. reflexivity.
Qed.

Lemma lines_of_response (stringify : event -> string) (events : list event) :
  Forall (fun ev => Home.split (stringify ev) = [stringify ev]) events ->
  removelast (Home.split (response_text stringify events)) = map stringify events.
Proof.
  induction 1 as [|ev events Hev Hevents IH]; [reflexivity|].
  cbn [response_text fold_right map]. fold (response_text stringify events).
  rewrite split_line by exact Hev.
  rewrite removelast_cons by apply split_nonempty. now rewrite IH.
Qed.

Lemma after_progress_cells (es : list event) :
  forall st,
    Home.uploadStatus (after_progress es st) = Home.uploadStatus st /\
    Home.uploadError (after_progress es st) = Home.uploadError st /\
    Home.uploadType (after_progress es st) = Home.uploadType st /\
    Home.isProgressOpen (after_progress es st) = Home.isProgressOpen st /\
    Home.nodeFiles (after_progress es st) = Home.nodeFiles st /\
    Home.relationshipFiles (after_progress es st) = Home.relationshipFiles st.
Proof.
  induction es as [|ev es IH]; intros st; [repeat split|].
  change (after_progress (ev :: es) st)
    with (after_progress es match ev with
                            | Progress p _ => Home.setProgress p st
                            | _ => st
                            end).
  destruct ev as [p m|m d|f t m]; [|apply IH|apply IH].
  destruct (IH (Home.setProgress p st)) as (H1 & H2 & H3 & H4 & H5 & H6).
  rewrite H1, H2, H3, H4, H5, H6. repeat split.
Qed.

Section Shown.

Variable stringify : event -> string.
Variable JSON_parse : string -> Home.parsed.
Variable blank : string -> bool.

Lemma progress_lines (es : list event) :
  terminals es = [] ->
  Forall (faithful stringify JSON_parse blank) es ->
  forall st,
    Home.handle_lines JSON_parse blank (map stringify es) st =
    (None, after_progress es st).
Proof.
  induction es as [|ev es IH]; intros Ht Hes st; [reflexivity|].
  inversion Hes as [|? ? (Hparse & Hblank & _) Hes']; subst.
  change (after_progress (ev :: es) st)
    with (after_progress es match ev with
                            | Progress p _ => Home.setProgress p st
                            | _ => st
                            end).
  cbn [map Home.handle_lines].
  unfold Home.handle_line. rewrite Hblank, Hparse.
  destruct ev as [p m|m d|f t m]; cbn in Ht; try discriminate.
  cbn [wire_of]. apply IH; auto.
Qed.

(** The page after a submit handler read the whole stream [es ++ [t]] of
    a finished run. *)
Lemma shown_after_run (type : Home.UploadType) (es : list event) (t : event)
  (chunks : list string) (st : Home.State) :
  terminals es = [] ->
  is_terminal t = true ->
  Forall (faithful stringify JSON_parse blank) (es ++ [t]) ->
  Home.uploadStatus st <> Home.Uploading ->
  text_of chunks = response_text stringify (es ++ [t]) ->
  let st' :=
    Home.handleSubmit JSON_parse blank type
      (Home.Responded true (Some (Home.mkBody chunks None))) st in
  match t with
  | Progress _ _ => False
  | DataEvent _ _ _ =>
      Home.uploadStatus st' = Home.Success /\
      Home.progress st' = 100%Q /\
      Home.uploadError st' = ""
  | ErrorEvent m d =>
      Home.uploadStatus st' = Home.Error /\
      Home.progress st' = 0%Q /\
      Home.uploadError st' = Home.errorMessage (Home.mkErrorData (Some m) d)
  end /\
  Home.uploadType st' = type /\
  Home.isProgressOpen st' = true /\
  Home.nodeFiles st' = Home.nodeFiles st /\
  Home.relationshipFiles st' = Home.relationshipFiles st.
Proof.
  intros Hes Ht Hfaithful Hcaptured Htext. cbv zeta.
  unfold Home.handleSubmit, Home.receive. cbn [Home.chunks Home.failure].
  rewrite (read_lines JSON_parse blank chunks "") by reflexivity.
  cbn [String.append]. rewrite Htext.
  rewrite lines_of_response
    by (eapply Forall_impl; [|exact Hfaithful]; intros ev (_ & _ & H); exact H).
  rewrite map_app, handle_lines_app.
  apply Forall_app in Hfaithful. destruct Hfaithful as [Hfes Hft].
  rewrite (progress_lines es Hes Hfes).
  inversion Hft as [|? ? (Hparse & Hblank & _) _]; subst.
  cbn [map Home.handle_lines]. unfold Home.handle_line. rewrite Hblank, Hparse.
  set (st0 := Home.setIsProgressOpen true _).
  destruct (after_progress_cells es st0) as (H1 & H2 & H3 & H4 & H5 & H6).
  destruct t as [p m|m d|f n m]; [discriminate| |]; cbn [wire_of].
  - cbn. rewrite H3, H4, H5, H6. repeat split.
  - cbn [Home.uploadStatus Home.setUploadType Home.setUploadStatus Home.setProgress
           Home.setUploadError Home.setIsProgressOpen].
    destruct (Home.uploadStatus st) eqn:E; try congruence;
      cbn; rewrite H2, H3, H4, H5, H6; repeat split.
Qed.

End Shown.

(** The route a submit handler posts to. *)
Definition run_of {D : StoreDouble} (type : Home.UploadType) (files : list File)
  (conn : Connection) (s : St D) : world D :=
  match type with
  | Home.Nodes => run_nodes files conn s
  | Home.Relationships => run_relationships files conn s
  end.


(** A codec for one stream, to run the handlers on: an event is written
    as its kind and its message, and read back by looking it up among the
    events of the stream; a line is blank when it is empty. *)
Definition sample_stringify (ev : event) : string :=
  match ev with
  | Progress _ m => "progress " +++ m
  | ErrorEvent m _ => "error " +++ m
  | DataEvent _ _ m => "data " +++ m
  end.

Definition sample_parse (events : list event) (line : string) : Home.parsed :=
  match find (fun ev => String.eqb (sample_stringify ev) line) events with
  | Some ev => wire_of ev
  | None => Home.Unparsable
  end.

Definition sample_blank (line : string) : bool := String.eqb line "".

(** The stream of the upload of [people.csv]. *)
Definition people_stream : list event :=
  Eval vm_compute in
    queue (run_nodes (D := Graph.store) [people_csv] sample_connection Graph.empty).

Lemma people_stream_faithful :
  Forall (faithful sample_stringify (sample_parse people_stream) sample_blank)
    people_stream.
Proof.
  unfold people_stream.
  repeat (constructor; [vm_compute; repeat split; reflexivity|]). constructor.
Qed.


